(** * Matrix_Computations: loop-ordering and blocked GEMM kernels, gaxpy

    A shallow embedding of the kernels of the repository and the proofs
    of the properties its specification states about them.

    Modelling choices, all taken from the source:

    - a matrix is the triple (rows, cols, buffer) of [Matrix]
      (C: [rows], [cols], [data]; C++: [m], [n], [data]); the buffer is
      a flat row-major array, element (i,j) at offset [i*cols + j];
    - buffers live in a store ([gmap loc (list R)]) and the kernels
      receive references, as the C pointers and the C++ references do:
      passing the same matrix twice is expressible, and the kernels
      write through the reference of the accumulator only;
    - every element access is checked: an access outside
      [0 <= i < rows], [0 <= j < cols], or outside the buffer, yields
      [Fault] (the source has no check: there it is undefined behaviour);
    - every [for] loop is run with fuel, [Timeout] being the outcome of
      a loop that has not finished when the fuel is spent;
    - [int] values are integers of [Z].  Signed overflow is undefined
      behaviour in C and C++: where the source adds or multiplies
      [int]s that no buffer size bounds (the tile index and the tile
      bounds of the blocked kernels, the product rows*cols of the
      constructors, the counters of the test suite), a result outside
      [INT_MIN, INT_MAX] yields [Fault].  The indices of the other
      loops stay below a dimension, and the offsets [i*cols + j] below
      the length of a buffer;
    - a [double*] into a buffer and a [double&] to one of its elements
      are a [pointer]: the buffer and a position in it;
    - the scalars are the elements of a type [R] with an addition and a
      multiplication.  The kernels are defined for any such [R]; the
      theorems that compare summation orders assume that addition is
      associative and commutative with neutral element [Rzero], which
      is arithmetic without rounding. *)

From stdpp Require Import base gmap list strings.
From Stdlib Require Import ZArith QArith Lia.

Open Scope Z_scope.

(** ** Outcomes and the state-and-error monad *)

Inductive outcome (T : Type) : Type :=
| Done (x : T)
| Fault
| Timeout.

Arguments Done {T} x.
Arguments Fault {T}.
Arguments Timeout {T}.

Definition loc := positive.

Abbreviation heap R := (gmap loc (list R)).

Definition M (R T : Type) : Type := heap R → outcome (T * heap R).

Definition ret {R T} (x : T) : M R T := λ h, Done (x, h).

Definition bind {R T U} (c : M R T) (k : T → M R U) : M R U :=
  λ h, match c h with
       | Done (x, h') => k x h'
       | Fault => Fault
       | Timeout => Timeout
       end.

Declare Scope mach_scope.
Delimit Scope mach_scope with mach.
Notation "x <- c ;; k" := (bind c (λ x, k))
  (at level 100, c at next level, right associativity) : mach_scope.
Notation "c ;; k" := (bind c (λ _, k))
  (at level 100, right associativity) : mach_scope.
Open Scope mach_scope.

(** The C loop [for (int i = init; i < hi; i += step) body(i)]. *)
Fixpoint for_loop {R} (fuel : nat) (i hi step : Z) (body : Z → M R unit) : M R unit :=
  match fuel with
  | O => λ _, Timeout
  | S fuel' =>
      if decide (i < hi)
      then body i ;; for_loop fuel' (i + step) hi step body
      else ret tt
  end.

(** The same loop around a local variable that the body updates:
    [T acc = init; for (...) acc = body(i, acc); return acc]. *)
Fixpoint for_loop_acc {R T} (fuel : nat) (i hi step : Z)
    (body : Z → T → M R T) (acc : T) : M R T :=
  match fuel with
  | O => λ _, Timeout
  | S fuel' =>
      if decide (i < hi)
      then acc' <- body i acc ;; for_loop_acc fuel' (i + step) hi step body acc'
      else ret acc
  end.

(** The loop of a function that may [return] from inside it: the body
    answers [Some v] when it returns [v], and the loop stops there. *)
Fixpoint for_loop_ret {R T} (fuel : nat) (i hi step : Z)
    (body : Z → M R (option T)) : M R (option T) :=
  match fuel with
  | O => λ _, Timeout
  | S fuel' =>
      if decide (i < hi)
      then r <- body i ;;
           match r with
           | Some v => ret (Some v)
           | None => for_loop_ret fuel' (i + step) hi step body
           end
      else ret None
  end.

(** The largest and the smallest value of an [int]. *)
Definition INT_MAX : Z := 2 ^ 31 - 1.
Definition INT_MIN : Z := - 2 ^ 31.

(** The sum and the product of two [int]s.  A result outside
    [INT_MIN, INT_MAX] is signed overflow, which is undefined behaviour:
    the model faults there, as it does at an access out of range. *)
Definition int_add {R} (a b : Z) : M R Z := λ h,
  if decide (INT_MIN ≤ a + b ≤ INT_MAX) then Done (a + b, h) else Fault.

Definition int_mul {R} (a b : Z) : M R Z := λ h,
  if decide (INT_MIN ≤ a * b ≤ INT_MAX) then Done (a * b, h) else Fault.

(** The C loop [for (int i = init; i < hi; i += step) body(i)] whose
    step is a variable: [i += step] is a sum of two [int]s.  (With the
    step 1 of [for_loop] the index stays below [hi], an [int].) *)
Fixpoint for_loop_int {R} (fuel : nat) (i hi step : Z) (body : Z → M R unit)
    : M R unit :=
  match fuel with
  | O => λ _, Timeout
  | S fuel' =>
      if decide (i < hi)
      then body i ;; i' <- int_add i step ;; for_loop_int fuel' i' hi step body
      else ret tt
  end.

(** ** The dense matrix *)

Record Matrix : Type := { rows : Z; cols : Z; data : loc }.

(** Row-major indexing: [i * n + j] ([Matrix::operator()], [MAT]). *)
Definition offset (A : Matrix) (i j : Z) : Z := i * cols A + j.

Definition in_range (A : Matrix) (i j : Z) : Prop :=
  0 ≤ i < rows A ∧ 0 ≤ j < cols A.

#[global] Instance in_range_dec A i j : Decision (in_range A i j).
Proof. unfold in_range. apply _. Defined.

Section Kernels.
Context {R : Type}.
Variables (Rzero : R) (Radd Rmul : R → R → R).

(** *** Element access *)

(** Reading [A(i,j)] / [MAT(A,i,j)]. *)
Definition elem_get (A : Matrix) (i j : Z) : M R R := λ h,
  if decide (in_range A i j) then
    match h !! data A with
    | Some buf =>
        match buf !! Z.to_nat (offset A i j) with
        | Some v => Done (v, h)
        | None => Fault
        end
    | None => Fault
    end
  else Fault.

(** Writing [A(i,j) = v] / [MAT(A,i,j) = v]. *)
Definition elem_set (A : Matrix) (i j : Z) (v : R) : M R unit := λ h,
  if decide (in_range A i j) then
    match h !! data A with
    | Some buf =>
        if decide (Z.to_nat (offset A i j) < length buf)%nat
        then Done (tt, <[data A := <[Z.to_nat (offset A i j) := v]> buf]> h)
        else Fault
    | None => Fault
    end
  else Fault.

(** Reading [x[i]] of a [std::vector<double>] or a [double*]. *)
Definition vec_get (x : loc) (i : Z) : M R R := λ h,
  if decide (0 ≤ i) then
    match h !! x with
    | Some buf =>
        match buf !! Z.to_nat i with
        | Some v => Done (v, h)
        | None => Fault
        end
    | None => Fault
    end
  else Fault.

(** Writing [y[i] = v]. *)
Definition vec_set (y : loc) (i : Z) (v : R) : M R unit := λ h,
  if decide (0 ≤ i) then
    match h !! y with
    | Some buf =>
        if decide (Z.to_nat i < length buf)%nat
        then Done (tt, <[y := <[Z.to_nat i := v]> buf]> h)
        else Fault
    | None => Fault
    end
  else Fault.

(** A [double*] into a buffer or a [double&] to one of its elements:
    the buffer and a position in it. *)
Definition pointer : Type := loc * Z.

(** [y[i]] bound to a [double&]: the element has to exist. *)
Definition vec_ref (y : loc) (i : Z) : M R pointer := λ h,
  if decide (0 ≤ i) then
    match h !! y with
    | Some buf =>
        if decide (Z.to_nat i < length buf)%nat then Done ((y, i), h) else Fault
    | None => Fault
    end
  else Fault.

(** [&MAT(A,i,j)]: a position of the buffer, or the one past its end. *)
Definition elem_addr (A : Matrix) (i j : Z) : M R pointer := λ h,
  if decide (0 ≤ offset A i j) then
    match h !! data A with
    | Some buf =>
        if decide (Z.to_nat (offset A i j) ≤ length buf)%nat
        then Done ((data A, offset A i j), h)
        else Fault
    | None => Fault
    end
  else Fault.

(** Reading and writing [p[i]]; for a reference, [i] is 0. *)
Definition ptr_get (p : pointer) (i : Z) : M R R := vec_get p.1 (p.2 + i).

Definition ptr_set (p : pointer) (i : Z) (v : R) : M R unit :=
  vec_set p.1 (p.2 + i) v.

(** The statement [C(i,j) += A(i,k) * B(k,j)]. *)
Definition madd (A B C : Matrix) (i j k : Z) : M R unit :=
  a <- elem_get A i k ;;
  b <- elem_get B k j ;;
  c <- elem_get C i j ;;
  elem_set C i j (Radd c (Rmul a b)).

(** *** The six loop orderings of the C++ suite (gemm_orderings/gemm.cpp) *)

Definition gemm_ijk (fuel : nat) (A B C : Matrix) : M R unit :=
  for_loop fuel 0 (rows A) 1 (λ i,
    for_loop fuel 0 (cols B) 1 (λ j,
      for_loop fuel 0 (cols A) 1 (λ k,
        madd A B C i j k))).

Definition gemm_jik (fuel : nat) (A B C : Matrix) : M R unit :=
  for_loop fuel 0 (cols B) 1 (λ j,
    for_loop fuel 0 (rows A) 1 (λ i,
      for_loop fuel 0 (cols A) 1 (λ k,
        madd A B C i j k))).

Definition gemm_ikj (fuel : nat) (A B C : Matrix) : M R unit :=
  for_loop fuel 0 (rows A) 1 (λ i,
    for_loop fuel 0 (cols A) 1 (λ k,
      for_loop fuel 0 (cols B) 1 (λ j,
        madd A B C i j k))).

Definition gemm_jki (fuel : nat) (A B C : Matrix) : M R unit :=
  for_loop fuel 0 (cols B) 1 (λ j,
    for_loop fuel 0 (cols A) 1 (λ k,
      for_loop fuel 0 (rows A) 1 (λ i,
        madd A B C i j k))).

Definition gemm_kij (fuel : nat) (A B C : Matrix) : M R unit :=
  for_loop fuel 0 (cols A) 1 (λ k,
    for_loop fuel 0 (rows A) 1 (λ i,
      for_loop fuel 0 (cols B) 1 (λ j,
        madd A B C i j k))).

Definition gemm_kji (fuel : nat) (A B C : Matrix) : M R unit :=
  for_loop fuel 0 (cols A) 1 (λ k,
    for_loop fuel 0 (cols B) 1 (λ j,
      for_loop fuel 0 (rows A) 1 (λ i,
        madd A B C i j k))).

(** *** The blocked kernel of the C++ suite (blocked_game/blocked_gemm.cpp) *)

Definition inner_block_inner_loop (fuel : nat) (A B C : Matrix)
    (i k jj j_max : Z) : M R unit :=
  for_loop fuel jj j_max 1 (λ j, madd A B C i j k).

Definition inner_block_middle_loop (fuel : nat) (A B C : Matrix)
    (i kk k_max j_max jj : Z) : M R unit :=
  for_loop fuel kk k_max 1 (λ k, inner_block_inner_loop fuel A B C i k jj j_max).

Definition inner_block_outer_loop (fuel : nat) (A B C : Matrix)
    (ii kk jj i_max j_max k_max : Z) : M R unit :=
  for_loop fuel ii i_max 1 (λ i, inner_block_middle_loop fuel A B C i kk k_max j_max jj).

Definition outer_block_inner_loop (fuel : nat) (A B C : Matrix)
    (ii jj block_size m n r : Z) : M R unit :=
  for_loop_int fuel 0 r block_size (λ kk,
    i_end <- int_add ii block_size ;;
    let i_max := Z.min i_end m in
    j_end <- int_add jj block_size ;;
    let j_max := Z.min j_end n in
    k_end <- int_add kk block_size ;;
    let k_max := Z.min k_end r in
    inner_block_outer_loop fuel A B C ii kk jj i_max j_max k_max).

Definition outer_block_middle_loop (fuel : nat) (A B C : Matrix)
    (ii block_size m n r : Z) : M R unit :=
  for_loop_int fuel 0 n block_size (λ jj,
    outer_block_inner_loop fuel A B C ii jj block_size m n r).

Definition outer_block_outer_loop (fuel : nat) (A B C : Matrix)
    (block_size m n r : Z) : M R unit :=
  for_loop_int fuel 0 m block_size (λ ii,
    outer_block_middle_loop fuel A B C ii block_size m n r).

Definition gemm_blocked (fuel : nat) (A B C : Matrix) (block_size : Z) : M R unit :=
  let m := rows A in
  let n := cols B in
  let r := cols A in
  outer_block_outer_loop fuel A B C block_size m n r.

(** The convenience wrappers for the benchmarked block sizes. *)
Definition gemm_blocked_32 (fuel : nat) (A B C : Matrix) : M R unit :=
  gemm_blocked fuel A B C 32.
Definition gemm_blocked_64 (fuel : nat) (A B C : Matrix) : M R unit :=
  gemm_blocked fuel A B C 64.
Definition gemm_blocked_128 (fuel : nat) (A B C : Matrix) : M R unit :=
  gemm_blocked fuel A B C 128.
Definition gemm_blocked_256 (fuel : nat) (A B C : Matrix) : M R unit :=
  gemm_blocked fuel A B C 256.

(** *** The kernels of the C suite (matmul_basic.c, matmul_optimized.c) *)

(** The single-file version of the program has the same six kernels
    with the inner loops written in place of the calls; its [matmul_kij]
    reads [MAT(A,i,k)] in the innermost loop, as [matmul_outer_product]
    does. *)

(** [MAT(C,i,j) += a_ik * MAT(B,k,j)], the value [a_ik] read beforehand. *)
Definition madd_a (a_ik : R) (B C : Matrix) (i j k : Z) : M R unit :=
  b <- elem_get B k j ;;
  c <- elem_get C i j ;;
  elem_set C i j (Radd c (Rmul a_ik b)).

(** [MAT(C,i,j) += MAT(A,i,k) * b_kj], the value [b_kj] read beforehand. *)
Definition madd_b (b_kj : R) (A C : Matrix) (i j k : Z) : M R unit :=
  a <- elem_get A i k ;;
  c <- elem_get C i j ;;
  elem_set C i j (Radd c (Rmul a b_kj)).

Definition inner_dot_product (fuel : nat) (C A B : Matrix) (i j r : Z) : M R unit :=
  for_loop fuel 0 r 1 (λ k, madd A B C i j k).

Definition inner_saxpy_column (fuel : nat) (C A B : Matrix) (j k m : Z) : M R unit :=
  b_kj <- elem_get B k j ;;
  for_loop fuel 0 m 1 (λ i, madd_b b_kj A C i j k).

Definition inner_saxpy_row (fuel : nat) (C A B : Matrix) (i k n : Z) : M R unit :=
  a_ik <- elem_get A i k ;;
  for_loop fuel 0 n 1 (λ j, madd_a a_ik B C i j k).

Definition matmul_ijk (fuel : nat) (C A B : Matrix) : M R unit :=
  let m := rows A in let r := cols A in let n := cols B in
  for_loop fuel 0 m 1 (λ i,
    for_loop fuel 0 n 1 (λ j,
      inner_dot_product fuel C A B i j r)).

Definition matmul_jik (fuel : nat) (C A B : Matrix) : M R unit :=
  let m := rows A in let r := cols A in let n := cols B in
  for_loop fuel 0 n 1 (λ j,
    for_loop fuel 0 m 1 (λ i,
      inner_dot_product fuel C A B i j r)).

Definition matmul_saxpy (fuel : nat) (C A B : Matrix) : M R unit :=
  let m := rows A in let r := cols A in let n := cols B in
  for_loop fuel 0 n 1 (λ j,
    for_loop fuel 0 r 1 (λ k,
      inner_saxpy_column fuel C A B j k m)).

Definition matmul_ikj (fuel : nat) (C A B : Matrix) : M R unit :=
  let m := rows A in let r := cols A in let n := cols B in
  for_loop fuel 0 m 1 (λ i,
    for_loop fuel 0 r 1 (λ k,
      inner_saxpy_row fuel C A B i k n)).

Definition matmul_outer_product (fuel : nat) (C A B : Matrix) : M R unit :=
  let m := rows A in let r := cols A in let n := cols B in
  for_loop fuel 0 r 1 (λ k,
    for_loop fuel 0 m 1 (λ i,
      for_loop fuel 0 n 1 (λ j,
        madd A B C i j k))).

Definition matmul_kij (fuel : nat) (C A B : Matrix) : M R unit :=
  let m := rows A in let r := cols A in let n := cols B in
  for_loop fuel 0 r 1 (λ k,
    for_loop fuel 0 m 1 (λ i,
      inner_saxpy_row fuel C A B i k n)).

Definition matmul_ikj_inlined (fuel : nat) (C A B : Matrix) : M R unit :=
  let m := rows A in let r := cols A in let n := cols B in
  for_loop fuel 0 m 1 (λ i,
    for_loop fuel 0 r 1 (λ k,
      a_ik <- elem_get A i k ;;
      for_loop fuel 0 n 1 (λ j, madd_a a_ik B C i j k))).

(** The block boundary [(ii + block_size < m) ? ii + block_size : m]. *)
Definition ternary_end (ii block_size m : Z) : M R Z :=
  s <- int_add ii block_size ;;
  if decide (s < m) then int_add ii block_size else ret m.

Definition matmul_blocked (fuel : nat) (C A B : Matrix) (block_size : Z) : M R unit :=
  let m := rows A in let r := cols A in let n := cols B in
  for_loop_int fuel 0 m block_size (λ ii,
    for_loop_int fuel 0 n block_size (λ jj,
      for_loop_int fuel 0 r block_size (λ kk,
        i_end <- ternary_end ii block_size m ;;
        j_end <- ternary_end jj block_size n ;;
        k_end <- ternary_end kk block_size r ;;
        for_loop fuel ii i_end 1 (λ i,
          for_loop fuel kk k_end 1 (λ k,
            a_ik <- elem_get A i k ;;
            for_loop fuel jj j_end 1 (λ j, madd_a a_ik B C i j k)))))).

(** The three BLAS levels of matmul_basic.c: [saxpy_blas] on rows given
    by pointers, [process_matrix_row], and the kernel calling them; as it
    shares its name with the kernel above it is written with a prime. *)
Definition saxpy_blas (fuel : nat) (y x : pointer) (n : Z) (alpha : R) : M R unit :=
  for_loop fuel 0 n 1 (λ i,
    xi <- ptr_get x i ;;
    yi <- ptr_get y i ;;
    ptr_set y i (Radd yi (Rmul alpha xi))).

Definition process_matrix_row (fuel : nat) (C A B : Matrix) (row_i : Z) : M R unit :=
  for_loop fuel 0 (cols A) 1 (λ k,
    a_ik <- elem_get A row_i k ;;
    c_row <- elem_addr C row_i 0 ;;
    b_row <- elem_addr B k 0 ;;
    saxpy_blas fuel c_row b_row (cols B) a_ik).

Definition matmul_ikj_inlined' (fuel : nat) (C A B : Matrix) : M R unit :=
  for_loop fuel 0 (rows A) 1 (λ i, process_matrix_row fuel C A B i).

(** [gaxpy] of level2_blas.c, the saxpy ordering on matrices: [Y = Y + A*X]. *)
Definition gaxpy (fuel : nat) (Y A X : Matrix) : M R unit :=
  for_loop fuel 0 (cols X) 1 (λ j,
    for_loop fuel 0 (cols A) 1 (λ k,
      x_kj <- elem_get X k j ;;
      for_loop fuel 0 (rows A) 1 (λ i, madd_b x_kj A Y i j k))).

(** *** gaxpy (gaxpy.cpp) and the matrix-vector product (level2_blas.c) *)

(** The statement [y[i] += A(i,j) * x[j]]. *)
Definition vadd (A : Matrix) (x y : loc) (i j : Z) : M R unit :=
  a <- elem_get A i j ;;
  xj <- vec_get x j ;;
  yi <- vec_get y i ;;
  vec_set y i (Radd yi (Rmul a xj)).

Definition gaxpy_row_oriented (fuel : nat) (A : Matrix) (x y : loc) : M R unit :=
  for_loop fuel 0 (rows A) 1 (λ i,
    for_loop fuel 0 (cols A) 1 (λ j,
      vadd A x y i j)).

Definition gaxpy_column_oriented (fuel : nat) (A : Matrix) (x y : loc) : M R unit :=
  for_loop fuel 0 (cols A) 1 (λ j,
    for_loop fuel 0 (rows A) 1 (λ i,
      vadd A x y i j)).

Definition matrix_vector_mult (fuel : nat) (A : Matrix) (x y : loc) : M R unit :=
  for_loop fuel 0 (rows A) 1 (λ i,
    for_loop fuel 0 (cols A) 1 (λ j,
      vadd A x y i j)).

(** *** The four styles of the row-oriented gaxpy *)

Definition gaxpy_nested_for_loop (fuel : nat) (A : Matrix) (x y : loc) : M R unit :=
  for_loop fuel 0 (rows A) 1 (λ i,
    for_loop fuel 0 (cols A) 1 (λ j,
      vadd A x y i j)).

(** The helper adds into the element its parameter [double& y_row]
    refers to: [y_row += A(row, j) * x[j]]. *)
Definition compute_row_contribution (fuel : nat) (A : Matrix) (row : Z)
    (x : loc) (y_row : pointer) : M R unit :=
  for_loop fuel 0 (cols A) 1 (λ j,
    a <- elem_get A row j ;;
    xj <- vec_get x j ;;
    yr <- ptr_get y_row 0 ;;
    ptr_set y_row 0 (Radd yr (Rmul a xj))).

Definition gaxpy_modular (fuel : nat) (A : Matrix) (x y : loc) : M R unit :=
  for_loop fuel 0 (rows A) 1 (λ i,
    y_i <- vec_ref y i ;;
    compute_row_contribution fuel A i x y_i).

(** The lambda of [gaxpy_functional]: the dot product of a row with x,
    summed from 0.0 in a local variable. *)
Definition compute_dot_product (fuel : nat) (A : Matrix) (x : loc) (row : Z) : M R R :=
  for_loop_acc fuel 0 (cols A) 1 (λ j result,
    a <- elem_get A row j ;;
    xj <- vec_get x j ;;
    ret (Radd result (Rmul a xj))) Rzero.

Definition gaxpy_functional (fuel : nat) (A : Matrix) (x y : loc) : M R unit :=
  for_loop fuel 0 (rows A) 1 (λ i,
    d <- compute_dot_product fuel A x i ;;
    yi <- vec_get y i ;;
    vec_set y i (Radd yi d)).

Definition compute_row_contribution_inline (fuel : nat) (A : Matrix) (row : Z)
    (x : loc) (y_row : pointer) : M R unit :=
  for_loop fuel 0 (cols A) 1 (λ j,
    a <- elem_get A row j ;;
    xj <- vec_get x j ;;
    yr <- ptr_get y_row 0 ;;
    ptr_set y_row 0 (Radd yr (Rmul a xj))).

Definition gaxpy_inline_hint (fuel : nat) (A : Matrix) (x y : loc) : M R unit :=
  for_loop fuel 0 (rows A) 1 (λ i,
    y_i <- vec_ref y i ;;
    compute_row_contribution_inline fuel A i x y_i).

(** *** Construction *)

(** A fresh buffer of [len] zeros ([calloc], value-initialised
    [std::vector<double>]).  A negative length is a size no allocator
    serves: the vector constructor throws, and [calloc] returns a null
    pointer that the source does not check; the model faults at the
    allocation.  The store of the model has no bound: a request for a
    length >= 0 is always served. *)
Definition alloc_zeroed (len : Z) : M R loc := λ h,
  if decide (0 ≤ len) then
    let l := fresh (dom h) in
    Done (l, <[l := replicate (Z.to_nat len) Rzero]> h)
  else Fault.

(** [create_matrix] of matrix_utils.c: [calloc(rows * cols, ...)], the
    product being one of two [int]s. *)
Definition create_matrix (rows cols : Z) : M R Matrix :=
  len <- int_mul rows cols ;;
  d <- alloc_zeroed len ;;
  ret {| rows := rows; cols := cols; data := d |}.

(** The constructor [Matrix(int rows, int cols) : m(rows), n(cols), data(rows * cols)]. *)
Definition Matrix_new (rows cols : Z) : M R Matrix :=
  len <- int_mul rows cols ;;
  d <- alloc_zeroed len ;;
  ret {| rows := rows; cols := cols; data := d |}.

(** *** Filling with random values *)

(** The fill routines draw one value per iteration; [draw i] is the
    scalar stored by iteration [i]. *)

(** [int_random_matrix] of split_file/matrix_utils.c. *)
Definition int_random_matrix (fuel : nat) (draw : Z → R) (m : Matrix) : M R unit :=
  for_loop fuel 0 (rows m) 1 (λ i, vec_set (data m) i (draw i)).

(** [init_random_matrix] of the single-file C program. *)
Definition init_random_matrix (fuel : nat) (draw : Z → R) (m : Matrix) : M R unit :=
  for_loop fuel 0 (rows m * cols m) 1 (λ i, vec_set (data m) i (draw i)).

(** [Matrix::fill_random]: [for (auto& val : data) val = dis(gen);]. *)
Definition fill_random (draw : Z → R) (A : Matrix) : M R unit := λ h,
  match h !! data A with
  | Some buf => Done (tt, <[data A := imap (λ i _, draw (Z.of_nat i)) buf]> h)
  | None => Fault
  end.

End Kernels.

(** The value [(double)rand() / RAND_MAX * 2.0 - 1.0] stored by the C
    fill routines, for the result [r] of [rand()], in exact arithmetic. *)
Definition rand_scaled (RAND_MAX r : Z) : Q :=
  (inject_Z r / inject_Z RAND_MAX * 2 - 1)%Q.

(** The kernels behind one signature: the benchmark drivers select them
    through a function pointer. *)
Inductive ordering : Type := ijk | jik | ikj | jki | kij | kji.

Definition gemm {R} (Radd Rmul : R → R → R) (o : ordering)
    (fuel : nat) (A B C : Matrix) : M R unit :=
  match o with
  | ijk => gemm_ijk Radd Rmul fuel A B C
  | jik => gemm_jik Radd Rmul fuel A B C
  | ikj => gemm_ikj Radd Rmul fuel A B C
  | jki => gemm_jki Radd Rmul fuel A B C
  | kij => gemm_kij Radd Rmul fuel A B C
  | kji => gemm_kji Radd Rmul fuel A B C
  end.

Inductive MatMulFunc : Type :=
| f_matmul_ijk | f_matmul_jik | f_matmul_saxpy
| f_matmul_ikj | f_matmul_outer_product | f_matmul_kij.

Definition matmul {R} (Radd Rmul : R → R → R) (f : MatMulFunc)
    (fuel : nat) (C A B : Matrix) : M R unit :=
  match f with
  | f_matmul_ijk => matmul_ijk Radd Rmul fuel C A B
  | f_matmul_jik => matmul_jik Radd Rmul fuel C A B
  | f_matmul_saxpy => matmul_saxpy Radd Rmul fuel C A B
  | f_matmul_ikj => matmul_ikj Radd Rmul fuel C A B
  | f_matmul_outer_product => matmul_outer_product Radd Rmul fuel C A B
  | f_matmul_kij => matmul_kij Radd Rmul fuel C A B
  end.

(** ** The utilities, the BLAS levels 1 and 2 and the checks *)

Section Utilities.
Context {R : Type}.
Variables (Rzero : R) (Radd Rmul Rsub : R → R → R) (Rabs Rsqrt : R → R).

(** [a > b] on scalars; [a < b] is [Rgtb b a]. *)
Variable Rgtb : R → R → bool.

(** *** matrix_utils.c *)

(** [memset(m->data, 0, m->rows * m->cols * sizeof(double))]: the first
    rows*cols elements become 0.0; a negative product is a huge
    [size_t]. *)
Definition zero_matrix (m : Matrix) : M R unit := λ h,
  let n := rows m * cols m in
  if decide (0 ≤ n) then
    match h !! data m with
    | Some buf =>
        if decide (Z.to_nat n ≤ length buf)%nat
        then Done (tt, <[data m :=
               replicate (Z.to_nat n) Rzero ++ drop (Z.to_nat n) buf]> h)
        else Fault
    | None => Fault
    end
  else Fault.

(** [memcpy(dest->data, src->data, src->rows * src->cols * sizeof(double))]:
    the count is taken from [src]; the two regions must not overlap. *)
Definition copy_matrix (dest src : Matrix) : M R unit := λ h,
  let n := rows src * cols src in
  if decide (0 ≤ n) then
    match h !! data src, h !! data dest with
    | Some s, Some d =>
        if decide ((Z.to_nat n ≤ length s)%nat ∧ (Z.to_nat n ≤ length d)%nat ∧
                   (data dest ≠ data src ∨ n = 0))
        then Done (tt, <[data dest :=
               take (Z.to_nat n) s ++ drop (Z.to_nat n) d]> h)
        else Fault
    | _, _ => Fault
    end
  else Fault.

(** [free(m->data); free(m);]. *)
Definition free_matrix (m : Matrix) : M R unit := λ h,
  match h !! data m with
  | Some _ => Done (tt, delete (data m) h)
  | None => Fault
  end.

(** *** level1_blas.c *)

Definition dot_product (fuel : nat) (x y : loc) (n : Z) : M R R :=
  for_loop_acc fuel 0 n 1 (λ i result,
    xi <- vec_get x i ;;
    yi <- vec_get y i ;;
    ret (Radd result (Rmul xi yi))) Rzero.

Definition saxpy (fuel : nat) (y : loc) (alpha : R) (x : loc) (n : Z) : M R unit :=
  for_loop fuel 0 n 1 (λ i,
    xi <- vec_get x i ;;
    yi <- vec_get y i ;;
    vec_set y i (Radd yi (Rmul alpha xi))).

Definition vector_norm (fuel : nat) (x : loc) (n : Z) : M R R :=
  d <- dot_product fuel x x n ;;
  ret (Rsqrt d).

(** *** level2_blas.c *)

(** [MAT(A, i, j) += x[i] * y[j]]. *)
Definition outer_product_update (fuel : nat) (A : Matrix) (x y : loc) : M R unit :=
  for_loop fuel 0 (rows A) 1 (λ i,
    for_loop fuel 0 (cols A) 1 (λ j,
      xi <- vec_get x i ;;
      yj <- vec_get y j ;;
      a <- elem_get A i j ;;
      elem_set A i j (Radd a (Rmul xi yj)))).

(** *** verification.c *)

Definition matrix_max_diff (fuel : nat) (A B : Matrix) : M R R :=
  for_loop_acc fuel 0 (rows A * cols A) 1 (λ i max_diff,
    a <- vec_get (data A) i ;;
    b <- vec_get (data B) i ;;
    let diff := Rabs (Rsub a b) in
    ret (if Rgtb diff max_diff then diff else max_diff)) Rzero.

(** A line of the report: [PASS] or [FAIL (max diff = ...)]. *)
Inductive verdict : Type :=
| PASS
| FAIL (max_diff : R).

(** [max_diff < 1e-12] decides; the threshold is the parameter [tol]. *)
Definition judge (tol max_diff : R) : verdict :=
  if Rgtb tol max_diff then PASS else FAIL max_diff.

(** [verify_correctness]; the lines it prints are the list it returns. *)
Definition verify_correctness (fuel : nat) (tol : R) (A B : Matrix)
    : M R (list (string * verdict)) :=
  C_ref <- create_matrix Rzero (rows A) (cols B) ;;
  C_test <- create_matrix Rzero (rows A) (cols B) ;;
  matmul_ijk Radd Rmul fuel C_ref A B ;;
  let funcs :=
    [("jik", matmul_jik Radd Rmul); ("saxpy", matmul_saxpy Radd Rmul);
     ("outer_product", matmul_outer_product Radd Rmul);
     ("ikj", matmul_ikj Radd Rmul); ("kij", matmul_kij Radd Rmul);
     ("ikj_inlined", matmul_ikj_inlined Radd Rmul)] in
  out <- for_loop_acc fuel 0 6 1 (λ test out,
    match funcs !! Z.to_nat test with
    | Some (name, func) =>
        zero_matrix C_test ;;
        func fuel C_test A B ;;
        max_diff <- matrix_max_diff fuel C_ref C_test ;;
        ret (out ++ [(name, judge tol max_diff)])
    | None => λ _, Fault
    end) [] ;;
  zero_matrix C_test ;;
  matmul_blocked Radd Rmul fuel C_test A B 64 ;;
  max_diff <- matrix_max_diff fuel C_ref C_test ;;
  let out := out ++ [("blocked", judge tol max_diff)] in
  free_matrix C_ref ;;
  free_matrix C_test ;;
  ret out.

(** *** test_blocked_gemm.cpp *)

(** [matrices_equal]; the message printed at a mismatch is left out. *)
Definition matrices_equal (fuel : nat) (A B : Matrix) (tolerance : R) : M R bool :=
  if decide (rows A ≠ rows B ∨ cols A ≠ cols B) then ret false
  else
    r <- for_loop_ret fuel 0 (rows A) 1 (λ i,
      for_loop_ret fuel 0 (cols A) 1 (λ j,
        a <- elem_get A i j ;;
        b <- elem_get B i j ;;
        if Rgtb (Rabs (Rsub a b)) tolerance then ret (Some false) else ret None)) ;;
    ret (default true r).

(** *** The benchmark harness of the gaxpy programs *)

(** [std::fill(y.begin(), y.end(), v)]. *)
Definition fill (y : loc) (v : R) : M R unit := λ h,
  match h !! y with
  | Some buf => Done (tt, <[y := replicate (length buf) v]> h)
  | None => Fault
  end.

(** Division of doubles and the conversion of an [int] to a double. *)
Variable Rdiv : R → R → R.
Variable of_int : Z → R.

(** [benchmark_gaxpy]: [gaxpy_func] is the function pointer and
    [total_time] the reading of the timer after the timed runs. *)
Definition benchmark_gaxpy (fuel : nat)
    (gaxpy_func : Matrix → loc → loc → M R unit) (total_time : R)
    (A : Matrix) (x y : loc) (iterations : Z) : M R R :=
  gaxpy_func A x y ;;
  fill y Rzero ;;
  for_loop fuel 0 iterations 1 (λ iter, gaxpy_func A x y) ;;
  ret (Rdiv total_time (of_int iterations)).

(** *** The test framework of the gaxpy test program *)

(** [a <= b] on scalars. *)
Variable Rleb : R → R → bool.

(** The class [TestSuite]; what it prints is left out. *)
Record TestSuite := {
  passed : Z;
  failed : Z;
  current_test : string;
}.

Definition TestSuite_new : TestSuite :=
  {| passed := 0; failed := 0; current_test := EmptyString |}.

Definition start_test (suite : TestSuite) (name : string) : TestSuite :=
  {| passed := passed suite; failed := failed suite; current_test := name |}.

(** [n++] on an [int]. *)
Definition incr (n : Z) : M R Z := λ h,
  if decide (n < INT_MAX) then Done (n + 1, h) else Fault.

(** [passed++] and [failed++]. *)
Definition count_passed (suite : TestSuite) : M R TestSuite :=
  p <- incr (passed suite) ;;
  ret {| passed := p; failed := failed suite;
         current_test := current_test suite |}.

Definition count_failed (suite : TestSuite) : M R TestSuite :=
  f <- incr (failed suite) ;;
  ret {| passed := passed suite; failed := f;
         current_test := current_test suite |}.

Definition assert_true (suite : TestSuite) (condition : bool) : M R TestSuite :=
  if condition then count_passed suite else count_failed suite.

Definition assert_near (suite : TestSuite) (actual expected tolerance : R)
    : M R TestSuite :=
  if Rleb (Rabs (Rsub actual expected)) tolerance
  then count_passed suite else count_failed suite.

(** [v.size()]. *)
Definition vector_size (v : loc) : M R Z := λ h,
  match h !! v with
  | Some buf => Done (Z.of_nat (length buf), h)
  | None => Fault
  end.

(** [std::max(a, b)], which is [(a < b) ? b : a]. *)
Definition std_max (a b : R) : R := if Rgtb b a then b else a.

Definition assert_vectors_equal (fuel : nat) (suite : TestSuite)
    (v1 v2 : loc) (tolerance : R) : M R TestSuite :=
  n1 <- vector_size v1 ;;
  n2 <- vector_size v2 ;;
  if decide (n1 ≠ n2) then count_failed suite
  else
    max_diff <- for_loop_acc fuel 0 n1 1 (λ i max_diff,
      a <- vec_get v1 i ;;
      b <- vec_get v2 i ;;
      ret (std_max max_diff (Rabs (Rsub a b)))) Rzero ;;
    if Rleb max_diff tolerance then count_passed suite else count_failed suite.

Definition all_passed (suite : TestSuite) : bool :=
  bool_decide (failed suite = 0).

(** *** performance.c *)

Record PerfResult := {
  time_seconds : R;
  flops : R;
  mflops : R;
  algorithm_name : string;
}.

(** [strcpy(result.algorithm_name, name)] into [char algorithm_name[50]]:
    the name and its terminator have to fit. *)
Definition strcpy_algorithm_name (name : string) : M R string := λ h,
  if decide (String.length name < 50)%nat then Done (name, h) else Fault.

(** [get_time k] is what the [k]-th call of [get_time()] in the timed
    runs reads; [two] and [million] are the constants [2.0] and [1e6]. *)
Variable get_time : Z → R.
Variables (two million : R).

Definition benchmark_algorithm (fuel : nat) (func : MatMulFunc) (name : string)
    (A B : Matrix) (warmup_runs test_runs : Z) : M R PerfResult :=
  let m := rows A in
  let r := cols A in
  let n := cols B in
  C <- create_matrix Rzero m n ;;
  name' <- strcpy_algorithm_name name ;;
  for_loop fuel 0 warmup_runs 1 (λ run,
    zero_matrix C ;;
    matmul Radd Rmul func fuel C A B) ;;
  total_time <- for_loop_acc fuel 0 test_runs 1 (λ run total_time,
    zero_matrix C ;;
    let start := get_time (2 * run) in
    matmul Radd Rmul func fuel C A B ;;
    let end' := get_time (2 * run + 1) in
    ret (Radd total_time (Rsub end' start))) Rzero ;;
  let time := Rdiv total_time (of_int test_runs) in
  let fl := Rmul (Rmul (Rmul two (of_int m)) (of_int n)) (of_int r) in
  free_matrix C ;;
  ret {| time_seconds := time;
         flops := fl;
         mflops := Rdiv fl (Rmul time million);
         algorithm_name := name' |}.

End Utilities.

Arguments time_seconds {R} _.
Arguments flops {R} _.
Arguments mflops {R} _.
Arguments algorithm_name {R} _.

Arguments PASS {R}.
Arguments FAIL {R} max_diff.

(** ** Vocabulary of the specification *)

Section Vocabulary.
Context {R : Type}.
Variables (Rzero : R) (Radd Rmul : R → R → R).

(** The element (i,j) of the matrix [A] whose buffer is [buf]. *)
Definition entry (A : Matrix) (buf : list R) (i j : Z) : R :=
  default Rzero (buf !! Z.to_nat (offset A i j)).

(** The element [i] of a vector. *)
Definition ventry (buf : list R) (i : Z) : R :=
  default Rzero (buf !! Z.to_nat i).

(** The sum of [f x] over the elements [x] of [l]. *)
Definition bigsum {T} (l : list T) (f : T → R) : R :=
  foldr (λ x acc, Radd (f x) acc) Rzero l.

(** [Σ_{k=0}^{r-1} A[i][k] * B[k][j]]. *)
Definition dot (A B : Matrix) (bufA bufB : list R) (i j : Z) : R :=
  bigsum (seqZ 0 (cols A)) (λ k, Rmul (entry A bufA i k) (entry B bufB k j)).

(** [Σ_{j=0}^{n-1} A[i][j] * x[j]]. *)
Definition row_dot (A : Matrix) (bufA bufx : list R) (i : Z) : R :=
  bigsum (seqZ 0 (cols A)) (λ j, Rmul (entry A bufA i j) (ventry bufx j)).

(** The invariant of the data model: the buffer of a matrix holds
    exactly [rows * cols] elements. *)
Definition wf_matrix (h : heap R) (A : Matrix) (buf : list R) : Prop :=
  h !! data A = Some buf ∧ 0 ≤ rows A ∧ 0 ≤ cols A ∧
  length buf = Z.to_nat (rows A * cols A).

Definition wf_vector (h : heap R) (x : loc) (len : Z) (buf : list R) : Prop :=
  h !! x = Some buf ∧ 0 ≤ len ∧ length buf = Z.to_nat len.

(** The size contract of the multiplication: A is m×r, B is r×n, C is m×n. *)
Definition conformable (A B C : Matrix) : Prop :=
  cols A = rows B ∧ rows C = rows A ∧ cols C = cols B.

(** The indices a loop [for (i = lo; i < hi; i += step)] runs through. *)
Fixpoint zrange_fuel (fuel : nat) (i hi step : Z) : list Z :=
  match fuel with
  | O => []
  | S fuel' => if decide (i < hi) then i :: zrange_fuel fuel' (i + step) hi step else []
  end.

Definition zrange (lo hi step : Z) : list Z :=
  zrange_fuel (Z.to_nat (hi - lo)) lo hi step.

(** Adding, in order, each value of a list of (offset, value) pairs into
    a buffer: what a run of accumulation statements does to the buffer
    of the accumulator. *)
Definition scatter (us : list (nat * R)) (buf : list R) : list R :=
  foldl (λ b u, alter (λ c, Radd c u.2) u.1 b) buf us.

(** The part of a list of (offset, value) pairs that lands on offset [q]. *)
Definition landing (q : nat) (u : nat * R) : R :=
  if decide (u.1 = q) then u.2 else Rzero.

(** A command behaves, on the buffer at [t] and with the rest of the
    store as in [h0], as the scattering of [us]. *)
Definition sim (t : loc) (len : nat) (h0 : heap R)
    (c : M R unit) (us : list (nat * R)) : Prop :=
  ∀ buf, length buf = len →
    c (<[t := buf]> h0) = Done (tt, <[t := scatter us buf]> h0).

(** A read that does not depend on the buffer at [t]. *)
Definition sim_read {T} (t : loc) (len : nat) (h0 : heap R)
    (c : M R T) (v : T) : Prop :=
  ∀ buf, length buf = len → c (<[t := buf]> h0) = Done (v, <[t := buf]> h0).

(** Hoare triples over outcomes; [okF] and [okT] say whether [Fault]
    and [Timeout] are accepted. *)
Definition triple {T} (okF okT : Prop) (P : heap R → Prop)
    (c : M R T) (Q : T → heap R → Prop) : Prop :=
  ∀ h, P h → match c h with
             | Done (x, h') => Q x h'
             | Fault => okF
             | Timeout => okT
             end.

(** Once [c] has answered, with a result or with a fault, [c'] gives the
    same answer: [c'] is [c] with at least as much fuel. *)
Definition settled {T} (c c' : M R T) : Prop :=
  ∀ h o, c h = o → o ≠ Timeout → c' h = o.

(** The matrix has a buffer of its size in the store. *)
Definition sized (h : heap R) (A : Matrix) : Prop :=
  ∃ buf, h !! data A = Some buf ∧ 0 ≤ rows A ∧ 0 ≤ cols A ∧
         length buf = Z.to_nat (rows A * cols A).

Definition vsized (h : heap R) (x : loc) (len : Z) : Prop :=
  ∃ buf, h !! x = Some buf ∧ (Z.to_nat len ≤ length buf)%nat.

(** The store [h] differs from [h0] at most at [t]. *)
Definition only_at (t : loc) (h0 h : heap R) : Prop :=
  ∀ l, l ≠ t → h !! l = h0 !! l.

(** [P] survives the update of one element of the buffer at [l]. *)
Definition stable_at (P : heap R → Prop) (l : loc) : Prop :=
  ∀ h buf p v, P h → h !! l = Some buf → P (<[l := <[p := v]> buf]> h).

(** What the accumulation statements need: the three accesses in range
    and the three buffers of the right size, unless faults are accepted. *)
Definition madd_ok (okF : Prop) (P : heap R → Prop)
    (A B C : Matrix) (i j k : Z) : Prop :=
  okF ∨ (in_range A i k ∧ in_range B k j ∧ in_range C i j ∧
         ∀ h, P h → sized h A ∧ sized h B ∧ sized h C).

Definition vadd_ok (okF : Prop) (P : heap R → Prop)
    (A : Matrix) (x y : loc) (i j : Z) : Prop :=
  okF ∨ (in_range A i j ∧
         ∀ h, P h → sized h A ∧ vsized h x (cols A) ∧ vsized h y (rows A)).

(** The size contract and the sizes of the buffers, unless faults are
    accepted. *)
Definition gemm_ok (okF : Prop) (P : heap R → Prop) (A B C : Matrix) : Prop :=
  okF ∨ (conformable A B C ∧ ∀ h, P h → sized h A ∧ sized h B ∧ sized h C).

Definition gaxpy_ok (okF : Prop) (P : heap R → Prop)
    (A : Matrix) (x y : loc) : Prop :=
  okF ∨ (∀ h, P h → sized h A ∧ vsized h x (cols A) ∧ vsized h y (rows A)).

(** Enough fuel for loops over distances up to [bound], unless running
    out of fuel is accepted. *)
Definition fuel_ok (okT : Prop) (fuel : nat) (bound : Z) : Prop :=
  okT ∨ Z.max 0 bound < Z.of_nat fuel.

(** The largest of the dimensions m, r, n of a multiplication. *)
Definition dim_max (A B : Matrix) : Z :=
  Z.max (rows A) (Z.max (cols A) (cols B)).

(** The three buffers of a multiplication have the sizes of their matrices. *)
Definition shaped (A B C : Matrix) (h : heap R) : Prop :=
  sized h A ∧ sized h B ∧ sized h C.

(** The buffers of a gaxpy have the sizes its matrix asks for. *)
Definition vshaped (A : Matrix) (x y : loc) (h : heap R) : Prop :=
  sized h A ∧ vsized h x (cols A) ∧ vsized h y (rows A).

(** What a call leaves of the store: everything but the buffer at [t];
    in particular the buffers of the inputs that are not at [t]. *)
Definition frame (t : loc) (inputs : list loc) (h : heap R)
    (out : outcome (unit * heap R)) : Prop :=
  ∀ h', out = Done (tt, h') →
    only_at t h h' ∧ ∀ l, l ∈ inputs → l ≠ t → h' !! l = h !! l.

(** A fuelled run terminates: beyond [bound] units of fuel it returns
    a store, the same for every amount of fuel. *)
Definition terminates (bound : Z) (run : nat → outcome (unit * heap R)) : Prop :=
  ∃ h', ∀ fuel, bound < Z.of_nat fuel → run fuel = Done (tt, h').

(** Arithmetic without rounding: addition is commutative and
    associative, and [Rzero] is neutral. *)
Definition exact_arithmetic : Prop :=
  (∀ a b, Radd a b = Radd b a) ∧
  (∀ a b c, Radd a (Radd b c) = Radd (Radd a b) c) ∧
  (∀ a, Radd Rzero a = a).

(** The inputs of a gaxpy: A with its buffer, x of length n, y of
    length m, and y is neither A nor x. *)
Definition gaxpy_pre (h : heap R) (A : Matrix) (x y : loc)
    (bufA bufx bufy : list R) : Prop :=
  wf_matrix h A bufA ∧
  wf_vector h x (cols A) bufx ∧
  wf_vector h y (rows A) bufy ∧
  data A ≠ y ∧ x ≠ y.

(** Three nested sums. *)
Definition sum3 (l1 l2 l3 : list Z) (F : Z → Z → Z → R) : R :=
  bigsum l1 (λ a, bigsum l2 (λ b, bigsum l3 (λ c, F a b c))).

End Vocabulary.

(** The accumulations of the kernels, in the order of their loops. *)
Section Traces.
Context {R : Type}.
Variables (Rzero : R) (Rmul : R → R → R).

Section Gemm.
Variables (A B C : Matrix) (bufA bufB : list R).

(** The offset in C and the product added by [C(i,j) += A(i,k) * B(k,j)]. *)
Definition contrib (i j k : Z) : nat * R :=
  (Z.to_nat (offset C i j),
   Rmul (entry Rzero A bufA i k) (entry Rzero B bufB k j)).

(** The accumulations of the ijk kernel. *)
Definition gemm_trace : list (nat * R) :=
  zrange 0 (rows A) 1 ≫= λ i,
  zrange 0 (cols B) 1 ≫= λ j,
  zrange 0 (cols A) 1 ≫= λ k, [contrib i j k].

(** The accumulations of the blocked kernel. *)
Definition blocked_trace (bs : Z) : list (nat * R) :=
  zrange 0 (rows A) bs ≫= λ ii,
  zrange 0 (cols B) bs ≫= λ jj,
  zrange 0 (cols A) bs ≫= λ kk,
  zrange ii (Z.min (ii + bs) (rows A)) 1 ≫= λ i,
  zrange kk (Z.min (kk + bs) (cols A)) 1 ≫= λ k,
  zrange jj (Z.min (jj + bs) (cols B)) 1 ≫= λ j, [contrib i j k].

End Gemm.

Section Gaxpy.
Variables (A : Matrix) (bufA bufx : list R).

(** The offset in y and the product added by [y[i] += A(i,j) * x[j]]. *)
Definition vcontrib (i j : Z) : nat * R :=
  (Z.to_nat i, Rmul (entry Rzero A bufA i j) (ventry Rzero bufx j)).

(** The accumulations of the row-oriented kernel. *)
Definition gaxpy_trace : list (nat * R) :=
  zrange 0 (rows A) 1 ≫= λ i, zrange 0 (cols A) 1 ≫= λ j, [vcontrib i j].

End Gaxpy.

End Traces.

(** The inputs of a multiplication: the three matrices with their
    buffers, of the sizes of the contract, C sharing none with A or B. *)
Definition gemm_pre {R} (h : heap R) (A B C : Matrix)
    (bufA bufB bufC : list R) : Prop :=
  wf_matrix h A bufA ∧ wf_matrix h B bufB ∧ wf_matrix h C bufC ∧
  conformable A B C ∧ data A ≠ data C ∧ data B ≠ data C.

(** The tile loop over a dimension [d] stays within [int]: no tile
    start it reaches, plus the block size, passes [INT_MAX]. *)
Definition tiles_fit_int (d block_size : Z) : Prop :=
  ∀ ii, ii ∈ zrange 0 d block_size → ii + block_size ≤ INT_MAX.

(** The same for the three tile loops of a blocked multiplication. *)
Definition blocks_fit_int (A B : Matrix) (block_size : Z) : Prop :=
  tiles_fit_int (rows A) block_size ∧
  tiles_fit_int (cols B) block_size ∧
  tiles_fit_int (cols A) block_size.

(** The elements of a row-major sweep that come before position (i,j). *)
Definition swept (i j i' j' : Z) : Prop := i' < i ∨ (i' = i ∧ j' < j).

(** What a loop that may return gives over the indices [l], when the
    body returns [f i] at index [i]: the first [Some]. *)
Definition first_return {T} (f : Z → option T) (l : list Z) : option T :=
  foldr (λ i later, match f i with Some v => Some v | None => later end) None l.

(** Two vectors agree within a tolerance: they have the same size, the
    tolerance is at least 0.0 and no two elements differ by more. *)
Definition within_tolerance {R} (Rzero : R) (Rsub : R → R → R) (Rabs : R → R)
    (Rleb : R → R → bool) (b1 b2 : list R) (tolerance : R) : Prop :=
  length b1 = length b2 ∧ Rleb Rzero tolerance = true ∧
  ∀ i, 0 ≤ i < Z.of_nat (length b1) →
    Rleb (Rabs (Rsub (ventry Rzero b1 i) (ventry Rzero b2 i))) tolerance = true.

(** The comparisons of a total order (no NaN among the scalars). *)
Definition total_order {R} (Rleb Rgtb : R → R → bool) : Prop :=
  (∀ a b, Rgtb a b = negb (Rleb a b)) ∧
  (∀ a b c, Rleb a b = true → Rleb b c = true → Rleb a c = true) ∧
  (∀ a b, Rleb a b = true ∨ Rleb b a = true).

(** ** Concrete inputs *)

(** A store with A (2×3), B (3×2), C (2×2) over [Z]. *)
Definition ex_A : Matrix := {| rows := 2; cols := 3; data := 1%positive |}.
Definition ex_B : Matrix := {| rows := 3; cols := 2; data := 2%positive |}.
Definition ex_C : Matrix := {| rows := 2; cols := 2; data := 3%positive |}.
Definition ex_bufA : list Z := [1; 2; 3; 4; 5; 6].
Definition ex_bufB : list Z := [1; 0; 0; 1; 1; 1].
Definition ex_bufC : list Z := [10; 20; 30; 40].
Definition ex_h : heap Z :=
  <[1%positive := ex_bufA]> (<[2%positive := ex_bufB]> (<[3%positive := ex_bufC]> ∅)).

(** The same store with a vector x of length 3 and a vector y of length 2. *)
Definition ex_x : loc := 4%positive.
Definition ex_y : loc := 5%positive.
Definition ex_k : heap Z := <[ex_x := [1; 1; 1]]> (<[ex_y := [0; 0]]> ex_h).

(** The gaxpy example of the specification: A = [[1,2],[3,4]],
    x = [1,1] and the initial y = [10,20]. *)
Definition ex_G : Matrix := {| rows := 2; cols := 2; data := 1%positive |}.
Definition ex_g : heap Z :=
  <[1%positive := [1; 2; 3; 4]]>
    (<[2%positive := [1; 1]]> (<[3%positive := [10; 20]]> ∅)).

(** Inputs with 2^30 + 1 rows: A with no column, so that the three
    buffers are empty, and A with one column. *)
Definition tall_A : Matrix := {| rows := 1073741825; cols := 0; data := 1%positive |}.
Definition tall_B : Matrix := {| rows := 0; cols := 0; data := 2%positive |}.
Definition tall_C : Matrix := {| rows := 1073741825; cols := 0; data := 3%positive |}.
Definition tall_h : heap Z :=
  <[1%positive := []]> (<[2%positive := []]> (<[3%positive := []]> ∅)).

Definition long_A : Matrix := {| rows := 1073741825; cols := 1; data := 1%positive |}.
Definition long_B : Matrix := {| rows := 1; cols := 1; data := 2%positive |}.
Definition long_C : Matrix := {| rows := 1073741825; cols := 1; data := 3%positive |}.
Definition long_bufA : list Z := replicate (Z.to_nat 1073741825) 1.
Definition long_bufC : list Z := replicate (Z.to_nat 1073741825) 0.
Definition long_h : heap Z :=
  <[1%positive := long_bufA]> (<[2%positive := [1]]> (<[3%positive := long_bufC]> ∅)).

(** A 2×2 matrix of rationals whose four elements are 5. *)
Definition ex_M : Matrix := {| rows := 2; cols := 2; data := 1%positive |}.
Definition ex_m : heap Q := <[1%positive := [5%Q; 5%Q; 5%Q; 5%Q]]> ∅.

(** ** Rules for the monad and the loop *)

Section Rules.
Context {R : Type}.
Implicit Types (h : heap R) (P Inv : heap R → Prop).

Lemma triple_ret {T} okF okT P (x : T) (Q : T → heap R → Prop) :
  (∀ h, P h → Q x h) → triple okF okT P (ret x) Q.
Proof. intros HQ h HP. simpl. auto. Qed.

Lemma triple_bind {T U} okF okT P (c : M R T) (k : T → M R U)
    (Q1 : T → heap R → Prop) (Q2 : U → heap R → Prop) :
  triple okF okT P c Q1 →
  (∀ x, triple okF okT (Q1 x) (k x) Q2) →
  triple okF okT P (bind c k) Q2.
Proof.
  intros Hc Hk h HP. specialize (Hc h HP). unfold bind.
  destruct (c h) as [[x h']| |]; auto.
  apply (Hk x h' Hc).
Qed.

(** Partial rule: whatever the fuel, a loop whose body keeps the
    invariant either keeps it or runs out of fuel. *)
Lemma triple_for okF (okT : Prop) Inv fuel lo hi step (body : Z → M R unit) :
  okT → 0 ≤ step →
  (∀ i, lo ≤ i < hi → triple okF okT Inv (body i) (λ _, Inv)) →
  triple okF okT Inv (for_loop fuel lo hi step body) (λ _, Inv).
Proof.
  intros HT Hstep. revert lo. induction fuel as [|fuel IH]; intros lo Hbody.
  - intros h _. exact HT.
  - simpl. case_decide as Hlt.
    + eapply triple_bind; [apply Hbody; lia|].
      intros []. apply IH. intros i Hi. apply Hbody. lia.
    + apply triple_ret. auto.
Qed.

(** The same when the body keeps the invariant at every index: the
    step is then of no account. *)
Lemma triple_for_all okF (okT : Prop) Inv fuel lo hi step (body : Z → M R unit) :
  okT →
  (∀ i, triple okF okT Inv (body i) (λ _, Inv)) →
  triple okF okT Inv (for_loop fuel lo hi step body) (λ _, Inv).
Proof.
  intros HT Hbody. revert lo. induction fuel as [|fuel IH]; intros lo.
  - intros h _. exact HT.
  - simpl. case_decide as Hlt.
    + eapply triple_bind; [apply Hbody|]. intros []. apply IH.
    + apply triple_ret. auto.
Qed.

(** Total rule: with a positive step and fuel beyond the distance to
    run, the loop finishes. *)
Lemma triple_for_total okF okT Inv fuel lo hi step (body : Z → M R unit) :
  0 < step →
  Z.max 0 (hi - lo) < Z.of_nat fuel →
  (∀ i, lo ≤ i < hi → triple okF okT Inv (body i) (λ _, Inv)) →
  triple okF okT Inv (for_loop fuel lo hi step body) (λ _, Inv).
Proof.
  intros Hstep. revert lo. induction fuel as [|fuel IH]; intros lo Hfuel Hbody.
  - lia.
  - simpl. case_decide as Hlt.
    + eapply triple_bind; [apply Hbody; lia|].
      intros []. apply IH; [lia|]. intros i Hi. apply Hbody. lia.
    + apply triple_ret. auto.
Qed.

(** Both at once: either [Timeout] is accepted, or the fuel suffices. *)
Lemma triple_for_gen okF (okT : Prop) Inv fuel lo hi step (body : Z → M R unit) :
  0 < step →
  okT ∨ Z.max 0 (hi - lo) < Z.of_nat fuel →
  (∀ i, lo ≤ i < hi → triple okF okT Inv (body i) (λ _, Inv)) →
  triple okF okT Inv (for_loop fuel lo hi step body) (λ _, Inv).
Proof.
  intros Hstep [HT|Hfuel] Hbody.
  - apply triple_for; [done|lia|done].
  - by apply triple_for_total.
Qed.

(** The loop with a local variable, under the same conditions. *)
Lemma triple_for_acc {T} okF (okT : Prop) Inv fuel lo hi step
    (body : Z → T → M R T) acc :
  0 < step →
  okT ∨ Z.max 0 (hi - lo) < Z.of_nat fuel →
  (∀ i a, lo ≤ i < hi → triple okF okT Inv (body i a) (λ _, Inv)) →
  triple okF okT Inv (for_loop_acc fuel lo hi step body acc) (λ _, Inv).
Proof.
  intros Hstep. revert lo acc.
  induction fuel as [|fuel IH]; intros lo acc Hfuel Hbody.
  - destruct Hfuel as [HT|Hfuel]; [|lia]. intros h _. exact HT.
  - simpl. case_decide as Hlt.
    + eapply triple_bind; [apply Hbody; lia|].
      intros a. apply IH; [destruct Hfuel; [by left|right; lia]|].
      intros i a' Hi. apply Hbody. lia.
    + apply triple_ret. auto.
Qed.

(** A loop whose body never faults does not fault, whatever its step. *)
Lemma for_loop_no_fault fuel lo hi step (body : Z → M R unit) h :
  (∀ i h', body i h' ≠ Fault) →
  for_loop fuel lo hi step body h ≠ Fault.
Proof.
  intros Hbody. revert lo h. induction fuel as [|fuel IH]; intros lo h; [done|].
  simpl. case_decide; [|done]. unfold bind.
  specialize (Hbody lo h). destruct (body lo h) as [[[] h']| |]; [apply IH|done..].
Qed.

(** With a step that is not positive the index never reaches the bound:
    no fuel lets the loop finish. *)
Lemma for_loop_no_progress fuel lo hi step (body : Z → M R unit) h :
  step ≤ 0 → lo < hi →
  (∀ i h', body i h' ≠ Fault) →
  for_loop fuel lo hi step body h = Timeout.
Proof.
  intros Hstep Hlt Hbody. revert lo h Hlt.
  induction fuel as [|fuel IH]; intros lo h Hlt; [done|].
  simpl. rewrite decide_True by done. unfold bind.
  specialize (Hbody lo h).
  destruct (body lo h) as [[[] h']| |]; [apply IH; lia|done..].
Qed.

(** A loop whose body changes nothing changes nothing. *)
Lemma for_loop_skip fuel lo hi (body : Z → M R unit) h :
  Z.max 0 (hi - lo) < Z.of_nat fuel →
  (∀ i, lo ≤ i < hi → body i h = Done (tt, h)) →
  for_loop fuel lo hi 1 body h = Done (tt, h).
Proof.
  revert lo. induction fuel as [|fuel IH]; intros lo Hfuel Hbody; [lia|].
  simpl. case_decide as Hlt; [|done].
  unfold bind. rewrite Hbody by lia. apply IH; [lia|].
  intros i Hi. apply Hbody. lia.
Qed.

(** A loop over an empty range does nothing. *)
Lemma for_loop_empty fuel lo hi step (body : Z → M R unit) h :
  hi ≤ lo → for_loop fuel lo hi step body h ≠ Fault.
Proof. intros Hle. destruct fuel; simpl; [done|]. by rewrite decide_False by lia. Qed.

Lemma triple_no_fault {T} okT P (c : M R T) Q h :
  triple False okT P c Q → P h → c h ≠ Fault.
Proof. intros Hc HP Heq. specialize (Hc h HP). by rewrite Heq in Hc. Qed.

Lemma triple_total {T} P (c : M R T) Q h :
  triple False False P c Q → P h → ∃ x h', c h = Done (x, h') ∧ Q x h'.
Proof.
  intros Hc HP. specialize (Hc h HP).
  destruct (c h) as [[x h']| |]; [eauto|done..].
Qed.

Lemma triple_partial {T} P (c : M R T) Q h x h' :
  triple True True P c Q → P h → c h = Done (x, h') → Q x h'.
Proof. intros Hc HP Heq. specialize (Hc h HP). by rewrite Heq in Hc. Qed.

(** More fuel does not change an answer. *)
Lemma settled_refl {T} (c : M R T) : settled c c.
Proof. by intros h o Hc _. Qed.

Lemma settled_bind {T U} (c c' : M R T) (k k' : T → M R U) :
  settled c c' → (∀ x, settled (k x) (k' x)) →
  settled (bind c k) (bind c' k').
Proof.
  intros Hc Hk h o Ho Hne. unfold bind in *.
  destruct (c h) as [[x h1]| |] eqn:Hch.
  - rewrite (Hc h _ Hch) by done. by apply Hk.
  - by rewrite (Hc h _ Hch).
  - by subst o.
Qed.

Lemma settled_for fuel fuel' lo hi step (body body' : Z → M R unit) :
  (fuel ≤ fuel')%nat →
  (∀ i, settled (body i) (body' i)) →
  settled (for_loop fuel lo hi step body) (for_loop fuel' lo hi step body').
Proof.
  intros Hle Hbody. revert fuel' lo Hle.
  induction fuel as [|fuel IH]; intros fuel' lo Hle h o Ho Hne.
  - simpl in Ho. by subst o.
  - destruct fuel' as [|fuel']; [lia|]. simpl in *.
    case_decide; [|done].
    revert h o Ho Hne. apply settled_bind; [apply Hbody|].
    intros []. apply IH. lia.
Qed.

Lemma settled_for_acc {T} fuel fuel' lo hi step (body body' : Z → T → M R T) acc :
  (fuel ≤ fuel')%nat →
  (∀ i a, settled (body i a) (body' i a)) →
  settled (for_loop_acc fuel lo hi step body acc)
          (for_loop_acc fuel' lo hi step body' acc).
Proof.
  intros Hle Hbody. revert fuel' lo acc Hle.
  induction fuel as [|fuel IH]; intros fuel' lo acc Hle h o Ho Hne.
  - simpl in Ho. by subst o.
  - destruct fuel' as [|fuel']; [lia|]. simpl in *.
    case_decide; [|done].
    revert h o Ho Hne. apply settled_bind; [apply Hbody|].
    intros a. apply IH. lia.
Qed.

(** The indices of a loop. *)
Lemma zrange_fuel_enough fuel fuel' lo hi step :
  0 < step → hi - lo ≤ Z.of_nat fuel → hi - lo ≤ Z.of_nat fuel' →
  zrange_fuel fuel lo hi step = zrange_fuel fuel' lo hi step.
Proof.
  intros Hstep. revert fuel' lo.
  induction fuel as [|fuel IH]; intros [|fuel'] lo H1 H2; simpl; try done.
  - case_decide; [lia|done].
  - case_decide; [lia|done].
  - case_decide; [|done]. f_equal. apply IH; lia.
Qed.

Lemma zrange_nil lo hi step : ¬ lo < hi → zrange lo hi step = [].
Proof.
  intros H. unfold zrange. destruct (Z.to_nat (hi - lo)); simpl; [done|].
  by rewrite decide_False.
Qed.

Lemma zrange_cons lo hi step :
  0 < step → lo < hi → zrange lo hi step = lo :: zrange (lo + step) hi step.
Proof.
  intros Hstep Hlt. unfold zrange.
  destruct (Z.to_nat (hi - lo)) as [|k] eqn:Hk; [lia|].
  simpl. rewrite decide_True by done. f_equal.
  apply zrange_fuel_enough; lia.
Qed.

Lemma zrange_unit lo hi : zrange lo hi 1 = seqZ lo (hi - lo).
Proof.
  destruct (decide (lo < hi)) as [Hlt|Hge].
  - remember (Z.to_nat (hi - lo)) as k eqn:Hk.
    revert lo Hlt Hk. induction k as [|k IH]; intros lo Hlt Hk; [lia|].
    rewrite zrange_cons by lia.
    replace (hi - lo) with (Z.succ (hi - (lo + 1))) by lia.
    destruct (decide (lo + 1 < hi)) as [Hlt'|Hge'].
    + rewrite seqZ_cons by lia. f_equal.
      rewrite IH by lia. f_equal; lia.
    + rewrite zrange_nil by done. replace (hi - (lo + 1)) with 0 by lia.
      done.
  - rewrite zrange_nil by done. unfold seqZ.
    replace (Z.to_nat (hi - lo)) with 0%nat by lia. done.
Qed.

(** After its first index a loop is at least one step further. *)
Lemma zrange_first_or_later x lo hi step :
  0 < step → x ∈ zrange lo hi step → x = lo ∨ lo + step ≤ x.
Proof.
  intros Hstep.
  assert (∀ k lo, (Z.to_nat (hi - lo) ≤ k)%nat →
            x ∈ zrange lo hi step → x = lo ∨ lo + step ≤ x) as Hgen; [|by eauto].
  clear lo. induction k as [|k IH]; intros lo Hk Hx.
  - rewrite zrange_nil in Hx by lia. by apply elem_of_nil in Hx.
  - destruct (decide (lo < hi)) as [Hlt|Hge].
    + rewrite zrange_cons in Hx by done.
      apply elem_of_cons in Hx as [->|Hx]; [by left|right].
      apply IH in Hx; lia.
    + rewrite zrange_nil in Hx by done. by apply elem_of_nil in Hx.
Qed.

Lemma elem_of_zrange x lo hi step :
  0 < step → x ∈ zrange lo hi step → lo ≤ x < hi.
Proof.
  intros Hstep.
  assert (∀ k lo, (Z.to_nat (hi - lo) ≤ k)%nat →
            x ∈ zrange lo hi step → lo ≤ x < hi) as Hgen; [|by eauto].
  clear lo. induction k as [|k IH]; intros lo Hk Hx.
  - rewrite zrange_nil in Hx by lia. by apply elem_of_nil in Hx.
  - destruct (decide (lo < hi)) as [Hlt|Hge].
    + rewrite zrange_cons in Hx by done.
      apply elem_of_cons in Hx as [->|Hx]; [lia|].
      apply IH in Hx; lia.
    + rewrite zrange_nil in Hx by done. by apply elem_of_nil in Hx.
Qed.

(** *** Sums of [int]s and the loops that step by a variable *)

Lemma int_add_fits (a b : Z) h :
  INT_MIN ≤ a + b ≤ INT_MAX → @int_add R a b h = Done (a + b, h).
Proof. intros Hfit. unfold int_add. by rewrite decide_True. Qed.

Lemma int_add_overflows (a b : Z) h :
  INT_MAX < a + b → @int_add R a b h = Fault.
Proof. intros Hover. unfold int_add. rewrite decide_False; [done|lia]. Qed.

Lemma int_add_underflows (a b : Z) h :
  a + b < INT_MIN → @int_add R a b h = Fault.
Proof. intros Hunder. unfold int_add. rewrite decide_False; [done|lia]. Qed.

Lemma int_mul_fits (a b : Z) h :
  INT_MIN ≤ a * b ≤ INT_MAX → @int_mul R a b h = Done (a * b, h).
Proof. intros Hfit. unfold int_mul. by rewrite decide_True. Qed.

Lemma int_mul_overflows (a b : Z) h :
  INT_MAX < a * b → @int_mul R a b h = Fault.
Proof. intros Hover. unfold int_mul. rewrite decide_False; [done|lia]. Qed.

Lemma triple_int_add_bind {T} okF okT P (a b : Z) (k : Z → M R T) Q :
  okF ∨ INT_MIN ≤ a + b ≤ INT_MAX →
  triple okF okT P (k (a + b)) Q →
  triple okF okT P (bind (int_add a b) k) Q.
Proof.
  intros Hfit Hk h HP. unfold bind, int_add. case_decide as Hsum.
  - by apply Hk.
  - by destruct Hfit.
Qed.

Lemma ternary_end_fits (ii bs m : Z) h :
  INT_MIN ≤ ii + bs ≤ INT_MAX →
  @ternary_end R ii bs m h = Done (Z.min (ii + bs) m, h).
Proof.
  intros Hfit. unfold ternary_end, bind. rewrite int_add_fits by done.
  case_decide.
  - rewrite int_add_fits by done. do 2 f_equal. lia.
  - unfold ret. do 2 f_equal. lia.
Qed.

Lemma ternary_end_overflows (ii bs m : Z) h :
  INT_MAX < ii + bs → @ternary_end R ii bs m h = Fault.
Proof.
  intros Hover. unfold ternary_end, bind. by rewrite int_add_overflows.
Qed.

Lemma ternary_end_underflows (ii bs m : Z) h :
  ii + bs < INT_MIN → @ternary_end R ii bs m h = Fault.
Proof.
  intros Hunder. unfold ternary_end, bind. by rewrite int_add_underflows.
Qed.

Lemma triple_ternary_end_bind {T} okF okT P (ii bs m : Z) (k : Z → M R T) Q :
  okF ∨ INT_MIN ≤ ii + bs ≤ INT_MAX →
  triple okF okT P (k (Z.min (ii + bs) m)) Q →
  triple okF okT P (bind (ternary_end ii bs m) k) Q.
Proof.
  intros Hfit Hk h HP. unfold bind.
  destruct (decide (INT_MIN ≤ ii + bs ≤ INT_MAX)) as [Hsum|Hsum].
  - rewrite ternary_end_fits by done. by apply Hk.
  - destruct Hfit as [HF|Hfit]; [|done].
    destruct (decide (ii + bs < INT_MIN)).
    + by rewrite ternary_end_underflows.
    + rewrite ternary_end_overflows by lia. done.
Qed.

(** The first index of a loop that runs is one of its indices. *)
Lemma zrange_first lo hi step :
  0 < step → lo < hi → lo ∈ zrange lo hi step.
Proof. intros Hstep Hlt. rewrite zrange_cons by done. by left. Qed.

Lemma zrange_later i lo hi step :
  0 < step → lo < hi → i ∈ zrange (lo + step) hi step → i ∈ zrange lo hi step.
Proof. intros Hstep Hlt Hi. rewrite zrange_cons by done. by right. Qed.

(** The rule of the tile loop, which starts at an [int] and steps
    upwards: its body runs at indices whose next index is an [int]. *)
Lemma triple_for_int okF (okT : Prop) Inv fuel lo hi step (body : Z → M R unit) :
  0 < step → INT_MIN ≤ lo →
  okT ∨ Z.max 0 (hi - lo) < Z.of_nat fuel →
  okF ∨ (∀ i, i ∈ zrange lo hi step → i + step ≤ INT_MAX) →
  (∀ i, lo ≤ i < hi → okF ∨ i + step ≤ INT_MAX →
     triple okF okT Inv (body i) (λ _, Inv)) →
  triple okF okT Inv (for_loop_int fuel lo hi step body) (λ _, Inv).
Proof.
  intros Hstep. revert lo.
  induction fuel as [|fuel IH]; intros lo Hmin Hfuel Hfit Hbody.
  - destruct Hfuel as [HT|Hfuel]; [|lia]. intros h _. exact HT.
  - simpl. case_decide as Hlt; [|apply triple_ret; auto].
    assert (okF ∨ lo + step ≤ INT_MAX) as Hlo.
    { destruct Hfit as [?|Hfit]; [by left|right]. by apply Hfit, zrange_first. }
    eapply triple_bind; [apply Hbody; [lia|done]|]. intros [].
    apply triple_int_add_bind; [destruct Hlo; [by left|right; lia]|].
    apply IH.
    + lia.
    + destruct Hfuel; [by left|right; lia].
    + destruct Hfit as [?|Hfit]; [by left|right].
      intros i Hi. by apply Hfit, zrange_later.
    + intros i Hi. apply Hbody. lia.
Qed.

(** The same when faults and running out of fuel are accepted. *)
Lemma triple_for_int_all okF (okT : Prop) Inv fuel lo hi step
    (body : Z → M R unit) :
  okT → okF →
  (∀ i, triple okF okT Inv (body i) (λ _, Inv)) →
  triple okF okT Inv (for_loop_int fuel lo hi step body) (λ _, Inv).
Proof.
  intros HT HF Hbody. revert lo. induction fuel as [|fuel IH]; intros lo.
  - intros h _. exact HT.
  - simpl. case_decide as Hlt; [|apply triple_ret; auto].
    eapply triple_bind; [apply Hbody|]. intros [].
    apply triple_int_add_bind; [by left|]. apply IH.
Qed.

(** With a step that is not positive the index only goes down.  While
    [fuel] steps down from [lo] stay above [INT_MIN] the loop faults
    only if its body does. *)
Lemma for_loop_int_no_fault fuel lo hi step (body : Z → M R unit) h :
  step ≤ 0 → lo ≤ INT_MAX → INT_MIN ≤ lo + Z.of_nat fuel * step →
  (∀ i h', i ≤ lo → INT_MIN ≤ i + step → body i h' ≠ Fault) →
  for_loop_int fuel lo hi step body h ≠ Fault.
Proof.
  intros Hstep. revert lo h.
  induction fuel as [|fuel IH]; intros lo h Hlo Hmin Hbody; [done|].
  rewrite Nat2Z.inj_succ, Z.mul_succ_l in Hmin.
  assert (Z.of_nat fuel * step ≤ 0) as Hdown by nia.
  simpl. case_decide; [|done]. unfold bind.
  pose proof (Hbody lo h ltac:(lia) ltac:(lia)) as Hb.
  destruct (body lo h) as [[[] h']| |]; [|done..].
  rewrite int_add_fits by lia.
  apply IH; [lia|lia|]. intros i h1 Hi Hi'. apply Hbody; lia.
Qed.

(** It never gets past its bound, and within [int] it does not stop. *)
Lemma for_loop_int_no_return fuel lo hi step (body : Z → M R unit) h r :
  step ≤ 0 → lo < hi →
  for_loop_int fuel lo hi step body h ≠ Done r.
Proof.
  intros Hstep. revert lo h.
  induction fuel as [|fuel IH]; intros lo h Hlt; [done|].
  simpl. rewrite decide_True by done. unfold bind.
  destruct (body lo h) as [[[] h']| |]; [|done..].
  unfold int_add. case_decide; [|done]. apply IH. lia.
Qed.

Lemma for_loop_int_no_progress fuel lo hi step (body : Z → M R unit) h :
  step ≤ 0 → lo < hi → lo ≤ INT_MAX → INT_MIN ≤ lo + Z.of_nat fuel * step →
  (∀ i h', i ≤ lo → INT_MIN ≤ i + step → body i h' ≠ Fault) →
  for_loop_int fuel lo hi step body h = Timeout.
Proof.
  intros Hstep Hlt Hlo Hmin Hbody.
  pose proof (for_loop_int_no_fault fuel lo hi step body h
                Hstep Hlo Hmin Hbody) as Hfault.
  destruct (for_loop_int fuel lo hi step body h) as [r| |] eqn:Hrun; [|done..].
  by apply for_loop_int_no_return in Hrun.
Qed.

Lemma settled_for_int fuel fuel' lo hi step (body body' : Z → M R unit) :
  (fuel ≤ fuel')%nat →
  (∀ i, settled (body i) (body' i)) →
  settled (for_loop_int fuel lo hi step body)
          (for_loop_int fuel' lo hi step body').
Proof.
  intros Hle Hbody. revert fuel' lo Hle.
  induction fuel as [|fuel IH]; intros fuel' lo Hle h o Ho Hne.
  - simpl in Ho. by subst o.
  - destruct fuel' as [|fuel']; [lia|]. simpl in *.
    case_decide; [|done].
    revert h o Ho Hne. apply settled_bind; [apply Hbody|].
    intros []. apply settled_bind; [apply settled_refl|].
    intros i'. apply IH. lia.
Qed.

(** Two conditions under which the tile loops stay within [int]: a
    dimension of at most 2^30 with any block size that is an [int], and
    a block size that leaves room above the dimension. *)
Lemma tile_bounds_fit_int ii m block_size :
  0 ≤ m ≤ 2 ^ 30 → 1 ≤ block_size ≤ INT_MAX →
  ii ∈ zrange 0 m block_size →
  0 ≤ ii < m ∧ ii + block_size ≤ INT_MAX.
Proof.
  intros Hm Hbs Hii. unfold INT_MAX in *.
  pose proof (elem_of_zrange ii 0 m block_size ltac:(lia) Hii).
  pose proof (zrange_first_or_later ii 0 m block_size ltac:(lia) Hii).
  lia.
Qed.

Lemma tiles_fit_small d block_size :
  0 ≤ d ≤ 2 ^ 30 → 1 ≤ block_size ≤ INT_MAX → tiles_fit_int d block_size.
Proof. intros Hd Hbs ii Hii. by apply (tile_bounds_fit_int ii d). Qed.

Lemma tiles_fit_room d block_size :
  1 ≤ block_size → d + block_size ≤ INT_MAX + 1 → tiles_fit_int d block_size.
Proof.
  intros Hbs Hroom ii Hii.
  pose proof (elem_of_zrange ii 0 d block_size ltac:(lia) Hii). lia.
Qed.

End Rules.

(** ** Element accesses and the accumulation statements *)

Section Access.
Context {R : Type}.
Variables (Radd Rmul : R → R → R).
Implicit Types (h : heap R) (P : heap R → Prop).

Lemma offset_bound A i j :
  in_range A i j → 0 ≤ offset A i j < rows A * cols A.
Proof. unfold in_range, offset. nia. Qed.

(** [&MAT(A,i,0)] indexed by [j] is the element (i,j). *)
Lemma offset_row A i j : offset A i 0 + j = offset A i j.
Proof. unfold offset. lia. Qed.

Lemma offset_inj A i j i' j' :
  in_range A i j → in_range A i' j' →
  offset A i j = offset A i' j' → i = i' ∧ j = j'.
Proof.
  unfold in_range, offset. intros [Hi Hj] [Hi' Hj'] Heq.
  destruct (Z.lt_trichotomy i i') as [Hlt|[->|Hgt]]; [nia|lia|nia].
Qed.

Lemma sized_lookup h A i j :
  sized h A → in_range A i j →
  ∃ buf v, h !! data A = Some buf ∧ buf !! Z.to_nat (offset A i j) = Some v.
Proof.
  intros (buf & Hbuf & ? & ? & Hlen) Hin. exists buf.
  destruct (lookup_lt_is_Some_2 buf (Z.to_nat (offset A i j))) as [v Hv].
  { pose proof (offset_bound A i j Hin). lia. }
  eauto.
Qed.

Lemma sized_update h A l buf p v :
  sized h A → h !! l = Some buf → sized (<[l := <[p := v]> buf]> h) A.
Proof.
  intros (bufA & HA & ? & ? & Hlen) Hl. unfold sized.
  destruct (decide (l = data A)) as [->|Hne].
  - rewrite lookup_insert_eq. eexists; split; [done|].
    rewrite length_insert. naive_solver.
  - rewrite lookup_insert_ne by done. eauto.
Qed.

Lemma vsized_update h x len l buf p v :
  vsized h x len → h !! l = Some buf → vsized (<[l := <[p := v]> buf]> h) x len.
Proof.
  intros (bufx & Hx & Hlen) Hl. unfold vsized.
  destruct (decide (l = x)) as [->|Hne].
  - rewrite lookup_insert_eq. eexists; split; [done|].
    rewrite length_insert. naive_solver.
  - rewrite lookup_insert_ne by done. eauto.
Qed.

Lemma only_at_update t h0 h buf p v :
  only_at t h0 h → only_at t h0 (<[t := <[p := v]> buf]> h).
Proof. intros Hh l Hl. rewrite lookup_insert_ne by done. by apply Hh. Qed.

Lemma elem_get_triple okF okT P A i j :
  okF ∨ (in_range A i j ∧ ∀ h, P h → sized h A) →
  triple okF okT P (elem_get A i j) (λ _, P).
Proof.
  intros Hok h HP. unfold elem_get. destruct Hok as [HF|[Hin Hs]].
  - repeat case_match; simplify_eq; auto.
  - rewrite decide_True by done.
    destruct (sized_lookup h A i j (Hs h HP) Hin) as (buf & v & -> & ->). done.
Qed.

Lemma elem_set_triple okF okT P A i j v :
  okF ∨ (in_range A i j ∧ ∀ h, P h → sized h A) →
  stable_at P (data A) →
  triple okF okT P (elem_set A i j v) (λ _, P).
Proof.
  intros Hok Hst h HP. unfold elem_set. destruct Hok as [HF|[Hin Hs]].
  - repeat case_match; simplify_eq; auto; eapply Hst; eauto.
  - rewrite decide_True by done.
    destruct (sized_lookup h A i j (Hs h HP) Hin) as (buf & w & Hbuf & Hw).
    rewrite Hbuf. apply lookup_lt_Some in Hw.
    rewrite decide_True by done. eapply Hst; eauto.
Qed.

Lemma vec_get_triple okF okT P x len i :
  okF ∨ (0 ≤ i < len ∧ ∀ h, P h → vsized h x len) →
  triple okF okT P (vec_get x i) (λ _, P).
Proof.
  intros Hok h HP. unfold vec_get. destruct Hok as [HF|[Hin Hs]].
  - repeat case_match; simplify_eq; auto.
  - rewrite decide_True by lia.
    destruct (Hs h HP) as (buf & -> & Hlen).
    destruct (lookup_lt_is_Some_2 buf (Z.to_nat i)) as [v ->]; [lia|done].
Qed.

Lemma vec_set_triple okF okT P y len i v :
  okF ∨ (0 ≤ i < len ∧ ∀ h, P h → vsized h y len) →
  stable_at P y →
  triple okF okT P (vec_set y i v) (λ _, P).
Proof.
  intros Hok Hst h HP. unfold vec_set. destruct Hok as [HF|[Hin Hs]].
  - repeat case_match; simplify_eq; auto; eapply Hst; eauto.
  - rewrite decide_True by lia.
    destruct (Hs h HP) as (buf & Hbuf & Hlen). rewrite Hbuf.
    rewrite decide_True by lia. eapply Hst; eauto.
Qed.

(** Binding a reference or taking an address checks and goes on. *)
Lemma vec_ref_triple {T} okF okT P y len i (k : pointer → M R T) Q :
  okF ∨ (0 ≤ i < len ∧ ∀ h, P h → vsized h y len) →
  triple okF okT P (k (y, i)) Q →
  triple okF okT P (bind (vec_ref y i) k) Q.
Proof.
  intros Hok Hk h HP. specialize (Hk h HP). unfold bind, vec_ref.
  destruct Hok as [HF|[Hin Hs]].
  - destruct (decide (0 ≤ i)); [|exact HF].
    destruct (h !! y); [|exact HF]. by case_decide.
  - rewrite decide_True by lia. destruct (Hs h HP) as (buf & -> & Hlen).
    by rewrite decide_True by lia.
Qed.

Lemma elem_addr_triple {T} okF okT P A i (k : pointer → M R T) Q :
  okF ∨ (0 ≤ i < rows A ∧ ∀ h, P h → sized h A) →
  triple okF okT P (k (data A, offset A i 0)) Q →
  triple okF okT P (bind (elem_addr A i 0) k) Q.
Proof.
  intros Hok Hk h HP. specialize (Hk h HP). unfold bind, elem_addr.
  destruct Hok as [HF|(Hi & Hs)].
  - destruct (decide (0 ≤ offset A i 0)); [|exact HF].
    destruct (h !! data A); [|exact HF]. by case_decide.
  - destruct (Hs h HP) as (buf & -> & Hm & Hn & Hlen).
    assert (0 ≤ offset A i 0 ≤ rows A * cols A) by (unfold offset; nia).
    rewrite decide_True by lia. by rewrite decide_True by lia.
Qed.

Lemma sized_vsized h A : sized h A → vsized h (data A) (rows A * cols A).
Proof. intros (buf & Hbuf & _ & _ & Hlen). exists buf. split; [done|lia]. Qed.

Lemma madd_ok_A okF P A B C i j k :
  madd_ok okF P A B C i j k → okF ∨ (in_range A i k ∧ ∀ h, P h → sized h A).
Proof.
  intros [?|(? & ? & ? & Hs)]; [by left|right].
  split; [done|]. intros h Hh. by destruct (Hs h Hh) as (? & ? & ?).
Qed.

Lemma madd_ok_B okF P A B C i j k :
  madd_ok okF P A B C i j k → okF ∨ (in_range B k j ∧ ∀ h, P h → sized h B).
Proof.
  intros [?|(? & ? & ? & Hs)]; [by left|right].
  split; [done|]. intros h Hh. by destruct (Hs h Hh) as (? & ? & ?).
Qed.

Lemma madd_ok_C okF P A B C i j k :
  madd_ok okF P A B C i j k → okF ∨ (in_range C i j ∧ ∀ h, P h → sized h C).
Proof.
  intros [?|(? & ? & ? & Hs)]; [by left|right].
  split; [done|]. intros h Hh. by destruct (Hs h Hh) as (? & ? & ?).
Qed.

Lemma madd_triple okF okT P A B C i j k :
  madd_ok okF P A B C i j k → stable_at P (data C) →
  triple okF okT P (madd Radd Rmul A B C i j k) (λ _, P).
Proof.
  intros Hok Hst. unfold madd.
  eapply triple_bind; [eapply elem_get_triple, madd_ok_A, Hok|intros a].
  eapply triple_bind; [eapply elem_get_triple, madd_ok_B, Hok|intros b].
  eapply triple_bind; [eapply elem_get_triple, madd_ok_C, Hok|intros c].
  apply elem_set_triple; [eapply madd_ok_C, Hok|done].
Qed.

Lemma madd_a_triple okF okT P a A B C i j k :
  madd_ok okF P A B C i j k → stable_at P (data C) →
  triple okF okT P (madd_a Radd Rmul a B C i j k) (λ _, P).
Proof.
  intros Hok Hst. unfold madd_a.
  eapply triple_bind; [eapply elem_get_triple, madd_ok_B, Hok|intros b].
  eapply triple_bind; [eapply elem_get_triple, madd_ok_C, Hok|intros c].
  apply elem_set_triple; [eapply madd_ok_C, Hok|done].
Qed.

Lemma madd_b_triple okF okT P b A B C i j k :
  madd_ok okF P A B C i j k → stable_at P (data C) →
  triple okF okT P (madd_b Radd Rmul b A C i j k) (λ _, P).
Proof.
  intros Hok Hst. unfold madd_b.
  eapply triple_bind; [eapply elem_get_triple, madd_ok_A, Hok|intros a].
  eapply triple_bind; [eapply elem_get_triple, madd_ok_C, Hok|intros c].
  apply elem_set_triple; [eapply madd_ok_C, Hok|done].
Qed.

Lemma vadd_triple okF okT P A x y i j :
  vadd_ok okF P A x y i j → stable_at P y →
  triple okF okT P (vadd Radd Rmul A x y i j) (λ _, P).
Proof.
  intros Hok Hst. unfold vadd.
  assert (okF ∨ (in_range A i j ∧ ∀ h, P h → sized h A)) as HA.
  { destruct Hok as [?|[? Hs]]; [by left|right]. split; [done|].
    intros h Hh. by destruct (Hs h Hh) as (? & ? & ?). }
  assert (okF ∨ (0 ≤ j < cols A ∧ ∀ h, P h → vsized h x (cols A))) as Hx.
  { destruct Hok as [?|[[? ?] Hs]]; [by left|right]. split; [done|].
    intros h Hh. by destruct (Hs h Hh) as (? & ? & ?). }
  assert (okF ∨ (0 ≤ i < rows A ∧ ∀ h, P h → vsized h y (rows A))) as Hy.
  { destruct Hok as [?|[[? ?] Hs]]; [by left|right]. split; [done|].
    intros h Hh. by destruct (Hs h Hh) as (? & ? & ?). }
  eapply triple_bind; [by apply elem_get_triple|intros a].
  eapply triple_bind; [by eapply vec_get_triple|intros xj].
  eapply triple_bind; [by eapply vec_get_triple|intros yi].
  by eapply vec_set_triple.
Qed.

End Access.

(** ** One rule per kernel *)

Section KernelRules.
Context {R : Type}.
Variables (Radd Rmul : R → R → R).
Variables (okF okT : Prop) (P : heap R → Prop).

Lemma madd_ok_of_gemm A B C i j k :
  gemm_ok okF P A B C →
  0 ≤ i < rows A → 0 ≤ k < cols A → 0 ≤ j < cols B →
  madd_ok okF P A B C i j k.
Proof.
  intros [?|[(Hr & Hm & Hn) Hs]] Hi Hk Hj; [by left|right].
  unfold in_range. rewrite <- Hr, Hm, Hn. done.
Qed.

Lemma vadd_ok_of_gaxpy A x y i j :
  gaxpy_ok okF P A x y → 0 ≤ i < rows A → 0 ≤ j < cols A →
  vadd_ok okF P A x y i j.
Proof. intros [?|Hs] Hi Hj; [by left|right]. done. Qed.

Lemma elem_get_ok_of_gemm_A A B C i k :
  gemm_ok okF P A B C → 0 ≤ i < rows A → 0 ≤ k < cols A →
  triple okF okT P (elem_get A i k) (λ _, P).
Proof.
  intros Hok Hi Hk. apply elem_get_triple.
  destruct Hok as [?|[_ Hs]]; [by left|right].
  split; [done|]. intros h Hh. by destruct (Hs h Hh) as (? & ? & ?).
Qed.

Lemma elem_get_ok_of_gemm_B A B C k j :
  gemm_ok okF P A B C → 0 ≤ k < cols A → 0 ≤ j < cols B →
  triple okF okT P (elem_get B k j) (λ _, P).
Proof.
  intros Hok Hk Hj. apply elem_get_triple.
  destruct Hok as [?|[(Hr & _ & _) Hs]]; [by left|right].
  split; [unfold in_range; by rewrite <- Hr|].
  intros h Hh. by destruct (Hs h Hh) as (? & ? & ?).
Qed.

Lemma row_ok_of_gemm_C A B C i j :
  gemm_ok okF P A B C → 0 ≤ i < rows A → 0 ≤ j < cols B →
  okF ∨ (0 ≤ offset C i 0 + j < rows C * cols C ∧
         ∀ h, P h → vsized h (data C) (rows C * cols C)).
Proof.
  intros [?|[(Hr & Hm & Hn) Hs]] Hi Hj; [by left|right]. split.
  - unfold offset. rewrite Hm, Hn. nia.
  - intros h Hh. apply sized_vsized. by destruct (Hs h Hh) as (? & ? & ?).
Qed.

Lemma row_ok_of_gemm_B A B C k j :
  gemm_ok okF P A B C → 0 ≤ k < cols A → 0 ≤ j < cols B →
  okF ∨ (0 ≤ offset B k 0 + j < rows B * cols B ∧
         ∀ h, P h → vsized h (data B) (rows B * cols B)).
Proof.
  intros [?|[(Hr & Hm & Hn) Hs]] Hk Hj; [by left|right]. split.
  - unfold offset. rewrite <- Hr. nia.
  - intros h Hh. apply sized_vsized. by destruct (Hs h Hh) as (? & ? & ?).
Qed.

Lemma addr_ok_of_gemm_C A B C i :
  gemm_ok okF P A B C → 0 ≤ i < rows A →
  okF ∨ (0 ≤ i < rows C ∧ ∀ h, P h → sized h C).
Proof.
  intros [?|[(Hr & Hm & Hn) Hs]] Hi; [by left|right]. split; [lia|].
  intros h Hh. by destruct (Hs h Hh) as (? & ? & ?).
Qed.

Lemma addr_ok_of_gemm_B A B C k :
  gemm_ok okF P A B C → 0 ≤ k < cols A →
  okF ∨ (0 ≤ k < rows B ∧ ∀ h, P h → sized h B).
Proof.
  intros [?|[(Hr & Hm & Hn) Hs]] Hk; [by left|right]. split; [lia|].
  intros h Hh. by destruct (Hs h Hh) as (? & ? & ?).
Qed.

Lemma min_ternary (a b : Z) : (if decide (a < b) then a else b) = Z.min a b.
Proof. case_decide; lia. Qed.

Ltac fuel_side :=
  match goal with
  | Hfuel : fuel_ok _ _ _ |- _ =>
      unfold dim_max in Hfuel; destruct Hfuel as [?|?]; [by left|right; lia]
  end.

Ltac enter_loop :=
  apply triple_for_gen; [lia|fuel_side|intros ? ?].

Ltac fit_side :=
  first
    [ assumption
    | match goal with
      | Hfit : _ ∨ blocks_fit_int _ _ _ |- _ =>
          destruct Hfit as [?|(? & ? & ?)]; [by left|by right]
      end ].

Ltac enter_tiles :=
  apply triple_for_int;
    [lia|unfold INT_MIN; lia|fuel_side|fit_side|intros ? ? ?].

(** The end of a tile that starts at an index >= 0. *)
Ltac tile_end :=
  match goal with
  | Hsum : ?F ∨ ?s ≤ INT_MAX |- ?F ∨ INT_MIN ≤ ?s ≤ INT_MAX =>
      destruct Hsum; [by left|right; unfold INT_MIN; lia]
  end.

Ltac finish_madd :=
  first [eapply madd_triple|eapply madd_a_triple|eapply madd_b_triple];
  [eapply madd_ok_of_gemm; (eassumption || lia)|done].

Ltac read_A := eapply triple_bind;
  [eapply elem_get_ok_of_gemm_A; [eassumption|lia|lia]|intros ?].

Ltac read_B := eapply triple_bind;
  [eapply elem_get_ok_of_gemm_B; [eassumption|lia|lia]|intros ?].

Section Gemm.
Variables (fuel : nat) (A B C : Matrix).
Hypothesis Hfuel : fuel_ok okT fuel (dim_max A B).
Hypothesis Hok : gemm_ok okF P A B C.
Hypothesis Hst : stable_at P (data C).

Lemma gemm_ijk_triple : triple okF okT P (gemm_ijk Radd Rmul fuel A B C) (λ _, P).
Proof. unfold gemm_ijk. do 3 enter_loop. finish_madd. Qed.

Lemma gemm_jik_triple : triple okF okT P (gemm_jik Radd Rmul fuel A B C) (λ _, P).
Proof. unfold gemm_jik. do 3 enter_loop. finish_madd. Qed.

Lemma gemm_ikj_triple : triple okF okT P (gemm_ikj Radd Rmul fuel A B C) (λ _, P).
Proof. unfold gemm_ikj. do 3 enter_loop. finish_madd. Qed.

Lemma gemm_jki_triple : triple okF okT P (gemm_jki Radd Rmul fuel A B C) (λ _, P).
Proof. unfold gemm_jki. do 3 enter_loop. finish_madd. Qed.

Lemma gemm_kij_triple : triple okF okT P (gemm_kij Radd Rmul fuel A B C) (λ _, P).
Proof. unfold gemm_kij. do 3 enter_loop. finish_madd. Qed.

Lemma gemm_kji_triple : triple okF okT P (gemm_kji Radd Rmul fuel A B C) (λ _, P).
Proof. unfold gemm_kji. do 3 enter_loop. finish_madd. Qed.

Lemma gemm_triple o : triple okF okT P (gemm Radd Rmul o fuel A B C) (λ _, P).
Proof.
  destruct o; simpl;
    auto using gemm_ijk_triple, gemm_jik_triple, gemm_ikj_triple,
               gemm_jki_triple, gemm_kij_triple, gemm_kji_triple.
Qed.

(** The tiles of one block row. *)
Lemma outer_block_middle_loop_triple block_size ii :
  1 ≤ block_size → 0 ≤ ii < rows A →
  okF ∨ ii + block_size ≤ INT_MAX →
  okF ∨ tiles_fit_int (cols B) block_size →
  okF ∨ tiles_fit_int (cols A) block_size →
  triple okF okT P
    (outer_block_middle_loop Radd Rmul fuel A B C ii block_size
       (rows A) (cols B) (cols A)) (λ _, P).
Proof.
  intros Hbs Hii Hsum Hfn Hfr.
  unfold outer_block_middle_loop, outer_block_inner_loop,
    inner_block_outer_loop, inner_block_middle_loop, inner_block_inner_loop.
  do 2 enter_tiles. do 3 (apply triple_int_add_bind; [tile_end|]). cbv zeta.
  do 3 enter_loop. finish_madd.
Qed.

Lemma gemm_blocked_triple block_size :
  1 ≤ block_size →
  okF ∨ blocks_fit_int A B block_size →
  triple okF okT P (gemm_blocked Radd Rmul fuel A B C block_size) (λ _, P).
Proof.
  intros Hbs Hfit. unfold gemm_blocked, outer_block_outer_loop. cbv zeta.
  enter_tiles.
  apply outer_block_middle_loop_triple; [done..| |];
    (destruct Hfit as [?|(? & ? & ?)]; [by left|by right]).
Qed.

Lemma matmul_ijk_triple : triple okF okT P (matmul_ijk Radd Rmul fuel C A B) (λ _, P).
Proof. unfold matmul_ijk, inner_dot_product. cbv zeta. do 3 enter_loop. finish_madd. Qed.

Lemma matmul_jik_triple : triple okF okT P (matmul_jik Radd Rmul fuel C A B) (λ _, P).
Proof. unfold matmul_jik, inner_dot_product. cbv zeta. do 3 enter_loop. finish_madd. Qed.

Lemma matmul_saxpy_triple : triple okF okT P (matmul_saxpy Radd Rmul fuel C A B) (λ _, P).
Proof.
  unfold matmul_saxpy, inner_saxpy_column. cbv zeta.
  do 2 enter_loop. read_B. enter_loop. finish_madd.
Qed.

Lemma matmul_ikj_triple : triple okF okT P (matmul_ikj Radd Rmul fuel C A B) (λ _, P).
Proof.
  unfold matmul_ikj, inner_saxpy_row. cbv zeta.
  do 2 enter_loop. read_A. enter_loop. finish_madd.
Qed.

Lemma matmul_outer_product_triple :
  triple okF okT P (matmul_outer_product Radd Rmul fuel C A B) (λ _, P).
Proof. unfold matmul_outer_product. cbv zeta. do 3 enter_loop. finish_madd. Qed.

Lemma matmul_kij_triple : triple okF okT P (matmul_kij Radd Rmul fuel C A B) (λ _, P).
Proof.
  unfold matmul_kij, inner_saxpy_row. cbv zeta.
  do 2 enter_loop. read_A. enter_loop. finish_madd.
Qed.

Lemma matmul_triple f : triple okF okT P (matmul Radd Rmul f fuel C A B) (λ _, P).
Proof.
  destruct f; simpl;
    auto using matmul_ijk_triple, matmul_jik_triple, matmul_saxpy_triple,
               matmul_ikj_triple, matmul_outer_product_triple, matmul_kij_triple.
Qed.

Lemma matmul_ikj_inlined_triple :
  triple okF okT P (matmul_ikj_inlined Radd Rmul fuel C A B) (λ _, P).
Proof.
  unfold matmul_ikj_inlined. cbv zeta.
  do 2 enter_loop. read_A. enter_loop. finish_madd.
Qed.

(** The tiles of one block row of [matmul_blocked]. *)
Lemma matmul_blocked_row_triple block_size ii :
  1 ≤ block_size → 0 ≤ ii < rows A →
  okF ∨ ii + block_size ≤ INT_MAX →
  okF ∨ tiles_fit_int (cols B) block_size →
  okF ∨ tiles_fit_int (cols A) block_size →
  triple okF okT P
    (for_loop_int fuel 0 (cols B) block_size (λ jj,
       for_loop_int fuel 0 (cols A) block_size (λ kk,
         i_end <- ternary_end ii block_size (rows A) ;;
         j_end <- ternary_end jj block_size (cols B) ;;
         k_end <- ternary_end kk block_size (cols A) ;;
         for_loop fuel ii i_end 1 (λ i,
           for_loop fuel kk k_end 1 (λ k,
             a_ik <- elem_get A i k ;;
             for_loop fuel jj j_end 1 (λ j,
               madd_a Radd Rmul a_ik B C i j k))))))
    (λ _, P).
Proof.
  intros Hbs Hii Hsum Hfn Hfr.
  do 2 enter_tiles. do 3 (apply triple_ternary_end_bind; [tile_end|]).
  do 2 enter_loop. read_A. enter_loop. finish_madd.
Qed.

Lemma matmul_blocked_triple block_size :
  1 ≤ block_size →
  okF ∨ blocks_fit_int A B block_size →
  triple okF okT P (matmul_blocked Radd Rmul fuel C A B block_size) (λ _, P).
Proof.
  intros Hbs Hfit. unfold matmul_blocked. cbv zeta.
  enter_tiles.
  apply matmul_blocked_row_triple; [done..| |];
    (destruct Hfit as [?|(? & ? & ?)]; [by left|by right]).
Qed.

Lemma matmul_ikj_inlined'_triple :
  triple okF okT P (matmul_ikj_inlined' Radd Rmul fuel C A B) (λ _, P).
Proof.
  unfold matmul_ikj_inlined', process_matrix_row, saxpy_blas.
  do 2 enter_loop. read_A.
  apply elem_addr_triple; [by apply (addr_ok_of_gemm_C A B)|].
  apply elem_addr_triple; [by apply (addr_ok_of_gemm_B A B C)|].
  enter_loop. unfold ptr_get, ptr_set. simpl.
  eapply triple_bind;
    [eapply vec_get_triple, (row_ok_of_gemm_B A B C); (done || lia)|intros xi].
  eapply triple_bind;
    [eapply vec_get_triple, (row_ok_of_gemm_C A B C); (done || lia)|intros yi].
  eapply vec_set_triple; [eapply (row_ok_of_gemm_C A B C); (done || lia)|done].
Qed.

Lemma gaxpy_triple : triple okF okT P (gaxpy Radd Rmul fuel C A B) (λ _, P).
Proof. exact matmul_saxpy_triple. Qed.

End Gemm.

Section Gaxpy.
Variables (fuel : nat) (A : Matrix) (x y : loc).
Hypothesis Hfuel : fuel_ok okT fuel (Z.max (rows A) (cols A)).
Hypothesis Hok : gaxpy_ok okF P A x y.
Hypothesis Hst : stable_at P y.

Ltac finish_vadd :=
  apply vadd_triple; [apply vadd_ok_of_gaxpy; (done || lia)|done].

Lemma gaxpy_row_oriented_triple :
  triple okF okT P (gaxpy_row_oriented Radd Rmul fuel A x y) (λ _, P).
Proof. unfold gaxpy_row_oriented. do 2 enter_loop. finish_vadd. Qed.

Lemma gaxpy_column_oriented_triple :
  triple okF okT P (gaxpy_column_oriented Radd Rmul fuel A x y) (λ _, P).
Proof. unfold gaxpy_column_oriented. do 2 enter_loop. finish_vadd. Qed.

Lemma matrix_vector_mult_triple :
  triple okF okT P (matrix_vector_mult Radd Rmul fuel A x y) (λ _, P).
Proof. unfold matrix_vector_mult. do 2 enter_loop. finish_vadd. Qed.

Lemma gaxpy_nested_for_loop_triple :
  triple okF okT P (gaxpy_nested_for_loop Radd Rmul fuel A x y) (λ _, P).
Proof. unfold gaxpy_nested_for_loop. do 2 enter_loop. finish_vadd. Qed.

Lemma gaxpy_ok_A i j :
  0 ≤ i < rows A → 0 ≤ j < cols A →
  okF ∨ (in_range A i j ∧ ∀ h, P h → sized h A).
Proof.
  intros Hi Hj. destruct Hok as [?|Hs]; [by left|right]. split; [done|].
  intros h Hh. by destruct (Hs h Hh) as (? & ? & ?).
Qed.

Lemma gaxpy_ok_x j :
  0 ≤ j < cols A → okF ∨ (0 ≤ j < cols A ∧ ∀ h, P h → vsized h x (cols A)).
Proof.
  intros Hj. destruct Hok as [?|Hs]; [by left|right]. split; [done|].
  intros h Hh. by destruct (Hs h Hh) as (? & ? & ?).
Qed.

Lemma gaxpy_ok_y i d :
  0 ≤ i < rows A → d = 0 →
  okF ∨ (0 ≤ i + d < rows A ∧ ∀ h, P h → vsized h y (rows A)).
Proof.
  intros Hi ->. destruct Hok as [?|Hs]; [by left|right]. split; [lia|].
  intros h Hh. by destruct (Hs h Hh) as (? & ? & ?).
Qed.

Lemma compute_row_contribution_triple i :
  0 ≤ i < rows A →
  triple okF okT P (compute_row_contribution Radd Rmul fuel A i x (y, i)) (λ _, P).
Proof.
  intros Hi. unfold compute_row_contribution, ptr_get, ptr_set. simpl.
  enter_loop.
  eapply triple_bind; [by apply elem_get_triple, gaxpy_ok_A|intros a].
  eapply triple_bind; [by eapply vec_get_triple, gaxpy_ok_x|intros xj].
  eapply triple_bind; [by eapply vec_get_triple, gaxpy_ok_y|intros yr].
  eapply vec_set_triple; [by eapply gaxpy_ok_y|done].
Qed.

Lemma gaxpy_modular_triple :
  triple okF okT P (gaxpy_modular Radd Rmul fuel A x y) (λ _, P).
Proof.
  unfold gaxpy_modular. enter_loop.
  eapply vec_ref_triple; [rewrite <- (Z.add_0_r i); by apply gaxpy_ok_y|].
  by apply compute_row_contribution_triple.
Qed.

Lemma gaxpy_inline_hint_triple :
  triple okF okT P (gaxpy_inline_hint Radd Rmul fuel A x y) (λ _, P).
Proof.
  unfold gaxpy_inline_hint. enter_loop.
  eapply vec_ref_triple; [rewrite <- (Z.add_0_r i); by apply gaxpy_ok_y|].
  by apply compute_row_contribution_triple.
Qed.

Lemma gaxpy_functional_triple Rzero :
  triple okF okT P (gaxpy_functional Rzero Radd Rmul fuel A x y) (λ _, P).
Proof.
  unfold gaxpy_functional, compute_dot_product. enter_loop.
  eapply triple_bind.
  { apply triple_for_acc; [lia|fuel_side|intros j result Hj].
    eapply triple_bind; [by apply elem_get_triple, gaxpy_ok_A|intros a].
    eapply triple_bind; [by eapply vec_get_triple, gaxpy_ok_x|intros xj].
    by apply triple_ret. }
  intros d.
  eapply triple_bind;
    [eapply vec_get_triple; rewrite <- (Z.add_0_r i); by apply gaxpy_ok_y|intros yi].
  eapply vec_set_triple; [rewrite <- (Z.add_0_r i); by apply gaxpy_ok_y|done].
Qed.

End Gaxpy.

End KernelRules.

(** ** The kernels do not depend on the fuel once it suffices *)

Section KernelFuel.
Context {R : Type}.
Variables (Radd Rmul : R → R → R).
Variables (fuel fuel' : nat).
Hypothesis Hfuel : (fuel ≤ fuel')%nat.

Ltac more_fuel :=
  repeat first
    [ apply settled_for; [exact Hfuel|intros ?]
    | apply settled_for_int; [exact Hfuel|intros ?]
    | apply settled_for_acc; [exact Hfuel|intros ? ?]
    | apply settled_bind; [apply settled_refl|intros ?]
    | apply settled_refl ].

Lemma gemm_settled o A B C :
  settled (gemm Radd Rmul o fuel A B C) (gemm Radd Rmul o fuel' A B C).
Proof.
  destruct o; simpl;
    unfold gemm_ijk, gemm_jik, gemm_ikj, gemm_jki, gemm_kij, gemm_kji;
    more_fuel.
Qed.

Lemma gemm_blocked_settled A B C bs :
  settled (gemm_blocked Radd Rmul fuel A B C bs)
          (gemm_blocked Radd Rmul fuel' A B C bs).
Proof.
  unfold gemm_blocked, outer_block_outer_loop, outer_block_middle_loop,
    outer_block_inner_loop, inner_block_outer_loop, inner_block_middle_loop,
    inner_block_inner_loop. cbv zeta. more_fuel.
Qed.

Lemma matmul_settled f C A B :
  settled (matmul Radd Rmul f fuel C A B) (matmul Radd Rmul f fuel' C A B).
Proof.
  destruct f; simpl;
    unfold matmul_ijk, matmul_jik, matmul_saxpy, matmul_ikj,
      matmul_outer_product, matmul_kij, inner_dot_product,
      inner_saxpy_column, inner_saxpy_row; cbv zeta;
    more_fuel.
Qed.

Lemma matmul_ikj_inlined_settled C A B :
  settled (matmul_ikj_inlined Radd Rmul fuel C A B)
          (matmul_ikj_inlined Radd Rmul fuel' C A B).
Proof. unfold matmul_ikj_inlined. cbv zeta. more_fuel. Qed.

Lemma matmul_blocked_settled C A B bs :
  settled (matmul_blocked Radd Rmul fuel C A B bs)
          (matmul_blocked Radd Rmul fuel' C A B bs).
Proof. unfold matmul_blocked. cbv zeta. more_fuel. Qed.

Lemma gaxpy_row_oriented_settled A x y :
  settled (gaxpy_row_oriented Radd Rmul fuel A x y)
          (gaxpy_row_oriented Radd Rmul fuel' A x y).
Proof. unfold gaxpy_row_oriented. more_fuel. Qed.

Lemma gaxpy_column_oriented_settled A x y :
  settled (gaxpy_column_oriented Radd Rmul fuel A x y)
          (gaxpy_column_oriented Radd Rmul fuel' A x y).
Proof. unfold gaxpy_column_oriented. more_fuel. Qed.

Lemma matrix_vector_mult_settled A x y :
  settled (matrix_vector_mult Radd Rmul fuel A x y)
          (matrix_vector_mult Radd Rmul fuel' A x y).
Proof. unfold matrix_vector_mult. more_fuel. Qed.

Lemma matmul_ikj_inlined'_settled C A B :
  settled (matmul_ikj_inlined' Radd Rmul fuel C A B)
          (matmul_ikj_inlined' Radd Rmul fuel' C A B).
Proof. unfold matmul_ikj_inlined', process_matrix_row, saxpy_blas. more_fuel. Qed.

Lemma gaxpy_settled Y A X :
  settled (gaxpy Radd Rmul fuel Y A X) (gaxpy Radd Rmul fuel' Y A X).
Proof. unfold gaxpy. more_fuel. Qed.

Lemma gaxpy_nested_for_loop_settled A x y :
  settled (gaxpy_nested_for_loop Radd Rmul fuel A x y)
          (gaxpy_nested_for_loop Radd Rmul fuel' A x y).
Proof. unfold gaxpy_nested_for_loop. more_fuel. Qed.

Lemma gaxpy_modular_settled A x y :
  settled (gaxpy_modular Radd Rmul fuel A x y)
          (gaxpy_modular Radd Rmul fuel' A x y).
Proof. unfold gaxpy_modular, compute_row_contribution. more_fuel. Qed.

Lemma gaxpy_functional_settled Rzero A x y :
  settled (gaxpy_functional Rzero Radd Rmul fuel A x y)
          (gaxpy_functional Rzero Radd Rmul fuel' A x y).
Proof.
  unfold gaxpy_functional, compute_dot_product.
  apply settled_for; [exact Hfuel|intros i].
  apply settled_bind; [|intros d; apply settled_refl].
  apply settled_for_acc; [exact Hfuel|intros j result]. apply settled_refl.
Qed.

Lemma gaxpy_inline_hint_settled A x y :
  settled (gaxpy_inline_hint Radd Rmul fuel A x y)
          (gaxpy_inline_hint Radd Rmul fuel' A x y).
Proof. unfold gaxpy_inline_hint, compute_row_contribution_inline. more_fuel. Qed.

End KernelFuel.

(** ** Sums in exact arithmetic *)

Section Sums.
Context {R : Type}.
Variables (Rzero : R) (Radd : R → R → R).
Hypothesis Radd_comm : ∀ a b, Radd a b = Radd b a.
Hypothesis Radd_assoc : ∀ a b c, Radd a (Radd b c) = Radd (Radd a b) c.
Hypothesis Radd_0_l : ∀ a, Radd Rzero a = a.

Local Notation "a ⊕ b" := (Radd a b) (at level 50, left associativity).
Local Abbreviation Σ := (bigsum Rzero Radd).

Lemma Radd_0_r a : a ⊕ Rzero = a.
Proof. by rewrite Radd_comm, Radd_0_l. Qed.

Lemma bigsum_singleton {T} (x : T) f : Σ [x] f = f x.
Proof. simpl. apply Radd_0_r. Qed.

Lemma bigsum_app {T} (l1 l2 : list T) f : Σ (l1 ++ l2) f = Σ l1 f ⊕ Σ l2 f.
Proof.
  induction l1 as [|x l1 IH]; simpl; [by rewrite Radd_0_l|].
  by rewrite IH, Radd_assoc.
Qed.

Lemma bigsum_bind {T U} (l : list T) (g : T → list U) f :
  Σ (l ≫= g) f = Σ l (λ x, Σ (g x) f).
Proof.
  induction l as [|x l IH]; [done|].
  rewrite bind_cons, bigsum_app, IH. done.
Qed.

Lemma bigsum_ext {T} (l : list T) f g :
  (∀ x, x ∈ l → f x = g x) → Σ l f = Σ l g.
Proof.
  induction l as [|x l IH]; intros Hfg; [done|]. simpl.
  rewrite Hfg by (apply elem_of_cons; by left).
  rewrite IH; [done|]. intros y Hy. apply Hfg. apply elem_of_cons. by right.
Qed.

Lemma bigsum_zero {T} (l : list T) : Σ l (λ _, Rzero) = Rzero.
Proof. induction l as [|x l IH]; [done|]. simpl. by rewrite IH, Radd_0_l. Qed.

Lemma bigsum_add {T} (l : list T) f g :
  Σ l (λ x, f x ⊕ g x) = Σ l f ⊕ Σ l g.
Proof.
  induction l as [|x l IH]; simpl; [by rewrite Radd_0_l|].
  rewrite IH. rewrite !Radd_assoc. f_equal.
  rewrite <- !Radd_assoc. f_equal. apply Radd_comm.
Qed.

Lemma bigsum_exchange {T U} (l1 : list T) (l2 : list U) (f : T → U → R) :
  Σ l1 (λ x, Σ l2 (λ y, f x y)) = Σ l2 (λ y, Σ l1 (λ x, f x y)).
Proof.
  induction l1 as [|x l1 IH]; simpl.
  - by rewrite bigsum_zero.
  - by rewrite IH, bigsum_add.
Qed.

Lemma bigsum_pick_absent {T} `{EqDecision T} (l : list T) (x0 : T) F :
  x0 ∉ l → Σ l (λ x, if decide (x = x0) then F x else Rzero) = Rzero.
Proof.
  intros Hx. etrans; [|apply (bigsum_zero l)]. apply bigsum_ext.
  intros x Hin. case_decide; [by subst|done].
Qed.

Lemma bigsum_pick {T} `{EqDecision T} (l : list T) (x0 : T) F :
  NoDup l → x0 ∈ l →
  Σ l (λ x, if decide (x = x0) then F x else Rzero) = F x0.
Proof.
  induction l as [|x l IH]; intros Hnd Hin; [by apply elem_of_nil in Hin|].
  apply NoDup_cons in Hnd as [Hx Hnd]. simpl. case_decide as Heq.
  - subst x. rewrite bigsum_pick_absent by done. apply Radd_0_r.
  - rewrite Radd_0_l. apply IH; [done|].
    apply elem_of_cons in Hin as [?|?]; [congruence|done].
Qed.

(** Summing from the left in a local variable gives the same sum. *)
Lemma foldl_bigsum {T} (l : list T) (g : T → R) acc :
  foldl (λ a x, a ⊕ g x) acc l = acc ⊕ Σ l g.
Proof.
  revert acc. induction l as [|x l IH]; intros acc; simpl.
  - by rewrite Radd_0_r.
  - by rewrite IH, Radd_assoc.
Qed.

(** *** Scattering *)

Local Abbreviation scat := (scatter Radd).
Local Abbreviation land := (landing Rzero).

Lemma scatter_cons u us (buf : list R) :
  scat (u :: us) buf = scat us (alter (λ c, c ⊕ u.2) u.1 buf).
Proof. done. Qed.

Lemma scatter_app us1 us2 (buf : list R) :
  scat (us1 ++ us2) buf = scat us2 (scat us1 buf).
Proof. unfold scatter. by rewrite foldl_app. Qed.

Lemma scatter_length us (buf : list R) : length (scat us buf) = length buf.
Proof.
  revert buf. induction us as [|u us IH]; intros buf; [done|].
  rewrite scatter_cons, IH. apply length_alter.
Qed.

(** The element at [q] after scattering: the old one plus what landed
    on [q]. *)
Lemma scatter_lookup us (buf : list R) q :
  scat us buf !! q = (λ c, c ⊕ Σ us (land q)) <$> buf !! q.
Proof.
  revert buf. induction us as [|[p v] us IH]; intros buf.
  - simpl. destruct (buf !! q); simpl; [|done]. by rewrite Radd_0_r.
  - rewrite scatter_cons, IH. simpl. unfold landing at 2. simpl.
    case_decide as Hpq.
    + subst p. rewrite list_lookup_alter_eq.
      destruct (buf !! q); simpl; [|done]. by rewrite Radd_assoc.
    + rewrite list_lookup_alter_ne by done.
      destruct (buf !! q); simpl; [|done]. by rewrite Radd_0_l.
Qed.

(** Two runs of accumulations on which the same amount lands at every
    offset leave the same buffer. *)
Lemma scatter_ext us1 us2 (buf : list R) :
  (∀ q, Σ us1 (land q) = Σ us2 (land q)) →
  scat us1 buf = scat us2 buf.
Proof.
  intros Heq. apply list_eq. intros q. by rewrite !scatter_lookup, Heq.
Qed.

End Sums.

(** ** Runs of accumulation statements on one buffer *)

Section Sim.
Context {R : Type}.
Variables (Rzero : R) (Radd Rmul : R → R → R).
Variables (t : loc) (len : nat) (h0 : heap R).

Local Abbreviation run := (sim Radd t len h0).
Local Abbreviation reads := (sim_read t len h0).

Lemma alter_as_insert (f : R → R) (buf : list R) p c :
  buf !! p = Some c → <[p := f c]> buf = alter f p buf.
Proof.
  intros Hp. apply list_eq. intros q. destruct (decide (p = q)) as [->|Hne].
  - rewrite list_lookup_insert_eq by (by eapply lookup_lt_Some).
    by rewrite list_lookup_alter_eq, Hp.
  - by rewrite list_lookup_insert_ne, list_lookup_alter_ne.
Qed.

Lemma sim_ret : run (ret tt) [].
Proof. intros buf Hlen. done. Qed.

Lemma sim_seq c1 c2 us1 us2 :
  run c1 us1 → run c2 us2 → run (c1 ;; c2) (us1 ++ us2).
Proof.
  intros H1 H2 buf Hlen. unfold bind. rewrite H1 by done.
  rewrite H2 by (by rewrite scatter_length). by rewrite scatter_app.
Qed.

Lemma sim_read_bind {T} (c : M R T) v (k : T → M R unit) us :
  reads c v → run (k v) us → run (bind c k) us.
Proof. intros Hc Hk buf Hlen. unfold bind. rewrite Hc by done. by apply Hk. Qed.

Lemma sim_for fuel lo hi step (body : Z → M R unit) (us : Z → list (nat * R)) :
  0 < step →
  Z.max 0 (hi - lo) < Z.of_nat fuel →
  (∀ i, lo ≤ i < hi → run (body i) (us i)) →
  run (for_loop fuel lo hi step body) (zrange lo hi step ≫= us).
Proof.
  intros Hstep. revert lo. induction fuel as [|fuel IH]; intros lo Hfuel Hbody.
  - lia.
  - simpl. case_decide as Hlt.
    + rewrite zrange_cons, bind_cons by done.
      apply sim_seq; [apply Hbody; lia|].
      apply IH; [lia|]. intros i Hi. apply Hbody. lia.
    + rewrite zrange_nil by done. apply sim_ret.
Qed.

(** A sum of [int]s that fits reads nothing and writes nothing. *)
Lemma sim_read_int_add (a b : Z) :
  INT_MIN ≤ a + b ≤ INT_MAX → reads (int_add a b) (a + b).
Proof. intros Hfit buf Hlen. by apply int_add_fits. Qed.

Lemma sim_read_ternary_end (ii bs m : Z) :
  INT_MIN ≤ ii + bs ≤ INT_MAX →
  reads (ternary_end ii bs m) (Z.min (ii + bs) m).
Proof. intros Hfit buf Hlen. by apply ternary_end_fits. Qed.

(** The tile loop, when none of its steps passes [INT_MAX]. *)
Lemma sim_for_int fuel lo hi step (body : Z → M R unit)
    (us : Z → list (nat * R)) :
  0 < step → INT_MIN ≤ lo →
  Z.max 0 (hi - lo) < Z.of_nat fuel →
  (∀ i, i ∈ zrange lo hi step → i + step ≤ INT_MAX) →
  (∀ i, lo ≤ i < hi → i + step ≤ INT_MAX → run (body i) (us i)) →
  run (for_loop_int fuel lo hi step body) (zrange lo hi step ≫= us).
Proof.
  intros Hstep. revert lo.
  induction fuel as [|fuel IH]; intros lo Hmin Hfuel Hfit Hbody.
  - lia.
  - simpl. case_decide as Hlt.
    + pose proof (Hfit lo (zrange_first lo hi step Hstep Hlt)) as Hlo.
      rewrite zrange_cons, bind_cons by done.
      apply sim_seq; [apply Hbody; [lia|done]|].
      eapply sim_read_bind; [apply sim_read_int_add; lia|].
      apply IH; [lia|lia| |].
      * intros i Hi. by apply Hfit, zrange_later.
      * intros i Hi. apply Hbody. lia.
    + rewrite zrange_nil by done. apply sim_ret.
Qed.

(** Reading a matrix whose buffer is not the one being updated. *)
Lemma sim_read_elem A bufA i j :
  data A ≠ t → h0 !! data A = Some bufA →
  0 ≤ rows A → 0 ≤ cols A → length bufA = Z.to_nat (rows A * cols A) →
  in_range A i j →
  reads (elem_get A i j) (entry Rzero A bufA i j).
Proof.
  intros Hne HA Hr Hc HlenA Hin buf Hlen. unfold elem_get, entry.
  rewrite decide_True by done. rewrite lookup_insert_ne by done. rewrite HA.
  destruct (lookup_lt_is_Some_2 bufA (Z.to_nat (offset A i j))) as [v ->]; [|done].
  pose proof (offset_bound A i j Hin). lia.
Qed.

Lemma sim_read_vec x bufx i :
  x ≠ t → h0 !! x = Some bufx → 0 ≤ i → (Z.to_nat i < length bufx)%nat →
  reads (vec_get x i) (ventry Rzero bufx i).
Proof.
  intros Hne Hx Hi Hlt buf Hlen. unfold vec_get, ventry.
  rewrite decide_True by done. rewrite lookup_insert_ne by done. rewrite Hx.
  by destruct (lookup_lt_is_Some_2 bufx (Z.to_nat i) Hlt) as [v ->].
Qed.

(** Adding [v] into the element (i,j) of the matrix being updated. *)
Lemma sim_accumulate C i j v :
  data C = t → 0 ≤ rows C → 0 ≤ cols C → len = Z.to_nat (rows C * cols C) →
  in_range C i j →
  run (c <- elem_get C i j ;; elem_set C i j (Radd c v))
      [(Z.to_nat (offset C i j), v)].
Proof.
  intros Ht Hr Hc Hl Hin buf Hlen. unfold bind, elem_get, elem_set.
  rewrite !decide_True by done. rewrite Ht, lookup_insert_eq.
  destruct (lookup_lt_is_Some_2 buf (Z.to_nat (offset C i j))) as [c Hc'].
  { pose proof (offset_bound C i j Hin). lia. }
  rewrite Hc'. rewrite decide_True by done. rewrite lookup_insert_eq.
  rewrite decide_True by (by eapply lookup_lt_Some).
  rewrite insert_insert_eq.
  by rewrite (alter_as_insert (λ c, Radd c v) buf _ c).
Qed.

Lemma sim_accumulate_vec y i v :
  y = t → 0 ≤ i → (Z.to_nat i < len)%nat →
  run (c <- vec_get y i ;; vec_set y i (Radd c v)) [(Z.to_nat i, v)].
Proof.
  intros -> Hi Hlt buf Hlen. unfold bind, vec_get, vec_set.
  rewrite !decide_True by done. rewrite lookup_insert_eq.
  destruct (lookup_lt_is_Some_2 buf (Z.to_nat i)) as [c Hc']; [lia|].
  rewrite Hc'. rewrite decide_True by done. rewrite lookup_insert_eq.
  rewrite decide_True by (by eapply lookup_lt_Some).
  rewrite insert_insert_eq.
  by rewrite (alter_as_insert (λ c, Radd c v) buf _ c).
Qed.

(** Binding a reference to an element of the buffer being updated, and
    taking the address of one of its rows, do not depend on what it
    holds. *)
Lemma sim_read_ref y i :
  y = t → 0 ≤ i → (Z.to_nat i < len)%nat → reads (vec_ref y i) (y, i).
Proof.
  intros -> Hi Hlt buf Hlen. unfold vec_ref.
  rewrite decide_True by done. rewrite lookup_insert_eq.
  by rewrite decide_True by lia.
Qed.

Lemma sim_read_addr_target C i :
  data C = t → 0 ≤ offset C i 0 → (Z.to_nat (offset C i 0) ≤ len)%nat →
  reads (elem_addr C i 0) (data C, offset C i 0).
Proof.
  intros Ht Hi Hle buf Hlen. unfold elem_addr.
  rewrite decide_True by done. rewrite Ht, lookup_insert_eq.
  by rewrite decide_True by lia.
Qed.

Lemma sim_read_addr A bufA i :
  data A ≠ t → h0 !! data A = Some bufA →
  0 ≤ offset A i 0 → (Z.to_nat (offset A i 0) ≤ length bufA)%nat →
  reads (elem_addr A i 0) (data A, offset A i 0).
Proof.
  intros Hne HA Hi Hle buf Hlen. unfold elem_addr.
  rewrite decide_True by done. rewrite lookup_insert_ne by done. rewrite HA.
  by rewrite decide_True by lia.
Qed.

Lemma sim_read_ret {T} (v : T) : reads (ret v) v.
Proof. by intros buf Hlen. Qed.

Lemma sim_read_read {T U} (c : M R T) v (k : T → M R U) w :
  reads c v → reads (k v) w → reads (bind c k) w.
Proof. intros Hc Hk buf Hlen. unfold bind. rewrite Hc by done. by apply Hk. Qed.

(** A loop of reads around a local variable computes a left fold. *)
Lemma sim_read_for_acc {T} fuel lo hi step (body : Z → T → M R T)
    (f : T → Z → T) acc :
  0 < step →
  Z.max 0 (hi - lo) < Z.of_nat fuel →
  (∀ i a, lo ≤ i < hi → reads (body i a) (f a i)) →
  reads (for_loop_acc fuel lo hi step body acc) (foldl f acc (zrange lo hi step)).
Proof.
  intros Hstep. revert lo acc.
  induction fuel as [|fuel IH]; intros lo acc Hfuel Hbody.
  - lia.
  - simpl. case_decide as Hlt.
    + rewrite zrange_cons by done. simpl.
      eapply sim_read_read; [apply Hbody; lia|].
      apply IH; [lia|]. intros i a Hi. apply Hbody. lia.
    + rewrite zrange_nil by done. apply sim_read_ret.
Qed.

(** Runs with the same landings at every offset are interchangeable. *)
Lemma sim_ext c us1 us2 :
  (∀ a b, Radd a b = Radd b a) →
  (∀ a b c, Radd a (Radd b c) = Radd (Radd a b) c) →
  (∀ a, Radd Rzero a = a) →
  run c us1 →
  (∀ q, bigsum Rzero Radd us1 (landing Rzero q)
        = bigsum Rzero Radd us2 (landing Rzero q)) →
  run c us2.
Proof.
  intros Hcomm Hassoc H0 Hc Heq buf Hlen. rewrite Hc by done.
  by rewrite (scatter_ext Rzero Radd Hcomm Hassoc H0 us1 us2).
Qed.

End Sim.

(** ** What the multiplication kernels compute *)

Section GemmRuns.
Context {R : Type}.
Variables (Rzero : R) (Radd Rmul : R → R → R).
Hypothesis Radd_comm : ∀ a b, Radd a b = Radd b a.
Hypothesis Radd_assoc : ∀ a b c, Radd a (Radd b c) = Radd (Radd a b) c.
Hypothesis Radd_0_l : ∀ a, Radd Rzero a = a.

Local Abbreviation Σ := (bigsum Rzero Radd).

Local Abbreviation Σ3 := (sum3 Rzero Radd).

Lemma sum3_swap12 l1 l2 l3 F :
  Σ3 l1 l2 l3 F = Σ3 l2 l1 l3 (λ b a c, F a b c).
Proof. unfold sum3. by rewrite bigsum_exchange. Qed.

Lemma sum3_swap23 l1 l2 l3 F :
  Σ3 l1 l2 l3 F = Σ3 l1 l3 l2 (λ a c b, F a b c).
Proof.
  unfold sum3. apply bigsum_ext; [done..|]. intros a _.
  by rewrite bigsum_exchange.
Qed.

Lemma bigsum_nest3 {T} (l1 l2 l3 : list Z) (g : Z → Z → Z → T) (f : T → R) :
  Σ (l1 ≫= λ a, l2 ≫= λ b, l3 ≫= λ c, [g a b c]) f
  = Σ3 l1 l2 l3 (λ a b c, f (g a b c)).
Proof.
  unfold sum3. rewrite bigsum_bind by done.
  apply bigsum_ext; [done..|]. intros a _. rewrite bigsum_bind by done.
  apply bigsum_ext; [done..|]. intros b _. rewrite bigsum_bind by done.
  apply bigsum_ext; [done..|]. intros c _. by apply bigsum_singleton.
Qed.

(** The tiles of width [bs] cover [lo, m) once, in order. *)
Lemma tile_bind lo m bs :
  0 < bs →
  zrange lo m bs ≫= (λ ii, zrange ii (Z.min (ii + bs) m) 1) = zrange lo m 1.
Proof.
  intros Hbs.
  assert (∀ k lo, (Z.to_nat (m - lo) ≤ k)%nat →
    zrange lo m bs ≫= (λ ii, zrange ii (Z.min (ii + bs) m) 1) = zrange lo m 1)
    as Hgen; [|by eauto].
  clear lo. induction k as [|k IH]; intros lo Hk.
  - by rewrite !zrange_nil by lia.
  - destruct (decide (lo < m)) as [Hlt|Hge]; [|by rewrite !zrange_nil by lia].
    rewrite (zrange_cons lo m bs), bind_cons by done.
    rewrite IH by lia. rewrite !zrange_unit.
    destruct (decide (lo + bs < m)) as [Hlt'|Hge'].
    + rewrite Z.min_l by lia.
      replace (m - lo) with ((lo + bs - lo) + (m - (lo + bs))) by lia.
      rewrite seqZ_app by lia. do 2 f_equal; lia.
    + rewrite Z.min_r by lia.
      replace (m - (lo + bs)) with (m - (lo + bs) + 0) by lia.
      unfold seqZ at 2. replace (Z.to_nat (m - (lo + bs) + 0)) with 0%nat by lia.
      simpl. by rewrite app_nil_r.
Qed.

Lemma tile_sum m bs (G : Z → R) :
  0 < bs →
  Σ (zrange 0 m bs) (λ ii, Σ (zrange ii (Z.min (ii + bs) m) 1) G)
  = Σ (zrange 0 m 1) G.
Proof.
  intros Hbs. rewrite <- (tile_bind 0 m bs) by done.
  by rewrite bigsum_bind.
Qed.

(** Summing tile by tile is summing over the whole index space. *)
Lemma bigsum_tiled m n r bs (L : Z → Z → Z → R) :
  0 < bs →
  Σ (zrange 0 m bs) (λ ii, Σ (zrange 0 n bs) (λ jj, Σ (zrange 0 r bs) (λ kk,
    Σ3 (zrange ii (Z.min (ii + bs) m) 1)
         (zrange kk (Z.min (kk + bs) r) 1)
         (zrange jj (Z.min (jj + bs) n) 1) (λ i k j, L i j k))))
  = Σ3 (zrange 0 m 1) (zrange 0 r 1) (zrange 0 n 1) (λ i k j, L i j k).
Proof.
  intros Hbs. unfold sum3.
  trans (Σ (zrange 0 m bs) (λ ii, Σ (zrange 0 n bs) (λ jj,
           Σ (zrange ii (Z.min (ii + bs) m) 1) (λ i,
             Σ (zrange 0 r 1) (λ k,
               Σ (zrange jj (Z.min (jj + bs) n) 1) (λ j, L i j k)))))).
  { apply bigsum_ext; [done..|]. intros ii _.
    apply bigsum_ext; [done..|]. intros jj _.
    rewrite bigsum_exchange by done.
    apply bigsum_ext; [done..|]. intros i _.
    by apply (tile_sum r bs
      (λ k, Σ (zrange jj (Z.min (jj + bs) n) 1) (λ j, L i j k))). }
  trans (Σ (zrange 0 m bs) (λ ii,
           Σ (zrange ii (Z.min (ii + bs) m) 1) (λ i,
             Σ (zrange 0 r 1) (λ k, Σ (zrange 0 n 1) (λ j, L i j k))))).
  { apply bigsum_ext; [done..|]. intros ii _.
    rewrite bigsum_exchange by done.
    apply bigsum_ext; [done..|]. intros i _.
    rewrite bigsum_exchange by done.
    apply bigsum_ext; [done..|]. intros k _.
    by apply (tile_sum n bs (λ j, L i j k)). }
  by apply (tile_sum m bs
    (λ i, Σ (zrange 0 r 1) (λ k, Σ (zrange 0 n 1) (λ j, L i j k)))).
Qed.

(** *** The runs of the kernels *)

Variables (A B C : Matrix) (bufA bufB : list R) (h0 : heap R).
Hypothesis HA : h0 !! data A = Some bufA.
Hypothesis HB : h0 !! data B = Some bufB.
Hypothesis HneA : data A ≠ data C.
Hypothesis HneB : data B ≠ data C.
Hypothesis HlenA : length bufA = Z.to_nat (rows A * cols A).
Hypothesis HlenB : length bufB = Z.to_nat (rows B * cols B).
Hypothesis Hdims : conformable A B C.
Hypothesis Hm : 0 ≤ rows A.
Hypothesis Hr : 0 ≤ cols A.
Hypothesis Hn : 0 ≤ cols B.

Local Abbreviation addend := (contrib Rzero Rmul A B C bufA bufB).
Local Abbreviation trace := (gemm_trace Rzero Rmul A B C bufA bufB).
Local Abbreviation tiled := (blocked_trace Rzero Rmul A B C bufA bufB).

Local Abbreviation run :=
  (sim Radd (data C) (Z.to_nat (rows C * cols C)) h0).

Lemma read_A_run i k :
  0 ≤ i < rows A → 0 ≤ k < cols A →
  sim_read (data C) (Z.to_nat (rows C * cols C)) h0
    (elem_get A i k) (entry Rzero A bufA i k).
Proof. intros Hi Hk. by apply sim_read_elem. Qed.

Lemma read_B_run k j :
  0 ≤ k < cols A → 0 ≤ j < cols B →
  sim_read (data C) (Z.to_nat (rows C * cols C)) h0
    (elem_get B k j) (entry Rzero B bufB k j).
Proof.
  intros Hk Hj. destruct Hdims as (HrB & _ & _).
  apply sim_read_elem; try done; unfold in_range; lia.
Qed.

Lemma accumulate_run i j v :
  0 ≤ i < rows A → 0 ≤ j < cols B →
  run (c <- elem_get C i j ;; elem_set C i j (Radd c v))
      [(Z.to_nat (offset C i j), v)].
Proof.
  intros Hi Hj. destruct Hdims as (_ & HmC & HnC).
  apply sim_accumulate; try done; unfold in_range; lia.
Qed.

Lemma madd_run i j k :
  0 ≤ i < rows A → 0 ≤ k < cols A → 0 ≤ j < cols B →
  run (madd Radd Rmul A B C i j k) [addend i j k].
Proof.
  intros Hi Hk Hj. unfold madd.
  eapply sim_read_bind; [by apply read_A_run|].
  eapply sim_read_bind; [by apply read_B_run|].
  by apply accumulate_run.
Qed.

Lemma madd_a_run i j k :
  0 ≤ i < rows A → 0 ≤ k < cols A → 0 ≤ j < cols B →
  run (madd_a Radd Rmul (entry Rzero A bufA i k) B C i j k) [addend i j k].
Proof.
  intros Hi Hk Hj. unfold madd_a.
  eapply sim_read_bind; [by apply read_B_run|].
  by apply accumulate_run.
Qed.

Lemma madd_b_run i j k :
  0 ≤ i < rows A → 0 ≤ k < cols A → 0 ≤ j < cols B →
  run (madd_b Radd Rmul (entry Rzero B bufB k j) A C i j k) [addend i j k].
Proof.
  intros Hi Hk Hj. unfold madd_b.
  eapply sim_read_bind; [by apply read_A_run|].
  by apply accumulate_run.
Qed.

Lemma landing_contrib_hit i j k :
  landing Rzero (Z.to_nat (offset C i j)) (addend i j k)
  = Rmul (entry Rzero A bufA i k) (entry Rzero B bufB k j).
Proof. unfold landing, contrib. simpl. by rewrite decide_True. Qed.

Lemma landing_contrib_miss i j i' j' k :
  0 ≤ i < rows A → 0 ≤ j < cols B → 0 ≤ i' < rows A → 0 ≤ j' < cols B →
  ¬ (i' = i ∧ j' = j) →
  landing Rzero (Z.to_nat (offset C i j)) (addend i' j' k) = Rzero.
Proof.
  intros Hi Hj Hi' Hj' Hne. destruct Hdims as (_ & HmC & HnC).
  assert (in_range C i j) as Hin by (unfold in_range; lia).
  assert (in_range C i' j') as Hin' by (unfold in_range; lia).
  unfold landing, contrib. simpl. rewrite decide_False; [done|].
  intros Heq. apply Hne.
  pose proof (offset_bound C i j Hin). pose proof (offset_bound C i' j' Hin').
  apply (offset_inj C); [done..|lia].
Qed.

(** What lands on the element (i,j) of C in a whole run: the dot
    product of row i of A and column j of B. *)
Lemma gemm_trace_landing i j :
  0 ≤ i < rows A → 0 ≤ j < cols B →
  Σ trace (landing Rzero (Z.to_nat (offset C i j)))
  = dot Rzero Radd Rmul A B bufA bufB i j.
Proof.
  intros Hi Hj. unfold gemm_trace, dot. rewrite bigsum_nest3 by done.
  unfold sum3. rewrite !zrange_unit, !Z.sub_0_r.
  trans (Σ (seqZ 0 (rows A)) (λ i', if decide (i' = i) then
           Σ (seqZ 0 (cols B)) (λ j', if decide (j' = j) then
             Σ (seqZ 0 (cols A)) (λ k,
               Rmul (entry Rzero A bufA i' k) (entry Rzero B bufB k j'))
             else Rzero)
           else Rzero)).
  { apply bigsum_ext; [done..|]. intros i' Hi'%elem_of_seqZ.
    case_decide as Hii.
    - subst i'. apply bigsum_ext; [done..|]. intros j' Hj'%elem_of_seqZ.
      case_decide as Hjj.
      + subst j'. apply bigsum_ext; [done..|]. intros k _.
        apply landing_contrib_hit.
      + etrans; [|by apply (bigsum_zero Rzero Radd)].
        apply bigsum_ext; [done..|]. intros k _.
        apply landing_contrib_miss; (lia || naive_solver).
    - etrans; [|by apply (bigsum_zero Rzero Radd)].
      apply bigsum_ext; [done..|]. intros j' Hj'%elem_of_seqZ.
      etrans; [|by apply (bigsum_zero Rzero Radd)].
      apply bigsum_ext; [done..|]. intros k _.
      apply landing_contrib_miss; (lia || naive_solver). }
  rewrite (bigsum_pick Rzero Radd) by
    first [done|apply NoDup_seqZ|apply elem_of_seqZ; lia].
  rewrite (bigsum_pick Rzero Radd) by
    first [done|apply NoDup_seqZ|apply elem_of_seqZ; lia].
  done.
Qed.

(** The buffer of C after a whole run. *)
Lemma gemm_trace_lookup bufC i j :
  length bufC = Z.to_nat (rows C * cols C) →
  0 ≤ i < rows A → 0 ≤ j < cols B →
  scatter Radd trace bufC !! Z.to_nat (offset C i j)
  = Some (Radd (entry Rzero C bufC i j) (dot Rzero Radd Rmul A B bufA bufB i j)).
Proof.
  intros Hlen Hi Hj. destruct Hdims as (_ & HmC & HnC).
  assert (in_range C i j) as Hin by (unfold in_range; lia).
  rewrite (scatter_lookup Rzero Radd) by done.
  rewrite gemm_trace_landing by done. unfold entry at 1.
  destruct (lookup_lt_is_Some_2 bufC (Z.to_nat (offset C i j))) as [c ->];
    [|done].
  pose proof (offset_bound C i j Hin). lia.
Qed.

Section Fuelled.
Variable fuel : nat.
Hypothesis Hfuel : Z.max 0 (dim_max A B) < Z.of_nat fuel.

Ltac loop := eapply sim_for; [lia|unfold dim_max in Hfuel; lia|intros ? ?].
Ltac reorder := eapply sim_ext; [exact Radd_comm|exact Radd_assoc|exact Radd_0_l| |].

Lemma gemm_ijk_run : run (gemm_ijk Radd Rmul fuel A B C) trace.
Proof. unfold gemm_ijk, gemm_trace. do 3 loop. by apply madd_run. Qed.

Lemma gemm_jik_run : run (gemm_jik Radd Rmul fuel A B C) trace.
Proof.
  reorder.
  - unfold gemm_jik. do 3 loop. by apply madd_run.
  - intros q. unfold gemm_trace. rewrite !bigsum_nest3 by done.
    by rewrite sum3_swap12.
Qed.

Lemma gemm_ikj_run : run (gemm_ikj Radd Rmul fuel A B C) trace.
Proof.
  reorder.
  - unfold gemm_ikj. do 3 loop. by apply madd_run.
  - intros q. unfold gemm_trace. rewrite !bigsum_nest3 by done.
    by rewrite sum3_swap23.
Qed.

Lemma gemm_jki_run : run (gemm_jki Radd Rmul fuel A B C) trace.
Proof.
  reorder.
  - unfold gemm_jki. do 3 loop. by apply madd_run.
  - intros q. unfold gemm_trace. rewrite !bigsum_nest3 by done.
    by rewrite sum3_swap23, sum3_swap12.
Qed.

Lemma gemm_kij_run : run (gemm_kij Radd Rmul fuel A B C) trace.
Proof.
  reorder.
  - unfold gemm_kij. do 3 loop. by apply madd_run.
  - intros q. unfold gemm_trace. rewrite !bigsum_nest3 by done.
    by rewrite sum3_swap12, sum3_swap23.
Qed.

Lemma gemm_kji_run : run (gemm_kji Radd Rmul fuel A B C) trace.
Proof.
  reorder.
  - unfold gemm_kji. do 3 loop. by apply madd_run.
  - intros q. unfold gemm_trace. rewrite !bigsum_nest3 by done.
    by rewrite sum3_swap23, sum3_swap12, sum3_swap23.
Qed.

Lemma gemm_run o : run (gemm Radd Rmul o fuel A B C) trace.
Proof.
  destruct o; simpl;
    auto using gemm_ijk_run, gemm_jik_run, gemm_ikj_run,
               gemm_jki_run, gemm_kij_run, gemm_kji_run.
Qed.

Lemma matmul_ijk_run : run (matmul_ijk Radd Rmul fuel C A B) trace.
Proof.
  unfold matmul_ijk, inner_dot_product, gemm_trace. cbv zeta.
  do 3 loop. by apply madd_run.
Qed.

Lemma matmul_jik_run : run (matmul_jik Radd Rmul fuel C A B) trace.
Proof.
  reorder.
  - unfold matmul_jik, inner_dot_product. cbv zeta. do 3 loop. by apply madd_run.
  - intros q. unfold gemm_trace. rewrite !bigsum_nest3 by done.
    by rewrite sum3_swap12.
Qed.

Lemma matmul_saxpy_run : run (matmul_saxpy Radd Rmul fuel C A B) trace.
Proof.
  reorder.
  - unfold matmul_saxpy, inner_saxpy_column. cbv zeta. do 2 loop.
    eapply sim_read_bind; [by apply read_B_run|].
    loop. by apply madd_b_run.
  - intros q. unfold gemm_trace. rewrite !bigsum_nest3 by done.
    by rewrite sum3_swap23, sum3_swap12.
Qed.

Lemma matmul_ikj_run : run (matmul_ikj Radd Rmul fuel C A B) trace.
Proof.
  reorder.
  - unfold matmul_ikj, inner_saxpy_row. cbv zeta. do 2 loop.
    eapply sim_read_bind; [by apply read_A_run|].
    loop. by apply madd_a_run.
  - intros q. unfold gemm_trace. rewrite !bigsum_nest3 by done.
    by rewrite sum3_swap23.
Qed.

Lemma matmul_outer_product_run :
  run (matmul_outer_product Radd Rmul fuel C A B) trace.
Proof.
  reorder.
  - unfold matmul_outer_product. cbv zeta. do 3 loop. by apply madd_run.
  - intros q. unfold gemm_trace. rewrite !bigsum_nest3 by done.
    by rewrite sum3_swap12, sum3_swap23.
Qed.

Lemma matmul_kij_run : run (matmul_kij Radd Rmul fuel C A B) trace.
Proof.
  reorder.
  - unfold matmul_kij, inner_saxpy_row. cbv zeta. do 2 loop.
    eapply sim_read_bind; [by apply read_A_run|].
    loop. by apply madd_a_run.
  - intros q. unfold gemm_trace. rewrite !bigsum_nest3 by done.
    by rewrite sum3_swap12, sum3_swap23.
Qed.

Lemma matmul_run f : run (matmul Radd Rmul f fuel C A B) trace.
Proof.
  destruct f; simpl;
    auto using matmul_ijk_run, matmul_jik_run, matmul_saxpy_run,
               matmul_ikj_run, matmul_outer_product_run, matmul_kij_run.
Qed.

Lemma matmul_ikj_inlined_run :
  run (matmul_ikj_inlined Radd Rmul fuel C A B) trace.
Proof.
  reorder.
  - unfold matmul_ikj_inlined. cbv zeta. do 2 loop.
    eapply sim_read_bind; [by apply read_A_run|].
    loop. by apply madd_a_run.
  - intros q. unfold gemm_trace. rewrite !bigsum_nest3 by done.
    by rewrite sum3_swap23.
Qed.

Lemma matmul_ikj_inlined'_run :
  run (matmul_ikj_inlined' Radd Rmul fuel C A B) trace.
Proof.
  destruct Hdims as (HrB & HmC & HnC).
  reorder.
  - unfold matmul_ikj_inlined', process_matrix_row, saxpy_blas. do 2 loop.
    eapply sim_read_bind; [by apply read_A_run|].
    eapply sim_read_bind;
      [apply sim_read_addr_target; [done|unfold offset; nia..]|].
    eapply sim_read_bind;
      [eapply sim_read_addr; [done|exact HB|unfold offset; nia..]|].
    loop. unfold ptr_get, ptr_set. simpl.
    rewrite !offset_row.
    eapply sim_read_bind.
    { apply (sim_read_vec Rzero); [done|exact HB|unfold offset; nia..]. }
    apply (sim_accumulate_vec Radd); [done|unfold offset; nia..].
  - intros q. unfold gemm_trace. rewrite !bigsum_nest3 by done.
    by rewrite sum3_swap23.
Qed.

Lemma gaxpy_run : run (gaxpy Radd Rmul fuel C A B) trace.
Proof. exact matmul_saxpy_run. Qed.

Lemma blocked_landing bs q :
  0 < bs →
  Σ (tiled bs) (landing Rzero q) = Σ trace (landing Rzero q).
Proof.
  intros Hbs. unfold gemm_trace. rewrite bigsum_nest3 by done.
  rewrite sum3_swap23.
  rewrite <- (bigsum_tiled _ _ _ bs (λ i j k, landing Rzero q (addend i j k)))
    by done.
  unfold blocked_trace. rewrite bigsum_bind by done.
  apply bigsum_ext; [done..|]. intros ii _. rewrite bigsum_bind by done.
  apply bigsum_ext; [done..|]. intros jj _. rewrite bigsum_bind by done.
  apply bigsum_ext; [done..|]. intros kk _.
  by rewrite bigsum_nest3.
Qed.

Ltac tiles :=
  eapply sim_for_int;
    [lia|unfold INT_MIN; lia|unfold dim_max in Hfuel; lia|done|intros ? ? ?].

Lemma gemm_blocked_run bs :
  1 ≤ bs → blocks_fit_int A B bs →
  run (gemm_blocked Radd Rmul fuel A B C bs) trace.
Proof.
  intros Hbs (Hfm & Hfn & Hfr). reorder.
  - unfold gemm_blocked, outer_block_outer_loop, outer_block_middle_loop,
      outer_block_inner_loop, inner_block_outer_loop, inner_block_middle_loop,
      inner_block_inner_loop.
    do 3 tiles.
    do 3 (eapply sim_read_bind;
            [apply sim_read_int_add; unfold INT_MIN; lia|]). cbv zeta.
    do 3 loop. apply madd_run; lia.
  - intros q. apply blocked_landing. lia.
Qed.

(** The block sizes of the test suite. *)
Lemma gemm_blocked_wrappers_run :
  dim_max A B + 256 ≤ INT_MAX + 1 →
  run (gemm_blocked_32 Radd Rmul fuel A B C) trace ∧
  run (gemm_blocked_64 Radd Rmul fuel A B C) trace ∧
  run (gemm_blocked_128 Radd Rmul fuel A B C) trace ∧
  run (gemm_blocked_256 Radd Rmul fuel A B C) trace.
Proof.
  intros Hroom. unfold dim_max in Hroom.
  unfold gemm_blocked_32, gemm_blocked_64, gemm_blocked_128, gemm_blocked_256.
  repeat apply conj; (apply gemm_blocked_run; [lia|]);
    repeat apply conj; apply tiles_fit_room; lia.
Qed.

Lemma matmul_blocked_run bs :
  1 ≤ bs → blocks_fit_int A B bs →
  run (matmul_blocked Radd Rmul fuel C A B bs) trace.
Proof.
  intros Hbs (Hfm & Hfn & Hfr). reorder.
  - unfold matmul_blocked. cbv zeta.
    do 3 tiles.
    do 3 (eapply sim_read_bind;
            [apply sim_read_ternary_end; unfold INT_MIN; lia|]).
    do 2 loop.
    eapply sim_read_bind; [apply read_A_run; lia|].
    loop. apply madd_a_run; lia.
  - intros q. apply blocked_landing. lia.
Qed.

End Fuelled.

End GemmRuns.

(** ** What the gaxpy kernels compute *)

Section GaxpyRuns.
Context {R : Type}.
Variables (Rzero : R) (Radd Rmul : R → R → R).
Hypothesis Radd_comm : ∀ a b, Radd a b = Radd b a.
Hypothesis Radd_assoc : ∀ a b c, Radd a (Radd b c) = Radd (Radd a b) c.
Hypothesis Radd_0_l : ∀ a, Radd Rzero a = a.

Local Abbreviation Σ := (bigsum Rzero Radd).

Variables (A : Matrix) (x y : loc) (bufA bufx : list R) (h0 : heap R).
Hypothesis HA : h0 !! data A = Some bufA.
Hypothesis Hx : h0 !! x = Some bufx.
Hypothesis HneA : data A ≠ y.
Hypothesis Hnex : x ≠ y.
Hypothesis HlenA : length bufA = Z.to_nat (rows A * cols A).
Hypothesis Hlenx : length bufx = Z.to_nat (cols A).
Hypothesis Hm : 0 ≤ rows A.
Hypothesis Hn : 0 ≤ cols A.

Local Abbreviation addend := (vcontrib Rzero Rmul A bufA bufx).
Local Abbreviation trace := (gaxpy_trace Rzero Rmul A bufA bufx).

Local Abbreviation run := (sim Radd y (Z.to_nat (rows A)) h0).

Lemma bigsum_nest1 {T} (l : list Z) (g : Z → T) (f : T → R) :
  Σ (l ≫= λ a, [g a]) f = Σ l (λ a, f (g a)).
Proof.
  rewrite bigsum_bind by done.
  apply bigsum_ext; [done..|]. intros a _. by apply bigsum_singleton.
Qed.

Lemma bigsum_nest2 {T} (l1 l2 : list Z) (g : Z → Z → T) (f : T → R) :
  Σ (l1 ≫= λ a, l2 ≫= λ b, [g a b]) f = Σ l1 (λ a, Σ l2 (λ b, f (g a b))).
Proof.
  rewrite bigsum_bind by done.
  apply bigsum_ext; [done..|]. intros a _. rewrite bigsum_bind by done.
  apply bigsum_ext; [done..|]. intros b _. by apply bigsum_singleton.
Qed.

Lemma vadd_run i j :
  0 ≤ i < rows A → 0 ≤ j < cols A →
  run (vadd Radd Rmul A x y i j) [addend i j].
Proof.
  intros Hi Hj. unfold vadd.
  eapply sim_read_bind; [by apply sim_read_elem|].
  eapply sim_read_bind; [apply sim_read_vec; (done || lia)|].
  apply sim_accumulate_vec; (done || lia).
Qed.

Lemma gaxpy_trace_landing i :
  0 ≤ i < rows A →
  Σ trace (landing Rzero (Z.to_nat i))
  = row_dot Rzero Radd Rmul A bufA bufx i.
Proof.
  intros Hi. unfold gaxpy_trace, row_dot. rewrite bigsum_nest2.
  rewrite !zrange_unit, !Z.sub_0_r.
  trans (Σ (seqZ 0 (rows A)) (λ i', if decide (i' = i) then
           Σ (seqZ 0 (cols A)) (λ j,
             Rmul (entry Rzero A bufA i' j) (ventry Rzero bufx j))
           else Rzero)).
  { apply bigsum_ext; [done..|]. intros i' Hi'%elem_of_seqZ.
    case_decide as Hii.
    - subst i'. apply bigsum_ext; [done..|]. intros j _.
      unfold landing, vcontrib. simpl. by rewrite decide_True.
    - etrans; [|by apply (bigsum_zero Rzero Radd)].
      apply bigsum_ext; [done..|]. intros j _.
      unfold landing, vcontrib. simpl. rewrite decide_False; [done|lia]. }
  by rewrite (bigsum_pick Rzero Radd) by
    first [done|apply NoDup_seqZ|apply elem_of_seqZ; lia].
Qed.

Lemma gaxpy_trace_lookup bufy i :
  length bufy = Z.to_nat (rows A) → 0 ≤ i < rows A →
  scatter Radd trace bufy !! Z.to_nat i
  = Some (Radd (ventry Rzero bufy i) (row_dot Rzero Radd Rmul A bufA bufx i)).
Proof.
  intros Hlen Hi. rewrite (scatter_lookup Rzero Radd) by done.
  rewrite gaxpy_trace_landing by done. unfold ventry at 1.
  by destruct (lookup_lt_is_Some_2 bufy (Z.to_nat i)) as [c ->]; [lia|].
Qed.

Section Fuelled.
Variable fuel : nat.
Hypothesis Hfuel : Z.max 0 (Z.max (rows A) (cols A)) < Z.of_nat fuel.

Ltac loop := eapply sim_for; [lia|lia|intros ? ?].

Lemma gaxpy_row_oriented_run :
  run (gaxpy_row_oriented Radd Rmul fuel A x y) trace.
Proof. unfold gaxpy_row_oriented, gaxpy_trace. do 2 loop. by apply vadd_run. Qed.

Lemma matrix_vector_mult_run :
  run (matrix_vector_mult Radd Rmul fuel A x y) trace.
Proof. unfold matrix_vector_mult, gaxpy_trace. do 2 loop. by apply vadd_run. Qed.

Lemma gaxpy_nested_for_loop_run :
  run (gaxpy_nested_for_loop Radd Rmul fuel A x y) trace.
Proof. unfold gaxpy_nested_for_loop, gaxpy_trace. do 2 loop. by apply vadd_run. Qed.

Lemma compute_row_contribution_run i :
  0 ≤ i < rows A →
  run (compute_row_contribution Radd Rmul fuel A i x (y, i))
      (zrange 0 (cols A) 1 ≫= λ j, [addend i j]).
Proof.
  intros Hi. unfold compute_row_contribution, ptr_get, ptr_set. simpl.
  rewrite Z.add_0_r. loop.
  eapply sim_read_bind; [by apply sim_read_elem|].
  eapply sim_read_bind; [apply sim_read_vec; (done || lia)|].
  apply sim_accumulate_vec; (done || lia).
Qed.

Lemma gaxpy_modular_run :
  run (gaxpy_modular Radd Rmul fuel A x y) trace.
Proof.
  unfold gaxpy_modular, gaxpy_trace. loop.
  eapply sim_read_bind; [apply sim_read_ref; (done || lia)|].
  by apply compute_row_contribution_run.
Qed.

Lemma gaxpy_inline_hint_run :
  run (gaxpy_inline_hint Radd Rmul fuel A x y) trace.
Proof.
  unfold gaxpy_inline_hint, gaxpy_trace. loop.
  eapply sim_read_bind; [apply sim_read_ref; (done || lia)|].
  by apply compute_row_contribution_run.
Qed.

(** The lambda returns the dot product of the row with x. *)
Lemma compute_dot_product_run i :
  0 ≤ i < rows A →
  sim_read y (Z.to_nat (rows A)) h0
    (compute_dot_product Rzero Radd Rmul fuel A x i)
    (row_dot Rzero Radd Rmul A bufA bufx i).
Proof.
  intros Hi buf Hlen. unfold compute_dot_product, row_dot.
  rewrite (sim_read_for_acc y (Z.to_nat (rows A)) h0 fuel 0 (cols A) 1 _
             (λ a j, Radd a (Rmul (entry Rzero A bufA i j) (ventry Rzero bufx j)))
             Rzero); [|lia|lia| |done].
  - rewrite (foldl_bigsum Rzero Radd) by done.
    by rewrite Radd_0_l, zrange_unit, Z.sub_0_r.
  - intros j result Hj.
    eapply sim_read_read; [by apply sim_read_elem|].
    eapply sim_read_read; [apply sim_read_vec; (done || lia)|].
    apply sim_read_ret.
Qed.

Lemma gaxpy_functional_run :
  run (gaxpy_functional Rzero Radd Rmul fuel A x y) trace.
Proof.
  eapply sim_ext; [exact Radd_comm|exact Radd_assoc|exact Radd_0_l| |].
  - unfold gaxpy_functional. loop.
    eapply sim_read_bind; [by apply compute_dot_product_run|].
    apply sim_accumulate_vec; (done || lia).
  - intros q. unfold gaxpy_trace. rewrite bigsum_nest1, bigsum_nest2.
    apply bigsum_ext; [done..|]. intros i _.
    unfold row_dot, landing, vcontrib. cbn [fst snd].
    rewrite zrange_unit, Z.sub_0_r.
    case_decide; [done|]. symmetry. by apply (bigsum_zero Rzero Radd).
Qed.

Lemma gaxpy_column_oriented_run :
  run (gaxpy_column_oriented Radd Rmul fuel A x y) trace.
Proof.
  eapply sim_ext; [exact Radd_comm|exact Radd_assoc|exact Radd_0_l| |].
  - unfold gaxpy_column_oriented. do 2 loop. by apply vadd_run.
  - intros q. unfold gaxpy_trace. rewrite !bigsum_nest2.
    by rewrite bigsum_exchange.
Qed.

End Fuelled.

End GaxpyRuns.

(** ** The properties of the specification *)

Lemma wf_matrix_insert_id {R} (h : heap R) C bufC :
  wf_matrix h C bufC → <[data C := bufC]> h = h.
Proof. intros (HC & _). by apply insert_id. Qed.

(** C2.  For A (m×r), B (r×n) and an accumulator C (m×n), each of the
    six loop orderings of the C++ suite, each of the six kernels of the
    C suite and the matrix gaxpy end with the same buffer for C, in
    which every element (i,j) is its old value plus the sum over k of
    A[i][k] * B[k][j]. *)
Theorem gemm_orderings_accumulate {R} (Rzero : R) (Radd Rmul : R → R → R)
    (h : heap R) (A B C : Matrix) (bufA bufB bufC : list R) :
  exact_arithmetic Rzero Radd →
  wf_matrix h A bufA → wf_matrix h B bufB → wf_matrix h C bufC →
  conformable A B C →
  data A ≠ data C → data B ≠ data C →
  ∃ bufC',
    length bufC' = length bufC ∧
    (∀ i j, 0 ≤ i < rows A → 0 ≤ j < cols B →
       bufC' !! Z.to_nat (offset C i j)
       = Some (Radd (entry Rzero C bufC i j)
                    (dot Rzero Radd Rmul A B bufA bufB i j))) ∧
    ∀ fuel, dim_max A B < Z.of_nat fuel →
      (∀ o, gemm Radd Rmul o fuel A B C h = Done (tt, <[data C := bufC']> h)) ∧
      (∀ f, matmul Radd Rmul f fuel C A B h = Done (tt, <[data C := bufC']> h)) ∧
      gaxpy Radd Rmul fuel C A B h = Done (tt, <[data C := bufC']> h).
Proof.
  intros (Hcomm & Hassoc & H0) (HA & HmA & HrA & HlenA) (HB & HrB & HnB & HlenB)
    HwfC Hdims HneA HneB.
  pose proof HwfC as (HC & HmC & HnC & HlenC).
  exists (scatter Radd (gemm_trace Rzero Rmul A B C bufA bufB) bufC).
  split; [apply scatter_length|]. split.
  { intros i j Hi Hj. by apply gemm_trace_lookup. }
  intros fuel Hfuel.
  assert (Z.max 0 (dim_max A B) < Z.of_nat fuel) as Hfuel'.
  { unfold dim_max in *. lia. }
  split; [|split].
  - intros o. rewrite <- (wf_matrix_insert_id h C bufC HwfC) at 1.
    rewrite (gemm_run Rzero Radd Rmul Hcomm Hassoc H0 A B C bufA bufB h);
      try done.
  - intros f. rewrite <- (wf_matrix_insert_id h C bufC HwfC) at 1.
    rewrite (matmul_run Rzero Radd Rmul Hcomm Hassoc H0 A B C bufA bufB h);
      try done.
  - rewrite <- (wf_matrix_insert_id h C bufC HwfC) at 1.
    rewrite (gaxpy_run Rzero Radd Rmul Hcomm Hassoc H0 A B C bufA bufB h);
      try done.
Qed.

Lemma gemm_orderings_accumulate_witness :
  ∃ bufC',
    length bufC' = 4%nat ∧
    bufC' !! 0%nat = Some 14 ∧ bufC' !! 1%nat = Some 25 ∧
    bufC' !! 2%nat = Some 40 ∧ bufC' !! 3%nat = Some 51 ∧
    (∀ o, gemm Z.add Z.mul o 4 ex_A ex_B ex_C ex_h
          = Done (tt, <[3%positive := bufC']> ex_h)) ∧
    (∀ f, matmul Z.add Z.mul f 4 ex_C ex_A ex_B ex_h
          = Done (tt, <[3%positive := bufC']> ex_h)) ∧
    gaxpy Z.add Z.mul 4 ex_C ex_A ex_B ex_h
      = Done (tt, <[3%positive := bufC']> ex_h).
Proof.
  destruct (gemm_orderings_accumulate 0 Z.add Z.mul ex_h ex_A ex_B ex_C
              ex_bufA ex_bufB ex_bufC) as (bufC' & Hlen & Hentry & Hrun).
  - repeat split; intros; lia.
  - repeat split; (reflexivity || (simpl; lia)).
  - repeat split; (reflexivity || (simpl; lia)).
  - repeat split; (reflexivity || (simpl; lia)).
  - repeat split; reflexivity.
  - discriminate.
  - discriminate.
  - exists bufC'. split; [exact Hlen|].
    split; [apply (Hentry 0 0); simpl; lia|].
    split; [apply (Hentry 0 1); simpl; lia|].
    split; [apply (Hentry 1 0); simpl; lia|].
    split; [apply (Hentry 1 1); simpl; lia|].
    apply (Hrun 4%nat). reflexivity.
Defined.

(** C1, as the code has it.  For every block size bs >= 1 with which
    the tile loops stay within [int], multiple of the dimensions or
    not, smaller or larger than them, the blocked kernels end exactly as
    the ikj kernels do (the C++ one, the inlined one and the one calling
    the BLAS levels): in one store, the same for every such block size.
    The tile loops stay within [int] when no dimension is above 2^30, and
    when the block size leaves room above the dimensions
    ([tiles_fit_small], [tiles_fit_room]). *)
Theorem gemm_blocked_matches_ikj {R} (Rzero : R) (Radd Rmul : R → R → R)
    (h : heap R) (A B C : Matrix) (bufA bufB bufC : list R) :
  exact_arithmetic Rzero Radd →
  wf_matrix h A bufA → wf_matrix h B bufB → wf_matrix h C bufC →
  conformable A B C →
  data A ≠ data C → data B ≠ data C →
  ∃ h',
    ∀ fuel bs, dim_max A B < Z.of_nat fuel → 1 ≤ bs →
      blocks_fit_int A B bs →
      gemm_ikj Radd Rmul fuel A B C h = Done (tt, h') ∧
      gemm_blocked Radd Rmul fuel A B C bs h = Done (tt, h') ∧
      matmul_ikj_inlined Radd Rmul fuel C A B h = Done (tt, h') ∧
      matmul_ikj_inlined' Radd Rmul fuel C A B h = Done (tt, h') ∧
      matmul_blocked Radd Rmul fuel C A B bs h = Done (tt, h').
Proof.
  intros (Hcomm & Hassoc & H0) (HA & HmA & HrA & HlenA) (HB & HrB & HnB & HlenB)
    HwfC Hdims HneA HneB.
  pose proof HwfC as (HC & HmC & HnC & HlenC).
  exists (<[data C := scatter Radd (gemm_trace Rzero Rmul A B C bufA bufB) bufC]> h).
  intros fuel bs Hfuel Hbs Hfit.
  assert (Z.max 0 (dim_max A B) < Z.of_nat fuel) as Hfuel'.
  { unfold dim_max in *. lia. }
  assert (∀ c : M R unit,
    sim Radd (data C) (Z.to_nat (rows C * cols C)) h c
        (gemm_trace Rzero Rmul A B C bufA bufB) →
    c h = Done (tt, <[data C :=
            scatter Radd (gemm_trace Rzero Rmul A B C bufA bufB) bufC]> h))
    as Hrun.
  { intros c Hc. rewrite <- (wf_matrix_insert_id h C bufC HwfC) at 1.
    by apply Hc. }
  repeat apply conj; apply Hrun.
  - by apply gemm_ikj_run.
  - by apply gemm_blocked_run.
  - by apply matmul_ikj_inlined_run.
  - by apply matmul_ikj_inlined'_run.
  - by apply matmul_blocked_run.
Qed.

Lemma gemm_blocked_matches_ikj_witness :
  ∃ h',
    gemm_ikj Z.add Z.mul 4 ex_A ex_B ex_C ex_h = Done (tt, h') ∧
    gemm_blocked Z.add Z.mul 4 ex_A ex_B ex_C 2 ex_h = Done (tt, h') ∧
    gemm_blocked Z.add Z.mul 4 ex_A ex_B ex_C 3 ex_h = Done (tt, h') ∧
    gemm_blocked Z.add Z.mul 4 ex_A ex_B ex_C 64 ex_h = Done (tt, h') ∧
    matmul_ikj_inlined Z.add Z.mul 4 ex_C ex_A ex_B ex_h = Done (tt, h') ∧
    matmul_ikj_inlined' Z.add Z.mul 4 ex_C ex_A ex_B ex_h = Done (tt, h') ∧
    matmul_blocked Z.add Z.mul 4 ex_C ex_A ex_B 2 ex_h = Done (tt, h') ∧
    matmul_blocked Z.add Z.mul 4 ex_C ex_A ex_B 64 ex_h = Done (tt, h').
Proof.
  destruct (gemm_blocked_matches_ikj 0 Z.add Z.mul ex_h ex_A ex_B ex_C
              ex_bufA ex_bufB ex_bufC) as (h' & Hrun).
  - repeat split; intros; lia.
  - repeat split; (reflexivity || (simpl; lia)).
  - repeat split; (reflexivity || (simpl; lia)).
  - repeat split; (reflexivity || (simpl; lia)).
  - repeat split; reflexivity.
  - discriminate.
  - discriminate.
  - exists h'.
    assert (∀ bs, 1 ≤ bs ≤ 64 → blocks_fit_int ex_A ex_B bs) as Hfit.
    { intros bs Hbs. repeat apply conj; apply tiles_fit_room;
        (lia || (unfold INT_MAX; simpl; lia)). }
    destruct (Hrun 4%nat 2) as (Hikj & Hb2 & Hinl & Hptr & Hc2);
      [reflexivity|lia|apply Hfit; lia|].
    destruct (Hrun 4%nat 3) as (_ & Hb3 & _ & _ & _);
      [reflexivity|lia|apply Hfit; lia|].
    destruct (Hrun 4%nat 64) as (_ & Hb64 & _ & _ & Hc64);
      [reflexivity|lia|apply Hfit; lia|].
    repeat split; assumption.
Defined.

(** The two blocked kernels on a matrix of 2^30 + 1 rows and no column
    with the block size 2^30: the first tile is empty, the second starts
    at row 2^30, and the step to the third is 2^30 + 2^30, which is not
    an [int]. *)
Lemma blocked_tall_overflows (fuel : nat) :
  (2 ≤ fuel)%nat →
  gemm_blocked Z.add Z.mul fuel tall_A tall_B tall_C 1073741824 tall_h = Fault ∧
  matmul_blocked Z.add Z.mul fuel tall_C tall_A tall_B 1073741824 tall_h = Fault.
Proof.
  intros Hfuel. destruct fuel as [|[|fuel]]; [lia|lia|].
  split; reflexivity.
Qed.

(** The ikj kernel on the same matrices goes through its 2^30 + 1 rows
    and leaves the store as it is. *)
Lemma ikj_tall_returns (fuel : nat) :
  dim_max tall_A tall_B < Z.of_nat fuel →
  gemm_ikj Z.add Z.mul fuel tall_A tall_B tall_C tall_h = Done (tt, tall_h).
Proof.
  intros Hfuel. unfold dim_max, tall_A, tall_B in Hfuel. cbn [rows cols] in Hfuel.
  unfold gemm_ikj. apply for_loop_skip; [cbn [rows tall_A]; lia|].
  intros i Hi. destruct fuel as [|fuel]; [lia|]. reflexivity.
Qed.

(** C1 as stated fails: on well-formed matrices with 2^30 + 1 rows and
    the block size 2^30 the ikj kernel returns and the blocked kernels
    do not; they leave the range of [int]. *)
Lemma gemm_blocked_differs_beyond_int :
  wf_matrix tall_h tall_A [] ∧ wf_matrix tall_h tall_B [] ∧
  wf_matrix tall_h tall_C [] ∧ conformable tall_A tall_B tall_C ∧
  data tall_A ≠ data tall_C ∧ data tall_B ≠ data tall_C ∧
  ¬ ∃ h',
      ∀ fuel bs, dim_max tall_A tall_B < Z.of_nat fuel → 1 ≤ bs →
        gemm_ikj Z.add Z.mul fuel tall_A tall_B tall_C tall_h = Done (tt, h') ∧
        gemm_blocked Z.add Z.mul fuel tall_A tall_B tall_C bs tall_h
          = Done (tt, h') ∧
        matmul_blocked Z.add Z.mul fuel tall_C tall_A tall_B bs tall_h
          = Done (tt, h').
Proof.
  split; [repeat split; (reflexivity || (cbn [rows cols tall_A]; lia))|].
  split; [repeat split; (reflexivity || (cbn [rows cols tall_B]; lia))|].
  split; [repeat split; (reflexivity || (cbn [rows cols tall_C]; lia))|].
  split; [repeat split|]. split; [discriminate|]. split; [discriminate|].
  intros (h' & Hrun).
  destruct (Hrun (Z.to_nat 1073741826) 1073741824) as (_ & Hblocked & _).
  - unfold dim_max, tall_A, tall_B. cbn [rows cols]. lia.
  - lia.
  - destruct (blocked_tall_overflows (Z.to_nat 1073741826)) as [Hfault _]; [lia|].
    rewrite Hfault in Hblocked. discriminate.
Qed.

(** C3.  For every A (m×n), x of length n and initial y of length m,
    the row-oriented and the column-oriented gaxpy end with the same y. *)
Theorem gaxpy_row_column_agree {R} (Rzero : R) (Radd Rmul : R → R → R)
    (h : heap R) (A : Matrix) (x y : loc) (bufA bufx bufy : list R) :
  exact_arithmetic Rzero Radd →
  gaxpy_pre h A x y bufA bufx bufy →
  ∃ h',
    ∀ fuel, Z.max (rows A) (cols A) < Z.of_nat fuel →
      gaxpy_row_oriented Radd Rmul fuel A x y h = Done (tt, h') ∧
      gaxpy_column_oriented Radd Rmul fuel A x y h = Done (tt, h').
Proof.
  intros (Hcomm & Hassoc & H0)
    ((HA & Hm & Hn & HlenA) & (Hx & _ & Hlenx) & (Hy & _ & Hleny) & HneA & Hnex).
  exists (<[y := scatter Radd (gaxpy_trace Rzero Rmul A bufA bufx) bufy]> h).
  intros fuel Hfuel.
  assert (Z.max 0 (Z.max (rows A) (cols A)) < Z.of_nat fuel) as Hfuel' by lia.
  split.
  - rewrite <- (insert_id h y bufy Hy) at 1.
    by apply (gaxpy_row_oriented_run Rzero Radd Rmul A x y bufA bufx h).
  - rewrite <- (insert_id h y bufy Hy) at 1.
    by apply (gaxpy_column_oriented_run Rzero Radd Rmul Hcomm Hassoc H0
                A x y bufA bufx h).
Qed.

Lemma gaxpy_row_column_agree_witness :
  ∃ h',
    gaxpy_row_oriented Z.add Z.mul 3 ex_G 2%positive 3%positive ex_g
      = Done (tt, h') ∧
    gaxpy_column_oriented Z.add Z.mul 3 ex_G 2%positive 3%positive ex_g
      = Done (tt, h').
Proof.
  destruct (gaxpy_row_column_agree 0 Z.add Z.mul ex_g ex_G 2%positive 3%positive
              [1; 2; 3; 4] [1; 1] [10; 20]) as (h' & Hrun).
  - repeat split; intros; lia.
  - repeat split; (reflexivity || discriminate || (simpl; lia)).
  - exists h'. apply (Hrun 3%nat). reflexivity.
Defined.

(** C4.  gaxpy adds into y: every y[i] ends as its old value plus
    the sum over j of A[i][j] * x[j], for the C++ kernel, for the
    matrix-vector product of the C suite and for the four styles of the
    row-oriented kernel. *)
Theorem gaxpy_accumulates {R} (Rzero : R) (Radd Rmul : R → R → R)
    (h : heap R) (A : Matrix) (x y : loc) (bufA bufx bufy : list R) :
  exact_arithmetic Rzero Radd →
  gaxpy_pre h A x y bufA bufx bufy →
  ∃ bufy',
    length bufy' = length bufy ∧
    (∀ i, 0 ≤ i < rows A →
       bufy' !! Z.to_nat i
       = Some (Radd (ventry Rzero bufy i)
                    (row_dot Rzero Radd Rmul A bufA bufx i))) ∧
    ∀ fuel, Z.max (rows A) (cols A) < Z.of_nat fuel →
      gaxpy_row_oriented Radd Rmul fuel A x y h = Done (tt, <[y := bufy']> h) ∧
      matrix_vector_mult Radd Rmul fuel A x y h = Done (tt, <[y := bufy']> h) ∧
      gaxpy_nested_for_loop Radd Rmul fuel A x y h = Done (tt, <[y := bufy']> h) ∧
      gaxpy_modular Radd Rmul fuel A x y h = Done (tt, <[y := bufy']> h) ∧
      gaxpy_functional Rzero Radd Rmul fuel A x y h
        = Done (tt, <[y := bufy']> h) ∧
      gaxpy_inline_hint Radd Rmul fuel A x y h = Done (tt, <[y := bufy']> h).
Proof.
  intros (Hcomm & Hassoc & H0)
    ((HA & Hm & Hn & HlenA) & (Hx & _ & Hlenx) & (Hy & _ & Hleny) & HneA & Hnex).
  exists (scatter Radd (gaxpy_trace Rzero Rmul A bufA bufx) bufy).
  split; [apply scatter_length|]. split.
  { intros i Hi. by apply (gaxpy_trace_lookup Rzero Radd Rmul Hcomm Hassoc H0
                             A x y bufA bufx). }
  intros fuel Hfuel.
  assert (Z.max 0 (Z.max (rows A) (cols A)) < Z.of_nat fuel) as Hfuel' by lia.
  repeat apply conj; rewrite <- (insert_id h y bufy Hy) at 1.
  - by apply (gaxpy_row_oriented_run Rzero Radd Rmul A x y bufA bufx h).
  - by apply (matrix_vector_mult_run Rzero Radd Rmul A x y bufA bufx h).
  - by apply (gaxpy_nested_for_loop_run Rzero Radd Rmul A x y bufA bufx h).
  - by apply (gaxpy_modular_run Rzero Radd Rmul A x y bufA bufx h).
  - by apply (gaxpy_functional_run Rzero Radd Rmul Hcomm Hassoc H0
                A x y bufA bufx h).
  - by apply (gaxpy_inline_hint_run Rzero Radd Rmul A x y bufA bufx h).
Qed.

Lemma gaxpy_accumulates_witness :
  ∃ bufy',
    length bufy' = 2%nat ∧
    bufy' !! 0%nat = Some 13 ∧ bufy' !! 1%nat = Some 27 ∧
    gaxpy_row_oriented Z.add Z.mul 3 ex_G 2%positive 3%positive ex_g
      = Done (tt, <[3%positive := bufy']> ex_g) ∧
    matrix_vector_mult Z.add Z.mul 3 ex_G 2%positive 3%positive ex_g
      = Done (tt, <[3%positive := bufy']> ex_g) ∧
    gaxpy_nested_for_loop Z.add Z.mul 3 ex_G 2%positive 3%positive ex_g
      = Done (tt, <[3%positive := bufy']> ex_g) ∧
    gaxpy_modular Z.add Z.mul 3 ex_G 2%positive 3%positive ex_g
      = Done (tt, <[3%positive := bufy']> ex_g) ∧
    gaxpy_functional 0 Z.add Z.mul 3 ex_G 2%positive 3%positive ex_g
      = Done (tt, <[3%positive := bufy']> ex_g) ∧
    gaxpy_inline_hint Z.add Z.mul 3 ex_G 2%positive 3%positive ex_g
      = Done (tt, <[3%positive := bufy']> ex_g).
Proof.
  destruct (gaxpy_accumulates 0 Z.add Z.mul ex_g ex_G 2%positive 3%positive
              [1; 2; 3; 4] [1; 1] [10; 20]) as (bufy' & Hlen & Hy & Hrun).
  - repeat split; intros; lia.
  - repeat split; (reflexivity || discriminate || (simpl; lia)).
  - exists bufy'. split; [exact Hlen|].
    split; [apply (Hy 0); simpl; lia|].
    split; [apply (Hy 1); simpl; lia|].
    apply (Hrun 3%nat). reflexivity.
Defined.

(** The gaxpy example computed: y = [10,20] becomes [13,27]. *)
Example gaxpy_spec_example :
  gaxpy_row_oriented Z.add Z.mul 3 ex_G 2%positive 3%positive ex_g
  = Done (tt, <[3%positive := [13; 27]]> ex_g).
Proof. vm_compute. reflexivity. Qed.

Lemma shaped_stable {R} (A B C : Matrix) l : stable_at (R:=R) (shaped A B C) l.
Proof.
  intros h buf p v (HA & HB & HC) Hl. unfold shaped.
  repeat split; by apply sized_update.
Qed.

Lemma vshaped_stable {R} (A : Matrix) x y l : stable_at (R:=R) (vshaped A x y) l.
Proof.
  intros h buf p v (HA & Hx & Hy) Hl. unfold vshaped.
  repeat split; (by apply sized_update) || (by apply vsized_update).
Qed.

Lemma only_at_stable {R} (h0 : heap R) t : stable_at (only_at t h0) t.
Proof. intros h buf p v Hh _. by apply only_at_update. Qed.

Lemma only_at_refl {R} (h : heap R) t : only_at t h h.
Proof. by intros l _. Qed.

(** C5, as the code has it.  Under the size contract, with buffers of
    rows*cols elements and a block size >= 1 with which the tile loops
    stay within [int], no kernel ever makes an access outside
    [0 <= i < rows], [0 <= j < cols]: whatever the fuel, no outcome is
    [Fault].  At every tile start the blocked kernels reach, the sum
    with the block size is an [int] and the clamped bound lies above
    the start and within the dimension. *)
Theorem kernels_in_bounds {R} (Rzero : R) (Radd Rmul : R → R → R)
    (h : heap R) (A B C : Matrix) (x y : loc) (block_size : Z) (fuel : nat) :
  sized h A → sized h B → sized h C →
  conformable A B C →
  vsized h x (cols A) → vsized h y (rows A) →
  1 ≤ block_size →
  blocks_fit_int A B block_size →
  (∀ o, gemm Radd Rmul o fuel A B C h ≠ Fault) ∧
  gemm_blocked Radd Rmul fuel A B C block_size h ≠ Fault ∧
  (∀ f, matmul Radd Rmul f fuel C A B h ≠ Fault) ∧
  matmul_ikj_inlined Radd Rmul fuel C A B h ≠ Fault ∧
  matmul_ikj_inlined' Radd Rmul fuel C A B h ≠ Fault ∧
  matmul_blocked Radd Rmul fuel C A B block_size h ≠ Fault ∧
  gaxpy Radd Rmul fuel C A B h ≠ Fault ∧
  gaxpy_row_oriented Radd Rmul fuel A x y h ≠ Fault ∧
  gaxpy_column_oriented Radd Rmul fuel A x y h ≠ Fault ∧
  matrix_vector_mult Radd Rmul fuel A x y h ≠ Fault ∧
  gaxpy_nested_for_loop Radd Rmul fuel A x y h ≠ Fault ∧
  gaxpy_modular Radd Rmul fuel A x y h ≠ Fault ∧
  gaxpy_functional Rzero Radd Rmul fuel A x y h ≠ Fault ∧
  gaxpy_inline_hint Radd Rmul fuel A x y h ≠ Fault ∧
  (∀ d ii, d ∈ [rows A; cols B; cols A] →
     ii ∈ zrange 0 d block_size →
     int_add ii block_size h = Done (ii + block_size, h) ∧
     ternary_end ii block_size d h = Done (Z.min (ii + block_size) d, h) ∧
     0 ≤ ii < Z.min (ii + block_size) d ∧ Z.min (ii + block_size) d ≤ d).
Proof.
  intros HA HB HC Hdims Hx Hy Hbs Hfit.
  assert (shaped A B C h) as Hsh by done.
  assert (vshaped A x y h) as Hvsh by done.
  assert (gemm_ok False (shaped (R:=R) A B C) A B C) as Hok by (right; done).
  assert (gaxpy_ok False (vshaped (R:=R) A x y) A x y) as Hvok by (right; done).
  assert (∀ b, fuel_ok True fuel b) as Hfuel by (by left).
  assert (False ∨ blocks_fit_int A B block_size) as Hfit' by (by right).
  repeat apply conj; try lia; intros.
  - eapply triple_no_fault; [|exact Hsh].
    apply gemm_triple; auto using shaped_stable.
  - eapply triple_no_fault; [|exact Hsh].
    apply gemm_blocked_triple; auto using shaped_stable.
  - eapply triple_no_fault; [|exact Hsh].
    apply matmul_triple; auto using shaped_stable.
  - eapply triple_no_fault; [|exact Hsh].
    apply matmul_ikj_inlined_triple; auto using shaped_stable.
  - eapply triple_no_fault; [|exact Hsh].
    apply matmul_ikj_inlined'_triple; auto using shaped_stable.
  - eapply triple_no_fault; [|exact Hsh].
    apply matmul_blocked_triple; auto using shaped_stable.
  - eapply triple_no_fault; [|exact Hsh].
    apply gaxpy_triple; auto using shaped_stable.
  - eapply triple_no_fault; [|exact Hvsh].
    apply gaxpy_row_oriented_triple; auto using vshaped_stable.
  - eapply triple_no_fault; [|exact Hvsh].
    apply gaxpy_column_oriented_triple; auto using vshaped_stable.
  - eapply triple_no_fault; [|exact Hvsh].
    apply matrix_vector_mult_triple; auto using vshaped_stable.
  - eapply triple_no_fault; [|exact Hvsh].
    apply gaxpy_nested_for_loop_triple; auto using vshaped_stable.
  - eapply triple_no_fault; [|exact Hvsh].
    apply gaxpy_modular_triple; auto using vshaped_stable.
  - eapply triple_no_fault; [|exact Hvsh].
    apply gaxpy_functional_triple; auto using vshaped_stable.
  - eapply triple_no_fault; [|exact Hvsh].
    apply gaxpy_inline_hint_triple; auto using vshaped_stable.
  - assert (ii + block_size ≤ INT_MAX) as Hsum.
    { destruct Hfit as (Hfm & Hfn & Hfr).
      repeat match goal with
             | Hd : _ ∈ _ :: _ |- _ => apply elem_of_cons in Hd as [->|Hd]
             | Hd : _ ∈ [] |- _ => by apply elem_of_nil in Hd
             end; auto. }
    pose proof (elem_of_zrange ii 0 d block_size ltac:(lia) ltac:(done)).
    assert (INT_MIN ≤ ii + block_size ≤ INT_MAX) as Hint
      by (unfold INT_MIN; lia).
    split; [by apply int_add_fits|].
    split; [by apply ternary_end_fits|lia].
Qed.

Lemma ex_k_sized :
  sized ex_k ex_A ∧ sized ex_k ex_B ∧ sized ex_k ex_C ∧
  vsized ex_k ex_x (cols ex_A) ∧ vsized ex_k ex_y (rows ex_A).
Proof.
  repeat split.
  - exists ex_bufA. repeat split; (reflexivity || (simpl; lia)).
  - exists ex_bufB. repeat split; (reflexivity || (simpl; lia)).
  - exists ex_bufC. repeat split; (reflexivity || (simpl; lia)).
  - exists [1; 1; 1]. repeat split; (reflexivity || (simpl; lia)).
  - exists [0; 0]. repeat split; (reflexivity || (simpl; lia)).
Defined.

Lemma kernels_in_bounds_witness :
  ((∀ o, gemm Z.add Z.mul o 4 ex_A ex_B ex_C ex_k ≠ Fault) ∧
   gemm_blocked Z.add Z.mul 4 ex_A ex_B ex_C 2 ex_k ≠ Fault ∧
   (∀ f, matmul Z.add Z.mul f 4 ex_C ex_A ex_B ex_k ≠ Fault) ∧
   matmul_ikj_inlined Z.add Z.mul 4 ex_C ex_A ex_B ex_k ≠ Fault ∧
   matmul_ikj_inlined' Z.add Z.mul 4 ex_C ex_A ex_B ex_k ≠ Fault ∧
   matmul_blocked Z.add Z.mul 4 ex_C ex_A ex_B 2 ex_k ≠ Fault ∧
   gaxpy Z.add Z.mul 4 ex_C ex_A ex_B ex_k ≠ Fault ∧
   gaxpy_row_oriented Z.add Z.mul 4 ex_A ex_x ex_y ex_k ≠ Fault ∧
   gaxpy_column_oriented Z.add Z.mul 4 ex_A ex_x ex_y ex_k ≠ Fault ∧
   matrix_vector_mult Z.add Z.mul 4 ex_A ex_x ex_y ex_k ≠ Fault ∧
   gaxpy_nested_for_loop Z.add Z.mul 4 ex_A ex_x ex_y ex_k ≠ Fault ∧
   gaxpy_modular Z.add Z.mul 4 ex_A ex_x ex_y ex_k ≠ Fault ∧
   gaxpy_functional 0 Z.add Z.mul 4 ex_A ex_x ex_y ex_k ≠ Fault ∧
   gaxpy_inline_hint Z.add Z.mul 4 ex_A ex_x ex_y ex_k ≠ Fault ∧
   (∀ d ii, d ∈ [rows ex_A; cols ex_B; cols ex_A] →
      ii ∈ zrange 0 d 2 →
      int_add ii 2 ex_k = Done (ii + 2, ex_k) ∧
      ternary_end ii 2 d ex_k = Done (Z.min (ii + 2) d, ex_k) ∧
      0 ≤ ii < Z.min (ii + 2) d ∧ Z.min (ii + 2) d ≤ d)) ∧
  (∃ h', gemm_blocked Z.add Z.mul 4 ex_A ex_B ex_C 2 ex_k = Done (tt, h') ∧
         matmul_blocked Z.add Z.mul 4 ex_C ex_A ex_B 2 ex_k = Done (tt, h')).
Proof.
  split.
  - apply (kernels_in_bounds 0 Z.add Z.mul ex_k ex_A ex_B ex_C ex_x ex_y 2 4).
    + apply ex_k_sized.
    + apply ex_k_sized.
    + apply ex_k_sized.
    + repeat split; reflexivity.
    + apply ex_k_sized.
    + apply ex_k_sized.
    + lia.
    + repeat apply conj; apply tiles_fit_room; (lia || (unfold INT_MAX; simpl; lia)).
  - eexists. split; vm_compute; reflexivity.
Defined.

(** The blocked kernels on matrices of 2^30 + 1 rows and one column with
    the block size 2^30: the first block row is computed, the second
    starts at row 2^30, and its bound 2^30 + 2^30 is not an [int]. *)
Lemma long_shaped : shaped long_A long_B long_C long_h.
Proof.
  repeat apply conj.
  - exists long_bufA. split; [apply lookup_insert_eq|].
    split; [simpl; lia|]. split; [simpl; lia|].
    unfold long_bufA. rewrite length_replicate. f_equal.
  - exists [1]. split.
    + unfold long_h. rewrite lookup_insert_ne by discriminate.
      apply lookup_insert_eq.
    + split; [simpl; lia|]. split; [simpl; lia|]. reflexivity.
  - exists long_bufC. split.
    + unfold long_h. rewrite !lookup_insert_ne by discriminate.
      apply lookup_insert_eq.
    + split; [simpl; lia|]. split; [simpl; lia|].
      unfold long_bufC. rewrite length_replicate. f_equal.
Qed.

Lemma for_loop_int_unfold {R} fuel i hi step (body : Z → M R unit) :
  for_loop_int (S fuel) i hi step body
  = if decide (i < hi)
    then body i ;; i' <- int_add i step ;; for_loop_int fuel i' hi step body
    else ret tt.
Proof. reflexivity. Qed.

Lemma blocked_long_overflows (fuel : nat) :
  dim_max long_A long_B < Z.of_nat fuel →
  gemm_blocked Z.add Z.mul fuel long_A long_B long_C 1073741824 long_h = Fault ∧
  matmul_blocked Z.add Z.mul fuel long_C long_A long_B 1073741824 long_h = Fault.
Proof.
  intros Hfuel.
  assert (rows long_A = 1073741825) as Hm by reflexivity.
  assert (cols long_A = 1) as Hr by reflexivity.
  assert (cols long_B = 1) as Hn by reflexivity.
  unfold dim_max in Hfuel. rewrite Hm, Hr, Hn in Hfuel.
  assert (fuel_ok False fuel (dim_max long_A long_B)) as Hfuel'.
  { right. unfold dim_max. rewrite Hm, Hr, Hn. lia. }
  assert (gemm_ok False (shaped (R:=Z) long_A long_B long_C) long_A long_B long_C)
    as Hok.
  { right. split; [repeat split|done]. }
  assert (∀ d, d = 1 → False ∨ tiles_fit_int d 1073741824) as Hone.
  { intros d ->. right. apply tiles_fit_room; unfold INT_MAX; lia. }
  destruct fuel as [|[|fuel]]; [lia|lia|].
  split.
  - destruct (triple_total (shaped long_A long_B long_C)
                (outer_block_middle_loop Z.add Z.mul (S (S fuel)) long_A long_B
                   long_C 0 1073741824 (rows long_A) (cols long_B) (cols long_A))
                (λ _, shaped long_A long_B long_C) long_h)
      as ([] & h1 & Hrow & _); [|exact long_shaped|].
    { apply outer_block_middle_loop_triple;
        [exact Hfuel'|exact Hok|apply shaped_stable|lia|rewrite Hm; lia| | |].
      - right. unfold INT_MAX. lia.
      - by apply Hone.
      - by apply Hone. }
    unfold gemm_blocked, outer_block_outer_loop. cbv zeta.
    rewrite for_loop_int_unfold.
    rewrite decide_True by (rewrite Hm; lia). unfold bind at 1.
    rewrite Hrow. unfold bind at 1.
    rewrite int_add_fits by (unfold INT_MIN, INT_MAX; lia).
    rewrite for_loop_int_unfold.
    rewrite decide_True by (rewrite Hm; lia). unfold bind at 1.
    unfold outer_block_middle_loop at 1. rewrite for_loop_int_unfold.
    rewrite decide_True by (rewrite Hn; lia). unfold bind at 1.
    unfold outer_block_inner_loop at 1. rewrite for_loop_int_unfold.
    rewrite decide_True by (rewrite Hr; lia). unfold bind at 1 2.
    by rewrite int_add_overflows by (unfold INT_MAX; lia).
  - destruct (triple_total (shaped long_A long_B long_C)
                (for_loop_int (S (S fuel)) 0 (cols long_B) 1073741824 (λ jj,
                   for_loop_int (S (S fuel)) 0 (cols long_A) 1073741824 (λ kk,
                     i_end <- ternary_end 0 1073741824 (rows long_A) ;;
                     j_end <- ternary_end jj 1073741824 (cols long_B) ;;
                     k_end <- ternary_end kk 1073741824 (cols long_A) ;;
                     for_loop (S (S fuel)) 0 i_end 1 (λ i,
                       for_loop (S (S fuel)) kk k_end 1 (λ k,
                         a_ik <- elem_get long_A i k ;;
                         for_loop (S (S fuel)) jj j_end 1 (λ j,
                           madd_a Z.add Z.mul a_ik long_B long_C i j k))))))
                (λ _, shaped long_A long_B long_C) long_h)
      as ([] & h1 & Hrow & _); [|exact long_shaped|].
    { apply matmul_blocked_row_triple;
        [exact Hfuel'|exact Hok|apply shaped_stable|lia|rewrite Hm; lia| | |].
      - right. unfold INT_MAX. lia.
      - by apply Hone.
      - by apply Hone. }
    unfold matmul_blocked. cbv zeta.
    rewrite for_loop_int_unfold.
    rewrite decide_True by (rewrite Hm; lia). unfold bind at 1.
    rewrite Hrow. unfold bind at 1.
    rewrite int_add_fits by (unfold INT_MIN, INT_MAX; lia).
    rewrite for_loop_int_unfold.
    rewrite decide_True by (rewrite Hm; lia). unfold bind at 1.
    rewrite for_loop_int_unfold.
    rewrite decide_True by (rewrite Hn; lia). unfold bind at 1.
    rewrite for_loop_int_unfold.
    rewrite decide_True by (rewrite Hr; lia). unfold bind at 1 2.
    by rewrite ternary_end_overflows by (unfold INT_MAX; lia).
Qed.

(** C5 as stated fails: on well-formed matrices of 2^30 + 1 rows and the
    block size 2^30, under the size contract, the blocked kernels leave
    the range of [int] at the second block row (in the compiled program
    the wrapped index then selects rows below 0). *)
Lemma blocked_leaves_int_range :
  sized long_h long_A ∧ sized long_h long_B ∧ sized long_h long_C ∧
  conformable long_A long_B long_C ∧
  ¬ ∀ fuel,
      gemm_blocked Z.add Z.mul fuel long_A long_B long_C 1073741824 long_h
        ≠ Fault ∧
      matmul_blocked Z.add Z.mul fuel long_C long_A long_B 1073741824 long_h
        ≠ Fault.
Proof.
  destruct long_shaped as (HA & HB & HC).
  split; [exact HA|]. split; [exact HB|]. split; [exact HC|].
  split; [repeat split|].
  intros Hno. destruct (Hno (Z.to_nat 1073741826)) as [Hgemm _].
  destruct (blocked_long_overflows (Z.to_nat 1073741826)) as [Hfault _].
  - unfold dim_max, long_A, long_B. cbn [rows cols]. lia.
  - exact (Hgemm Hfault).
Qed.

Lemma terminates_of_triple {R} (P : heap R → Prop) (bound : Z)
    (c : nat → M R unit) (h : heap R) :
  0 ≤ bound →
  (∀ fuel, bound < Z.of_nat fuel → triple False False P (c fuel) (λ _, P)) →
  (∀ fuel fuel', (fuel ≤ fuel')%nat → settled (c fuel) (c fuel')) →
  P h →
  terminates bound (λ fuel, c fuel h).
Proof.
  intros Hb Htot Hset HP.
  destruct (triple_total _ _ _ h (Htot (Z.to_nat (bound + 1)) ltac:(lia)) HP)
    as ([] & h' & Hrun & _).
  exists h'. intros fuel Hfuel.
  apply (Hset (Z.to_nat (bound + 1)) fuel); [lia|done|done].
Qed.

(** C6, as the code has it.  On well-formed inputs every kernel
    terminates: with a block size >= 1 with which the tile loops stay
    within [int], every kernel run with fuel beyond the largest
    dimension returns a store, and the same store whatever the fuel; at
    every tile start the loops reach, the step is a sum of [int]s that
    moves the index forward. *)
Theorem kernels_terminate {R} (Rzero : R) (Radd Rmul : R → R → R)
    (h : heap R) (A B C : Matrix) (x y : loc) (block_size : Z) :
  sized h A → sized h B → sized h C →
  conformable A B C →
  vsized h x (cols A) → vsized h y (rows A) →
  1 ≤ block_size →
  blocks_fit_int A B block_size →
  (∀ o, terminates (dim_max A B) (λ fuel, gemm Radd Rmul o fuel A B C h)) ∧
  terminates (dim_max A B)
    (λ fuel, gemm_blocked Radd Rmul fuel A B C block_size h) ∧
  (∀ f, terminates (dim_max A B) (λ fuel, matmul Radd Rmul f fuel C A B h)) ∧
  terminates (dim_max A B) (λ fuel, matmul_ikj_inlined Radd Rmul fuel C A B h) ∧
  terminates (dim_max A B) (λ fuel, matmul_ikj_inlined' Radd Rmul fuel C A B h) ∧
  terminates (dim_max A B)
    (λ fuel, matmul_blocked Radd Rmul fuel C A B block_size h) ∧
  terminates (dim_max A B) (λ fuel, gaxpy Radd Rmul fuel C A B h) ∧
  terminates (dim_max A B) (λ fuel, gaxpy_row_oriented Radd Rmul fuel A x y h) ∧
  terminates (dim_max A B)
    (λ fuel, gaxpy_column_oriented Radd Rmul fuel A x y h) ∧
  terminates (dim_max A B) (λ fuel, matrix_vector_mult Radd Rmul fuel A x y h) ∧
  terminates (dim_max A B)
    (λ fuel, gaxpy_nested_for_loop Radd Rmul fuel A x y h) ∧
  terminates (dim_max A B) (λ fuel, gaxpy_modular Radd Rmul fuel A x y h) ∧
  terminates (dim_max A B)
    (λ fuel, gaxpy_functional Rzero Radd Rmul fuel A x y h) ∧
  terminates (dim_max A B) (λ fuel, gaxpy_inline_hint Radd Rmul fuel A x y h) ∧
  (∀ d ii, d ∈ [rows A; cols B; cols A] →
     ii ∈ zrange 0 d block_size →
     int_add ii block_size h = Done (ii + block_size, h) ∧
     ii < ii + block_size).
Proof.
  intros HA HB HC Hdims Hx Hy Hbs Hfit.
  assert (False ∨ blocks_fit_int A B block_size) as Hfit' by (by right).
  assert (shaped A B C h) as Hsh by done.
  assert (vshaped A x y h) as Hvsh by done.
  assert (gemm_ok False (shaped (R:=R) A B C) A B C) as Hok by (right; done).
  assert (gaxpy_ok False (vshaped (R:=R) A x y) A x y) as Hvok by (right; done).
  assert (0 ≤ rows A ∧ 0 ≤ cols A) as [Hm Hr].
  { destruct HA as (? & ? & ? & ? & ?). done. }
  assert (0 ≤ dim_max A B) as Hdm by (unfold dim_max; lia).
  assert (∀ fuel, dim_max A B < Z.of_nat fuel →
            fuel_ok False fuel (dim_max A B)) as Hf.
  { intros fuel Hfuel. right. lia. }
  assert (∀ fuel, dim_max A B < Z.of_nat fuel →
            fuel_ok False fuel (Z.max (rows A) (cols A))) as Hvf.
  { intros fuel Hfuel. right. unfold dim_max in *. lia. }
  repeat apply conj; try (intros; lia).
  - intros o.
    apply (terminates_of_triple (shaped A B C) _
             (λ fuel, gemm Radd Rmul o fuel A B C)); [done| | |done]; intros.
    + apply gemm_triple; auto using shaped_stable.
    + by apply gemm_settled.
  - apply (terminates_of_triple (shaped A B C) _
             (λ fuel, gemm_blocked Radd Rmul fuel A B C block_size));
      [done| | |done]; intros.
    + apply gemm_blocked_triple; auto using shaped_stable.
    + by apply gemm_blocked_settled.
  - intros f.
    apply (terminates_of_triple (shaped A B C) _
             (λ fuel, matmul Radd Rmul f fuel C A B)); [done| | |done]; intros.
    + apply matmul_triple; auto using shaped_stable.
    + by apply matmul_settled.
  - apply (terminates_of_triple (shaped A B C) _
             (λ fuel, matmul_ikj_inlined Radd Rmul fuel C A B));
      [done| | |done]; intros.
    + apply matmul_ikj_inlined_triple; auto using shaped_stable.
    + by apply matmul_ikj_inlined_settled.
  - apply (terminates_of_triple (shaped A B C) _
             (λ fuel, matmul_ikj_inlined' Radd Rmul fuel C A B));
      [done| | |done]; intros.
    + apply matmul_ikj_inlined'_triple; auto using shaped_stable.
    + by apply matmul_ikj_inlined'_settled.
  - apply (terminates_of_triple (shaped A B C) _
             (λ fuel, matmul_blocked Radd Rmul fuel C A B block_size));
      [done| | |done]; intros.
    + apply matmul_blocked_triple; auto using shaped_stable.
    + by apply matmul_blocked_settled.
  - apply (terminates_of_triple (shaped A B C) _
             (λ fuel, gaxpy Radd Rmul fuel C A B)); [done| | |done]; intros.
    + apply gaxpy_triple; auto using shaped_stable.
    + by apply gaxpy_settled.
  - apply (terminates_of_triple (vshaped A x y) _
             (λ fuel, gaxpy_row_oriented Radd Rmul fuel A x y));
      [done| | |done]; intros.
    + apply gaxpy_row_oriented_triple; auto using vshaped_stable.
    + by apply gaxpy_row_oriented_settled.
  - apply (terminates_of_triple (vshaped A x y) _
             (λ fuel, gaxpy_column_oriented Radd Rmul fuel A x y));
      [done| | |done]; intros.
    + apply gaxpy_column_oriented_triple; auto using vshaped_stable.
    + by apply gaxpy_column_oriented_settled.
  - apply (terminates_of_triple (vshaped A x y) _
             (λ fuel, matrix_vector_mult Radd Rmul fuel A x y));
      [done| | |done]; intros.
    + apply matrix_vector_mult_triple; auto using vshaped_stable.
    + by apply matrix_vector_mult_settled.
  - apply (terminates_of_triple (vshaped A x y) _
             (λ fuel, gaxpy_nested_for_loop Radd Rmul fuel A x y));
      [done| | |done]; intros.
    + apply gaxpy_nested_for_loop_triple; auto using vshaped_stable.
    + by apply gaxpy_nested_for_loop_settled.
  - apply (terminates_of_triple (vshaped A x y) _
             (λ fuel, gaxpy_modular Radd Rmul fuel A x y));
      [done| | |done]; intros.
    + apply gaxpy_modular_triple; auto using vshaped_stable.
    + by apply gaxpy_modular_settled.
  - apply (terminates_of_triple (vshaped A x y) _
             (λ fuel, gaxpy_functional Rzero Radd Rmul fuel A x y));
      [done| | |done]; intros.
    + apply gaxpy_functional_triple; auto using vshaped_stable.
    + by apply gaxpy_functional_settled.
  - apply (terminates_of_triple (vshaped A x y) _
             (λ fuel, gaxpy_inline_hint Radd Rmul fuel A x y));
      [done| | |done]; intros.
    + apply gaxpy_inline_hint_triple; auto using vshaped_stable.
    + by apply gaxpy_inline_hint_settled.
  - intros d ii Hd Hii.
    assert (ii + block_size ≤ INT_MAX) as Hsum.
    { destruct Hfit as (Hfm & Hfn & Hfr).
      repeat match goal with
             | Hd : _ ∈ _ :: _ |- _ => apply elem_of_cons in Hd as [->|Hd]
             | Hd : _ ∈ [] |- _ => by apply elem_of_nil in Hd
             end; auto. }
    pose proof (elem_of_zrange ii 0 d block_size ltac:(lia) Hii).
    split; [apply int_add_fits; unfold INT_MIN; lia|lia].
Qed.

Lemma kernels_terminate_witness :
  (∀ o, terminates 3 (λ fuel, gemm Z.add Z.mul o fuel ex_A ex_B ex_C ex_k)) ∧
  terminates 3 (λ fuel, gemm_blocked Z.add Z.mul fuel ex_A ex_B ex_C 2 ex_k) ∧
  (∀ f, terminates 3 (λ fuel, matmul Z.add Z.mul f fuel ex_C ex_A ex_B ex_k)) ∧
  terminates 3 (λ fuel, matmul_ikj_inlined Z.add Z.mul fuel ex_C ex_A ex_B ex_k) ∧
  terminates 3 (λ fuel, matmul_ikj_inlined' Z.add Z.mul fuel ex_C ex_A ex_B ex_k) ∧
  terminates 3 (λ fuel, matmul_blocked Z.add Z.mul fuel ex_C ex_A ex_B 2 ex_k) ∧
  terminates 3 (λ fuel, gaxpy Z.add Z.mul fuel ex_C ex_A ex_B ex_k) ∧
  terminates 3 (λ fuel, gaxpy_row_oriented Z.add Z.mul fuel ex_A ex_x ex_y ex_k) ∧
  terminates 3
    (λ fuel, gaxpy_column_oriented Z.add Z.mul fuel ex_A ex_x ex_y ex_k) ∧
  terminates 3 (λ fuel, matrix_vector_mult Z.add Z.mul fuel ex_A ex_x ex_y ex_k) ∧
  terminates 3
    (λ fuel, gaxpy_nested_for_loop Z.add Z.mul fuel ex_A ex_x ex_y ex_k) ∧
  terminates 3 (λ fuel, gaxpy_modular Z.add Z.mul fuel ex_A ex_x ex_y ex_k) ∧
  terminates 3
    (λ fuel, gaxpy_functional 0 Z.add Z.mul fuel ex_A ex_x ex_y ex_k) ∧
  terminates 3 (λ fuel, gaxpy_inline_hint Z.add Z.mul fuel ex_A ex_x ex_y ex_k) ∧
  (∀ d ii, d ∈ [rows ex_A; cols ex_B; cols ex_A] →
     ii ∈ zrange 0 d 2 →
     int_add ii 2 ex_k = Done (ii + 2, ex_k) ∧ ii < ii + 2).
Proof.
  apply (kernels_terminate 0 Z.add Z.mul ex_k ex_A ex_B ex_C ex_x ex_y 2).
  - apply ex_k_sized.
  - apply ex_k_sized.
  - apply ex_k_sized.
  - repeat split; reflexivity.
  - apply ex_k_sized.
  - apply ex_k_sized.
  - lia.
  - repeat apply conj; apply tiles_fit_room; (lia || (unfold INT_MAX; simpl; lia)).
Defined.

(** C6 as stated fails: on a well-formed matrix of 2^30 + 1 rows with
    the block size 2^30 no amount of fuel lets a blocked kernel return;
    the step from the second tile start leaves the range of [int]. *)
Lemma blocked_tile_step_leaves_int :
  sized tall_h tall_A ∧ sized tall_h tall_B ∧ sized tall_h tall_C ∧
  conformable tall_A tall_B tall_C ∧
  ¬ terminates (dim_max tall_A tall_B)
      (λ fuel, gemm_blocked Z.add Z.mul fuel tall_A tall_B tall_C
                 1073741824 tall_h) ∧
  ¬ terminates (dim_max tall_A tall_B)
      (λ fuel, matmul_blocked Z.add Z.mul fuel tall_C tall_A tall_B
                 1073741824 tall_h).
Proof.
  assert (dim_max tall_A tall_B < Z.of_nat (Z.to_nat 1073741826)) as Hfuel.
  { unfold dim_max, tall_A, tall_B. cbn [rows cols]. lia. }
  destruct (blocked_tall_overflows (Z.to_nat 1073741826)) as [Hg Hm]; [lia|].
  split; [exists []; repeat split; (reflexivity || (simpl; lia))|].
  split; [exists []; repeat split; (reflexivity || (simpl; lia))|].
  split; [exists []; repeat split; (reflexivity || (simpl; lia))|].
  split; [repeat split|].
  split; intros (h' & Hrun); specialize (Hrun _ Hfuel); cbv beta in Hrun.
  - rewrite Hg in Hrun. discriminate.
  - rewrite Hm in Hrun. discriminate.
Qed.

(** What a call leaves of the store: the proof of the frame from the
    rule of the kernel. *)
Lemma frame_of_triple {R} (t : loc) inputs (h : heap R) (c : M R unit) :
  triple True True (only_at t h) c (λ _, only_at t h) → frame t inputs h (c h).
Proof.
  intros Hc h' Heq.
  pose proof (triple_partial _ _ _ h tt h' Hc (only_at_refl h t) Heq) as Hfr.
  split; [done|]. intros l _ Hl. by apply Hfr.
Qed.

(** The blocked kernels write to C only, whatever the block size. *)
Lemma gemm_blocked_writes_C {R} (Radd Rmul : R → R → R)
    (h0 : heap R) (A B C : Matrix) (block_size : Z) (fuel : nat) :
  triple True True (only_at (data C) h0)
    (gemm_blocked Radd Rmul fuel A B C block_size)
    (λ _, only_at (data C) h0).
Proof.
  unfold gemm_blocked, outer_block_outer_loop, outer_block_middle_loop,
    outer_block_inner_loop, inner_block_outer_loop, inner_block_middle_loop,
    inner_block_inner_loop.
  do 3 (apply triple_for_int_all; [done|done|intros ?]).
  do 3 (apply triple_int_add_bind; [by left|]). cbv zeta.
  do 3 (apply triple_for_all; [done|intros ?]).
  apply madd_triple; [by left|apply only_at_stable].
Qed.

Lemma matmul_blocked_writes_C {R} (Radd Rmul : R → R → R)
    (h0 : heap R) (A B C : Matrix) (block_size : Z) (fuel : nat) :
  triple True True (only_at (data C) h0)
    (matmul_blocked Radd Rmul fuel C A B block_size)
    (λ _, only_at (data C) h0).
Proof.
  unfold matmul_blocked. cbv zeta.
  do 3 (apply triple_for_int_all; [done|done|intros ?]).
  do 3 (apply triple_ternary_end_bind; [by left|]).
  do 2 (apply triple_for_all; [done|intros ?]).
  eapply triple_bind; [apply elem_get_triple; by left|intros a].
  apply triple_for_all; [done|intros ?].
  eapply (madd_a_triple _ _ _ _ _ a A); [by left|apply only_at_stable].
Qed.

(** C8.  Every kernel writes to the buffer of its accumulator only:
    after a GEMM call every buffer other than the one of C, and so the
    ones of A and B, is as before; after a gaxpy call every buffer other
    than y, and so A and x. *)
Theorem kernels_frame {R} (Rzero : R) (Radd Rmul : R → R → R)
    (h : heap R) (A B C : Matrix) (x y : loc) (block_size : Z) (fuel : nat) :
  (∀ o, frame (data C) [data A; data B] h (gemm Radd Rmul o fuel A B C h)) ∧
  frame (data C) [data A; data B] h
    (gemm_blocked Radd Rmul fuel A B C block_size h) ∧
  (∀ f, frame (data C) [data A; data B] h (matmul Radd Rmul f fuel C A B h)) ∧
  frame (data C) [data A; data B] h (matmul_ikj_inlined Radd Rmul fuel C A B h) ∧
  frame (data C) [data A; data B] h (matmul_ikj_inlined' Radd Rmul fuel C A B h) ∧
  frame (data C) [data A; data B] h
    (matmul_blocked Radd Rmul fuel C A B block_size h) ∧
  frame (data C) [data A; data B] h (gaxpy Radd Rmul fuel C A B h) ∧
  frame y [data A; x] h (gaxpy_row_oriented Radd Rmul fuel A x y h) ∧
  frame y [data A; x] h (gaxpy_column_oriented Radd Rmul fuel A x y h) ∧
  frame y [data A; x] h (matrix_vector_mult Radd Rmul fuel A x y h) ∧
  frame y [data A; x] h (gaxpy_nested_for_loop Radd Rmul fuel A x y h) ∧
  frame y [data A; x] h (gaxpy_modular Radd Rmul fuel A x y h) ∧
  frame y [data A; x] h (gaxpy_functional Rzero Radd Rmul fuel A x y h) ∧
  frame y [data A; x] h (gaxpy_inline_hint Radd Rmul fuel A x y h).
Proof.
  assert (∀ P, gemm_ok (R:=R) True P A B C) as Hok by (by left).
  assert (∀ P, gaxpy_ok (R:=R) True P A x y) as Hvok by (by left).
  assert (∀ b, fuel_ok True fuel b) as Hfuel by (by left).
  repeat apply conj; intros; apply frame_of_triple.
  - apply gemm_triple; auto using only_at_stable.
  - apply gemm_blocked_writes_C.
  - apply matmul_triple; auto using only_at_stable.
  - apply matmul_ikj_inlined_triple; auto using only_at_stable.
  - apply matmul_ikj_inlined'_triple; auto using only_at_stable.
  - apply matmul_blocked_writes_C.
  - apply gaxpy_triple; auto using only_at_stable.
  - apply gaxpy_row_oriented_triple; auto using only_at_stable.
  - apply gaxpy_column_oriented_triple; auto using only_at_stable.
  - apply matrix_vector_mult_triple; auto using only_at_stable.
  - apply gaxpy_nested_for_loop_triple; auto using only_at_stable.
  - apply gaxpy_modular_triple; auto using only_at_stable.
  - apply gaxpy_functional_triple; auto using only_at_stable.
  - apply gaxpy_inline_hint_triple; auto using only_at_stable.
Qed.

Lemma kernels_frame_witness :
  ∃ h' k',
    gemm Z.add Z.mul kji 4 ex_A ex_B ex_C ex_k = Done (tt, h') ∧
    h' !! data ex_A = Some ex_bufA ∧ h' !! data ex_B = Some ex_bufB ∧
    gaxpy_column_oriented Z.add Z.mul 4 ex_A ex_x ex_y ex_k = Done (tt, k') ∧
    k' !! data ex_A = Some ex_bufA ∧ k' !! ex_x = Some [1; 1; 1].
Proof.
  destruct (kernels_frame 0 Z.add Z.mul ex_k ex_A ex_B ex_C ex_x ex_y 2 4)
    as (Hgemm & _ & _ & _ & _ & _ & _ & _ & Hcol & _).
  eexists. eexists.
  split; [vm_compute; reflexivity|].
  split; [apply (Hgemm kji _ eq_refl); [set_solver|discriminate]|].
  split; [apply (Hgemm kji _ eq_refl); [set_solver|discriminate]|].
  split; [vm_compute; reflexivity|].
  split; [apply (Hcol _ eq_refl); [set_solver|discriminate]|].
  apply (Hcol _ eq_refl); [set_solver|discriminate].
Defined.

(** *** The block size is not validated *)

Section BlockSize.
Context {R : Type}.
Variables (Radd Rmul : R → R → R).
Variables (A B C : Matrix) (block_size : Z) (fuel : nat).
Hypothesis Hbs : block_size ≤ 0.

(** With a block size that is not positive the first tile loop never
    gets past its bound. *)
Lemma gemm_blocked_no_return h r :
  1 ≤ rows A → gemm_blocked Radd Rmul fuel A B C block_size h ≠ Done r.
Proof.
  intros Hm. unfold gemm_blocked, outer_block_outer_loop. cbv zeta.
  apply for_loop_int_no_return; [done|lia].
Qed.

Lemma matmul_blocked_no_return h r :
  1 ≤ rows A → matmul_blocked Radd Rmul fuel C A B block_size h ≠ Done r.
Proof.
  intros Hm. unfold matmul_blocked. cbv zeta.
  apply for_loop_int_no_return; [done|lia].
Qed.

(** The tile indices only go down from 0, and every tile is empty; as
    long as the indices stay above [INT_MIN] nothing goes wrong. *)
Hypothesis Hint : INT_MIN ≤ Z.of_nat fuel * block_size.

Ltac down_tiles :=
  apply for_loop_int_no_fault;
    [exact Hbs|unfold INT_MAX; lia|lia|intros ? ? ? ?].

Lemma tiles_of_row_no_error ii h :
  ii ≤ 0 → INT_MIN ≤ ii + block_size →
  outer_block_middle_loop Radd Rmul fuel A B C ii block_size
    (rows A) (cols B) (cols A) h ≠ Fault.
Proof.
  intros Hii Hmin. unfold outer_block_middle_loop, outer_block_inner_loop.
  do 2 down_tiles. unfold bind.
  rewrite !int_add_fits by (unfold INT_MAX; lia). cbv zeta.
  unfold inner_block_outer_loop. apply for_loop_empty. lia.
Qed.

Lemma matmul_tiles_of_row_no_error ii h :
  ii ≤ 0 → INT_MIN ≤ ii + block_size →
  for_loop_int fuel 0 (cols B) block_size (λ jj,
    for_loop_int fuel 0 (cols A) block_size (λ kk,
      i_end <- ternary_end ii block_size (rows A) ;;
      j_end <- ternary_end jj block_size (cols B) ;;
      k_end <- ternary_end kk block_size (cols A) ;;
      for_loop fuel ii i_end 1 (λ i,
        for_loop fuel kk k_end 1 (λ k,
          a_ik <- elem_get A i k ;;
          for_loop fuel jj j_end 1 (λ j,
            madd_a Radd Rmul a_ik B C i j k))))) h ≠ Fault.
Proof.
  intros Hii Hmin. do 2 down_tiles. unfold bind.
  rewrite !ternary_end_fits by (unfold INT_MAX; lia).
  apply for_loop_empty. lia.
Qed.

Lemma gemm_blocked_no_error h :
  gemm_blocked Radd Rmul fuel A B C block_size h ≠ Fault.
Proof.
  unfold gemm_blocked, outer_block_outer_loop. cbv zeta.
  down_tiles. by apply tiles_of_row_no_error.
Qed.

Lemma matmul_blocked_no_error h :
  matmul_blocked Radd Rmul fuel C A B block_size h ≠ Fault.
Proof.
  unfold matmul_blocked. cbv zeta.
  down_tiles. by apply matmul_tiles_of_row_no_error.
Qed.

(** The call is then still running when the fuel is used up. *)
Lemma gemm_blocked_spins h :
  1 ≤ rows A → gemm_blocked Radd Rmul fuel A B C block_size h = Timeout.
Proof.
  intros Hm. pose proof (gemm_blocked_no_error h) as Hfault.
  destruct (gemm_blocked Radd Rmul fuel A B C block_size h) as [r| |] eqn:Hrun;
    [|done..].
  by apply gemm_blocked_no_return in Hrun.
Qed.

Lemma matmul_blocked_spins h :
  1 ≤ rows A → matmul_blocked Radd Rmul fuel C A B block_size h = Timeout.
Proof.
  intros Hm. pose proof (matmul_blocked_no_error h) as Hfault.
  destruct (matmul_blocked Radd Rmul fuel C A B block_size h) as [r| |] eqn:Hrun;
    [|done..].
  by apply matmul_blocked_no_return in Hrun.
Qed.

End BlockSize.

(** With a negative block size the tile index runs down until it
    leaves the range of [int]: with block_size = -2^30 at the third
    tile, where kk + block_size = -3 * 2^30. *)
Lemma blocked_negative_block_size_leaves_int :
  gemm_blocked Z.add Z.mul 3 ex_A ex_B ex_C (-1073741824) ex_h = Fault ∧
  matmul_blocked Z.add Z.mul 3 ex_C ex_A ex_B (-1073741824) ex_h = Fault.
Proof. split; vm_compute; reflexivity. Qed.

(** C7, as the code has it.  The blocked kernels do not check the block
    size: a block size <= 0 is never answered by an error.  With at
    least one row the call does not return, and while the tile index,
    which steps down from 0 by the block size, stays an [int], nothing
    faults either.  With block_size = 0 the tile loop does not advance,
    so that no fuel lets the call finish. *)
Theorem blocked_block_size_unchecked {R} (Radd Rmul : R → R → R)
    (h : heap R) (A B C : Matrix) (block_size : Z) (fuel : nat) :
  block_size ≤ 0 →
  1 ≤ rows A →
  (INT_MIN ≤ Z.of_nat fuel * block_size →
   gemm_blocked Radd Rmul fuel A B C block_size h ≠ Fault ∧
   matmul_blocked Radd Rmul fuel C A B block_size h ≠ Fault) ∧
  (∀ r, gemm_blocked Radd Rmul fuel A B C block_size h ≠ Done r) ∧
  (∀ r, matmul_blocked Radd Rmul fuel C A B block_size h ≠ Done r) ∧
  gemm_blocked Radd Rmul fuel A B C 0 h = Timeout ∧
  matmul_blocked Radd Rmul fuel C A B 0 h = Timeout.
Proof.
  intros Hbs Hm. split.
  { intros Hint.
    split; [by apply gemm_blocked_no_error|by apply matmul_blocked_no_error]. }
  split; [intros r; by apply gemm_blocked_no_return|].
  split; [intros r; by apply matmul_blocked_no_return|].
  split.
  - apply gemm_blocked_spins; [lia|unfold INT_MIN; lia|done].
  - apply matmul_blocked_spins; [lia|unfold INT_MIN; lia|done].
Qed.

Lemma blocked_block_size_unchecked_witness :
  gemm_blocked Z.add Z.mul 100 ex_A ex_B ex_C (-64) ex_h ≠ Fault ∧
  matmul_blocked Z.add Z.mul 100 ex_C ex_A ex_B (-64) ex_h ≠ Fault ∧
  (∀ r, gemm_blocked Z.add Z.mul 100 ex_A ex_B ex_C (-64) ex_h ≠ Done r) ∧
  (∀ r, matmul_blocked Z.add Z.mul 100 ex_C ex_A ex_B (-64) ex_h ≠ Done r) ∧
  gemm_blocked Z.add Z.mul 100 ex_A ex_B ex_C 0 ex_h = Timeout ∧
  matmul_blocked Z.add Z.mul 100 ex_C ex_A ex_B 0 ex_h = Timeout.
Proof.
  destruct (blocked_block_size_unchecked Z.add Z.mul ex_h ex_A ex_B ex_C
              (-64) 100) as (Herr & Hgemm & Hmatmul & Hspin & Hspin').
  - lia.
  - simpl. lia.
  - destruct Herr as [Hg Hm]; [unfold INT_MIN; lia|].
    split; [exact Hg|]. split; [exact Hm|].
    split; [exact Hgemm|]. split; [exact Hmatmul|].
    split; [exact Hspin|exact Hspin'].
Defined.

(** C7 as stated fails: for the block size 0 no amount of fuel makes
    either blocked kernel answer, with an error or otherwise. *)
Lemma blocked_zero_block_size_never_rejected :
  ¬ ∃ fuel,
      gemm_blocked Z.add Z.mul fuel ex_A ex_B ex_C 0 ex_h ≠ Timeout ∨
      matmul_blocked Z.add Z.mul fuel ex_C ex_A ex_B 0 ex_h ≠ Timeout.
Proof.
  intros [fuel [Hne|Hne]]; apply Hne.
  - apply gemm_blocked_spins; [lia|unfold INT_MIN; lia|simpl; lia].
  - apply matmul_blocked_spins; [lia|unfold INT_MIN; lia|simpl; lia].
Qed.

(** *** Construction *)

Lemma alloc_zeroed_spec {R} (Rzero : R) (len : Z) (h : heap R) :
  0 ≤ len →
  ∃ l, alloc_zeroed Rzero len h
       = Done (l, <[l := replicate (Z.to_nat len) Rzero]> h) ∧
       h !! l = None.
Proof.
  intros Hlen. exists (fresh (dom h)). unfold alloc_zeroed.
  rewrite decide_True by done. split; [done|].
  apply not_elem_of_dom. apply is_fresh.
Qed.

(** C10, as the code has it.  Construction zero-initialises: for
    rows, cols >= 1 whose product is an [int], both constructors return
    a matrix with a fresh buffer of exactly rows*cols elements, all
    zero; one multiplication into it leaves exactly the product A·B. *)
Theorem construction_zero_initializes {R} (Rzero : R) (Radd Rmul : R → R → R)
    (h : heap R) (m n : Z) :
  1 ≤ m → 1 ≤ n → m * n ≤ INT_MAX →
  ∃ C zeros,
    create_matrix Rzero m n h = Done (C, <[data C := zeros]> h) ∧
    Matrix_new Rzero m n h = Done (C, <[data C := zeros]> h) ∧
    rows C = m ∧ cols C = n ∧ h !! data C = None ∧
    length zeros = Z.to_nat (m * n) ∧
    Forall (λ v, v = Rzero) zeros ∧
    ∀ A B bufA bufB,
      exact_arithmetic Rzero Radd →
      wf_matrix h A bufA → wf_matrix h B bufB →
      conformable A B C →
      ∃ product,
        length product = Z.to_nat (m * n) ∧
        (∀ i j, 0 ≤ i < m → 0 ≤ j < n →
           product !! Z.to_nat (offset C i j)
           = Some (dot Rzero Radd Rmul A B bufA bufB i j)) ∧
        ∀ fuel, dim_max A B < Z.of_nat fuel →
          (∀ o, gemm Radd Rmul o fuel A B C (<[data C := zeros]> h)
                = Done (tt, <[data C := product]> h)) ∧
          (∀ f, matmul Radd Rmul f fuel C A B (<[data C := zeros]> h)
                = Done (tt, <[data C := product]> h)).
Proof.
  intros Hm Hn Hint.
  destruct (alloc_zeroed_spec Rzero (m * n) h) as (l & Halloc & Hfresh); [nia|].
  exists {| rows := m; cols := n; data := l |}, (replicate (Z.to_nat (m * n)) Rzero).
  simpl. repeat apply conj.
  - unfold create_matrix, bind. rewrite int_mul_fits by (unfold INT_MIN; nia). by rewrite Halloc.
  - unfold Matrix_new, bind. rewrite int_mul_fits by (unfold INT_MIN; nia). by rewrite Halloc.
  - done.
  - done.
  - done.
  - apply length_replicate.
  - by apply Forall_replicate.
  - intros A B bufA bufB (Hcomm & Hassoc & H0)
      (HA & HmA & HrA & HlenA) (HB & HrB & HnB & HlenB) Hdims.
    set (C := {| rows := m; cols := n; data := l |}) in *.
    set (zeros := replicate (Z.to_nat (m * n)) Rzero).
    destruct Hdims as (Hr & HmC & HnC). simpl in HmC, HnC.
    assert (conformable A B C) as Hdims by done.
    assert (data A ≠ data C) as HneA.
    { intros Heq. rewrite Heq in HA. subst C. simpl in HA.
      rewrite Hfresh in HA. discriminate. }
    assert (data B ≠ data C) as HneB.
    { intros Heq. rewrite Heq in HB. subst C. simpl in HB.
      rewrite Hfresh in HB. discriminate. }
    assert (length zeros = Z.to_nat (rows C * cols C)) as Hlen
      by apply length_replicate.
    exists (scatter Radd (gemm_trace Rzero Rmul A B C bufA bufB) zeros).
    split; [by rewrite scatter_length|]. split.
    + intros i j Hi Hj.
      rewrite (gemm_trace_lookup Rzero Radd Rmul Hcomm Hassoc H0
                 A B C bufA bufB) by (done || lia).
      f_equal. unfold entry.
      assert (in_range C i j) as Hin by (unfold in_range; simpl; lia).
      pose proof (offset_bound C i j Hin) as Hoff. simpl in Hoff.
      unfold zeros. rewrite lookup_replicate_2 by lia. simpl. apply H0.
    + intros fuel Hfuel.
      assert (Z.max 0 (dim_max A B) < Z.of_nat fuel) as Hfuel'.
      { unfold dim_max in *. lia. }
      split.
      * intros o.
        by apply (gemm_run Rzero Radd Rmul Hcomm Hassoc H0 A B C bufA bufB h).
      * intros f.
        by apply (matmul_run Rzero Radd Rmul Hcomm Hassoc H0 A B C bufA bufB h).
Qed.

Lemma construction_zero_initializes_witness :
  ∃ C zeros,
    create_matrix 0 2 2 (delete 3%positive ex_h)
      = Done (C, <[data C := zeros]> (delete 3%positive ex_h)) ∧
    Matrix_new 0 2 2 (delete 3%positive ex_h)
      = Done (C, <[data C := zeros]> (delete 3%positive ex_h)) ∧
    rows C = 2 ∧ cols C = 2 ∧ delete 3%positive ex_h !! data C = None ∧
    length zeros = 4%nat ∧
    Forall (λ v, v = 0) zeros ∧
    ∃ product,
      product !! Z.to_nat (offset C 0 0) = Some 4 ∧
      product !! Z.to_nat (offset C 0 1) = Some 5 ∧
      product !! Z.to_nat (offset C 1 0) = Some 10 ∧
      product !! Z.to_nat (offset C 1 1) = Some 11 ∧
      ∀ o, gemm Z.add Z.mul o 4 ex_A ex_B C
             (<[data C := zeros]> (delete 3%positive ex_h))
           = Done (tt, <[data C := product]> (delete 3%positive ex_h)).
Proof.
  destruct (construction_zero_initializes 0 Z.add Z.mul
              (delete 3%positive ex_h) 2 2)
    as (C & zeros & Hc & Hcxx & Hr & Hcols & Hfresh & Hlen & Hz & Hmul);
    [lia|lia|unfold INT_MAX; lia|].
  exists C, zeros. repeat apply conj; try done.
  destruct (Hmul ex_A ex_B ex_bufA ex_bufB)
    as (product & _ & Hentry & Hrun).
  - repeat split; intros; lia.
  - repeat split; (reflexivity || (simpl; lia)).
  - repeat split; (reflexivity || (simpl; lia)).
  - split; [reflexivity|]. split; [exact Hr|exact Hcols].
  - exists product.
    split; [apply (Hentry 0 0); lia|].
    split; [apply (Hentry 0 1); lia|].
    split; [apply (Hentry 1 0); lia|].
    split; [apply (Hentry 1 1); lia|].
    apply (Hrun 4%nat). reflexivity.
Defined.

(** For 65536 rows and 65536 columns the element count rows*cols is not
    an [int]: neither constructor returns a matrix with a zero-filled
    buffer of rows*cols elements. *)
Lemma construction_beyond_int :
  1 ≤ 65536 ∧
  (¬ ∃ (C : Matrix) (zeros : list Z),
      create_matrix 0 65536 65536 ∅ = Done (C, <[data C := zeros]> ∅)) ∧
  (¬ ∃ (C : Matrix) (zeros : list Z),
      Matrix_new 0 65536 65536 ∅ = Done (C, <[data C := zeros]> ∅)).
Proof.
  assert (INT_MAX < 65536 * 65536) as Hover by (unfold INT_MAX; lia).
  split; [lia|]. split; intros (C & zeros & Hrun).
  - unfold create_matrix, bind in Hrun.
    by rewrite (int_mul_overflows 65536 65536 ∅ Hover) in Hrun.
  - unfold Matrix_new, bind in Hrun.
    by rewrite (int_mul_overflows 65536 65536 ∅ Hover) in Hrun.
Qed.

(** *** Filling with random values *)

(** A loop storing [draw i] at every offset [i] of [lo, hi): the offsets
    of the range hold the draws, the others keep their element. *)
Lemma fill_loop_spec {R} (l : loc) (draw : Z → R) fuel lo hi
    (h : heap R) (buf : list R) :
  0 ≤ lo → hi ≤ Z.of_nat (length buf) →
  Z.max 0 (hi - lo) < Z.of_nat fuel →
  ∃ buf',
    for_loop fuel lo hi 1 (λ i, vec_set l i (draw i)) (<[l := buf]> h)
      = Done (tt, <[l := buf']> h) ∧
    length buf' = length buf ∧
    (∀ p, lo ≤ p < hi → buf' !! Z.to_nat p = Some (draw p)) ∧
    (∀ q : nat, ¬ (lo ≤ Z.of_nat q < hi) → buf' !! q = buf !! q).
Proof.
  revert lo buf. induction fuel as [|fuel IH]; intros lo buf Hlo Hhi Hfuel; [lia|].
  simpl. case_decide as Hlt.
  - unfold bind. unfold vec_set at 1. rewrite decide_True by done.
    rewrite lookup_insert_eq. rewrite decide_True by lia.
    rewrite insert_insert_eq.
    destruct (IH (lo + 1) (<[Z.to_nat lo := draw lo]> buf))
      as (buf' & Hrun & Hlen & Hin & Hout); [lia|rewrite length_insert; lia|lia|].
    exists buf'. rewrite Hrun. repeat split.
    + by rewrite Hlen, length_insert.
    + intros p Hp. destruct (decide (p = lo)) as [->|Hne].
      * rewrite Hout by lia. apply list_lookup_insert_eq. lia.
      * apply Hin. lia.
    + intros q Hq. rewrite Hout by lia.
      apply list_lookup_insert_ne. lia.
  - exists buf. split; [done|]. split; [done|]. split; [intros; lia|done].
Qed.

(** The scaled value of a draw of [rand()] lies in [-1, 1]. *)
Lemma rand_scaled_range (RAND_MAX r : Z) :
  0 < RAND_MAX → 0 ≤ r ≤ RAND_MAX →
  (-1 <= rand_scaled RAND_MAX r)%Q ∧ (rand_scaled RAND_MAX r <= 1)%Q.
Proof.
  intros Hpos Hr. unfold rand_scaled.
  destruct RAND_MAX as [|M|M]; [lia| |lia].
  unfold Qle, Qminus, Qplus, Qopp, Qmult, Qdiv, Qinv, inject_Z. simpl.
  split; nia.
Qed.

(** [init_random_matrix] of the single-file program assigns every one
    of the rows*cols elements, each with a value in [-1, 1]. *)
Lemma init_random_matrix_fills (RAND_MAX : Z) (rand : Z → Z)
    (h : heap Q) (m : Matrix) (buf : list Q) (fuel : nat) :
  0 < RAND_MAX → (∀ i, 0 ≤ rand i ≤ RAND_MAX) →
  wf_matrix h m buf →
  rows m * cols m < Z.of_nat fuel →
  ∃ buf',
    init_random_matrix fuel (λ i, rand_scaled RAND_MAX (rand i)) m h
      = Done (tt, <[data m := buf']> h) ∧
    length buf' = length buf ∧
    ∀ p, (p < length buf)%nat →
      buf' !! p = Some (rand_scaled RAND_MAX (rand (Z.of_nat p))) ∧
      (-1 <= rand_scaled RAND_MAX (rand (Z.of_nat p)))%Q ∧
      (rand_scaled RAND_MAX (rand (Z.of_nat p)) <= 1)%Q.
Proof.
  intros Hpos Hrand (Hbuf & Hr & Hc & Hlen) Hfuel.
  destruct (fill_loop_spec (data m) (λ i, rand_scaled RAND_MAX (rand i))
              fuel 0 (rows m * cols m) h buf)
    as (buf' & Hrun & Hlen' & Hin & _); [lia|lia|nia|].
  exists buf'. rewrite insert_id in Hrun by done.
  split; [exact Hrun|]. split; [done|].
  intros p Hp. split.
  - rewrite <- (Nat2Z.id p) at 1. apply Hin. lia.
  - by apply rand_scaled_range.
Qed.

(** [Matrix::fill_random] assigns every element of the buffer. *)
Lemma fill_random_fills {R} (draw : Z → R) (h : heap R) (A : Matrix)
    (buf : list R) :
  h !! data A = Some buf →
  ∃ buf',
    fill_random draw A h = Done (tt, <[data A := buf']> h) ∧
    length buf' = length buf ∧
    ∀ p, (p < length buf)%nat → buf' !! p = Some (draw (Z.of_nat p)).
Proof.
  intros Hbuf. unfold fill_random. rewrite Hbuf.
  eexists. split; [done|]. split; [apply length_imap|].
  intros p Hp. rewrite list_lookup_imap.
  by destruct (lookup_lt_is_Some_2 buf p Hp) as [v ->].
Qed.

(** [int_random_matrix] assigns the first [rows] elements of the buffer
    and no other. *)
Lemma int_random_matrix_fills_rows_only {R} (draw : Z → R)
    (h : heap R) (m : Matrix) (buf : list R) (fuel : nat) :
  wf_matrix h m buf → 1 ≤ cols m →
  rows m < Z.of_nat fuel →
  ∃ buf',
    int_random_matrix fuel draw m h = Done (tt, <[data m := buf']> h) ∧
    length buf' = length buf ∧
    (∀ p, 0 ≤ p < rows m → buf' !! Z.to_nat p = Some (draw p)) ∧
    (∀ q : nat, rows m ≤ Z.of_nat q → buf' !! q = buf !! q).
Proof.
  intros (Hbuf & Hr & Hc & Hlen) Hcols Hfuel.
  destruct (fill_loop_spec (data m) draw fuel 0 (rows m) h buf)
    as (buf' & Hrun & Hlen' & Hin & Hout); [lia|nia|lia|].
  exists buf'. rewrite insert_id in Hrun by done.
  split; [exact Hrun|]. split; [done|]. split; [done|].
  intros q Hq. apply Hout. lia.
Qed.

(** C9 fails on [int_random_matrix] of split_file/matrix_utils.c: its
    loop runs over the rows, not over the rows*cols elements, so on a
    2×2 matrix it assigns two elements and leaves the other two, here 5,
    outside [-1, 1]. *)
Theorem int_random_matrix_leaves_elements (RAND_MAX : Z) (rand : Z → Z) :
  int_random_matrix 3 (λ i, rand_scaled RAND_MAX (rand i)) ex_M ex_m
  = Done (tt, <[1%positive :=
        [rand_scaled RAND_MAX (rand 0); rand_scaled RAND_MAX (rand 1);
         5%Q; 5%Q]]> ex_m) ∧
  ¬ (5 <= 1)%Q.
Proof. split; [reflexivity|]. intros H. by vm_compute in H. Qed.

(** ** The utilities, the BLAS levels 1 and 2 and the checks *)

(** *** Loops with an invariant that follows the index *)

Section LoopSpecs.
Context {R : Type}.

Lemma for_loop_inv (Inv : Z → heap R → Prop) fuel lo hi
    (body : Z → M R unit) (h : heap R) :
  Z.max 0 (hi - lo) < Z.of_nat fuel →
  Inv lo h →
  (∀ i h1, lo ≤ i < hi → Inv i h1 →
     ∃ h2, body i h1 = Done (tt, h2) ∧ Inv (i + 1) h2) →
  ∃ h', for_loop fuel lo hi 1 body h = Done (tt, h') ∧ Inv (Z.max lo hi) h'.
Proof.
  revert lo h. induction fuel as [|fuel IH]; intros lo h Hfuel Hinv Hbody; [lia|].
  simpl. case_decide as Hlt.
  - destruct (Hbody lo h) as (h2 & Hrun & Hinv2); [lia|done|].
    unfold bind. rewrite Hrun.
    destruct (IH (lo + 1) h2) as (h' & Hrest & Hinv'); [lia|done| |].
    { intros i h1 Hi. apply Hbody. lia. }
    exists h'. split; [done|].
    by replace (Z.max lo hi) with (Z.max (lo + 1) hi) by lia.
  - exists h. split; [done|]. by replace (Z.max lo hi) with lo by lia.
Qed.

Lemma for_loop_acc_inv {T} (Inv : Z → T → heap R → Prop) fuel lo hi
    (body : Z → T → M R T) (acc : T) (h : heap R) :
  Z.max 0 (hi - lo) < Z.of_nat fuel →
  Inv lo acc h →
  (∀ i a h1, lo ≤ i < hi → Inv i a h1 →
     ∃ a' h2, body i a h1 = Done (a', h2) ∧ Inv (i + 1) a' h2) →
  ∃ a' h', for_loop_acc fuel lo hi 1 body acc h = Done (a', h') ∧
           Inv (Z.max lo hi) a' h'.
Proof.
  revert lo acc h.
  induction fuel as [|fuel IH]; intros lo acc h Hfuel Hinv Hbody; [lia|].
  simpl. case_decide as Hlt.
  - destruct (Hbody lo acc h) as (a1 & h2 & Hrun & Hinv2); [lia|done|].
    unfold bind. rewrite Hrun.
    destruct (IH (lo + 1) a1 h2) as (a' & h' & Hrest & Hinv'); [lia|done| |].
    { intros i a h1 Hi. apply Hbody. lia. }
    exists a', h'. split; [done|].
    by replace (Z.max lo hi) with (Z.max (lo + 1) hi) by lia.
  - exists acc, h. split; [done|]. by replace (Z.max lo hi) with lo by lia.
Qed.

(** Reading an element that is there. *)
Lemma vec_get_at (h : heap R) x buf i v :
  h !! x = Some buf → 0 ≤ i → buf !! Z.to_nat i = Some v →
  vec_get x i h = Done (v, h).
Proof.
  intros Hx Hi Hv. unfold vec_get. rewrite decide_True by done.
  by rewrite Hx, Hv.
Qed.

Lemma vec_set_at (h : heap R) y buf i v :
  h !! y = Some buf → 0 ≤ i → (Z.to_nat i < length buf)%nat →
  vec_set y i v h = Done (tt, <[y := <[Z.to_nat i := v]> buf]> h).
Proof.
  intros Hy Hi Hlt. unfold vec_set. rewrite decide_True by done.
  rewrite Hy. by rewrite decide_True by done.
Qed.

Lemma elem_get_at (h : heap R) A buf i j v :
  h !! data A = Some buf → in_range A i j →
  buf !! Z.to_nat (offset A i j) = Some v →
  elem_get A i j h = Done (v, h).
Proof.
  intros HA Hin Hv. unfold elem_get. rewrite decide_True by done.
  by rewrite HA, Hv.
Qed.

Lemma elem_set_at (h : heap R) A buf i j v :
  h !! data A = Some buf → in_range A i j →
  (Z.to_nat (offset A i j) < length buf)%nat →
  elem_set A i j v h
  = Done (tt, <[data A := <[Z.to_nat (offset A i j) := v]> buf]> h).
Proof.
  intros HA Hin Hlt. unfold elem_set. rewrite decide_True by done.
  rewrite HA. by rewrite decide_True by done.
Qed.

End LoopSpecs.

(** *** Level 1 BLAS *)

(** X1.  [saxpy] adds [alpha * x[i]] into every [y[i]] with i < n, each
    once, and leaves the elements of y from n on as they were; x and y
    may be the same vector, and n <= 0 changes nothing. *)
Theorem saxpy_updates {R} (Radd Rmul : R → R → R) (h : heap R)
    (x y : loc) (bufx bufy : list R) (alpha : R) (n : Z) (fuel : nat) :
  h !! x = Some bufx → h !! y = Some bufy →
  n ≤ Z.of_nat (length bufx) → n ≤ Z.of_nat (length bufy) →
  Z.max 0 n < Z.of_nat fuel →
  ∃ bufy',
    saxpy Radd Rmul fuel y alpha x n h = Done (tt, <[y := bufy']> h) ∧
    length bufy' = length bufy ∧
    (∀ i xi yi, 0 ≤ i < n →
       bufx !! Z.to_nat i = Some xi → bufy !! Z.to_nat i = Some yi →
       bufy' !! Z.to_nat i = Some (Radd yi (Rmul alpha xi))) ∧
    (∀ q : nat, n ≤ Z.of_nat q → bufy' !! q = bufy !! q).
Proof.
  intros Hx Hy Hlx Hly Hfuel.
  destruct (for_loop_inv
    (λ i h', ∃ b, h' = <[y := b]> h ∧ length b = length bufy ∧
       (∀ p xp yp, 0 ≤ p < i →
          bufx !! Z.to_nat p = Some xp → bufy !! Z.to_nat p = Some yp →
          b !! Z.to_nat p = Some (Radd yp (Rmul alpha xp))) ∧
       (∀ q : nat, i ≤ Z.of_nat q → b !! q = bufy !! q))
    fuel 0 n
    (λ i, xi <- vec_get x i ;; yi <- vec_get y i ;;
          vec_set y i (Radd yi (Rmul alpha xi))) h)
    as (h' & Hrun & b & -> & Hlen & Hin & Hout).
  - lia.
  - exists bufy. split; [by rewrite insert_id|]. split; [done|].
    split; [intros; lia|done].
  - intros i h1 Hi (b & -> & Hlen & Hin & Hout).
    destruct (lookup_lt_is_Some_2 bufx (Z.to_nat i)) as [xi Hxi]; [lia|].
    destruct (lookup_lt_is_Some_2 bufy (Z.to_nat i)) as [yi Hyi]; [lia|].
    assert (b !! Z.to_nat i = Some yi) as Hbi by (rewrite Hout by lia; done).
    assert (vec_get x i (<[y := b]> h) = Done (xi, <[y := b]> h)) as Hgx.
    { destruct (decide (x = y)) as [->|Hne].
      - apply (vec_get_at _ _ b); [by rewrite lookup_insert_eq|lia|].
        rewrite Hbi. congruence.
      - apply (vec_get_at _ _ bufx); [by rewrite lookup_insert_ne|lia|done]. }
    unfold bind. rewrite Hgx.
    rewrite (vec_get_at _ y b i yi)
      by first [by rewrite lookup_insert_eq|lia|done].
    rewrite (vec_set_at _ y b) by first [by rewrite lookup_insert_eq|lia].
    eexists. split; [done|]. rewrite insert_insert_eq.
    exists (<[Z.to_nat i := Radd yi (Rmul alpha xi)]> b).
    split; [done|]. split; [by rewrite length_insert|]. split.
    + intros p xp yp Hp Hxp Hyp. destruct (decide (p = i)) as [->|Hne].
      * rewrite list_lookup_insert_eq by lia. congruence.
      * rewrite list_lookup_insert_ne by lia. apply Hin; (done || lia).
    + intros q Hq. rewrite list_lookup_insert_ne by lia. apply Hout. lia.
  - exists b. unfold saxpy. rewrite Hrun.
    split; [done|]. split; [done|]. split.
    + intros i xi yi Hi. apply Hin. lia.
    + intros q Hq. apply Hout. lia.
Qed.

Lemma saxpy_updates_witness :
  saxpy Z.add Z.mul 4 5%positive 10 4%positive 2
    (<[4%positive := [1; 2; 3]]> (<[5%positive := [7; 8; 9]]> ∅))
  = Done (tt, <[5%positive := [17; 28; 9]]>
                (<[4%positive := [1; 2; 3]]> (<[5%positive := [7; 8; 9]]> ∅))).
Proof.
  destruct (saxpy_updates Z.add Z.mul
              (<[4%positive := [1; 2; 3]]> (<[5%positive := [7; 8; 9]]> ∅))
              4%positive 5%positive [1; 2; 3] [7; 8; 9] 10 2 4)
    as (bufy' & Hrun & Hlen & Hin & Hout);
    [reflexivity|reflexivity|simpl; lia|simpl; lia|simpl; lia|].
  rewrite Hrun. do 2 f_equal. f_equal.
  apply list_eq. intros [|[|[|q]]].
  - apply (Hin 0 1 7); (lia || reflexivity).
  - apply (Hin 1 2 8); (lia || reflexivity).
  - apply (Hout 2%nat). lia.
  - rewrite (Hout (S (S (S q)))) by lia. reflexivity.
Defined.

Lemma seqZ_snoc (m n : Z) : 0 ≤ n → seqZ m (n + 1) = seqZ m n ++ [m + n].
Proof.
  intros Hn. by rewrite seqZ_app by lia.
Qed.

Lemma seqZ_max (m n : Z) : seqZ m (Z.max 0 n) = seqZ m n.
Proof. unfold seqZ. by replace (Z.to_nat (Z.max 0 n)) with (Z.to_nat n) by lia. Qed.

Lemma dot_product_value {R} (Rzero : R) (Radd Rmul : R → R → R) (h : heap R)
    (x y : loc) (bufx bufy : list R) (n : Z) (fuel : nat) :
  exact_arithmetic Rzero Radd →
  h !! x = Some bufx → h !! y = Some bufy →
  n ≤ Z.of_nat (length bufx) → n ≤ Z.of_nat (length bufy) →
  Z.max 0 n < Z.of_nat fuel →
  dot_product Rzero Radd Rmul fuel x y n h
  = Done (bigsum Rzero Radd (seqZ 0 n)
            (λ i, Rmul (ventry Rzero bufx i) (ventry Rzero bufy i)), h).
Proof.
  intros (Hcomm & Hassoc & H0) Hx Hy Hlx Hly Hfuel.
  set (f := λ i, Rmul (ventry Rzero bufx i) (ventry Rzero bufy i)).
  destruct (for_loop_acc_inv
    (λ i a h', h' = h ∧ 0 ≤ i ∧ a = bigsum Rzero Radd (seqZ 0 i) f)
    fuel 0 n
    (λ i result, xi <- vec_get x i ;; yi <- vec_get y i ;;
                 ret (Radd result (Rmul xi yi))) Rzero h)
    as (a & h' & Hrun & -> & _ & ->).
  - lia.
  - done.
  - intros i a h1 Hi (-> & _ & ->).
    destruct (lookup_lt_is_Some_2 bufx (Z.to_nat i)) as [xi Hxi]; [lia|].
    destruct (lookup_lt_is_Some_2 bufy (Z.to_nat i)) as [yi Hyi]; [lia|].
    unfold bind. rewrite (vec_get_at h x bufx i xi) by (done || lia).
    rewrite (vec_get_at h y bufy i yi) by (done || lia).
    eexists _, _. split; [done|]. split; [done|]. split; [lia|].
    rewrite seqZ_snoc by lia.
    rewrite (bigsum_app Rzero Radd) by done.
    rewrite (bigsum_singleton Rzero Radd) by done.
    unfold f, ventry. by rewrite Z.add_0_l, Hxi, Hyi.
  - unfold dot_product. rewrite Hrun. by rewrite seqZ_max.
Qed.

(** X2.  [dot_product] returns the sum of the [x[i] * y[i]], i < n
    (0.0 when n <= 0), and [vector_norm] the root of the sum of the
    [x[i] * x[i]]; neither changes the store. *)
Theorem dot_product_sums {R} (Rzero : R) (Radd Rmul : R → R → R)
    (Rsqrt : R → R) (h : heap R) (x y : loc) (bufx bufy : list R)
    (n : Z) (fuel : nat) :
  exact_arithmetic Rzero Radd →
  h !! x = Some bufx → h !! y = Some bufy →
  n ≤ Z.of_nat (length bufx) → n ≤ Z.of_nat (length bufy) →
  Z.max 0 n < Z.of_nat fuel →
  dot_product Rzero Radd Rmul fuel x y n h
    = Done (bigsum Rzero Radd (seqZ 0 n)
              (λ i, Rmul (ventry Rzero bufx i) (ventry Rzero bufy i)), h) ∧
  vector_norm Rzero Radd Rmul Rsqrt fuel x n h
    = Done (Rsqrt (bigsum Rzero Radd (seqZ 0 n)
                     (λ i, Rmul (ventry Rzero bufx i) (ventry Rzero bufx i))), h).
Proof.
  intros Hexact Hx Hy Hlx Hly Hfuel. split.
  - by apply dot_product_value.
  - unfold vector_norm, bind.
    by rewrite (dot_product_value Rzero Radd Rmul h x x bufx bufx n fuel).
Qed.

Lemma dot_product_sums_witness :
  dot_product 0 Z.add Z.mul 4 4%positive 5%positive 3
    (<[4%positive := [1; 2; 3]]> (<[5%positive := [7; 8; 9]]> ∅))
  = Done (50, <[4%positive := [1; 2; 3]]> (<[5%positive := [7; 8; 9]]> ∅)) ∧
  vector_norm 0 Z.add Z.mul Z.sqrt 4 4%positive 3
    (<[4%positive := [1; 2; 3]]> (<[5%positive := [7; 8; 9]]> ∅))
  = Done (3, <[4%positive := [1; 2; 3]]> (<[5%positive := [7; 8; 9]]> ∅)).
Proof.
  apply (dot_product_sums 0 Z.add Z.mul Z.sqrt
           (<[4%positive := [1; 2; 3]]> (<[5%positive := [7; 8; 9]]> ∅))
           4%positive 5%positive [1; 2; 3] [7; 8; 9] 3 4).
  - repeat split; intros; lia.
  - reflexivity.
  - reflexivity.
  - simpl. lia.
  - simpl. lia.
  - simpl. lia.
Defined.

(** *** Level 2 BLAS: the rank-one update *)

(** X3.  [outer_product_update] adds [x[i] * y[j]] into every element
    (i,j) of A, each once; x and y are only read and may be the same
    vector. *)
Theorem outer_product_update_adds {R} (Rzero : R) (Radd Rmul : R → R → R)
    (h : heap R) (A : Matrix) (x y : loc) (bufA bufx bufy : list R)
    (fuel : nat) :
  wf_matrix h A bufA → h !! x = Some bufx → h !! y = Some bufy →
  x ≠ data A → y ≠ data A →
  rows A ≤ Z.of_nat (length bufx) → cols A ≤ Z.of_nat (length bufy) →
  Z.max (rows A) (cols A) < Z.of_nat fuel →
  ∃ bufA',
    outer_product_update Radd Rmul fuel A x y h
      = Done (tt, <[data A := bufA']> h) ∧
    length bufA' = length bufA ∧
    ∀ i j, in_range A i j →
      bufA' !! Z.to_nat (offset A i j)
      = Some (Radd (entry Rzero A bufA i j)
                   (Rmul (ventry Rzero bufx i) (ventry Rzero bufy j))).
Proof.
  intros (HA & Hm & Hn & HlenA) Hx Hy Hnex Hney Hlx Hly Hfuel.
  set (St := λ i j (h' : heap R), ∃ b,
    h' = <[data A := b]> h ∧ length b = length bufA ∧
    (∀ i' j', in_range A i' j' → swept i j i' j' →
       b !! Z.to_nat (offset A i' j')
       = Some (Radd (entry Rzero A bufA i' j')
                    (Rmul (ventry Rzero bufx i') (ventry Rzero bufy j')))) ∧
    (∀ i' j', in_range A i' j' → ¬ swept i j i' j' →
       b !! Z.to_nat (offset A i' j') = bufA !! Z.to_nat (offset A i' j'))).
  assert (∀ i j h1, 0 ≤ i < rows A → 0 ≤ j < cols A → St i j h1 →
    ∃ h2, (xi <- vec_get x i ;; yj <- vec_get y j ;; a <- elem_get A i j ;;
           elem_set A i j (Radd a (Rmul xi yj))) h1 = Done (tt, h2) ∧
          St i (j + 1) h2) as Hstep.
  { intros i j h1 Hi Hj (b & -> & Hlen & Hin & Hout).
    assert (in_range A i j) as Hij by done.
    pose proof (offset_bound A i j Hij) as Hoff.
    destruct (lookup_lt_is_Some_2 bufx (Z.to_nat i)) as [xi Hxi]; [lia|].
    destruct (lookup_lt_is_Some_2 bufy (Z.to_nat j)) as [yj Hyj]; [lia|].
    destruct (lookup_lt_is_Some_2 bufA (Z.to_nat (offset A i j))) as [a Ha]; [lia|].
    assert (b !! Z.to_nat (offset A i j) = Some a) as Hb.
    { rewrite Hout; [done..|]. unfold swept. lia. }
    unfold bind.
    rewrite (vec_get_at _ x bufx i xi) by first [by rewrite lookup_insert_ne|lia|done].
    rewrite (vec_get_at _ y bufy j yj) by first [by rewrite lookup_insert_ne|lia|done].
    rewrite (elem_get_at _ A b i j a) by first [by rewrite lookup_insert_eq|done].
    rewrite (elem_set_at _ A b) by first [by rewrite lookup_insert_eq|done|lia].
    eexists. split; [done|]. rewrite insert_insert_eq.
    exists (<[Z.to_nat (offset A i j) := Radd a (Rmul xi yj)]> b).
    split; [done|]. split; [by rewrite length_insert|]. split.
    - intros i' j' Hin' Hsw.
      destruct (decide (i' = i ∧ j' = j)) as [[-> ->]|Hne].
      + rewrite list_lookup_insert_eq by lia.
        unfold entry, ventry. by rewrite Ha, Hxi, Hyj.
      + rewrite list_lookup_insert_ne.
        * apply Hin; [done|]. unfold swept in *. lia.
        * intros Heq. apply Hne. pose proof (offset_bound A i' j' Hin').
          apply (offset_inj A i' j' i j); [done..|lia].
    - intros i' j' Hin' Hsw.
      rewrite list_lookup_insert_ne.
      + apply Hout; [done|]. unfold swept in *. lia.
      + intros Heq. pose proof (offset_bound A i' j' Hin').
        destruct (offset_inj A i j i' j') as [-> ->]; [done..|lia|].
        apply Hsw. unfold swept. lia. }
  destruct (for_loop_inv (λ i h', 0 ≤ i ∧ St i 0 h') fuel 0 (rows A)
    (λ i, for_loop fuel 0 (cols A) 1 (λ j,
       xi <- vec_get x i ;; yj <- vec_get y j ;; a <- elem_get A i j ;;
       elem_set A i j (Radd a (Rmul xi yj)))) h)
    as (h' & Hrun & _ & b & -> & Hlen & Hin & _).
  - lia.
  - split; [done|]. exists bufA. split; [by rewrite insert_id|]. split; [done|].
    split; [|done]. intros i' j' [? ?]. unfold swept. lia.
  - intros i h1 Hi [_ Hst].
    destruct (for_loop_inv (λ j h', 0 ≤ j ∧ St i j h') fuel 0 (cols A)
      (λ j, xi <- vec_get x i ;; yj <- vec_get y j ;; a <- elem_get A i j ;;
            elem_set A i j (Radd a (Rmul xi yj))) h1)
      as (h2 & Hrun & _ & b & -> & Hlen & Hin & Hout).
    + lia.
    + done.
    + intros j h2 Hj [_ Hst2].
      destruct (Hstep i j h2) as (h3 & Hrun & Hst3); [lia|lia|done|].
      exists h3. split; [done|]. split; [lia|done].
    + exists (<[data A := b]> h). split; [done|]. split; [lia|].
      exists b. split; [done|]. split; [done|]. split.
      * intros i' j' Hin' Hsw. apply Hin; [done|].
        destruct Hin' as [? ?]. unfold swept in *. lia.
      * intros i' j' Hin' Hsw. apply Hout; [done|].
        destruct Hin' as [? ?]. unfold swept in *. lia.
  - exists b. unfold outer_product_update. rewrite Hrun.
    split; [done|]. split; [done|].
    intros i j Hij. apply Hin; [done|]. destruct Hij as [? ?].
    unfold swept. lia.
Qed.

Lemma outer_product_update_adds_witness :
  ∃ bufA',
    outer_product_update Z.add Z.mul 4 ex_G 2%positive 2%positive ex_g
      = Done (tt, <[1%positive := bufA']> ex_g) ∧
    bufA' !! 0%nat = Some 2 ∧ bufA' !! 1%nat = Some 3 ∧
    bufA' !! 2%nat = Some 4 ∧ bufA' !! 3%nat = Some 5.
Proof.
  destruct (outer_product_update_adds 0 Z.add Z.mul ex_g ex_G
              2%positive 2%positive [1; 2; 3; 4] [1; 1] [1; 1] 4)
    as (bufA' & Hrun & _ & Hin).
  - repeat split; (reflexivity || (simpl; lia)).
  - reflexivity.
  - reflexivity.
  - discriminate.
  - discriminate.
  - simpl. lia.
  - simpl. lia.
  - simpl. lia.
  - exists bufA'. split; [exact Hrun|].
    split; [apply (Hin 0 0); unfold in_range; simpl; lia|].
    split; [apply (Hin 0 1); unfold in_range; simpl; lia|].
    split; [apply (Hin 1 0); unfold in_range; simpl; lia|].
    apply (Hin 1 1); unfold in_range; simpl; lia.
Defined.

(** *** The largest difference of two matrices *)

Section MaxDiff.
Context {R : Type}.
Variables (Rzero : R) (Rsub : R → R → R) (Rabs : R → R) (Rgtb : R → R → bool).
Variables (h : heap R) (A B : Matrix) (bufA bufB : list R) (fuel : nat).
Hypothesis HA : h !! data A = Some bufA.
Hypothesis HB : h !! data B = Some bufB.
Hypothesis HlenA : rows A * cols A ≤ Z.of_nat (length bufA).
Hypothesis Hfuel : Z.max 0 (rows A * cols A) < Z.of_nat fuel.

(** The difference at position [p] of the two buffers. *)
Local Abbreviation gap :=
  (λ p, Rabs (Rsub (ventry Rzero bufA p) (ventry Rzero bufB p))).

(** The body of the loop of [matrix_max_diff]. *)
Local Abbreviation step :=
  (λ i max_diff,
     a <- vec_get (data A) i ;; b <- vec_get (data B) i ;;
     ret (if Rgtb (Rabs (Rsub a b)) max_diff
          then Rabs (Rsub a b) else max_diff)).

Lemma max_diff_step i max_diff :
  0 ≤ i < rows A * cols A → i < Z.of_nat (length bufB) →
  step i max_diff h
  = Done (if Rgtb (gap i) max_diff then gap i else max_diff, h).
Proof.
  intros Hi HiB.
  destruct (lookup_lt_is_Some_2 bufA (Z.to_nat i)) as [a Ha]; [lia|].
  destruct (lookup_lt_is_Some_2 bufB (Z.to_nat i)) as [b Hb]; [lia|].
  unfold bind. rewrite (vec_get_at h (data A) bufA i a) by (done || lia).
  rewrite (vec_get_at h (data B) bufB i b) by (done || lia).
  unfold ventry. by rewrite Ha, Hb.
Qed.

Lemma matrix_max_diff_upper :
  (∀ a b c, Rgtb a b = false → Rgtb b c = false → Rgtb a c = false) →
  (∀ a b, Rgtb a b = true → Rgtb b a = false) →
  rows A * cols A ≤ Z.of_nat (length bufB) →
  ∃ d,
    matrix_max_diff Rzero Rsub Rabs Rgtb fuel A B h = Done (d, h) ∧
    Rgtb Rzero d = false ∧
    (∀ p, 0 ≤ p < rows A * cols A → Rgtb (gap p) d = false) ∧
    (d = Rzero ∨ ∃ p, 0 ≤ p < rows A * cols A ∧ d = gap p).
Proof.
  intros Htrans Hasym HlenB.
  assert (∀ a, Rgtb a a = false) as Hrefl.
  { intros a. destruct (Rgtb a a) eqn:Haa; [|done]. by rewrite (Hasym a a Haa) in Haa. }
  destruct (for_loop_acc_inv
    (λ i a h', h' = h ∧ 0 ≤ i ∧ Rgtb Rzero a = false ∧
       (∀ p, 0 ≤ p < i → Rgtb (gap p) a = false) ∧
       (a = Rzero ∨ ∃ p, 0 ≤ p < i ∧ a = gap p))
    fuel 0 (rows A * cols A)
    step Rzero h)
    as (d & h' & Hrun & -> & _ & H0 & Hup & Hat).
  - lia.
  - repeat split; [lia|apply Hrefl|intros; lia|by left].
  - intros i a h1 Hi (-> & _ & H0 & Hup & Hat).
    rewrite max_diff_step by lia. eexists _, h. split; [done|].
    split; [done|]. split; [lia|].
    destruct (Rgtb (gap i) a) eqn:Hgt.
    + pose proof (Hasym _ _ Hgt) as Hle. repeat split.
      * by apply (Htrans _ a).
      * intros p Hp. destruct (decide (p = i)) as [->|Hne]; [apply Hrefl|].
        apply (Htrans _ a); [apply Hup; lia|done].
      * right. exists i. split; [lia|done].
    + repeat split; [done| |].
      * intros p Hp. destruct (decide (p = i)) as [->|Hne]; [done|].
        apply Hup. lia.
      * destruct Hat as [->|(p & Hp & ->)]; [by left|right].
        exists p. split; [lia|done].
  - exists d. unfold matrix_max_diff. rewrite Hrun.
    split; [done|]. split; [done|]. split.
    + intros p Hp. apply Hup. lia.
    + destruct Hat as [->|(p & Hp & ->)]; [by left|right].
      exists p. split; [lia|done].
Qed.

(** Two buffers that agree on the rows*cols positions: the difference is 0.0. *)
Lemma matrix_max_diff_same :
  (∀ a, Rabs (Rsub a a) = Rzero) → Rgtb Rzero Rzero = false →
  (∀ p, 0 ≤ p < rows A * cols A →
     bufA !! Z.to_nat p = bufB !! Z.to_nat p) →
  matrix_max_diff Rzero Rsub Rabs Rgtb fuel A B h = Done (Rzero, h).
Proof.
  intros Hsub H00 Heq.
  destruct (for_loop_acc_inv
    (λ i a h', h' = h ∧ a = Rzero) fuel 0 (rows A * cols A)
    step Rzero h)
    as (d & h' & Hrun & -> & ->).
  - lia.
  - done.
  - intros i a h1 Hi (-> & ->).
    assert (i < Z.of_nat (length bufB)) as HiB.
    { destruct (lookup_lt_is_Some_2 bufA (Z.to_nat i)) as [a Ha]; [lia|].
      rewrite Heq in Ha by lia. apply lookup_lt_Some in Ha. lia. }
    rewrite max_diff_step by lia. eexists _, h. split; [done|].
    split; [done|]. unfold ventry. rewrite Heq by lia.
    by rewrite Hsub, H00.
  - unfold matrix_max_diff. by rewrite Hrun.
Qed.

(** A loop around a local variable whose body fails at index [k]. *)
Lemma for_loop_acc_fault {T} fuel' lo hi k (body : Z → T → M R T) acc :
  lo ≤ k < hi → k - lo < Z.of_nat fuel' →
  (∀ i a, lo ≤ i < k → ∃ a', body i a h = Done (a', h)) →
  (∀ a, body k a h = Fault) →
  for_loop_acc fuel' lo hi 1 body acc h = Fault.
Proof.
  revert lo acc. induction fuel' as [|f IH]; intros lo acc Hk Hf Hok Hbad; [lia|].
  simpl. rewrite decide_True by lia. unfold bind.
  destruct (decide (lo = k)) as [->|Hne].
  - by rewrite Hbad.
  - destruct (Hok lo acc) as [a' ->]; [lia|].
    apply IH; [lia|lia| |done]. intros i a Hi. apply Hok. lia.
Qed.

Lemma matrix_max_diff_overrun :
  Z.of_nat (length bufB) < rows A * cols A →
  matrix_max_diff Rzero Rsub Rabs Rgtb fuel A B h = Fault.
Proof.
  intros HlenB. unfold matrix_max_diff.
  apply (for_loop_acc_fault fuel 0 _ (Z.of_nat (length bufB))); [lia|lia| |].
  - intros i a Hi. rewrite max_diff_step by lia. eauto.
  - intros a.
    destruct (lookup_lt_is_Some_2 bufA (length bufB)) as [v Hv]; [lia|].
    unfold bind.
    rewrite (vec_get_at h (data A) bufA _ v) by (done || lia || by rewrite Nat2Z.id).
    unfold vec_get. rewrite decide_True by lia. rewrite HB.
    by rewrite Nat2Z.id, lookup_ge_None_2.
Qed.

End MaxDiff.

(** X4.  For an order in which [>] is transitive on its complement and
    asymmetric, [matrix_max_diff] returns a value that is at least 0.0 and
    at least the difference at each of the rows*cols positions, and that
    is 0.0 or one of these differences; the store is unchanged. *)
Theorem matrix_max_diff_bounds {R} (Rzero : R) (Rsub : R → R → R)
    (Rabs : R → R) (Rgtb : R → R → bool)
    (h : heap R) (A B : Matrix) (bufA bufB : list R) (fuel : nat) :
  (∀ a b c, Rgtb a b = false → Rgtb b c = false → Rgtb a c = false) →
  (∀ a b, Rgtb a b = true → Rgtb b a = false) →
  h !! data A = Some bufA → h !! data B = Some bufB →
  rows A * cols A ≤ Z.of_nat (length bufA) →
  rows A * cols A ≤ Z.of_nat (length bufB) →
  Z.max 0 (rows A * cols A) < Z.of_nat fuel →
  ∃ d,
    matrix_max_diff Rzero Rsub Rabs Rgtb fuel A B h = Done (d, h) ∧
    Rgtb Rzero d = false ∧
    (∀ p, 0 ≤ p < rows A * cols A →
       Rgtb (Rabs (Rsub (ventry Rzero bufA p) (ventry Rzero bufB p))) d = false) ∧
    (d = Rzero ∨
     ∃ p, 0 ≤ p < rows A * cols A ∧
          d = Rabs (Rsub (ventry Rzero bufA p) (ventry Rzero bufB p))).
Proof. intros. by apply matrix_max_diff_upper. Qed.

Lemma Zgtb_trans (a b c : Z) : (a >? b) = false → (b >? c) = false → (a >? c) = false.
Proof. rewrite !Z.gtb_ltb, !Z.ltb_ge. lia. Qed.

Lemma Zgtb_asym (a b : Z) : (a >? b) = true → (b >? a) = false.
Proof. rewrite !Z.gtb_ltb, Z.ltb_ge, Z.ltb_lt. lia. Qed.

Lemma matrix_max_diff_bounds_witness :
  ∃ d,
    matrix_max_diff 0 Z.sub Z.abs Z.gtb 7 ex_A ex_B ex_h = Done (d, ex_h) ∧
    (0 >? d) = false ∧
    (∀ p, 0 ≤ p < 6 →
       (Z.abs (ventry 0 ex_bufA p - ventry 0 ex_bufB p) >? d) = false) ∧
    (d = 0 ∨
     ∃ p, 0 ≤ p < 6 ∧ d = Z.abs (ventry 0 ex_bufA p - ventry 0 ex_bufB p)).
Proof.
  apply (matrix_max_diff_bounds 0 Z.sub Z.abs Z.gtb ex_h ex_A ex_B
           ex_bufA ex_bufB 7).
  - apply Zgtb_trans.
  - apply Zgtb_asym.
  - reflexivity.
  - reflexivity.
  - simpl. lia.
  - simpl. lia.
  - simpl. lia.
Defined.

(** X5.  [matrix_max_diff] takes the number of elements from its first
    matrix alone: when the buffer of the second one is shorter, it reads
    past its end. *)
Theorem matrix_max_diff_trusts_first {R} (Rzero : R) (Rsub : R → R → R)
    (Rabs : R → R) (Rgtb : R → R → bool)
    (h : heap R) (A B : Matrix) (bufA bufB : list R) (fuel : nat) :
  h !! data A = Some bufA → h !! data B = Some bufB →
  rows A * cols A ≤ Z.of_nat (length bufA) →
  Z.of_nat (length bufB) < rows A * cols A →
  Z.max 0 (rows A * cols A) < Z.of_nat fuel →
  matrix_max_diff Rzero Rsub Rabs Rgtb fuel A B h = Fault.
Proof. intros. by eapply matrix_max_diff_overrun. Qed.

Lemma matrix_max_diff_trusts_first_witness :
  matrix_max_diff 0 Z.sub Z.abs Z.gtb 7 ex_A ex_C ex_h = Fault.
Proof.
  apply (matrix_max_diff_trusts_first 0 Z.sub Z.abs Z.gtb ex_h ex_A ex_C
           ex_bufA ex_bufC 7).
  - reflexivity.
  - reflexivity.
  - simpl. lia.
  - simpl. lia.
  - simpl. lia.
Defined.

(** *** Clearing and copying *)

Lemma zero_matrix_run {R} (Rzero : R) (h : heap R) (m : Matrix) (buf : list R) :
  0 ≤ rows m * cols m → length buf = Z.to_nat (rows m * cols m) →
  zero_matrix Rzero m (<[data m := buf]> h)
  = Done (tt, <[data m := replicate (Z.to_nat (rows m * cols m)) Rzero]> h).
Proof.
  intros Hn Hlen. unfold zero_matrix. rewrite decide_True by done.
  rewrite lookup_insert_eq. rewrite decide_True by lia.
  rewrite insert_insert_eq. by rewrite drop_ge, app_nil_r by lia.
Qed.

Lemma copy_matrix_run {R} (h : heap R) (dest src : Matrix) (bufd bufs : list R) :
  wf_matrix h src bufs → h !! data dest = Some bufd →
  length bufd = length bufs → data dest ≠ data src →
  copy_matrix dest src h = Done (tt, <[data dest := bufs]> h).
Proof.
  intros (Hs & Hm & Hn & Hlen) Hd Hlend Hne. unfold copy_matrix.
  rewrite decide_True by nia. rewrite Hs, Hd.
  rewrite decide_True by (repeat split; (lia || by left)).
  by rewrite take_ge, drop_ge, app_nil_r by lia.
Qed.

(** X6.  After [copy_matrix(dest, src)] between matrices of the same
    dimensions the buffer of dest is the one of src, src is as before,
    and [matrix_max_diff(dest, src)] is 0.0. *)
Theorem copy_matrix_round_trip {R} (Rzero : R) (Rsub : R → R → R)
    (Rabs : R → R) (Rgtb : R → R → bool)
    (h : heap R) (dest src : Matrix) (bufd bufs : list R) (fuel : nat) :
  (∀ a, Rabs (Rsub a a) = Rzero) → Rgtb Rzero Rzero = false →
  wf_matrix h src bufs → wf_matrix h dest bufd →
  rows dest = rows src → cols dest = cols src → data dest ≠ data src →
  rows src * cols src < Z.of_nat fuel →
  copy_matrix dest src h = Done (tt, <[data dest := bufs]> h) ∧
  <[data dest := bufs]> h !! data src = Some bufs ∧
  matrix_max_diff Rzero Rsub Rabs Rgtb fuel dest src (<[data dest := bufs]> h)
    = Done (Rzero, <[data dest := bufs]> h).
Proof.
  intros Hsub H00 Hsrc (Hd & _ & _ & Hlend) Hr Hc Hne Hfuel.
  pose proof Hsrc as (Hs & Hm & Hn & Hlens).
  split; [|split].
  - apply (copy_matrix_run h dest src bufd bufs); try done.
    rewrite Hlend, Hlens, Hr, Hc. done.
  - by rewrite lookup_insert_ne.
  - apply (matrix_max_diff_same Rzero Rsub Rabs Rgtb _ dest src bufs bufs);
      try done.
    + by rewrite lookup_insert_eq.
    + by rewrite lookup_insert_ne.
    + rewrite Hr, Hc. lia.
    + rewrite Hr, Hc. nia.
Qed.

Lemma copy_matrix_round_trip_witness :
  copy_matrix ex_C ex_G (<[3%positive := [0; 0; 0; 0]]> ex_g)
    = Done (tt, <[3%positive := [1; 2; 3; 4]]> (<[3%positive := [0; 0; 0; 0]]> ex_g)) ∧
  <[3%positive := [1; 2; 3; 4]]> (<[3%positive := [0; 0; 0; 0]]> ex_g)
    !! 1%positive = Some [1; 2; 3; 4] ∧
  matrix_max_diff 0 Z.sub Z.abs Z.gtb 5 ex_C ex_G
    (<[3%positive := [1; 2; 3; 4]]> (<[3%positive := [0; 0; 0; 0]]> ex_g))
    = Done (0, <[3%positive := [1; 2; 3; 4]]> (<[3%positive := [0; 0; 0; 0]]> ex_g)).
Proof.
  apply (copy_matrix_round_trip 0 Z.sub Z.abs Z.gtb
           (<[3%positive := [0; 0; 0; 0]]> ex_g) ex_C ex_G
           [0; 0; 0; 0] [1; 2; 3; 4] 5).
  - intros a. rewrite Z.sub_diag. reflexivity.
  - reflexivity.
  - repeat split; (reflexivity || (simpl; lia)).
  - repeat split; (reflexivity || (simpl; lia)).
  - reflexivity.
  - reflexivity.
  - discriminate.
  - simpl. lia.
Defined.

(** *** Clearing the accumulator before a multiplication *)

Section Reset.
Context {R : Type}.
Variables (Rzero : R) (Radd Rmul : R → R → R).
Hypothesis Radd_comm : ∀ a b, Radd a b = Radd b a.
Hypothesis Radd_assoc : ∀ a b c, Radd a (Radd b c) = Radd (Radd a b) c.
Hypothesis Radd_0_l : ∀ a, Radd Rzero a = a.
Variables (A B C : Matrix) (bufA bufB : list R) (h0 : heap R).
Hypothesis HA : h0 !! data A = Some bufA.
Hypothesis HB : h0 !! data B = Some bufB.
Hypothesis HneA : data A ≠ data C.
Hypothesis HneB : data B ≠ data C.
Hypothesis HlenA : length bufA = Z.to_nat (rows A * cols A).
Hypothesis HlenB : length bufB = Z.to_nat (rows B * cols B).
Hypothesis Hdims : conformable A B C.
Hypothesis Hm : 0 ≤ rows A.
Hypothesis Hr : 0 ≤ cols A.
Hypothesis Hn : 0 ≤ cols B.

(** The product A·B as a buffer of C: the accumulations of the ijk
    kernel on a buffer of zeros. *)
Local Abbreviation product :=
  (scatter Radd (gemm_trace Rzero Rmul A B C bufA bufB)
     (replicate (Z.to_nat (rows C * cols C)) Rzero)).

Lemma product_length : length product = Z.to_nat (rows C * cols C).
Proof. by rewrite scatter_length, length_replicate. Qed.

Lemma product_lookup i j :
  0 ≤ i < rows A → 0 ≤ j < cols B →
  product !! Z.to_nat (offset C i j)
  = Some (dot Rzero Radd Rmul A B bufA bufB i j).
Proof.
  intros Hi Hj. destruct Hdims as (_ & HmC & HnC).
  rewrite (gemm_trace_lookup Rzero Radd Rmul Radd_comm Radd_assoc Radd_0_l
             A B C bufA bufB) by (done || lia || apply length_replicate).
  f_equal. unfold entry.
  assert (in_range C i j) as Hin by (unfold in_range; lia).
  pose proof (offset_bound C i j Hin).
  rewrite lookup_replicate_2 by lia. simpl. apply Radd_0_l.
Qed.

Lemma reset_run (k : M R unit) (X : list R) :
  length X = Z.to_nat (rows C * cols C) →
  sim Radd (data C) (Z.to_nat (rows C * cols C)) h0 k
      (gemm_trace Rzero Rmul A B C bufA bufB) →
  (zero_matrix Rzero C ;; k) (<[data C := X]> h0)
  = Done (tt, <[data C := product]> h0).
Proof.
  intros HX Hk. destruct Hdims as (_ & HmC & HnC). unfold bind.
  rewrite zero_matrix_run by (done || nia).
  apply Hk. apply length_replicate.
Qed.

End Reset.

(** X7.  [zero_matrix(C)] followed by a kernel of the C suite leaves in
    C exactly the product A·B, whatever C held before: this is how the
    benchmark and the verification reuse one accumulator.  For the
    blocked kernel the block size is one whose tile bounds are [int]s. *)
Theorem reset_then_multiply {R} (Rzero : R) (Radd Rmul : R → R → R)
    (h : heap R) (A B C : Matrix) (bufA bufB bufC : list R) :
  exact_arithmetic Rzero Radd →
  wf_matrix h A bufA → wf_matrix h B bufB → wf_matrix h C bufC →
  conformable A B C →
  data A ≠ data C → data B ≠ data C →
  ∃ product,
    length product = length bufC ∧
    (∀ i j, 0 ≤ i < rows A → 0 ≤ j < cols B →
       product !! Z.to_nat (offset C i j)
       = Some (dot Rzero Radd Rmul A B bufA bufB i j)) ∧
    ∀ fuel bs, dim_max A B < Z.of_nat fuel →
      1 ≤ bs → blocks_fit_int A B bs →
      (∀ f, (zero_matrix Rzero C ;; matmul Radd Rmul f fuel C A B) h
            = Done (tt, <[data C := product]> h)) ∧
      (zero_matrix Rzero C ;; matmul_ikj_inlined Radd Rmul fuel C A B) h
        = Done (tt, <[data C := product]> h) ∧
      (zero_matrix Rzero C ;; matmul_blocked Radd Rmul fuel C A B bs) h
        = Done (tt, <[data C := product]> h).
Proof.
  intros (Hcomm & Hassoc & H0) (HA & HmA & HrA & HlenA) (HB & HrB & HnB & HlenB)
    HwfC Hdims HneA HneB.
  pose proof HwfC as (HC & HmC & HnC & HlenC).
  exists (scatter Radd (gemm_trace Rzero Rmul A B C bufA bufB)
            (replicate (Z.to_nat (rows C * cols C)) Rzero)).
  split; [|split].
  - rewrite HlenC. apply product_length.
  - intros i j Hi Hj. by apply product_lookup.
  - intros fuel bs Hfuel Hbs Hfit.
    assert (Z.max 0 (dim_max A B) < Z.of_nat fuel) as Hfuel'.
    { unfold dim_max in *. lia. }
    repeat apply conj; intros;
      rewrite <- (wf_matrix_insert_id h C bufC HwfC) at 1;
      apply (reset_run Rzero Radd Rmul A B C bufA bufB h); try done.
    + by apply matmul_run.
    + by apply matmul_ikj_inlined_run.
    + by apply matmul_blocked_run.
Qed.

Lemma reset_then_multiply_witness :
  ∃ product,
    product !! 0%nat = Some 4 ∧ product !! 1%nat = Some 5 ∧
    product !! 2%nat = Some 10 ∧ product !! 3%nat = Some 11 ∧
    (∀ f, (zero_matrix 0 ex_C ;; matmul Z.add Z.mul f 4 ex_C ex_A ex_B) ex_h
          = Done (tt, <[3%positive := product]> ex_h)) ∧
    (zero_matrix 0 ex_C ;; matmul_blocked Z.add Z.mul 4 ex_C ex_A ex_B 64) ex_h
      = Done (tt, <[3%positive := product]> ex_h).
Proof.
  destruct (reset_then_multiply 0 Z.add Z.mul ex_h ex_A ex_B ex_C
              ex_bufA ex_bufB ex_bufC) as (product & _ & Hentry & Hrun).
  - repeat split; intros; lia.
  - repeat split; (reflexivity || (simpl; lia)).
  - repeat split; (reflexivity || (simpl; lia)).
  - repeat split; (reflexivity || (simpl; lia)).
  - repeat split; reflexivity.
  - discriminate.
  - discriminate.
  - exists product.
    split; [apply (Hentry 0 0); simpl; lia|].
    split; [apply (Hentry 0 1); simpl; lia|].
    split; [apply (Hentry 1 0); simpl; lia|].
    split; [apply (Hentry 1 1); simpl; lia|].
    destruct (Hrun 4%nat 64) as (Hf & _ & Hb); [reflexivity|lia| |].
    { repeat apply conj; apply tiles_fit_room;
        (lia || (unfold INT_MAX; simpl; lia)). }
    split; [exact Hf|exact Hb].
Defined.

(** *** The verification routine *)

Section Verify.
Context {R : Type}.
Variables (Rzero : R) (Radd Rmul Rsub : R → R → R) (Rabs : R → R).
Variable Rgtb : R → R → bool.
Hypothesis Radd_comm : ∀ a b, Radd a b = Radd b a.
Hypothesis Radd_assoc : ∀ a b c, Radd a (Radd b c) = Radd (Radd a b) c.
Hypothesis Radd_0_l : ∀ a, Radd Rzero a = a.
Hypothesis Hsub : ∀ a, Rabs (Rsub a a) = Rzero.
Hypothesis H00 : Rgtb Rzero Rzero = false.
Variables (A B : Matrix) (bufA bufB : list R) (fuel : nat) (tol : R).
Hypothesis Htol : Rgtb tol Rzero = true.
Hypothesis HlenA : length bufA = Z.to_nat (rows A * cols A).
Hypothesis HlenB : length bufB = Z.to_nat (rows B * cols B).
Hypothesis Hinner : cols A = rows B.
Hypothesis Hm : 0 ≤ rows A.
Hypothesis Hr : 0 ≤ cols A.
Hypothesis Hn : 0 ≤ cols B.
Hypothesis Hfuel :
  Z.max 6 (Z.max (dim_max A B) (rows A * cols B)) < Z.of_nat fuel.
Hypothesis Hfit64 : blocks_fit_int A B 64.

(** The reference and the test matrix at two buffers [l1] and [l2] of a
    store [k] that holds A and B elsewhere. *)
Variables (k : heap R) (l1 l2 : loc).
Hypothesis HA : k !! data A = Some bufA.
Hypothesis HB : k !! data B = Some bufB.
Hypothesis Hl : l1 ≠ l2.
Hypothesis HA1 : data A ≠ l1.
Hypothesis HA2 : data A ≠ l2.
Hypothesis HB1 : data B ≠ l1.
Hypothesis HB2 : data B ≠ l2.

Local Abbreviation C_ref := {| rows := rows A; cols := cols B; data := l1 |}.
Local Abbreviation C_test := {| rows := rows A; cols := cols B; data := l2 |}.
Local Abbreviation size := (Z.to_nat (rows A * cols B)).
Local Abbreviation AB :=
  (scatter Radd (gemm_trace Rzero Rmul A B C_test bufA bufB)
     (replicate size Rzero)).

Lemma fuel_dims : Z.max 0 (dim_max A B) < Z.of_nat fuel.
Proof. unfold dim_max in *. lia. Qed.

(** One test: clear, multiply, compare with the reference; the
    difference found is 0.0. *)
Lemma verify_one {T} (func : M R unit) (rest : R → M R T) X :
  length X = size →
  sim Radd l2 size (<[l1 := AB]> k) func
      (gemm_trace Rzero Rmul A B C_test bufA bufB) →
  (zero_matrix Rzero C_test ;;
   func ;;
   max_diff <- matrix_max_diff Rzero Rsub Rabs Rgtb fuel C_ref C_test ;;
   rest max_diff)
    (<[l2 := X]> (<[l1 := AB]> k))
  = rest Rzero (<[l2 := AB]> (<[l1 := AB]> k)).
Proof.
  intros HX Hfunc. unfold bind.
  rewrite (zero_matrix_run Rzero (<[l1 := AB]> k) C_test X)
    by (simpl; (nia || done)).
  simpl. rewrite Hfunc by apply length_replicate.
  rewrite (matrix_max_diff_same Rzero Rsub Rabs Rgtb _ C_ref C_test AB AB);
    try done; simpl.
  - rewrite lookup_insert_ne by done. by rewrite lookup_insert_eq.
  - by rewrite lookup_insert_eq.
  - rewrite scatter_length, length_replicate. nia.
  - lia.
Qed.

Lemma suite_runs (h0 : heap R) name func i :
  h0 !! data A = Some bufA → h0 !! data B = Some bufB →
  [("jik", matmul_jik Radd Rmul); ("saxpy", matmul_saxpy Radd Rmul);
   ("outer_product", matmul_outer_product Radd Rmul);
   ("ikj", matmul_ikj Radd Rmul); ("kij", matmul_kij Radd Rmul);
   ("ikj_inlined", matmul_ikj_inlined Radd Rmul)] !! i = Some (name, func) →
  sim Radd l2 size h0 (func fuel C_test A B)
      (gemm_trace Rzero Rmul A B C_test bufA bufB).
Proof.
  intros HA0 HB0 Hi. pose proof fuel_dims as Hf.
  destruct i as [|[|[|[|[|[|i]]]]]]; simplify_eq/=.
  - by apply (matmul_run Rzero Radd Rmul Radd_comm Radd_assoc Radd_0_l
                A B C_test bufA bufB h0 HA0 HB0 HA2 HB2 HlenA HlenB
                ltac:(done) Hm Hr Hn fuel Hf f_matmul_jik).
  - by apply (matmul_run Rzero Radd Rmul Radd_comm Radd_assoc Radd_0_l
                A B C_test bufA bufB h0 HA0 HB0 HA2 HB2 HlenA HlenB
                ltac:(done) Hm Hr Hn fuel Hf f_matmul_saxpy).
  - by apply (matmul_run Rzero Radd Rmul Radd_comm Radd_assoc Radd_0_l
                A B C_test bufA bufB h0 HA0 HB0 HA2 HB2 HlenA HlenB
                ltac:(done) Hm Hr Hn fuel Hf f_matmul_outer_product).
  - by apply (matmul_run Rzero Radd Rmul Radd_comm Radd_assoc Radd_0_l
                A B C_test bufA bufB h0 HA0 HB0 HA2 HB2 HlenA HlenB
                ltac:(done) Hm Hr Hn fuel Hf f_matmul_ikj).
  - by apply (matmul_run Rzero Radd Rmul Radd_comm Radd_assoc Radd_0_l
                A B C_test bufA bufB h0 HA0 HB0 HA2 HB2 HlenA HlenB
                ltac:(done) Hm Hr Hn fuel Hf f_matmul_kij).
  - by apply (matmul_ikj_inlined_run Rzero Radd Rmul Radd_comm Radd_assoc
                Radd_0_l A B C_test bufA bufB h0 HA0 HB0 HA2 HB2 HlenA HlenB
                ltac:(done) Hm Hr Hn fuel Hf).
Qed.

(** The reference run, into the first of the two fresh buffers. *)
Lemma verify_reference :
  matmul_ijk Radd Rmul fuel C_ref A B
    (<[l2 := replicate size Rzero]> (<[l1 := replicate size Rzero]> k))
  = Done (tt, <[l2 := replicate size Rzero]> (<[l1 := AB]> k)).
Proof.
  pose proof fuel_dims as Hf.
  rewrite (insert_insert_ne k l2 l1) by done.
  rewrite (matmul_ijk_run Rzero Radd Rmul A B C_ref bufA bufB
             (<[l2 := replicate size Rzero]> k)); try done.
  - by rewrite (insert_insert_ne _ l1 l2) by done.
  - by rewrite lookup_insert_ne.
  - by rewrite lookup_insert_ne.
  - apply length_replicate.
Qed.

Local Abbreviation funcs :=
  [("jik", matmul_jik Radd Rmul); ("saxpy", matmul_saxpy Radd Rmul);
   ("outer_product", matmul_outer_product Radd Rmul);
   ("ikj", matmul_ikj Radd Rmul); ("kij", matmul_kij Radd Rmul);
   ("ikj_inlined", matmul_ikj_inlined Radd Rmul)].

(** The six tests of the loop all pass. *)
Lemma verify_loop :
  for_loop_acc fuel 0 6 1 (λ test out,
    match funcs !! Z.to_nat test with
    | Some (name, func) =>
        zero_matrix Rzero C_test ;;
        func fuel C_test A B ;;
        max_diff <- matrix_max_diff Rzero Rsub Rabs Rgtb fuel C_ref C_test ;;
        ret (out ++ [(name, judge Rgtb tol max_diff)])
    | None => λ _, Fault
    end) [] (<[l2 := replicate size Rzero]> (<[l1 := AB]> k))
  = Done ((λ nf, (nf.1, PASS)) <$> funcs, <[l2 := AB]> (<[l1 := AB]> k)).
Proof.
  destruct (for_loop_acc_inv
    (λ test out hh, 0 ≤ test ∧
       (∃ X, hh = <[l2 := X]> (<[l1 := AB]> k) ∧ length X = size ∧
             (0 < test → X = AB)) ∧
       out = (λ nf, (nf.1, PASS)) <$> take (Z.to_nat test) funcs)
    fuel 0 6 (λ test out,
      match funcs !! Z.to_nat test with
      | Some (name, func) =>
          zero_matrix Rzero C_test ;;
          func fuel C_test A B ;;
          max_diff <- matrix_max_diff Rzero Rsub Rabs Rgtb fuel C_ref C_test ;;
          ret (out ++ [(name, judge Rgtb tol max_diff)])
      | None => λ _, Fault
      end) [] (<[l2 := replicate size Rzero]> (<[l1 := AB]> k)))
    as (out & hh & Hrun & _ & (X & -> & _ & HX) & ->).
  - lia.
  - split; [done|]. split; [|done]. eexists. split; [done|].
    split; [apply length_replicate|lia].
  - intros test out hh Htest (_ & (X & -> & HlenX & _) & ->).
    destruct (lookup_lt_is_Some_2 funcs (Z.to_nat test)) as [[name func] Hnf];
      [simpl; lia|].
    rewrite Hnf. rewrite verify_one; [|done|].
    + eexists _, _. split; [done|]. split; [lia|]. split.
      * exists AB. split; [done|]. split; [|done].
        rewrite scatter_length. apply length_replicate.
      * replace (Z.to_nat (test + 1)) with (S (Z.to_nat test)) by lia.
        rewrite (take_S_r _ _ _ Hnf), fmap_app. simpl.
        unfold judge. by rewrite Htol.
    + eapply suite_runs; [| |exact Hnf].
      * by rewrite lookup_insert_ne.
      * by rewrite lookup_insert_ne.
  - rewrite Hrun. by rewrite HX by lia.
Qed.

(** The whole routine from the two fresh buffers on. *)
Lemma verify_tests :
  k !! l1 = None → k !! l2 = None →
  (matmul_ijk Radd Rmul fuel C_ref A B ;;
   out <- for_loop_acc fuel 0 6 1 (λ test out,
     match funcs !! Z.to_nat test with
     | Some (name, func) =>
         zero_matrix Rzero C_test ;;
         func fuel C_test A B ;;
         max_diff <- matrix_max_diff Rzero Rsub Rabs Rgtb fuel C_ref C_test ;;
         ret (out ++ [(name, judge Rgtb tol max_diff)])
     | None => λ _, Fault
     end) [] ;;
   zero_matrix Rzero C_test ;;
   matmul_blocked Radd Rmul fuel C_test A B 64 ;;
   max_diff <- matrix_max_diff Rzero Rsub Rabs Rgtb fuel C_ref C_test ;;
   free_matrix C_ref ;;
   free_matrix C_test ;;
   ret (out ++ [("blocked", judge Rgtb tol max_diff)]))
    (<[l2 := replicate size Rzero]> (<[l1 := replicate size Rzero]> k))
  = Done (((λ nf, (nf.1, PASS)) <$> funcs) ++ [("blocked", PASS)], k).
Proof.
  intros Hk1 Hk2. pose proof fuel_dims as Hf.
  unfold bind at 1. rewrite verify_reference.
  unfold bind at 1. rewrite verify_loop.
  rewrite verify_one.
  - unfold bind, free_matrix. simpl.
    rewrite lookup_insert_ne by done. rewrite lookup_insert_eq.
    rewrite lookup_delete_ne by done. rewrite lookup_insert_eq.
    unfold ret, judge. rewrite Htol. do 2 f_equal.
    rewrite delete_insert_ne by done. rewrite delete_insert_eq.
    rewrite delete_insert_eq. rewrite (delete_id k l1) by done.
    by apply delete_id.
  - rewrite scatter_length. apply length_replicate.
  - apply (matmul_blocked_run Rzero Radd Rmul Radd_comm Radd_assoc Radd_0_l
             A B C_test bufA bufB); try done.
    + by rewrite lookup_insert_ne.
    + by rewrite lookup_insert_ne.
Qed.

End Verify.

(** X8.  In exact arithmetic [verify_correctness] reports PASS for each
    of the six kernels it compares with [matmul_ijk] and for
    [matmul_blocked] with block size 64, on every pair of matrices A
    (m×r) and B (r×n) whose result has an [int] number m*n of elements
    and whose tile bounds for block size 64 are [int]s, and it frees
    the two matrices it allocates: the store ends as it began. *)
Theorem verify_correctness_passes {R} (Rzero : R) (Radd Rmul Rsub : R → R → R)
    (Rabs : R → R) (Rgtb : R → R → bool)
    (h : heap R) (A B : Matrix) (bufA bufB : list R) (fuel : nat) (tol : R) :
  exact_arithmetic Rzero Radd →
  (∀ a, Rabs (Rsub a a) = Rzero) →
  Rgtb Rzero Rzero = false → Rgtb tol Rzero = true →
  wf_matrix h A bufA → wf_matrix h B bufB → cols A = rows B →
  rows A * cols B ≤ INT_MAX → blocks_fit_int A B 64 →
  Z.max 6 (Z.max (dim_max A B) (rows A * cols B)) < Z.of_nat fuel →
  verify_correctness Rzero Radd Rmul Rsub Rabs Rgtb fuel tol A B h
  = Done ([("jik", PASS); ("saxpy", PASS); ("outer_product", PASS);
           ("ikj", PASS); ("kij", PASS); ("ikj_inlined", PASS);
           ("blocked", PASS)], h).
Proof.
  intros (Hcomm & Hassoc & H0) Hsub H00 Htol
    (HA & HmA & HrA & HlenA) (HB & HrB & HnB & HlenB) Hinner Hint Hfit Hfuel.
  destruct (alloc_zeroed_spec Rzero (rows A * cols B) h)
    as (l1 & Hal1 & Hf1); [nia|].
  destruct (alloc_zeroed_spec Rzero (rows A * cols B)
              (<[l1 := replicate (Z.to_nat (rows A * cols B)) Rzero]> h))
    as (l2 & Hal2 & Hf2); [nia|].
  assert (l1 ≠ l2) as Hl.
  { intros ->. rewrite lookup_insert_eq in Hf2. discriminate. }
  assert (h !! l2 = None) as Hf2' by (by rewrite lookup_insert_ne in Hf2).
  assert (data A ≠ l1) as HA1 by congruence.
  assert (data A ≠ l2) as HA2 by congruence.
  assert (data B ≠ l1) as HB1 by congruence.
  assert (data B ≠ l2) as HB2 by congruence.
  unfold verify_correctness, create_matrix.
  unfold bind at 1. unfold bind at 1. unfold bind at 1.
  rewrite int_mul_fits by (unfold INT_MIN; nia). rewrite Hal1. simpl.
  unfold bind at 1. unfold bind at 1. unfold bind at 1.
  rewrite int_mul_fits by (unfold INT_MIN; nia). rewrite Hal2. simpl.
  by apply (verify_tests Rzero Radd Rmul Rsub Rabs Rgtb Hcomm Hassoc H0
              Hsub H00 A B bufA bufB fuel tol).
Qed.

Lemma verify_correctness_passes_witness :
  verify_correctness 0 Z.add Z.mul Z.sub Z.abs Z.gtb 7 1 ex_A ex_B ex_h
  = Done ([("jik", PASS); ("saxpy", PASS); ("outer_product", PASS);
           ("ikj", PASS); ("kij", PASS); ("ikj_inlined", PASS);
           ("blocked", PASS)], ex_h).
Proof.
  apply (verify_correctness_passes 0 Z.add Z.mul Z.sub Z.abs Z.gtb
           ex_h ex_A ex_B ex_bufA ex_bufB 7 1).
  - repeat split; intros; lia.
  - intros a. rewrite Z.sub_diag. reflexivity.
  - reflexivity.
  - reflexivity.
  - repeat split; (reflexivity || (simpl; lia)).
  - repeat split; (reflexivity || (simpl; lia)).
  - reflexivity.
  - unfold INT_MAX. simpl. lia.
  - repeat apply conj; apply tiles_fit_room;
      (lia || (unfold INT_MAX; simpl; lia)).
  - unfold dim_max. simpl. lia.
Defined.

(** *** Comparing two matrices within a tolerance *)

Lemma first_return_None {T} (f : Z → option T) (l : list Z) :
  first_return f l = None ↔ ∀ i, i ∈ l → f i = None.
Proof.
  induction l as [|i l IH]; simpl.
  - split; [|done]. intros _ i Hi. by apply elem_of_nil in Hi.
  - destruct (f i) as [v|] eqn:Hfi.
    + split; [done|]. intros Hall.
      rewrite <- Hfi. apply Hall. apply elem_of_cons. by left.
    + rewrite IH. split.
      * intros Hall i' [->|Hi']%elem_of_cons; [done|by apply Hall].
      * intros Hall i' Hi'. apply Hall. apply elem_of_cons. by right.
Qed.

Lemma first_return_Some {T} (f : Z → option T) (l : list Z) v :
  first_return f l = Some v → ∃ i, i ∈ l ∧ f i = Some v.
Proof.
  induction l as [|i l IH]; simpl; [done|].
  destruct (f i) as [w|] eqn:Hfi.
  - intros [= ->]. exists i. split; [apply elem_of_cons; by left|done].
  - intros (i' & Hi' & Hv)%IH. exists i'.
    split; [apply elem_of_cons; by right|done].
Qed.

(** A loop that may return, over bodies that leave the store alone. *)
Lemma for_loop_ret_pure {R T} fuel lo hi (body : Z → M R (option T))
    (f : Z → option T) (h : heap R) :
  Z.max 0 (hi - lo) < Z.of_nat fuel →
  (∀ i, lo ≤ i < hi → body i h = Done (f i, h)) →
  for_loop_ret fuel lo hi 1 body h = Done (first_return f (zrange lo hi 1), h).
Proof.
  revert lo. induction fuel as [|fuel IH]; intros lo Hfuel Hbody; [lia|].
  simpl. case_decide as Hlt.
  - rewrite zrange_cons by lia. simpl. unfold bind.
    rewrite Hbody by lia. destruct (f lo) as [v|]; [done|].
    apply IH; [lia|]. intros i Hi. apply Hbody. lia.
  - by rewrite zrange_nil.
Qed.

(** X9.  [matrices_equal] answers true exactly when the two matrices
    have the same dimensions and no pair of elements differs by more
    than the tolerance; it compares the dimensions first, so it reads
    no element out of range even when they differ, and it leaves the
    store unchanged. *)
Theorem matrices_equal_iff {R} (Rzero : R) (Rsub : R → R → R) (Rabs : R → R)
    (Rgtb : R → R → bool) (h : heap R) (A B : Matrix) (bufA bufB : list R)
    (tolerance : R) (fuel : nat) :
  wf_matrix h A bufA → wf_matrix h B bufB →
  Z.max (rows A) (cols A) < Z.of_nat fuel →
  ∃ b,
    matrices_equal Rsub Rabs Rgtb fuel A B tolerance h = Done (b, h) ∧
    (b = true ↔
       rows A = rows B ∧ cols A = cols B ∧
       ∀ i j, 0 ≤ i < rows A → 0 ≤ j < cols A →
         Rgtb (Rabs (Rsub (entry Rzero A bufA i j) (entry Rzero B bufB i j)))
              tolerance = false).
Proof.
  intros (HA & HmA & HnA & HlenA) (HB & HmB & HnB & HlenB) Hfuel.
  unfold matrices_equal. case_decide as Hdims.
  - exists false. split; [done|]. split; [done|]. intros (? & ? & _). lia.
  - assert (rows A = rows B ∧ cols A = cols B) as [Hr Hc] by lia.
    set (gap := λ i j,
      Rabs (Rsub (entry Rzero A bufA i j) (entry Rzero B bufB i j))).
    set (inner := λ i, first_return
      (λ j, if Rgtb (gap i j) tolerance then Some false else None)
      (zrange 0 (cols A) 1)).
    assert (∀ i, 0 ≤ i < rows A →
      for_loop_ret fuel 0 (cols A) 1 (λ j,
        a <- elem_get A i j ;; b <- elem_get B i j ;;
        if Rgtb (Rabs (Rsub a b)) tolerance then ret (Some false) else ret None) h
      = Done (inner i, h)) as Hinner.
    { intros i Hi. apply for_loop_ret_pure; [lia|]. intros j Hj.
      assert (in_range A i j) as HinA by (unfold in_range; lia).
      assert (in_range B i j) as HinB by (unfold in_range; lia).
      pose proof (offset_bound A i j HinA). pose proof (offset_bound B i j HinB).
      destruct (lookup_lt_is_Some_2 bufA (Z.to_nat (offset A i j))) as [a Ha]; [lia|].
      destruct (lookup_lt_is_Some_2 bufB (Z.to_nat (offset B i j))) as [b Hb]; [lia|].
      unfold bind. rewrite (elem_get_at h A bufA i j a) by done.
      rewrite (elem_get_at h B bufB i j b) by done.
      unfold gap, entry. rewrite Ha, Hb. simpl. by destruct (Rgtb _ _). }
    exists (default true (first_return inner (zrange 0 (rows A) 1))).
    split.
    { unfold bind. rewrite (for_loop_ret_pure fuel 0 (rows A) _ inner h);
        [done|lia|done]. }
    assert (∀ i v, inner i = Some v → v = false) as Hfalse.
    { intros i v (j & _ & Hj)%first_return_Some.
      destruct (Rgtb _ _); congruence. }
    destruct (first_return inner (zrange 0 (rows A) 1)) as [v|] eqn:Hres; simpl.
    + apply first_return_Some in Hres as (i & Hi%elem_of_zrange & Hv); [|lia].
      pose proof (Hfalse i v Hv) as ->. split; [done|].
      intros (_ & _ & Hall). exfalso.
      apply first_return_Some in Hv as (j & Hj%elem_of_zrange & Hv); [|lia].
      unfold gap in Hv. rewrite Hall in Hv by lia. done.
    + split; [|done]. intros _. split; [done|]. split; [done|].
      intros i j Hi Hj.
      pose proof (proj1 (first_return_None _ _) Hres i) as Hrow.
      assert (i ∈ zrange 0 (rows A) 1) as Hiz.
      { rewrite zrange_unit. apply elem_of_seqZ. lia. }
      specialize (Hrow Hiz). unfold inner in Hrow.
      pose proof (proj1 (first_return_None _ _) Hrow j) as Hcol.
      assert (j ∈ zrange 0 (cols A) 1) as Hjz.
      { rewrite zrange_unit. apply elem_of_seqZ. lia. }
      specialize (Hcol Hjz). simpl in Hcol. unfold gap in Hcol.
      by destruct (Rgtb _ _).
Qed.

Lemma matrices_equal_iff_witness :
  ∃ b,
    matrices_equal Z.sub Z.abs Z.gtb 4 ex_A ex_B 1 ex_h = Done (b, ex_h) ∧
    (b = true ↔
       rows ex_A = rows ex_B ∧ cols ex_A = cols ex_B ∧
       ∀ i j, 0 ≤ i < rows ex_A → 0 ≤ j < cols ex_A →
         (Z.abs (entry 0 ex_A ex_bufA i j - entry 0 ex_B ex_bufB i j) >? 1)
         = false).
Proof.
  apply (matrices_equal_iff 0 Z.sub Z.abs Z.gtb ex_h ex_A ex_B
           ex_bufA ex_bufB 1 4).
  - repeat split; (reflexivity || (simpl; lia)).
  - repeat split; (reflexivity || (simpl; lia)).
  - simpl. lia.
Defined.

(** *** What the helpers of the kernels update *)

Section Box.
Context {R : Type}.
Variables (Rzero : R) (Radd Rmul : R → R → R).
Hypothesis Radd_comm : ∀ a b, Radd a b = Radd b a.
Hypothesis Radd_assoc : ∀ a b c, Radd a (Radd b c) = Radd (Radd a b) c.
Hypothesis Radd_0_l : ∀ a, Radd Rzero a = a.
Variables (A B C : Matrix) (bufA bufB : list R) (h0 : heap R).
Hypothesis HA : h0 !! data A = Some bufA.
Hypothesis HB : h0 !! data B = Some bufB.
Hypothesis HneA : data A ≠ data C.
Hypothesis HneB : data B ≠ data C.
Hypothesis HlenA : length bufA = Z.to_nat (rows A * cols A).
Hypothesis HlenB : length bufB = Z.to_nat (rows B * cols B).
Hypothesis Hdims : conformable A B C.
Hypothesis Hm : 0 ≤ rows A.
Hypothesis Hr : 0 ≤ cols A.
Hypothesis Hn : 0 ≤ cols B.

Local Abbreviation Σ := (bigsum Rzero Radd).
Local Abbreviation addend := (contrib Rzero Rmul A B C bufA bufB).
Local Abbreviation run :=
  (sim Radd (data C) (Z.to_nat (rows C * cols C)) h0).

(** The part of the dot product of row i and column j over [lk]. *)
Local Abbreviation partial lk i j :=
  (Σ lk (λ k, Rmul (entry Rzero A bufA i k) (entry Rzero B bufB k j))).

(** What the accumulations over the rows [li], the columns [lj] and
    the inner indices [lk] add to the element (i,j) of C. *)
Lemma box_landing (li lj lk : list Z) i j :
  NoDup li → NoDup lj →
  (∀ i', i' ∈ li → 0 ≤ i' < rows A) → (∀ j', j' ∈ lj → 0 ≤ j' < cols B) →
  0 ≤ i < rows A → 0 ≤ j < cols B →
  sum3 Rzero Radd li lj lk
    (λ i' j' k, landing Rzero (Z.to_nat (offset C i j)) (addend i' j' k))
  = if decide (i ∈ li ∧ j ∈ lj) then partial lk i j else Rzero.
Proof.
  intros Hndi Hndj Hli Hlj Hi Hj. unfold sum3.
  trans (Σ li (λ i', if decide (i' = i) then
           Σ lj (λ j', if decide (j' = j) then partial lk i' j' else Rzero)
         else Rzero)).
  { apply bigsum_ext; [done..|]. intros i' Hi'.
    case_decide as Hii.
    - subst i'. apply bigsum_ext; [done..|]. intros j' Hj'.
      case_decide as Hjj.
      + subst j'. apply bigsum_ext; [done..|]. intros k _.
        apply landing_contrib_hit.
      + etrans; [|by apply (bigsum_zero Rzero Radd)].
        apply bigsum_ext; [done..|]. intros k _.
        apply landing_contrib_miss; try done; [by apply Hlj|by intros [_ ?]].
    - etrans; [|by apply (bigsum_zero Rzero Radd)].
      apply bigsum_ext; [done..|]. intros j' Hj'.
      etrans; [|by apply (bigsum_zero Rzero Radd)].
      apply bigsum_ext; [done..|]. intros k _.
      apply landing_contrib_miss; try done;
        [by apply Hli|by apply Hlj|by intros [? _]]. }
  destruct (decide (i ∈ li)) as [Hin|Hout].
  - rewrite (bigsum_pick Rzero Radd); [|done..].
    destruct (decide (j ∈ lj)) as [Hjn|Hjout].
    + rewrite (bigsum_pick Rzero Radd); [|done..]. by rewrite decide_True.
    + rewrite (bigsum_pick_absent Rzero Radd); [|done..].
      rewrite decide_False; [done|by intros [_ ?]].
  - rewrite (bigsum_pick_absent Rzero Radd); [|done..].
    rewrite decide_False; [done|by intros [? _]].
Qed.

(** A run whose accumulations are those of a box of indices. *)
Lemma box_result (c : M R unit) us (li lj lk : list Z) bufC :
  run c us →
  (∀ q, Σ us (landing Rzero q)
        = sum3 Rzero Radd li lj lk (λ i' j' k, landing Rzero q (addend i' j' k))) →
  NoDup li → NoDup lj →
  (∀ i', i' ∈ li → 0 ≤ i' < rows A) → (∀ j', j' ∈ lj → 0 ≤ j' < cols B) →
  length bufC = Z.to_nat (rows C * cols C) →
  ∃ bufC',
    c (<[data C := bufC]> h0) = Done (tt, <[data C := bufC']> h0) ∧
    length bufC' = length bufC ∧
    ∀ i j, 0 ≤ i < rows A → 0 ≤ j < cols B →
      bufC' !! Z.to_nat (offset C i j)
      = Some (if decide (i ∈ li ∧ j ∈ lj)
              then Radd (entry Rzero C bufC i j) (partial lk i j)
              else entry Rzero C bufC i j).
Proof.
  intros Hc Hus Hndi Hndj Hli Hlj Hlen.
  exists (scatter Radd us bufC). split; [by apply Hc|].
  split; [apply scatter_length|]. intros i j Hi Hj.
  destruct Hdims as (_ & HmC & HnC).
  assert (in_range C i j) as Hin by (unfold in_range; lia).
  pose proof (offset_bound C i j Hin).
  rewrite (scatter_lookup Rzero Radd) by done.
  rewrite Hus. rewrite box_landing; [|done..].
  destruct (lookup_lt_is_Some_2 bufC (Z.to_nat (offset C i j))) as [c0 Hc0]; [lia|].
  assert (entry Rzero C bufC i j = c0) as -> by (unfold entry; by rewrite Hc0).
  rewrite Hc0. destruct (decide (i ∈ li ∧ j ∈ lj)); simpl; [done|].
  f_equal. by apply Radd_0_r.
Qed.

End Box.

Section Helpers.
Context {R : Type}.
Variables (Rzero : R) (Radd Rmul : R → R → R).
Hypothesis Radd_comm : ∀ a b, Radd a b = Radd b a.
Hypothesis Radd_assoc : ∀ a b c, Radd a (Radd b c) = Radd (Radd a b) c.
Hypothesis Radd_0_l : ∀ a, Radd Rzero a = a.
Variables (A B C : Matrix) (bufA bufB bufC : list R) (h : heap R).
Hypothesis Hpre : gemm_pre h A B C bufA bufB bufC.
Variable fuel : nat.

Local Abbreviation Σ := (bigsum Rzero Radd).
Local Abbreviation addend := (contrib Rzero Rmul A B C bufA bufB).
Local Abbreviation run :=
  (sim Radd (data C) (Z.to_nat (rows C * cols C)) h).
Local Abbreviation partial lk i j :=
  (Σ lk (λ k, Rmul (entry Rzero A bufA i k) (entry Rzero B bufB k j))).

(** The shape of the conclusions: the command leaves a buffer for C in
    which the elements of the rows [li] and columns [lj] have received
    the partial dot product over [lk], and the others are as before. *)
Local Abbreviation updates c li lj lk :=
  (∃ bufC',
    c h = Done (tt, <[data C := bufC']> h) ∧
    length bufC' = length bufC ∧
    ∀ i j, 0 ≤ i < rows A → 0 ≤ j < cols B →
      bufC' !! Z.to_nat (offset C i j)
      = Some (if decide (i ∈ li ∧ j ∈ lj)
              then Radd (entry Rzero C bufC i j) (partial lk i j)
              else entry Rzero C bufC i j)).

Lemma updates_of_run (c : M R unit) us (li lj lk : list Z) :
  run c us →
  (∀ q, Σ us (landing Rzero q)
        = sum3 Rzero Radd li lj lk (λ i' j' k, landing Rzero q (addend i' j' k))) →
  NoDup li → NoDup lj →
  (∀ i', i' ∈ li → 0 ≤ i' < rows A) → (∀ j', j' ∈ lj → 0 ≤ j' < cols B) →
  updates c li lj lk.
Proof.
  destruct Hpre as ((HA & HmA & HrA & HlenA) & (HB & HrB & HnB & HlenB) &
                    HwfC & Hdims & HneA & HneB).
  pose proof HwfC as (HC & HmC & HnC & HlenC).
  intros Hc Hus Hndi Hndj Hli Hlj.
  destruct (box_result Rzero Radd Rmul Radd_comm Radd_assoc Radd_0_l
              A B C bufA bufB h HneA HneB HlenA HlenB Hdims c us li lj lk bufC)
    as (bufC' & Hrun & Hrest); try done.
  exists bufC'. by rewrite (wf_matrix_insert_id h C bufC HwfC) in Hrun.
Qed.

Lemma madd_run' i j k :
  0 ≤ i < rows A → 0 ≤ k < cols A → 0 ≤ j < cols B →
  run (madd Radd Rmul A B C i j k) [addend i j k].
Proof.
  destruct Hpre as ((HA & HmA & HrA & HlenA) & (HB & HrB & HnB & HlenB) &
                    HwfC & Hdims & HneA & HneB).
  by apply madd_run.
Qed.

Lemma madd_a_run' i j k :
  0 ≤ i < rows A → 0 ≤ k < cols A → 0 ≤ j < cols B →
  run (madd_a Radd Rmul (entry Rzero A bufA i k) B C i j k) [addend i j k].
Proof.
  destruct Hpre as ((HA & HmA & HrA & HlenA) & (HB & HrB & HnB & HlenB) &
                    HwfC & Hdims & HneA & HneB).
  by apply madd_a_run.
Qed.

Lemma madd_b_run' i j k :
  0 ≤ i < rows A → 0 ≤ k < cols A → 0 ≤ j < cols B →
  run (madd_b Radd Rmul (entry Rzero B bufB k j) A C i j k) [addend i j k].
Proof.
  destruct Hpre as ((HA & HmA & HrA & HlenA) & (HB & HrB & HnB & HlenB) &
                    HwfC & Hdims & HneA & HneB).
  by apply madd_b_run.
Qed.

Lemma elem_of_zrange_unit x lo hi : x ∈ zrange lo hi 1 ↔ lo ≤ x < hi.
Proof. rewrite zrange_unit, elem_of_seqZ. lia. Qed.

Lemma NoDup_zrange_unit lo hi : NoDup (zrange lo hi 1).
Proof. rewrite zrange_unit. apply NoDup_seqZ. Qed.

Ltac loop := eapply sim_for; [lia|lia|intros ? ?].

(** One tile of the blocked kernel. *)
Lemma inner_block_outer_loop_updates ii jj kk i_max j_max k_max :
  0 ≤ ii → i_max ≤ rows A → 0 ≤ jj → j_max ≤ cols B → 0 ≤ kk → k_max ≤ cols A →
  Z.max 0 (Z.max (i_max - ii) (Z.max (j_max - jj) (k_max - kk))) < Z.of_nat fuel →
  updates (inner_block_outer_loop Radd Rmul fuel A B C ii kk jj i_max j_max k_max)
    (zrange ii i_max 1) (zrange jj j_max 1) (zrange kk k_max 1).
Proof.
  intros Hii Him Hjj Hjm Hkk Hkm Hfuel.
  eapply updates_of_run.
  - unfold inner_block_outer_loop, inner_block_middle_loop, inner_block_inner_loop.
    do 3 loop. apply madd_run'; lia.
  - intros q. rewrite (bigsum_nest3 Rzero Radd) by done.
    by rewrite (sum3_swap23 Rzero Radd).
  - apply NoDup_zrange_unit.
  - apply NoDup_zrange_unit.
  - intros i' Hi'%elem_of_zrange_unit. lia.
  - intros j' Hj'%elem_of_zrange_unit. lia.
Qed.

Lemma sum3_rows_one i (lj lk : list Z) (F : Z → Z → Z → R) :
  sum3 Rzero Radd [i] lj lk F = Σ lj (λ j, Σ lk (λ k, F i j k)).
Proof. unfold sum3. by rewrite (bigsum_singleton Rzero Radd). Qed.

(** [inner_dot_product]: one element of C, over k < r. *)
Lemma inner_dot_product_updates i j r :
  0 ≤ i < rows A → 0 ≤ j < cols B → r ≤ cols A →
  Z.max 0 r < Z.of_nat fuel →
  updates (inner_dot_product Radd Rmul fuel C A B i j r) [i] [j] (zrange 0 r 1).
Proof.
  intros Hi Hj Hr Hfuel. eapply updates_of_run.
  - unfold inner_dot_product. loop. apply madd_run'; lia.
  - intros q. rewrite (bigsum_nest1 Rzero Radd) by done.
    rewrite sum3_rows_one. by rewrite (bigsum_singleton Rzero Radd).
  - apply NoDup_singleton.
  - apply NoDup_singleton.
  - by intros i' ->%list_elem_of_singleton.
  - by intros j' ->%list_elem_of_singleton.
Qed.

(** [inner_saxpy_row]: the first n elements of row i, for one k. *)
Lemma inner_saxpy_row_updates i k n :
  0 ≤ i < rows A → 0 ≤ k < cols A → n ≤ cols B →
  Z.max 0 n < Z.of_nat fuel →
  updates (inner_saxpy_row Radd Rmul fuel C A B i k n) [i] (zrange 0 n 1) [k].
Proof.
  destruct Hpre as ((HA & HmA & HrA & HlenA) & (HB & HrB & HnB & HlenB) &
                    HwfC & Hdims & HneA & HneB).
  intros Hi Hk Hn Hfuel. eapply updates_of_run.
  - unfold inner_saxpy_row.
    eapply sim_read_bind; [by apply (sim_read_elem Rzero)|].
    loop. apply madd_a_run'; lia.
  - intros q. rewrite (bigsum_nest1 Rzero Radd) by done.
    rewrite sum3_rows_one. apply (bigsum_ext Rzero Radd). intros j _.
    by rewrite (bigsum_singleton Rzero Radd).
  - apply NoDup_singleton.
  - apply NoDup_zrange_unit.
  - by intros i' ->%list_elem_of_singleton.
  - intros j' Hj'%elem_of_zrange_unit. lia.
Qed.

(** [inner_saxpy_column]: the first m elements of column j, for one k. *)
Lemma inner_saxpy_column_updates j k m :
  0 ≤ j < cols B → 0 ≤ k < cols A → m ≤ rows A →
  Z.max 0 m < Z.of_nat fuel →
  updates (inner_saxpy_column Radd Rmul fuel C A B j k m) (zrange 0 m 1) [j] [k].
Proof.
  destruct Hpre as ((HA & HmA & HrA & HlenA) & (HB & HrB & HnB & HlenB) &
                    HwfC & Hdims & HneA & HneB).
  intros Hj Hk Hm Hfuel. eapply updates_of_run.
  - unfold inner_saxpy_column.
    eapply sim_read_bind.
    { apply (sim_read_elem Rzero); try done.
      destruct Hdims as (Hr & _ & _). unfold in_range. lia. }
    loop. apply madd_b_run'; lia.
  - intros q. rewrite (bigsum_nest1 Rzero Radd) by done.
    unfold sum3. apply (bigsum_ext Rzero Radd). intros i _.
    by rewrite !(bigsum_singleton Rzero Radd).
  - apply NoDup_zrange_unit.
  - apply NoDup_singleton.
  - intros i' Hi'%elem_of_zrange_unit. lia.
  - by intros j' ->%list_elem_of_singleton.
Qed.

(** [process_matrix_row]: the whole row [row_i]. *)
Lemma process_matrix_row_updates row_i :
  0 ≤ row_i < rows A →
  Z.max 0 (Z.max (cols A) (cols B)) < Z.of_nat fuel →
  updates (process_matrix_row Radd Rmul fuel C A B row_i)
    [row_i] (zrange 0 (cols B) 1) (zrange 0 (cols A) 1).
Proof.
  destruct Hpre as ((HA & HmA & HrA & HlenA) & (HB & HrB & HnB & HlenB) &
                    HwfC & Hdims & HneA & HneB).
  pose proof HwfC as (HC & HmC & HnC & HlenC).
  pose proof Hdims as (HrB' & HmC' & HnC').
  intros Hi Hfuel.
  apply (updates_of_run _
    (zrange 0 (cols A) 1 ≫= λ k, zrange 0 (cols B) 1 ≫= λ j,
       [addend row_i j k])).
  - unfold process_matrix_row, saxpy_blas. loop.
    eapply sim_read_bind; [by apply (sim_read_elem Rzero)|].
    eapply sim_read_bind;
      [apply sim_read_addr_target; [done|unfold offset; nia..]|].
    eapply sim_read_bind;
      [eapply sim_read_addr; [done|exact HB|unfold offset; nia..]|].
    loop. unfold ptr_get, ptr_set. simpl. rewrite !offset_row.
    eapply sim_read_bind.
    { apply (sim_read_vec Rzero); [done|exact HB|unfold offset; nia..]. }
    apply (sim_accumulate_vec Radd); [done|unfold offset; nia..].
  - intros q. rewrite (bigsum_nest2 Rzero Radd) by done.
    rewrite sum3_rows_one. by rewrite (bigsum_exchange Rzero Radd).
  - apply NoDup_singleton.
  - apply NoDup_zrange_unit.
  - by intros i' ->%list_elem_of_singleton.
  - intros j' Hj'%elem_of_zrange_unit. lia.
Qed.

End Helpers.

(** X10.  One tile of the blocked kernel: [inner_block_outer_loop] on
    the rows [ii, i_max), the columns [jj, j_max) and the inner indices
    [kk, k_max) adds to each element of that tile of C the part of its
    dot product over [kk, k_max), and leaves every element outside the
    tile as it was. *)
Theorem inner_block_updates_tile {R} (Rzero : R) (Radd Rmul : R → R → R)
    (h : heap R) (A B C : Matrix) (bufA bufB bufC : list R)
    (ii jj kk i_max j_max k_max : Z) (fuel : nat) :
  exact_arithmetic Rzero Radd →
  gemm_pre h A B C bufA bufB bufC →
  0 ≤ ii → i_max ≤ rows A → 0 ≤ jj → j_max ≤ cols B →
  0 ≤ kk → k_max ≤ cols A →
  Z.max 0 (Z.max (i_max - ii) (Z.max (j_max - jj) (k_max - kk)))
    < Z.of_nat fuel →
  ∃ bufC',
    inner_block_outer_loop Radd Rmul fuel A B C ii kk jj i_max j_max k_max h
      = Done (tt, <[data C := bufC']> h) ∧
    length bufC' = length bufC ∧
    ∀ i j, 0 ≤ i < rows A → 0 ≤ j < cols B →
      bufC' !! Z.to_nat (offset C i j)
      = Some (if decide (ii ≤ i < i_max ∧ jj ≤ j < j_max)
              then Radd (entry Rzero C bufC i j)
                     (bigsum Rzero Radd (seqZ kk (k_max - kk))
                        (λ k, Rmul (entry Rzero A bufA i k)
                                   (entry Rzero B bufB k j)))
              else entry Rzero C bufC i j).
Proof.
  intros (Hcomm & Hassoc & H0) Hpre Hii Him Hjj Hjm Hkk Hkm Hfuel.
  destruct (inner_block_outer_loop_updates Rzero Radd Rmul Hcomm Hassoc H0
              A B C bufA bufB bufC h Hpre fuel ii jj kk i_max j_max k_max)
    as (bufC' & Hrun & Hlen & Hlook); try done.
  exists bufC'. split; [done|]. split; [done|].
  intros i j Hi Hj. rewrite Hlook by done. f_equal.
  rewrite (zrange_unit kk k_max). apply decide_ext.
  by rewrite !elem_of_zrange_unit.
Qed.

Lemma inner_block_updates_tile_witness :
  ∃ bufC',
    inner_block_outer_loop Z.add Z.mul 3 ex_A ex_B ex_C 0 1 1 1 2 3 ex_h
      = Done (tt, <[3%positive := bufC']> ex_h) ∧
    bufC' !! 0%nat = Some 10 ∧ bufC' !! 1%nat = Some 25 ∧
    bufC' !! 2%nat = Some 30 ∧ bufC' !! 3%nat = Some 40.
Proof.
  destruct (inner_block_updates_tile 0 Z.add Z.mul ex_h ex_A ex_B ex_C
              ex_bufA ex_bufB ex_bufC 0 1 1 1 2 3 3)
    as (bufC' & Hrun & _ & Hlook).
  - repeat split; intros; lia.
  - repeat split; (reflexivity || discriminate || (simpl; lia)).
  - lia.
  - simpl. lia.
  - lia.
  - simpl. lia.
  - lia.
  - simpl. lia.
  - simpl. lia.
  - exists bufC'. split; [exact Hrun|].
    split; [apply (Hlook 0 0); simpl; lia|].
    split; [apply (Hlook 0 1); simpl; lia|].
    split; [apply (Hlook 1 0); simpl; lia|].
    apply (Hlook 1 1); simpl; lia.
Defined.

(** X11.  The three inner helpers of matmul_basic.c, as the kernels
    call them: [inner_dot_product] adds the dot product of row i of A
    and column j of B to the element (i,j) of C; [inner_saxpy_row] adds
    [A[i][k] * B[k][j]] to every element of row i; [inner_saxpy_column]
    adds [A[i][k] * B[k][j]] to every element of column j.  Each leaves
    all other elements of C as they were. *)
Theorem inner_helpers_update {R} (Rzero : R) (Radd Rmul : R → R → R)
    (h : heap R) (A B C : Matrix) (bufA bufB bufC : list R)
    (i j k : Z) (fuel : nat) :
  exact_arithmetic Rzero Radd →
  gemm_pre h A B C bufA bufB bufC →
  0 ≤ i < rows A → 0 ≤ j < cols B → 0 ≤ k < cols A →
  dim_max A B < Z.of_nat fuel →
  (∃ bufC',
     inner_dot_product Radd Rmul fuel C A B i j (cols A) h
       = Done (tt, <[data C := bufC']> h) ∧
     ∀ i' j', 0 ≤ i' < rows A → 0 ≤ j' < cols B →
       bufC' !! Z.to_nat (offset C i' j')
       = Some (if decide (i' = i ∧ j' = j)
               then Radd (entry Rzero C bufC i' j')
                         (dot Rzero Radd Rmul A B bufA bufB i' j')
               else entry Rzero C bufC i' j')) ∧
  (∃ bufC',
     inner_saxpy_row Radd Rmul fuel C A B i k (cols B) h
       = Done (tt, <[data C := bufC']> h) ∧
     ∀ i' j', 0 ≤ i' < rows A → 0 ≤ j' < cols B →
       bufC' !! Z.to_nat (offset C i' j')
       = Some (if decide (i' = i)
               then Radd (entry Rzero C bufC i' j')
                         (Rmul (entry Rzero A bufA i' k) (entry Rzero B bufB k j'))
               else entry Rzero C bufC i' j')) ∧
  (∃ bufC',
     inner_saxpy_column Radd Rmul fuel C A B j k (rows A) h
       = Done (tt, <[data C := bufC']> h) ∧
     ∀ i' j', 0 ≤ i' < rows A → 0 ≤ j' < cols B →
       bufC' !! Z.to_nat (offset C i' j')
       = Some (if decide (j' = j)
               then Radd (entry Rzero C bufC i' j')
                         (Rmul (entry Rzero A bufA i' k) (entry Rzero B bufB k j'))
               else entry Rzero C bufC i' j')).
Proof.
  intros (Hcomm & Hassoc & H0) Hpre Hi Hj Hk Hfuel.
  assert (∀ a, Radd a Rzero = a) as H0r by (intros a; by rewrite Hcomm).
  unfold dim_max in Hfuel. repeat apply conj.
  - destruct (inner_dot_product_updates Rzero Radd Rmul Hcomm Hassoc H0
                A B C bufA bufB bufC h Hpre fuel i j (cols A))
      as (bufC' & Hrun & _ & Hlook); [done|done|lia|lia|].
    exists bufC'. split; [done|]. intros i' j' Hi' Hj'.
    rewrite Hlook by done. f_equal. unfold dot.
    rewrite (zrange_unit 0 (cols A)), Z.sub_0_r. apply decide_ext.
    by rewrite !list_elem_of_singleton.
  - destruct (inner_saxpy_row_updates Rzero Radd Rmul Hcomm Hassoc H0
                A B C bufA bufB bufC h Hpre fuel i k (cols B))
      as (bufC' & Hrun & _ & Hlook); [done|done|lia|lia|].
    exists bufC'. split; [done|]. intros i' j' Hi' Hj'.
    rewrite Hlook by done. f_equal. simpl. rewrite H0r. apply decide_ext.
    rewrite list_elem_of_singleton, elem_of_zrange_unit. intuition lia.
  - destruct (inner_saxpy_column_updates Rzero Radd Rmul Hcomm Hassoc H0
                A B C bufA bufB bufC h Hpre fuel j k (rows A))
      as (bufC' & Hrun & _ & Hlook); [done|done|lia|lia|].
    exists bufC'. split; [done|]. intros i' j' Hi' Hj'.
    rewrite Hlook by done. f_equal. simpl. rewrite H0r. apply decide_ext.
    rewrite list_elem_of_singleton, elem_of_zrange_unit. intuition lia.
Qed.

Lemma inner_helpers_update_witness :
  (∃ bufC',
     inner_dot_product Z.add Z.mul 4 ex_C ex_A ex_B 1 0 3 ex_h
       = Done (tt, <[3%positive := bufC']> ex_h) ∧
     bufC' !! 0%nat = Some 10 ∧ bufC' !! 2%nat = Some 40) ∧
  (∃ bufC',
     inner_saxpy_row Z.add Z.mul 4 ex_C ex_A ex_B 1 2 2 ex_h
       = Done (tt, <[3%positive := bufC']> ex_h) ∧
     bufC' !! 1%nat = Some 20 ∧ bufC' !! 2%nat = Some 36 ∧
     bufC' !! 3%nat = Some 46) ∧
  (∃ bufC',
     inner_saxpy_column Z.add Z.mul 4 ex_C ex_A ex_B 0 2 2 ex_h
       = Done (tt, <[3%positive := bufC']> ex_h) ∧
     bufC' !! 0%nat = Some 13 ∧ bufC' !! 1%nat = Some 20 ∧
     bufC' !! 2%nat = Some 36).
Proof.
  destruct (inner_helpers_update 0 Z.add Z.mul ex_h ex_A ex_B ex_C
              ex_bufA ex_bufB ex_bufC 1 0 2 4)
    as ((c1 & Hrun1 & Hlook1) & (c2 & Hrun2 & Hlook2) & (c3 & Hrun3 & Hlook3)).
  - repeat split; intros; lia.
  - repeat split; (reflexivity || discriminate || (simpl; lia)).
  - simpl. lia.
  - simpl. lia.
  - simpl. lia.
  - reflexivity.
  - repeat apply conj.
    + exists c1. split; [exact Hrun1|].
      split; [apply (Hlook1 0 0); simpl; lia|apply (Hlook1 1 0); simpl; lia].
    + exists c2. split; [exact Hrun2|].
      split; [apply (Hlook2 0 1); simpl; lia|].
      split; [apply (Hlook2 1 0); simpl; lia|apply (Hlook2 1 1); simpl; lia].
    + exists c3. split; [exact Hrun3|].
      split; [apply (Hlook3 0 0); simpl; lia|].
      split; [apply (Hlook3 0 1); simpl; lia|apply (Hlook3 1 0); simpl; lia].
Defined.

(** X12.  [process_matrix_row], through [saxpy_blas] on the row
    pointers, adds to every element of row [row_i] of C the dot product
    of that row of A with the column of B, and leaves the other rows of C
    as they were. *)
Theorem process_matrix_row_updates_row {R} (Rzero : R) (Radd Rmul : R → R → R)
    (h : heap R) (A B C : Matrix) (bufA bufB bufC : list R)
    (row_i : Z) (fuel : nat) :
  exact_arithmetic Rzero Radd →
  gemm_pre h A B C bufA bufB bufC →
  0 ≤ row_i < rows A →
  dim_max A B < Z.of_nat fuel →
  ∃ bufC',
    process_matrix_row Radd Rmul fuel C A B row_i h
      = Done (tt, <[data C := bufC']> h) ∧
    length bufC' = length bufC ∧
    ∀ i j, 0 ≤ i < rows A → 0 ≤ j < cols B →
      bufC' !! Z.to_nat (offset C i j)
      = Some (if decide (i = row_i)
              then Radd (entry Rzero C bufC i j)
                        (dot Rzero Radd Rmul A B bufA bufB i j)
              else entry Rzero C bufC i j).
Proof.
  intros (Hcomm & Hassoc & H0) Hpre Hi Hfuel. unfold dim_max in Hfuel.
  destruct (process_matrix_row_updates Rzero Radd Rmul Hcomm Hassoc H0
              A B C bufA bufB bufC h Hpre fuel row_i)
    as (bufC' & Hrun & Hlen & Hlook); [done|lia|].
  exists bufC'. split; [done|]. split; [done|]. intros i j Hi' Hj'.
  rewrite Hlook by done. f_equal. unfold dot.
  rewrite (zrange_unit 0 (cols A)), Z.sub_0_r. apply decide_ext.
  rewrite list_elem_of_singleton, elem_of_zrange_unit. intuition lia.
Qed.

Lemma process_matrix_row_updates_row_witness :
  ∃ bufC',
    process_matrix_row Z.add Z.mul 4 ex_C ex_A ex_B 1 ex_h
      = Done (tt, <[3%positive := bufC']> ex_h) ∧
    bufC' !! 0%nat = Some 10 ∧ bufC' !! 1%nat = Some 20 ∧
    bufC' !! 2%nat = Some 40 ∧ bufC' !! 3%nat = Some 51.
Proof.
  destruct (process_matrix_row_updates_row 0 Z.add Z.mul ex_h ex_A ex_B ex_C
              ex_bufA ex_bufB ex_bufC 1 4) as (bufC' & Hrun & _ & Hlook).
  - repeat split; intros; lia.
  - repeat split; (reflexivity || discriminate || (simpl; lia)).
  - simpl. lia.
  - reflexivity.
  - exists bufC'. split; [exact Hrun|].
    split; [apply (Hlook 0 0); simpl; lia|].
    split; [apply (Hlook 0 1); simpl; lia|].
    split; [apply (Hlook 1 0); simpl; lia|].
    apply (Hlook 1 1); simpl; lia.
Defined.

(** *** Element access *)

(** X13.  Writing [A(i,j) = v] and reading: afterwards [A(i,j)] reads
    [v] and every other element in range reads what it held before,
    because distinct positions in range have distinct row-major
    offsets; the buffer keeps its length. *)
Theorem elem_write_then_read {R} (Rzero : R) (h : heap R) (A : Matrix)
    (buf : list R) (i j : Z) (v : R) :
  wf_matrix h A buf → in_range A i j →
  ∃ buf',
    elem_set A i j v h = Done (tt, <[data A := buf']> h) ∧
    length buf' = length buf ∧
    ∀ i' j', in_range A i' j' →
      elem_get A i' j' (<[data A := buf']> h)
      = Done (if decide (i' = i ∧ j' = j) then v else entry Rzero A buf i' j',
              <[data A := buf']> h).
Proof.
  intros (HA & Hm & Hn & Hlen) Hin.
  pose proof (offset_bound A i j Hin) as Hoff.
  exists (<[Z.to_nat (offset A i j) := v]> buf).
  split; [apply elem_set_at; (done || lia)|].
  split; [apply length_insert|].
  intros i' j' Hin'. pose proof (offset_bound A i' j' Hin') as Hoff'.
  case_decide as Heq.
  - destruct Heq as [-> ->].
    apply (elem_get_at _ A (<[Z.to_nat (offset A i j) := v]> buf));
      [by rewrite lookup_insert_eq|done|].
    apply list_lookup_insert_eq. lia.
  - destruct (lookup_lt_is_Some_2 buf (Z.to_nat (offset A i' j'))) as [w Hw]; [lia|].
    apply (elem_get_at _ A (<[Z.to_nat (offset A i j) := v]> buf));
      [by rewrite lookup_insert_eq|done|].
    rewrite list_lookup_insert_ne.
    + unfold entry. by rewrite Hw.
    + intros Hoffeq. apply Heq. apply (offset_inj A i' j' i j); [done..|lia].
Qed.

Lemma elem_write_then_read_witness :
  ∃ buf',
    elem_set ex_A 1 2 9 ex_h = Done (tt, <[1%positive := buf']> ex_h) ∧
    elem_get ex_A 1 2 (<[1%positive := buf']> ex_h)
      = Done (9, <[1%positive := buf']> ex_h) ∧
    elem_get ex_A 0 2 (<[1%positive := buf']> ex_h)
      = Done (3, <[1%positive := buf']> ex_h).
Proof.
  destruct (elem_write_then_read 0 ex_h ex_A ex_bufA 1 2 9)
    as (buf' & Hset & _ & Hget).
  - repeat split; (reflexivity || (simpl; lia)).
  - unfold in_range. simpl. lia.
  - exists buf'. split; [exact Hset|].
    split; [apply (Hget 1 2)|apply (Hget 0 2)]; unfold in_range; simpl; lia.
Defined.

(** *** The wrappers of the blocked kernel *)

(** X14.  The wrappers [gemm_blocked_32], [gemm_blocked_64],
    [gemm_blocked_128] and [gemm_blocked_256] end in the same store as
    [gemm_ikj], the control the test suite compares them with, on
    matrices whose dimensions are at most INT_MAX - 255, so that the
    bounds of every tile are [int]s. *)
Theorem gemm_blocked_wrappers_match_ikj {R} (Rzero : R) (Radd Rmul : R → R → R)
    (h : heap R) (A B C : Matrix) (bufA bufB bufC : list R) :
  exact_arithmetic Rzero Radd →
  gemm_pre h A B C bufA bufB bufC →
  dim_max A B ≤ INT_MAX - 255 →
  ∃ h',
    ∀ fuel, dim_max A B < Z.of_nat fuel →
      gemm_ikj Radd Rmul fuel A B C h = Done (tt, h') ∧
      gemm_blocked_32 Radd Rmul fuel A B C h = Done (tt, h') ∧
      gemm_blocked_64 Radd Rmul fuel A B C h = Done (tt, h') ∧
      gemm_blocked_128 Radd Rmul fuel A B C h = Done (tt, h') ∧
      gemm_blocked_256 Radd Rmul fuel A B C h = Done (tt, h').
Proof.
  intros (Hcomm & Hassoc & H0)
    ((HA & HmA & HrA & HlenA) & (HB & HrB & HnB & HlenB) & HwfC &
     Hdims & HneA & HneB) Hroom.
  pose proof HwfC as (HC & HmC & HnC & HlenC).
  exists (<[data C := scatter Radd (gemm_trace Rzero Rmul A B C bufA bufB) bufC]> h).
  intros fuel Hfuel.
  assert (Z.max 0 (dim_max A B) < Z.of_nat fuel) as Hfuel'.
  { unfold dim_max in *. lia. }
  destruct (gemm_blocked_wrappers_run Rzero Radd Rmul Hcomm Hassoc H0
              A B C bufA bufB h HA HB HneA HneB HlenA HlenB Hdims HmA HrA HnB
              fuel Hfuel' ltac:(lia)) as (H32 & H64 & H128 & H256).
  pose proof (gemm_ikj_run Rzero Radd Rmul Hcomm Hassoc H0
                A B C bufA bufB h HA HB HneA HneB HlenA HlenB Hdims HmA HrA HnB
                fuel Hfuel') as Hikj.
  repeat apply conj; rewrite <- (wf_matrix_insert_id h C bufC HwfC) at 1.
  - by apply Hikj.
  - by apply H32.
  - by apply H64.
  - by apply H128.
  - by apply H256.
Qed.

Lemma gemm_blocked_wrappers_match_ikj_witness :
  ∃ h',
    gemm_ikj Z.add Z.mul 4 ex_A ex_B ex_C ex_h = Done (tt, h') ∧
    gemm_blocked_32 Z.add Z.mul 4 ex_A ex_B ex_C ex_h = Done (tt, h') ∧
    gemm_blocked_64 Z.add Z.mul 4 ex_A ex_B ex_C ex_h = Done (tt, h') ∧
    gemm_blocked_128 Z.add Z.mul 4 ex_A ex_B ex_C ex_h = Done (tt, h') ∧
    gemm_blocked_256 Z.add Z.mul 4 ex_A ex_B ex_C ex_h = Done (tt, h').
Proof.
  destruct (gemm_blocked_wrappers_match_ikj 0 Z.add Z.mul ex_h ex_A ex_B ex_C
              ex_bufA ex_bufB ex_bufC) as (h' & Hrun).
  - repeat split; intros; lia.
  - repeat split; (reflexivity || discriminate || (simpl; lia)).
  - unfold dim_max, INT_MAX. simpl. lia.
  - exists h'. apply (Hrun 4%nat). reflexivity.
Defined.

(** *** An empty dimension *)





(** *** The helpers of the gaxpy styles *)

Section GaxpyHelpers.
Context {R : Type}.
Variables (Rzero : R) (Radd Rmul : R → R → R).
Hypothesis Radd_comm : ∀ a b, Radd a b = Radd b a.
Hypothesis Radd_assoc : ∀ a b c, Radd a (Radd b c) = Radd (Radd a b) c.
Hypothesis Radd_0_l : ∀ a, Radd Rzero a = a.
Variables (A : Matrix) (x y : loc) (bufA bufx bufy : list R) (h : heap R).
Hypothesis HwfA : wf_matrix h A bufA.
Hypothesis Hx : h !! x = Some bufx.
Hypothesis Hlenx : cols A ≤ Z.of_nat (length bufx).
Variables (row : Z) (fuel : nat).
Hypothesis Hrow : 0 ≤ row < rows A.
Hypothesis Hfuel : cols A < Z.of_nat fuel.

Lemma compute_dot_product_value :
  compute_dot_product Rzero Radd Rmul fuel A x row h
  = Done (row_dot Rzero Radd Rmul A bufA bufx row, h).
Proof.
  destruct HwfA as (HA & Hm & Hn & HlenA).
  set (f := λ j, Rmul (entry Rzero A bufA row j) (ventry Rzero bufx j)).
  destruct (for_loop_acc_inv
    (λ j a h', h' = h ∧ 0 ≤ j ∧ a = bigsum Rzero Radd (seqZ 0 j) f)
    fuel 0 (cols A)
    (λ j result, a <- elem_get A row j ;; xj <- vec_get x j ;;
                 ret (Radd result (Rmul a xj))) Rzero h)
    as (a & h' & Hrun & -> & _ & ->).
  - lia.
  - done.
  - intros j a h1 Hj (-> & _ & ->).
    assert (in_range A row j) as Hin by done.
    pose proof (offset_bound A row j Hin).
    destruct (lookup_lt_is_Some_2 bufA (Z.to_nat (offset A row j))) as [v Hv]; [lia|].
    destruct (lookup_lt_is_Some_2 bufx (Z.to_nat j)) as [xj Hxj]; [lia|].
    unfold bind. rewrite (elem_get_at h A bufA row j v) by done.
    rewrite (vec_get_at h x bufx j xj) by (done || lia).
    eexists _, _. split; [done|]. split; [done|]. split; [lia|].
    rewrite seqZ_snoc by lia.
    rewrite (bigsum_app Rzero Radd) by done.
    rewrite (bigsum_singleton Rzero Radd) by done.
    unfold f, entry, ventry. by rewrite Z.add_0_l, Hv, Hxj.
  - unfold compute_dot_product, row_dot. rewrite Hrun.
    by replace (Z.max 0 (cols A)) with (cols A) by lia.
Qed.

Hypothesis Hy : h !! y = Some bufy.
Hypothesis HneA : data A ≠ y.
Hypothesis Hnex : x ≠ y.
Variable p : Z.
Hypothesis Hp : 0 ≤ p < Z.of_nat (length bufy).

Lemma compute_row_contribution_adds :
  ∃ bufy',
    compute_row_contribution Radd Rmul fuel A row x (y, p) h
      = Done (tt, <[y := bufy']> h) ∧
    length bufy' = length bufy ∧
    ∀ q, 0 ≤ q < Z.of_nat (length bufy) →
      bufy' !! Z.to_nat q
      = Some (if decide (q = p)
              then Radd (ventry Rzero bufy q)
                        (row_dot Rzero Radd Rmul A bufA bufx row)
              else ventry Rzero bufy q).
Proof.
  destruct HwfA as (HA & Hm & Hn & HlenA).
  set (us := zrange 0 (cols A) 1 ≫= λ j,
    [(Z.to_nat p, Rmul (entry Rzero A bufA row j) (ventry Rzero bufx j))]).
  assert (sim Radd y (length bufy) h
            (compute_row_contribution Radd Rmul fuel A row x (y, p)) us) as Hsim.
  { unfold compute_row_contribution, ptr_get, ptr_set. simpl.
    rewrite Z.add_0_r. eapply sim_for; [lia|lia|intros j Hj].
    eapply sim_read_bind; [by apply (sim_read_elem Rzero)|].
    eapply sim_read_bind; [apply (sim_read_vec Rzero); (done || lia)|].
    apply (sim_accumulate_vec Radd); (done || lia). }
  exists (scatter Radd us bufy). split.
  { rewrite <- (insert_id h y bufy Hy) at 1. by apply Hsim. }
  split; [apply scatter_length|]. intros q Hq.
  rewrite (scatter_lookup Rzero Radd) by done.
  destruct (lookup_lt_is_Some_2 bufy (Z.to_nat q)) as [c Hc]; [lia|].
  assert (ventry Rzero bufy q = c) as -> by (unfold ventry; by rewrite Hc).
  rewrite Hc. simpl. f_equal. unfold us.
  rewrite (bigsum_nest1 Rzero Radd) by done. unfold landing. simpl.
  rewrite zrange_unit, Z.sub_0_r.
  destruct (decide (q = p)) as [->|Hne].
  - unfold row_dot. f_equal. apply (bigsum_ext Rzero Radd). intros j _.
    by rewrite decide_True.
  - trans (Radd c Rzero); [|by rewrite Radd_comm].
    f_equal. etrans; [|by apply (bigsum_zero Rzero Radd)].
    apply (bigsum_ext Rzero Radd). intros j _.
    rewrite decide_False; [done|lia].
Qed.

End GaxpyHelpers.

(** X16.  The helpers of the gaxpy styles: the lambda of
    [gaxpy_functional] returns the dot product of a row of A with x and
    changes nothing; [compute_row_contribution] (and its inline twin)
    adds that dot product to the element its [double&] refers to and
    leaves the other elements of y as they were. *)
Theorem gaxpy_helpers_add_row_dot {R} (Rzero : R) (Radd Rmul : R → R → R)
    (h : heap R) (A : Matrix) (x y : loc) (bufA bufx bufy : list R)
    (row p : Z) (fuel : nat) :
  exact_arithmetic Rzero Radd →
  wf_matrix h A bufA →
  h !! x = Some bufx → cols A ≤ Z.of_nat (length bufx) →
  h !! y = Some bufy → data A ≠ y → x ≠ y →
  0 ≤ row < rows A → 0 ≤ p < Z.of_nat (length bufy) →
  cols A < Z.of_nat fuel →
  compute_dot_product Rzero Radd Rmul fuel A x row h
    = Done (row_dot Rzero Radd Rmul A bufA bufx row, h) ∧
  ∃ bufy',
    compute_row_contribution Radd Rmul fuel A row x (y, p) h
      = Done (tt, <[y := bufy']> h) ∧
    compute_row_contribution_inline Radd Rmul fuel A row x (y, p) h
      = Done (tt, <[y := bufy']> h) ∧
    length bufy' = length bufy ∧
    ∀ q, 0 ≤ q < Z.of_nat (length bufy) →
      bufy' !! Z.to_nat q
      = Some (if decide (q = p)
              then Radd (ventry Rzero bufy q)
                        (row_dot Rzero Radd Rmul A bufA bufx row)
              else ventry Rzero bufy q).
Proof.
  intros (Hcomm & Hassoc & H0) HwfA Hx Hlenx Hy HneA Hnex Hrow Hp Hfuel.
  split.
  - by apply compute_dot_product_value.
  - destruct (compute_row_contribution_adds Rzero Radd Rmul Hcomm Hassoc H0
                A x y bufA bufx bufy h HwfA Hx Hlenx row fuel Hrow Hfuel
                Hy HneA Hnex p Hp) as (bufy' & Hrun & Hlen & Hlook).
    exists bufy'. done.
Qed.

Lemma gaxpy_helpers_add_row_dot_witness :
  compute_dot_product 0 Z.add Z.mul 3 ex_G 2%positive 1 ex_g = Done (7, ex_g) ∧
  ∃ bufy',
    compute_row_contribution Z.add Z.mul 3 ex_G 1 2%positive (3%positive, 0) ex_g
      = Done (tt, <[3%positive := bufy']> ex_g) ∧
    bufy' !! 0%nat = Some 17 ∧ bufy' !! 1%nat = Some 20.
Proof.
  destruct (gaxpy_helpers_add_row_dot 0 Z.add Z.mul ex_g ex_G 2%positive 3%positive
              [1; 2; 3; 4] [1; 1] [10; 20] 1 0 3)
    as (Hdot & bufy' & Hrun & _ & _ & Hlook).
  - repeat split; intros; lia.
  - repeat split; (reflexivity || (simpl; lia)).
  - reflexivity.
  - simpl. lia.
  - reflexivity.
  - discriminate.
  - discriminate.
  - simpl. lia.
  - simpl. lia.
  - simpl. lia.
  - split; [exact Hdot|]. exists bufy'. split; [exact Hrun|].
    split; [apply (Hlook 0)|apply (Hlook 1)]; simpl; lia.
Defined.

(** *** The edge cases of the gaxpy test suite *)

Section GaxpyEdge.
Context {R : Type}.
Variables (Rzero : R) (Radd Rmul : R → R → R).
Hypothesis Radd_comm : ∀ a b, Radd a b = Radd b a.
Hypothesis Radd_assoc : ∀ a b c, Radd a (Radd b c) = Radd (Radd a b) c.
Hypothesis Radd_0_l : ∀ a, Radd Rzero a = a.
Variables (A : Matrix) (x y : loc) (bufA bufx bufy : list R) (h : heap R).
Hypothesis Hpre : gaxpy_pre h A x y bufA bufx bufy.

Local Abbreviation after :=
  (<[y := scatter Radd (gaxpy_trace Rzero Rmul A bufA bufx) bufy]> h).

Lemma gaxpy_styles_run fuel :
  Z.max (rows A) (cols A) < Z.of_nat fuel →
  gaxpy_row_oriented Radd Rmul fuel A x y h = Done (tt, after) ∧
  gaxpy_column_oriented Radd Rmul fuel A x y h = Done (tt, after) ∧
  matrix_vector_mult Radd Rmul fuel A x y h = Done (tt, after) ∧
  gaxpy_nested_for_loop Radd Rmul fuel A x y h = Done (tt, after) ∧
  gaxpy_modular Radd Rmul fuel A x y h = Done (tt, after) ∧
  gaxpy_functional Rzero Radd Rmul fuel A x y h = Done (tt, after) ∧
  gaxpy_inline_hint Radd Rmul fuel A x y h = Done (tt, after).
Proof.
  destruct Hpre as
    ((HA & Hm & Hn & HlenA) & (Hx & _ & Hlenx) & (Hy & _ & Hleny) & HneA & Hnex).
  intros Hfuel.
  assert (Z.max 0 (Z.max (rows A) (cols A)) < Z.of_nat fuel) as Hfuel' by lia.
  repeat apply conj; rewrite <- (insert_id h y bufy Hy) at 1.
  - by apply (gaxpy_row_oriented_run Rzero Radd Rmul A x y bufA bufx h).
  - by apply (gaxpy_column_oriented_run Rzero Radd Rmul Radd_comm Radd_assoc
                Radd_0_l A x y bufA bufx h).
  - by apply (matrix_vector_mult_run Rzero Radd Rmul A x y bufA bufx h).
  - by apply (gaxpy_nested_for_loop_run Rzero Radd Rmul A x y bufA bufx h).
  - by apply (gaxpy_modular_run Rzero Radd Rmul A x y bufA bufx h).
  - by apply (gaxpy_functional_run Rzero Radd Rmul Radd_comm Radd_assoc Radd_0_l
                A x y bufA bufx h).
  - by apply (gaxpy_inline_hint_run Rzero Radd Rmul A x y bufA bufx h).
Qed.

Lemma gaxpy_after_lookup i :
  0 ≤ i < rows A →
  scatter Radd (gaxpy_trace Rzero Rmul A bufA bufx) bufy !! Z.to_nat i
  = Some (Radd (ventry Rzero bufy i) (row_dot Rzero Radd Rmul A bufA bufx i)).
Proof.
  destruct Hpre as
    ((HA & Hm & Hn & HlenA) & (Hx & _ & Hlenx) & (Hy & _ & Hleny) & HneA & Hnex).
  intros Hi.
  by apply (gaxpy_trace_lookup Rzero Radd Rmul Radd_comm Radd_assoc Radd_0_l
              A x y bufA bufx).
Qed.

Lemma gaxpy_after_same :
  (∀ i, 0 ≤ i < rows A → row_dot Rzero Radd Rmul A bufA bufx i = Rzero) →
  after = h.
Proof.
  intros Hdot.
  destruct Hpre as (_ & _ & (Hy & Hm & Hleny) & _).
  rewrite <- (insert_id h y bufy Hy) at 2. f_equal.
  apply list_eq. intros q.
  destruct (decide (q < length bufy)%nat) as [Hq|Hq].
  - replace q with (Z.to_nat (Z.of_nat q)) by lia.
    rewrite gaxpy_after_lookup, Hdot by lia.
    unfold ventry.
    destruct (lookup_lt_is_Some_2 bufy (Z.to_nat (Z.of_nat q))) as [c ->]; [lia|].
    simpl. by rewrite Radd_comm, Radd_0_l.
  - rewrite !lookup_ge_None_2; [done|lia|rewrite scatter_length; lia].
Qed.

End GaxpyEdge.

(** X17.  A zero operand: when every element of x is 0.0, or every
    element of A is 0.0, each gaxpy kernel returns with the whole store,
    y included, as it was (the "zero input vector" and "zero matrix"
    cases of the test suite, for every size and every initial y). *)
Theorem gaxpy_zero_operand {R} (Rzero : R) (Radd Rmul : R → R → R)
    (h : heap R) (A : Matrix) (x y : loc) (bufA bufx bufy : list R)
    (fuel : nat) :
  exact_arithmetic Rzero Radd →
  (∀ a, Rmul a Rzero = Rzero) → (∀ a, Rmul Rzero a = Rzero) →
  gaxpy_pre h A x y bufA bufx bufy →
  (∀ j, 0 ≤ j < cols A → ventry Rzero bufx j = Rzero) ∨
  (∀ i j, in_range A i j → entry Rzero A bufA i j = Rzero) →
  Z.max (rows A) (cols A) < Z.of_nat fuel →
  gaxpy_row_oriented Radd Rmul fuel A x y h = Done (tt, h) ∧
  gaxpy_column_oriented Radd Rmul fuel A x y h = Done (tt, h) ∧
  matrix_vector_mult Radd Rmul fuel A x y h = Done (tt, h) ∧
  gaxpy_nested_for_loop Radd Rmul fuel A x y h = Done (tt, h) ∧
  gaxpy_modular Radd Rmul fuel A x y h = Done (tt, h) ∧
  gaxpy_functional Rzero Radd Rmul fuel A x y h = Done (tt, h) ∧
  gaxpy_inline_hint Radd Rmul fuel A x y h = Done (tt, h).
Proof.
  intros (Hcomm & Hassoc & H0) Hr Hl Hpre Hzero Hfuel.
  rewrite <- (gaxpy_after_same Rzero Radd Rmul Hcomm Hassoc H0
                A x y bufA bufx bufy h Hpre) at 2 4 6 8 10 12 14.
  - by apply gaxpy_styles_run.
  - intros i Hi. unfold row_dot.
    etrans; [|by apply (bigsum_zero Rzero Radd)].
    apply (bigsum_ext Rzero Radd). intros j Hj%elem_of_seqZ.
    destruct Hzero as [Hzx|HzA].
    + rewrite Hzx by lia. apply Hr.
    + rewrite HzA by (unfold in_range; lia). apply Hl.
Qed.

Lemma gaxpy_zero_operand_witness :
  gaxpy_row_oriented Z.add Z.mul 3 ex_G 2%positive 3%positive
    (<[2%positive := [0; 0]]> ex_g)
  = Done (tt, <[2%positive := [0; 0]]> ex_g) ∧
  gaxpy_column_oriented Z.add Z.mul 3 ex_G 2%positive 3%positive
    (<[2%positive := [0; 0]]> ex_g)
  = Done (tt, <[2%positive := [0; 0]]> ex_g).
Proof.
  destruct (gaxpy_zero_operand 0 Z.add Z.mul (<[2%positive := [0; 0]]> ex_g)
              ex_G 2%positive 3%positive [1; 2; 3; 4] [0; 0] [10; 20] 3)
    as (Hrow & Hcol & _).
  - repeat split; intros; lia.
  - intros a. lia.
  - intros a. lia.
  - repeat split; (reflexivity || discriminate || (simpl; lia)).
  - left. intros j Hj. simpl in Hj.
    assert (j = 0 ∨ j = 1) as [-> | ->] by lia; reflexivity.
  - simpl. lia.
  - split; [exact Hrow|exact Hcol].
Defined.

(** X18.  The identity matrix: when A is square with 1.0 on the diagonal
    and 0.0 elsewhere, each gaxpy kernel adds x to y, element by element
    (the identity case of the test suite, for every size and every
    initial y). *)
Theorem gaxpy_identity_adds_x {R} (Rzero Rone : R) (Radd Rmul : R → R → R)
    (h : heap R) (A : Matrix) (x y : loc) (bufA bufx bufy : list R) :
  exact_arithmetic Rzero Radd →
  (∀ a, Rmul Rone a = a) → (∀ a, Rmul Rzero a = Rzero) →
  gaxpy_pre h A x y bufA bufx bufy →
  rows A = cols A →
  (∀ i j, in_range A i j →
     entry Rzero A bufA i j = if decide (i = j) then Rone else Rzero) →
  ∃ bufy',
    length bufy' = length bufy ∧
    (∀ i, 0 ≤ i < rows A →
       bufy' !! Z.to_nat i
       = Some (Radd (ventry Rzero bufy i) (ventry Rzero bufx i))) ∧
    ∀ fuel, Z.max (rows A) (cols A) < Z.of_nat fuel →
      gaxpy_row_oriented Radd Rmul fuel A x y h = Done (tt, <[y := bufy']> h) ∧
      gaxpy_column_oriented Radd Rmul fuel A x y h
        = Done (tt, <[y := bufy']> h) ∧
      matrix_vector_mult Radd Rmul fuel A x y h = Done (tt, <[y := bufy']> h) ∧
      gaxpy_nested_for_loop Radd Rmul fuel A x y h
        = Done (tt, <[y := bufy']> h) ∧
      gaxpy_modular Radd Rmul fuel A x y h = Done (tt, <[y := bufy']> h) ∧
      gaxpy_functional Rzero Radd Rmul fuel A x y h
        = Done (tt, <[y := bufy']> h) ∧
      gaxpy_inline_hint Radd Rmul fuel A x y h = Done (tt, <[y := bufy']> h).
Proof.
  intros (Hcomm & Hassoc & H0) H1 Hl Hpre Hsq Hid.
  exists (scatter Radd (gaxpy_trace Rzero Rmul A bufA bufx) bufy).
  split; [apply scatter_length|]. split.
  - intros i Hi.
    rewrite (gaxpy_after_lookup Rzero Radd Rmul Hcomm Hassoc H0
               A x y bufA bufx bufy h Hpre) by done.
    do 2 f_equal. unfold row_dot.
    trans (bigsum Rzero Radd (seqZ 0 (cols A))
             (λ j, if decide (j = i) then ventry Rzero bufx j else Rzero)).
    + apply (bigsum_ext Rzero Radd). intros j Hj%elem_of_seqZ.
      rewrite Hid by (unfold in_range; lia).
      destruct (decide (i = j)) as [->|Hne].
      * by rewrite decide_True, H1.
      * rewrite decide_False by done. apply Hl.
    + rewrite (bigsum_pick Rzero Radd) by
        first [done|apply NoDup_seqZ|apply elem_of_seqZ; lia]. done.
  - intros fuel Hfuel. by apply gaxpy_styles_run.
Qed.

Lemma gaxpy_identity_adds_x_witness :
  ∃ bufy',
    bufy' !! 0%nat = Some 17 ∧ bufy' !! 1%nat = Some 29 ∧
    gaxpy_row_oriented Z.add Z.mul 3 ex_G 2%positive 3%positive
      (<[1%positive := [1; 0; 0; 1]]> (<[2%positive := [7; 9]]> ex_g))
    = Done (tt, <[3%positive := bufy']>
                  (<[1%positive := [1; 0; 0; 1]]> (<[2%positive := [7; 9]]> ex_g))).
Proof.
  destruct (gaxpy_identity_adds_x 0 1 Z.add Z.mul
              (<[1%positive := [1; 0; 0; 1]]> (<[2%positive := [7; 9]]> ex_g))
              ex_G 2%positive 3%positive [1; 0; 0; 1] [7; 9] [10; 20])
    as (bufy' & _ & Hy & Hrun).
  - repeat split; intros; lia.
  - intros a. lia.
  - intros a. lia.
  - repeat split; (reflexivity || discriminate || (simpl; lia)).
  - reflexivity.
  - intros i j [Hi Hj]. simpl in Hi, Hj.
    assert ((i = 0 ∨ i = 1) ∧ (j = 0 ∨ j = 1)) as [[-> | ->] [-> | ->]] by lia;
      reflexivity.
  - exists bufy'. split; [apply (Hy 0); simpl; lia|].
    split; [apply (Hy 1); simpl; lia|].
    apply (Hrun 3%nat). simpl. lia.
Defined.

(** *** The benchmark harness *)

Section Benchmark.
Context {R : Type}.
Variables (Rzero : R) (Radd Rmul Rdiv : R → R → R) (of_int : Z → R).
Hypothesis Radd_comm : ∀ a b, Radd a b = Radd b a.
Hypothesis Radd_assoc : ∀ a b c, Radd a (Radd b c) = Radd (Radd a b) c.
Hypothesis Radd_0_l : ∀ a, Radd Rzero a = a.
Variables (A : Matrix) (x y : loc) (bufA bufx bufy : list R) (h : heap R).
Hypothesis Hpre : gaxpy_pre h A x y bufA bufx bufy.

Local Abbreviation trace := (gaxpy_trace Rzero Rmul A bufA bufx).
Local Abbreviation repeated k i :=
  (bigsum Rzero Radd (seqZ 0 k) (λ _, row_dot Rzero Radd Rmul A bufA bufx i)).
Local Abbreviation sums k := ((λ i, repeated k i) <$> seqZ 0 (rows A)).

Lemma sums_length k : length (sums k) = Z.to_nat (rows A).
Proof. by rewrite length_fmap, length_seqZ. Qed.

Lemma sums_lookup k i :
  0 ≤ i < rows A → sums k !! Z.to_nat i = Some (repeated k i).
Proof.
  intros Hi. rewrite list_lookup_fmap.
  rewrite (proj2 (lookup_seqZ 0 (rows A) (Z.to_nat i) i)) by lia. done.
Qed.

Lemma sums_eq (b : list R) k :
  length b = Z.to_nat (rows A) →
  (∀ i, 0 ≤ i < rows A → b !! Z.to_nat i = Some (repeated k i)) →
  b = sums k.
Proof.
  intros Hlen Hb. apply list_eq. intros q.
  destruct (decide (q < Z.to_nat (rows A))%nat) as [Hq|Hq].
  - replace q with (Z.to_nat (Z.of_nat q)) by lia.
    rewrite Hb, sums_lookup by lia. done.
  - rewrite !lookup_ge_None_2; [done|rewrite sums_length; lia|lia].
Qed.

Lemma sums_step k :
  0 ≤ k → scatter Radd trace (sums k) = sums (k + 1).
Proof.
  destruct Hpre as
    ((HA & Hm & Hn & HlenA) & (Hx & _ & Hlenx) & (Hy & _ & Hleny) & HneA & Hnex).
  intros Hk. apply sums_eq.
  - by rewrite scatter_length, sums_length.
  - intros i Hi.
    rewrite (gaxpy_trace_lookup Rzero Radd Rmul Radd_comm Radd_assoc Radd_0_l
               A x y bufA bufx); [|done..|apply sums_length|done].
    unfold ventry. rewrite sums_lookup by done. simpl.
    rewrite seqZ_snoc by done.
    rewrite (bigsum_app Rzero Radd) by done.
    by rewrite (bigsum_singleton Rzero Radd) by done.
Qed.

Lemma benchmark_gaxpy_run fuel gaxpy_func total_time iterations :
  sim Radd y (Z.to_nat (rows A)) h (gaxpy_func A x y) trace →
  Z.max 0 iterations < Z.of_nat fuel →
  benchmark_gaxpy Rzero Rdiv of_int fuel gaxpy_func total_time A x y iterations h
  = Done (Rdiv total_time (of_int iterations), <[y := sums iterations]> h).
Proof.
  destruct Hpre as
    ((HA & Hm & Hn & HlenA) & (Hx & _ & Hlenx) & (Hy & _ & Hleny) & HneA & Hnex).
  intros Hsim Hfuel. unfold benchmark_gaxpy, bind.
  rewrite <- (insert_id h y bufy Hy) at 1.
  rewrite (Hsim bufy) by done.
  unfold fill. rewrite lookup_insert_eq, insert_insert_eq.
  assert (replicate (length (scatter Radd trace bufy)) Rzero = sums 0) as ->.
  { apply sums_eq.
    - by rewrite length_replicate, scatter_length.
    - intros i Hi. apply lookup_replicate_2.
      rewrite scatter_length. lia. }
  destruct (for_loop_inv
    (λ k h', 0 ≤ k ∧ h' = <[y := sums k]> h)
    fuel 0 iterations (λ iter, gaxpy_func A x y) (<[y := sums 0]> h))
    as (h' & Hrun & _ & ->).
  - lia.
  - done.
  - intros k h1 Hk (_ & ->). eexists. split.
    + apply Hsim. apply sums_length.
    + split; [lia|]. by rewrite sums_step by lia.
  - rewrite Hrun. unfold ret. do 3 f_equal.
    apply list_fmap_ext. intros _ i _. by rewrite seqZ_max.
Qed.

End Benchmark.

(** X19.  What a benchmark leaves in y: [benchmark_gaxpy] discards the
    warm-up run by refilling y with 0.0, and the timed runs accumulate,
    so y[i] ends as the dot product of row i of A with x added up
    [iterations] times, whatever y held before; the returned average
    is the timer reading divided by [iterations]. *)
Theorem benchmark_gaxpy_accumulates {R} (Rzero : R)
    (Radd Rmul Rdiv : R → R → R) (of_int : Z → R)
    (h : heap R) (A : Matrix) (x y : loc) (bufA bufx bufy : list R)
    (total_time : R) (iterations : Z) (fuel : nat) :
  exact_arithmetic Rzero Radd →
  gaxpy_pre h A x y bufA bufx bufy →
  Z.max (Z.max (rows A) (cols A)) iterations < Z.of_nat fuel →
  ∃ bufy',
    length bufy' = length bufy ∧
    (∀ i, 0 ≤ i < rows A →
       bufy' !! Z.to_nat i
       = Some (bigsum Rzero Radd (seqZ 0 iterations)
                 (λ _, row_dot Rzero Radd Rmul A bufA bufx i))) ∧
    benchmark_gaxpy Rzero Rdiv of_int fuel (gaxpy_row_oriented Radd Rmul fuel)
      total_time A x y iterations h
    = Done (Rdiv total_time (of_int iterations), <[y := bufy']> h) ∧
    benchmark_gaxpy Rzero Rdiv of_int fuel (gaxpy_column_oriented Radd Rmul fuel)
      total_time A x y iterations h
    = Done (Rdiv total_time (of_int iterations), <[y := bufy']> h).
Proof.
  intros (Hcomm & Hassoc & H0) Hpre Hfuel.
  pose proof Hpre as
    ((HA & Hm & Hn & HlenA) & (Hx & _ & Hlenx) & (Hy & _ & Hleny) & HneA & Hnex).
  assert (Z.max 0 (Z.max (rows A) (cols A)) < Z.of_nat fuel) as Hfuel' by lia.
  exists ((λ i, bigsum Rzero Radd (seqZ 0 iterations)
                 (λ _, row_dot Rzero Radd Rmul A bufA bufx i))
            <$> seqZ 0 (rows A)).
  split; [|split; [|split]].
  - rewrite Hleny. apply (sums_length Rzero Radd Rmul A bufA bufx iterations).
  - intros i Hi. by apply (sums_lookup Rzero Radd Rmul A bufA bufx).
  - apply (benchmark_gaxpy_run Rzero Radd Rmul Rdiv of_int Hcomm Hassoc H0
             A x y bufA bufx bufy h Hpre); [|lia].
    by apply (gaxpy_row_oriented_run Rzero Radd Rmul A x y bufA bufx h).
  - apply (benchmark_gaxpy_run Rzero Radd Rmul Rdiv of_int Hcomm Hassoc H0
             A x y bufA bufx bufy h Hpre); [|lia].
    by apply (gaxpy_column_oriented_run Rzero Radd Rmul Hcomm Hassoc H0
                A x y bufA bufx h).
Qed.

Lemma benchmark_gaxpy_accumulates_witness :
  ∃ bufy',
    bufy' !! 0%nat = Some 9 ∧ bufy' !! 1%nat = Some 21 ∧
    benchmark_gaxpy 0 Z.div id 4 (gaxpy_row_oriented Z.add Z.mul 4)
      12 ex_G 2%positive 3%positive 3 ex_g
    = Done (4, <[3%positive := bufy']> ex_g).
Proof.
  destruct (benchmark_gaxpy_accumulates 0 Z.add Z.mul Z.div id ex_g ex_G
              2%positive 3%positive [1; 2; 3; 4] [1; 1] [10; 20] 12 3 4)
    as (bufy' & _ & Hy & Hrow & _).
  - repeat split; intros; lia.
  - repeat split; (reflexivity || discriminate || (simpl; lia)).
  - simpl. lia.
  - exists bufy'. split; [apply (Hy 0); simpl; lia|].
    split; [apply (Hy 1); simpl; lia|]. exact Hrow.
Defined.

(** *** The assertions of the test framework *)

Lemma bind_run {R T U} (c : M R T) (k : T → M R U) (h : heap R) v h' :
  c h = Done (v, h') → (x <- c ;; k x) h = k v h'.
Proof. intros Hrun. unfold bind. by rewrite Hrun. Qed.

Lemma vector_size_at {R} (h : heap R) (v : loc) (b : list R) :
  h !! v = Some b → vector_size v h = Done (Z.of_nat (length b), h).
Proof. intros Hv. unfold vector_size. by rewrite Hv. Qed.

Section Assert.
Context {R : Type}.
Variables (Rzero : R) (Rsub : R → R → R) (Rabs : R → R).
Variables (Rgtb Rleb : R → R → bool).
Hypothesis Hord : total_order Rleb Rgtb.
Variables (v1 v2 : loc) (b1 b2 : list R) (h : heap R).
Hypothesis Hv1 : h !! v1 = Some b1.
Hypothesis Hv2 : h !! v2 = Some b2.

Local Abbreviation gap i :=
  (Rabs (Rsub (ventry Rzero b1 i) (ventry Rzero b2 i))).
Local Abbreviation later :=
  (λ (i : Z) (max_diff : R),
     a <- vec_get v1 i ;; b <- vec_get v2 i ;;
     ret (std_max Rgtb max_diff (Rabs (Rsub a b)))).

Lemma Rleb_refl a : Rleb a a = true.
Proof. destruct Hord as (_ & _ & Htotal). by destruct (Htotal a a). Qed.

Lemma std_max_upper a b :
  Rleb a (std_max Rgtb a b) = true ∧ Rleb b (std_max Rgtb a b) = true ∧
  (std_max Rgtb a b = a ∨ std_max Rgtb a b = b).
Proof.
  destruct Hord as (Hgt & _ & Htotal). unfold std_max. rewrite Hgt.
  destruct (Rleb b a) eqn:Hba; simpl.
  - split; [apply Rleb_refl|]. split; [done|by left].
  - split; [|split; [apply Rleb_refl|by right]].
    destruct (Htotal a b) as [?|Hba']; [done|congruence].
Qed.

Lemma max_diff_loop fuel :
  length b1 = length b2 →
  Z.of_nat (length b1) < Z.of_nat fuel →
  ∃ md,
    for_loop_acc fuel 0 (Z.of_nat (length b1)) 1 later Rzero h = Done (md, h) ∧
    Rleb Rzero md = true ∧
    (∀ i, 0 ≤ i < Z.of_nat (length b1) → Rleb (gap i) md = true) ∧
    (md = Rzero ∨ ∃ i, 0 ≤ i < Z.of_nat (length b1) ∧ md = gap i).
Proof.
  destruct Hord as (Hgt & Htrans & Htotal).
  intros Hlen Hfuel.
  destruct (for_loop_acc_inv
    (λ k a h', h' = h ∧ 0 ≤ k ∧ Rleb Rzero a = true ∧
               (∀ i, 0 ≤ i < k → Rleb (gap i) a = true) ∧
               (a = Rzero ∨ ∃ i, 0 ≤ i < k ∧ a = gap i))
    fuel 0 (Z.of_nat (length b1)) later Rzero h)
    as (md & h' & Hrun & -> & _ & H0 & Hup & Hat).
  - lia.
  - split; [done|]. split; [done|]. split; [apply Rleb_refl|].
    split; [intros; lia|by left].
  - intros k a h1 Hk (-> & _ & H0 & Hup & Hat).
    destruct (lookup_lt_is_Some_2 b1 (Z.to_nat k)) as [a1 Ha1]; [lia|].
    destruct (lookup_lt_is_Some_2 b2 (Z.to_nat k)) as [a2 Ha2]; [lia|].
    unfold bind. rewrite (vec_get_at h v1 b1 k a1) by (done || lia).
    rewrite (vec_get_at h v2 b2 k a2) by (done || lia).
    eexists _, _. split; [done|]. split; [done|]. split; [lia|].
    assert (Rabs (Rsub a1 a2) = gap k) as ->.
    { unfold ventry. by rewrite Ha1, Ha2. }
    destruct (std_max_upper a (gap k)) as (Hle1 & Hle2 & Hmax).
    split; [by eapply Htrans|]. split.
    + intros i Hi. destruct (decide (i = k)) as [->|Hne]; [done|].
      eapply Htrans; [|exact Hle1]. apply Hup. lia.
    + destruct Hmax as [-> | ->].
      * destruct Hat as [?|(i & Hi & ?)]; [by left|].
        right. exists i. split; [lia|done].
      * right. exists k. split; [lia|done].
  - replace (Z.max 0 (Z.of_nat (length b1)))
      with (Z.of_nat (length b1)) in * by lia.
    by exists md.
Qed.

Lemma assert_vectors_equal_run fuel suite tolerance :
  passed suite < INT_MAX → failed suite < INT_MAX →
  Z.of_nat (length b1) < Z.of_nat fuel →
  ∃ suite',
    assert_vectors_equal Rzero Rsub Rabs Rgtb Rleb fuel suite v1 v2 tolerance h
      = Done (suite', h) ∧
    current_test suite' = current_test suite ∧
    ((within_tolerance Rzero Rsub Rabs Rleb b1 b2 tolerance ∧
      passed suite' = passed suite + 1 ∧ failed suite' = failed suite) ∨
     (¬ within_tolerance Rzero Rsub Rabs Rleb b1 b2 tolerance ∧
      passed suite' = passed suite ∧ failed suite' = failed suite + 1)).
Proof.
  intros Hp Hf Hfuel.
  pose proof Hord as (Hgt & Htrans & Htotal).
  unfold assert_vectors_equal.
  rewrite (bind_run _ _ _ _ _ (vector_size_at h v1 b1 Hv1)).
  rewrite (bind_run _ _ _ _ _ (vector_size_at h v2 b2 Hv2)).
  case_decide as Hsize.
  - unfold count_failed, bind, incr. rewrite decide_True by done.
    eexists. split; [done|]. split; [done|]. right.
    split; [|done]. intros (Hlen & _). lia.
  - assert (length b1 = length b2) as Hlen by lia.
    destruct (max_diff_loop fuel Hlen Hfuel) as (md & Hrun & H0 & Hup & Hat).
    rewrite (bind_run _ _ _ _ _ Hrun).
    destruct (Rleb md tolerance) eqn:Hmd.
    + unfold count_passed, bind, incr. rewrite decide_True by done.
      eexists. split; [done|]. split; [done|]. left. split; [|done].
      split; [done|]. split; [by eapply Htrans|].
      intros i Hi. eapply Htrans; [by apply Hup|done].
    + unfold count_failed, bind, incr. rewrite decide_True by done.
      eexists. split; [done|]. split; [done|]. right. split; [|done].
      intros (_ & Htol & Hall).
      destruct Hat as [->|(i & Hi & ->)]; [congruence|].
      rewrite Hall in Hmd by done. done.
Qed.

End Assert.

Lemma Z_total_order : total_order Z.leb Z.gtb.
Proof.
  split; [|split].
  - intros a b. by rewrite Z.gtb_ltb, Z.ltb_antisym.
  - intros a b c Hab%Z.leb_le Hbc%Z.leb_le. apply Z.leb_le. lia.
  - intros a b. destruct (Z.leb_spec a b); [by left|].
    right. apply Z.leb_le. lia.
Qed.

(** X20.  [assert_vectors_equal] counts one pass exactly when the two
    vectors have the same size, the tolerance is not negative and no
    pair of elements differs by more than the tolerance; otherwise it
    counts one failure.  It reads no element after a size mismatch,
    leaves the store as it was, and once a failure is counted
    [all_passed] stays false. *)
Theorem assert_vectors_equal_verdict {R} (Rzero : R) (Rsub : R → R → R)
    (Rabs : R → R) (Rgtb Rleb : R → R → bool)
    (h : heap R) (suite : TestSuite) (v1 v2 : loc) (b1 b2 : list R)
    (tolerance : R) (fuel : nat) :
  total_order Rleb Rgtb →
  h !! v1 = Some b1 → h !! v2 = Some b2 →
  0 ≤ passed suite < INT_MAX → 0 ≤ failed suite < INT_MAX →
  Z.of_nat (length b1) < Z.of_nat fuel →
  ∃ suite',
    assert_vectors_equal Rzero Rsub Rabs Rgtb Rleb fuel suite v1 v2 tolerance h
      = Done (suite', h) ∧
    passed suite' + failed suite' = passed suite + failed suite + 1 ∧
    (passed suite' = passed suite + 1
     ↔ within_tolerance Rzero Rsub Rabs Rleb b1 b2 tolerance) ∧
    (failed suite' = failed suite + 1
     ↔ ¬ within_tolerance Rzero Rsub Rabs Rleb b1 b2 tolerance) ∧
    (all_passed suite' = true
     ↔ all_passed suite = true ∧
       within_tolerance Rzero Rsub Rabs Rleb b1 b2 tolerance).
Proof.
  intros Hord Hv1 Hv2 Hp Hf Hfuel.
  destruct (assert_vectors_equal_run Rzero Rsub Rabs Rgtb Rleb Hord
              v1 v2 b1 b2 h Hv1 Hv2 fuel suite tolerance)
    as (suite' & Hrun & _ & Hcase); [lia..|].
  exists suite'. split; [done|]. unfold all_passed.
  rewrite !bool_decide_eq_true.
  destruct Hcase as [(Hin & Hp' & Hf')|(Hout & Hp' & Hf')].
  - split; [lia|]. split; [done|]. split; [split; [lia|done]|].
    rewrite Hf'. split; [done|]. by intros [? _].
  - split; [lia|]. split; [split; [lia|done]|]. split; [done|].
    split; [lia|]. by intros [_ ?].
Qed.

Lemma assert_vectors_equal_verdict_witness :
  ∃ suite',
    assert_vectors_equal 0 Z.sub Z.abs Z.gtb Z.leb 3 TestSuite_new
      2%positive 3%positive 9 ex_g
    = Done (suite', ex_g) ∧
    passed suite' + failed suite' = 1 ∧
    (failed suite' = 1
     ↔ ¬ within_tolerance 0 Z.sub Z.abs Z.leb [1; 1] [10; 20] 9).
Proof.
  destruct (assert_vectors_equal_verdict 0 Z.sub Z.abs Z.gtb Z.leb ex_g
              TestSuite_new 2%positive 3%positive [1; 1] [10; 20] 9 3)
    as (suite' & Hrun & Hsum & _ & Hfail & _).
  - exact Z_total_order.
  - reflexivity.
  - reflexivity.
  - unfold INT_MAX. simpl. lia.
  - unfold INT_MAX. simpl. lia.
  - simpl. lia.
  - exists suite'. split; [exact Hrun|]. split; [exact Hsum|exact Hfail].
Defined.

(** *** Allocation and release *)

(** X21.  [create_matrix] followed by [free_matrix] gives the store back
    exactly as it was: the buffer is fresh, so no other matrix is
    touched and nothing is left behind.  After the release the matrix is
    gone: a second [free_matrix], [zero_matrix], and every read or
    write of an element fault.  This holds when the element count
    rows*cols is an [int]; when it is not, [create_matrix] has no
    defined result. *)
Theorem create_then_free_restores {R} (Rzero : R) (h : heap R) (m n : Z) :
  0 ≤ m * n →
  (INT_MAX < m * n → create_matrix Rzero m n h = Fault) ∧
  (m * n ≤ INT_MAX →
   ∃ C h1,
     create_matrix Rzero m n h = Done (C, h1) ∧
     (∀ l, l ≠ data C → h1 !! l = h !! l) ∧
     free_matrix C h1 = Done (tt, h) ∧
     free_matrix C h = Fault ∧
     zero_matrix Rzero C h = Fault ∧
     (∀ i j, @elem_get R C i j h = Fault) ∧
     (∀ i j v, elem_set C i j v h = Fault)).
Proof.
  intros Hlen. split.
  { intros Hover. unfold create_matrix, bind.
    by rewrite int_mul_overflows by done. }
  intros Hint.
  destruct (alloc_zeroed_spec Rzero (m * n) h Hlen) as (l & Halloc & Hfresh).
  exists {| rows := m; cols := n; data := l |},
    (<[l := replicate (Z.to_nat (m * n)) Rzero]> h).
  split.
  { unfold create_matrix, bind. rewrite int_mul_fits by (unfold INT_MIN; nia).
    rewrite Halloc. done. }
  simpl. split; [intros l' Hne; by rewrite lookup_insert_ne|].
  split.
  { unfold free_matrix. simpl. rewrite lookup_insert_eq.
    by rewrite delete_insert_eq, delete_id. }
  split; [unfold free_matrix; simpl; by rewrite Hfresh|].
  split.
  { unfold zero_matrix. simpl. rewrite decide_True by done.
    by rewrite Hfresh. }
  split.
  - intros i j. unfold elem_get. case_decide; [|done]. simpl.
    by rewrite Hfresh.
  - intros i j v. unfold elem_set. case_decide; [|done]. simpl.
    by rewrite Hfresh.
Qed.

Lemma create_then_free_restores_witness :
  ∃ C h1,
    create_matrix 0 2 3 ex_h = Done (C, h1) ∧
    free_matrix C h1 = Done (tt, ex_h) ∧
    free_matrix C ex_h = Fault.
Proof.
  destruct (create_then_free_restores 0 ex_h 2 3) as [_ Hfits]; [lia|].
  destruct Hfits as (C & h1 & Hnew & _ & Hfree & Hagain & _).
  - unfold INT_MAX. lia.
  - exists C, h1. split; [exact Hnew|]. split; [exact Hfree|exact Hagain].
Defined.

(** *** The three BLAS levels meet *)

Section Levels.
Context {R : Type}.
Variables (Rzero : R) (Radd Rmul : R → R → R).
Hypothesis Radd_comm : ∀ a b, Radd a b = Radd b a.
Hypothesis Radd_assoc : ∀ a b c, Radd a (Radd b c) = Radd (Radd a b) c.
Hypothesis Radd_0_l : ∀ a, Radd Rzero a = a.
Variables (A B C : Matrix) (bufA bufB bufC : list R) (h : heap R).
Hypothesis Hpre : gemm_pre h A B C bufA bufB bufC.

Local Abbreviation product :=
  (scatter Radd (gemm_trace Rzero Rmul A B C bufA bufB) bufC).

Lemma kernels_run fuel :
  dim_max A B < Z.of_nat fuel →
  (∀ o, gemm Radd Rmul o fuel A B C h = Done (tt, <[data C := product]> h)) ∧
  (∀ f, matmul Radd Rmul f fuel C A B h = Done (tt, <[data C := product]> h)) ∧
  gaxpy Radd Rmul fuel C A B h = Done (tt, <[data C := product]> h).
Proof.
  destruct Hpre as ((HA & HmA & HrA & HlenA) & (HB & HrB & HnB & HlenB) &
                    HwfC & Hdims & HneA & HneB).
  pose proof HwfC as (HC & HmC & HnC & HlenC).
  intros Hfuel.
  assert (Z.max 0 (dim_max A B) < Z.of_nat fuel) as Hfuel'.
  { unfold dim_max in *. lia. }
  split; [|split].
  - intros o. rewrite <- (wf_matrix_insert_id h C bufC HwfC) at 1.
    rewrite (gemm_run Rzero Radd Rmul Radd_comm Radd_assoc Radd_0_l
               A B C bufA bufB h); try done.
  - intros f. rewrite <- (wf_matrix_insert_id h C bufC HwfC) at 1.
    rewrite (matmul_run Rzero Radd Rmul Radd_comm Radd_assoc Radd_0_l
               A B C bufA bufB h); try done.
  - rewrite <- (wf_matrix_insert_id h C bufC HwfC) at 1.
    rewrite (gaxpy_run Rzero Radd Rmul Radd_comm Radd_assoc Radd_0_l
               A B C bufA bufB h); try done.
Qed.

(** With one column in B and C, the two matrices are vectors. *)
Lemma one_column_pre :
  cols B = 1 → gaxpy_pre h A (data B) (data C) bufA bufB bufC.
Proof.
  destruct Hpre as (HwfA & (HB & HrB & HnB & HlenB) &
                    (HC & HmC & HnC & HlenC) & (Hr & Hm & Hn) & HneA & HneB).
  intros Hone. split; [done|]. destruct HwfA as (_ & HmA & HrA & _).
  split; [|split; [|done]].
  - split; [done|]. split; [done|]. rewrite HlenB. f_equal. lia.
  - split; [done|]. split; [lia|]. rewrite HlenC. f_equal. lia.
Qed.

Lemma one_column_product :
  cols B = 1 →
  product = scatter Radd (gaxpy_trace Rzero Rmul A bufA bufB) bufC.
Proof.
  intros Hone. pose proof (one_column_pre Hone) as Hvec.
  destruct Hpre as ((HA & HmA & HrA & HlenA) & (HB & HrB & HnB & HlenB) &
                    HwfC & Hdims & HneA & HneB).
  pose proof HwfC as (HC & HmC & HnC & HlenC).
  pose proof Hdims as (Hr & Hm & Hn).
  apply list_eq. intros q.
  destruct (decide (q < length bufC)%nat) as [Hq|Hq].
  - assert (Z.to_nat (offset C (Z.of_nat q) 0) = q) as Hoff.
    { unfold offset. lia. }
    pose proof (gemm_trace_lookup Rzero Radd Rmul Radd_comm Radd_assoc Radd_0_l
                  A B C bufA bufB) as Hgemm.
    specialize (Hgemm HneA HneB HlenA HlenB Hdims bufC (Z.of_nat q) 0).
    rewrite Hoff in Hgemm. rewrite Hgemm by (done || nia).
    pose proof (gaxpy_after_lookup Rzero Radd Rmul Radd_comm Radd_assoc
                  Radd_0_l A (data B) (data C) bufA bufB bufC h Hvec
                  (Z.of_nat q)) as Hgaxpy.
    rewrite Nat2Z.id in Hgaxpy. rewrite Hgaxpy by nia.
    f_equal. f_equal.
    + unfold entry, ventry. by rewrite Hoff, Nat2Z.id.
    + unfold dot, row_dot. apply (bigsum_ext Rzero Radd). intros k _.
      unfold entry, ventry, offset. do 3 f_equal. lia.
  - rewrite !lookup_ge_None_2; [done|rewrite scatter_length; lia..].
Qed.

(** The accumulations of the rank-one update of C by the vectors held
    in the buffers of A and B. *)
Local Abbreviation rank_one :=
  (zrange 0 (rows C) 1 ≫= λ i, zrange 0 (cols C) 1 ≫= λ j,
     [(Z.to_nat (offset C i j),
       Rmul (ventry Rzero bufA i) (ventry Rzero bufB j))]).

Lemma outer_product_update_run fuel :
  cols A = 1 →
  Z.max 0 (dim_max A B) < Z.of_nat fuel →
  sim Radd (data C) (Z.to_nat (rows C * cols C)) h
    (outer_product_update Radd Rmul fuel C (data A) (data B)) rank_one.
Proof.
  destruct Hpre as ((HA & HmA & HrA & HlenA) & (HB & HrB & HnB & HlenB) &
                    (HC & HmC & HnC & HlenC) & (Hr & Hm & Hn) & HneA & HneB).
  intros Hone Hfuel. unfold outer_product_update, dim_max in *.
  eapply sim_for; [lia|lia|intros i Hi].
  eapply sim_for; [lia|lia|intros j Hj].
  eapply sim_read_bind; [apply (sim_read_vec Rzero); (done || nia)|].
  eapply sim_read_bind; [apply (sim_read_vec Rzero); (done || nia)|].
  by apply sim_accumulate.
Qed.

Lemma rank_one_trace :
  cols A = 1 → rank_one = gemm_trace Rzero Rmul A B C bufA bufB.
Proof.
  destruct Hpre as (_ & _ & _ & (Hr & Hm & Hn) & _).
  intros Hone. unfold gemm_trace. rewrite Hm, Hn, Hone.
  apply list_bind_ext; [intros i|done].
  apply list_bind_ext; [intros j|done].
  rewrite (zrange_unit 0 1). simpl. unfold contrib, entry, ventry, offset.
  rewrite Hone. do 5 f_equal. lia.
Qed.

End Levels.

(** X22.  Level 3 on one column is level 2: when B and C have a single
    column, every matrix multiplication kernel (the six orderings of
    the C++ suite, the six kernels of the C suite and the matrix gaxpy)
    ends in the same store as [matrix_vector_mult] and the gaxpy kernels
    applied to the buffers of B and C as the vectors x and y. *)
Theorem one_column_product_is_gaxpy {R} (Rzero : R) (Radd Rmul : R → R → R)
    (h : heap R) (A B C : Matrix) (bufA bufB bufC : list R) :
  exact_arithmetic Rzero Radd →
  gemm_pre h A B C bufA bufB bufC →
  cols B = 1 →
  ∃ h',
    ∀ fuel, dim_max A B < Z.of_nat fuel →
      matrix_vector_mult Radd Rmul fuel A (data B) (data C) h = Done (tt, h') ∧
      gaxpy_row_oriented Radd Rmul fuel A (data B) (data C) h = Done (tt, h') ∧
      gaxpy_column_oriented Radd Rmul fuel A (data B) (data C) h
        = Done (tt, h') ∧
      (∀ o, gemm Radd Rmul o fuel A B C h = Done (tt, h')) ∧
      (∀ f, matmul Radd Rmul f fuel C A B h = Done (tt, h')) ∧
      gaxpy Radd Rmul fuel C A B h = Done (tt, h').
Proof.
  intros (Hcomm & Hassoc & H0) Hpre Hone.
  exists (<[data C := scatter Radd (gemm_trace Rzero Rmul A B C bufA bufB) bufC]> h).
  intros fuel Hfuel.
  destruct (kernels_run Rzero Radd Rmul Hcomm Hassoc H0 A B C bufA bufB bufC h
              Hpre fuel Hfuel) as (Hgemm & Hmatmul & Hgaxpy).
  destruct (gaxpy_styles_run Rzero Radd Rmul Hcomm Hassoc H0
              A (data B) (data C) bufA bufB bufC h
              (one_column_pre A B C bufA bufB bufC h Hpre Hone) fuel)
    as (Hrow & Hcol & Hmvm & _).
  { unfold dim_max in Hfuel. lia. }
  rewrite (one_column_product Rzero Radd Rmul Hcomm Hassoc H0
             A B C bufA bufB bufC h Hpre Hone) in *.
  done.
Qed.

Lemma one_column_product_is_gaxpy_witness :
  ∃ h',
    matrix_vector_mult Z.add Z.mul 4 ex_A 2%positive 3%positive
      (<[2%positive := [1; 0; 1]]> (<[3%positive := [10; 20]]> ex_h))
    = Done (tt, h') ∧
    gemm_ijk Z.add Z.mul 4 ex_A
      {| rows := 3; cols := 1; data := 2%positive |}
      {| rows := 2; cols := 1; data := 3%positive |}
      (<[2%positive := [1; 0; 1]]> (<[3%positive := [10; 20]]> ex_h))
    = Done (tt, h').
Proof.
  destruct (one_column_product_is_gaxpy 0 Z.add Z.mul
              (<[2%positive := [1; 0; 1]]> (<[3%positive := [10; 20]]> ex_h))
              ex_A {| rows := 3; cols := 1; data := 2%positive |}
              {| rows := 2; cols := 1; data := 3%positive |}
              ex_bufA [1; 0; 1] [10; 20]) as (h' & Hrun).
  - repeat split; intros; lia.
  - repeat split; (reflexivity || discriminate || (simpl; lia)).
  - reflexivity.
  - exists h'. destruct (Hrun 4%nat) as (Hmvm & _ & _ & Hgemm & _).
    + unfold dim_max. simpl. lia.
    + split; [exact Hmvm|]. exact (Hgemm ijk).
Defined.

(** X23.  Level 3 with inner dimension 1 is the rank-one update: when A
    has a single column (and B a single row), every matrix
    multiplication kernel ends in the same store as
    [outer_product_update] applied to C with the buffers of A and B as
    the vectors x and y. *)
Theorem rank_one_product_is_outer_product_update {R} (Rzero : R)
    (Radd Rmul : R → R → R)
    (h : heap R) (A B C : Matrix) (bufA bufB bufC : list R) :
  exact_arithmetic Rzero Radd →
  gemm_pre h A B C bufA bufB bufC →
  cols A = 1 →
  ∃ h',
    ∀ fuel, dim_max A B < Z.of_nat fuel →
      outer_product_update Radd Rmul fuel C (data A) (data B) h = Done (tt, h') ∧
      (∀ o, gemm Radd Rmul o fuel A B C h = Done (tt, h')) ∧
      (∀ f, matmul Radd Rmul f fuel C A B h = Done (tt, h')) ∧
      gaxpy Radd Rmul fuel C A B h = Done (tt, h').
Proof.
  intros (Hcomm & Hassoc & H0) Hpre Hone.
  exists (<[data C := scatter Radd (gemm_trace Rzero Rmul A B C bufA bufB) bufC]> h).
  intros fuel Hfuel.
  split; [|by apply kernels_run].
  pose proof Hpre as (_ & _ & HwfC & _).
  pose proof HwfC as (HC & _ & _ & HlenC).
  rewrite <- (wf_matrix_insert_id h C bufC HwfC) at 1.
  rewrite <- (rank_one_trace Rzero Rmul A B C bufA bufB bufC h Hpre Hone).
  apply (outer_product_update_run Rzero Radd Rmul A B C bufA bufB bufC h Hpre);
    [done| |done].
  unfold dim_max in *. lia.
Qed.

Lemma rank_one_product_is_outer_product_update_witness :
  ∃ h',
    outer_product_update Z.add Z.mul 4 ex_C 1%positive 2%positive
      (<[1%positive := [2; 3]]> (<[2%positive := [5; 7]]> ex_h))
    = Done (tt, h') ∧
    gemm_kji Z.add Z.mul 4
      {| rows := 2; cols := 1; data := 1%positive |}
      {| rows := 1; cols := 2; data := 2%positive |} ex_C
      (<[1%positive := [2; 3]]> (<[2%positive := [5; 7]]> ex_h))
    = Done (tt, h').
Proof.
  destruct (rank_one_product_is_outer_product_update 0 Z.add Z.mul
              (<[1%positive := [2; 3]]> (<[2%positive := [5; 7]]> ex_h))
              {| rows := 2; cols := 1; data := 1%positive |}
              {| rows := 1; cols := 2; data := 2%positive |} ex_C
              [2; 3] [5; 7] ex_bufC) as (h' & Hrun).
  - repeat split; intros; lia.
  - repeat split; (reflexivity || discriminate || (simpl; lia)).
  - reflexivity.
  - exists h'. destruct (Hrun 4%nat) as (Hop & Hgemm & _).
    + unfold dim_max. simpl. lia.
    + split; [exact Hop|]. exact (Hgemm kji).
Defined.

(** X24.  Level 3 on one row and one column is level 1: when A is a
    single row and B a single column, C has one element, and every
    matrix multiplication kernel adds to it exactly what [dot_product]
    returns on the buffers of A and B. *)
Theorem row_times_column_is_dot_product {R} (Rzero : R) (Radd Rmul : R → R → R)
    (h : heap R) (A B C : Matrix) (bufA bufB bufC : list R) :
  exact_arithmetic Rzero Radd →
  gemm_pre h A B C bufA bufB bufC →
  rows A = 1 → cols B = 1 →
  ∃ d,
    ∀ fuel, dim_max A B < Z.of_nat fuel →
      dot_product Rzero Radd Rmul fuel (data A) (data B) (cols A) h
        = Done (d, h) ∧
      (∀ o, gemm Radd Rmul o fuel A B C h
            = Done (tt, <[data C := [Radd (ventry Rzero bufC 0) d]]> h)) ∧
      (∀ f, matmul Radd Rmul f fuel C A B h
            = Done (tt, <[data C := [Radd (ventry Rzero bufC 0) d]]> h)) ∧
      gaxpy Radd Rmul fuel C A B h
        = Done (tt, <[data C := [Radd (ventry Rzero bufC 0) d]]> h).
Proof.
  intros Hexact Hpre Hrow Hcol.
  pose proof Hexact as (Hcomm & Hassoc & H0).
  pose proof Hpre as ((HA & HmA & HrA & HlenA) & (HB & HrB & HnB & HlenB) &
                      (HC & HmC & HnC & HlenC) & Hdims & HneA & HneB).
  pose proof Hdims as (Hr & Hm & Hn).
  exists (bigsum Rzero Radd (seqZ 0 (cols A))
            (λ i, Rmul (ventry Rzero bufA i) (ventry Rzero bufB i))).
  intros fuel Hfuel. split.
  { apply dot_product_value; [done..|nia|nia|]. unfold dim_max in Hfuel. lia. }
  assert (scatter Radd (gemm_trace Rzero Rmul A B C bufA bufB) bufC
          = [Radd (ventry Rzero bufC 0)
               (bigsum Rzero Radd (seqZ 0 (cols A))
                  (λ i, Rmul (ventry Rzero bufA i) (ventry Rzero bufB i)))])
    as Hproduct.
  { pose proof (gemm_trace_lookup Rzero Radd Rmul Hcomm Hassoc H0
                  A B C bufA bufB HneA HneB HlenA HlenB Hdims bufC 0 0
                  HlenC ltac:(lia) ltac:(lia))
      as Hlook.
    pose proof (scatter_length Radd (gemm_trace Rzero Rmul A B C bufA bufB) bufC)
      as Hlen.
    assert (length bufC = 1%nat) as Hone by (rewrite HlenC; nia).
    rewrite Hone in Hlen.
    destruct (scatter Radd (gemm_trace Rzero Rmul A B C bufA bufB) bufC)
      as [|c [|? ?]]; [done| |done].
    replace (Z.to_nat (offset C 0 0)) with 0%nat in Hlook
      by (unfold offset; lia).
    simpl in Hlook. injection Hlook as ->. f_equal. f_equal.
    unfold dot. apply (bigsum_ext Rzero Radd). intros k _.
    unfold entry, ventry, offset. rewrite Hcol.
    do 5 f_equal; lia. }
  rewrite <- Hproduct.
  by apply (kernels_run Rzero Radd Rmul Hcomm Hassoc H0 A B C bufA bufB bufC h).
Qed.

Lemma row_times_column_is_dot_product_witness :
  ∃ d,
    dot_product 0 Z.add Z.mul 4 1%positive 2%positive 3
      (<[1%positive := [1; 2; 3]]>
         (<[2%positive := [4; 5; 6]]> (<[3%positive := [100]]> ∅)))
    = Done (d, <[1%positive := [1; 2; 3]]>
                 (<[2%positive := [4; 5; 6]]> (<[3%positive := [100]]> ∅))) ∧
    gemm_ijk Z.add Z.mul 4
      {| rows := 1; cols := 3; data := 1%positive |}
      {| rows := 3; cols := 1; data := 2%positive |}
      {| rows := 1; cols := 1; data := 3%positive |}
      (<[1%positive := [1; 2; 3]]>
         (<[2%positive := [4; 5; 6]]> (<[3%positive := [100]]> ∅)))
    = Done (tt, <[3%positive := [100 + d]]>
                  (<[1%positive := [1; 2; 3]]>
                     (<[2%positive := [4; 5; 6]]> (<[3%positive := [100]]> ∅)))).
Proof.
  destruct (row_times_column_is_dot_product 0 Z.add Z.mul
              (<[1%positive := [1; 2; 3]]>
                 (<[2%positive := [4; 5; 6]]> (<[3%positive := [100]]> ∅)))
              {| rows := 1; cols := 3; data := 1%positive |}
              {| rows := 3; cols := 1; data := 2%positive |}
              {| rows := 1; cols := 1; data := 3%positive |}
              [1; 2; 3] [4; 5; 6] [100]) as (d & Hrun).
  - repeat split; intros; lia.
  - repeat split; (reflexivity || discriminate || (simpl; lia)).
  - reflexivity.
  - reflexivity.
  - exists d. destruct (Hrun 4%nat) as (Hdot & Hgemm & _).
    + unfold dim_max. simpl. lia.
    + split; [exact Hdot|]. exact (Hgemm ijk).
Defined.

(** *** The benchmark of one algorithm *)

Section Performance.
Context {R : Type}.
Variables (Rzero : R) (Radd Rmul Rsub : R → R → R).
Variable get_time : Z → R.
Hypothesis Radd_comm : ∀ a b, Radd a b = Radd b a.
Hypothesis Radd_assoc : ∀ a b c, Radd a (Radd b c) = Radd (Radd a b) c.
Hypothesis Radd_0_l : ∀ a, Radd Rzero a = a.
Variables (A B C : Matrix) (bufA bufB : list R) (h : heap R).
Hypothesis HA : h !! data A = Some bufA.
Hypothesis HB : h !! data B = Some bufB.
Hypothesis HneA : data A ≠ data C.
Hypothesis HneB : data B ≠ data C.
Hypothesis HlenA : length bufA = Z.to_nat (rows A * cols A).
Hypothesis HlenB : length bufB = Z.to_nat (rows B * cols B).
Hypothesis Hdims : conformable A B C.
Hypothesis Hm : 0 ≤ rows A.
Hypothesis Hr : 0 ≤ cols A.
Hypothesis Hn : 0 ≤ cols B.
Variables (func : MatMulFunc) (fuel : nat).
Hypothesis Hfuel : Z.max 0 (dim_max A B) < Z.of_nat fuel.

Local Abbreviation size := (Z.to_nat (rows C * cols C)).
Local Abbreviation elapsed :=
  (λ (t : R) (run : Z),
     Radd t (Rsub (get_time (2 * run + 1)) (get_time (2 * run)))).

Lemma one_run X :
  length X = size →
  ∃ X', (zero_matrix Rzero C ;; matmul Radd Rmul func fuel C A B)
          (<[data C := X]> h) = Done (tt, <[data C := X']> h) ∧
        length X' = size.
Proof.
  intros HX. eexists. split.
  - apply (reset_run Rzero Radd Rmul A B C bufA bufB h); try done.
    by apply (matmul_run Rzero Radd Rmul Radd_comm Radd_assoc Radd_0_l
                A B C bufA bufB h).
  - by rewrite scatter_length, length_replicate.
Qed.

Lemma warmup_run warmup_runs X :
  length X = size →
  warmup_runs < Z.of_nat fuel →
  ∃ X', for_loop fuel 0 warmup_runs 1 (λ run,
          zero_matrix Rzero C ;; matmul Radd Rmul func fuel C A B)
          (<[data C := X]> h) = Done (tt, <[data C := X']> h) ∧
        length X' = size.
Proof.
  intros HX Hruns.
  destruct (for_loop_inv
    (λ _ h', ∃ X', h' = <[data C := X']> h ∧ length X' = size)
    fuel 0 warmup_runs
    (λ run, zero_matrix Rzero C ;; matmul Radd Rmul func fuel C A B)
    (<[data C := X]> h)) as (h' & Hrun & X' & -> & HX').
  - lia.
  - by exists X.
  - intros run h1 _ (X1 & -> & HX1).
    destruct (one_run X1 HX1) as (X2 & Hrun & HX2).
    exists (<[data C := X2]> h). split; [done|]. by exists X2.
  - by exists X'.
Qed.

Lemma timed_run test_runs X :
  length X = size →
  test_runs < Z.of_nat fuel →
  ∃ X', for_loop_acc fuel 0 test_runs 1 (λ run total_time,
          zero_matrix Rzero C ;;
          matmul Radd Rmul func fuel C A B ;;
          ret (elapsed total_time run)) Rzero
          (<[data C := X]> h)
        = Done (foldl elapsed Rzero (seqZ 0 test_runs), <[data C := X']> h) ∧
        length X' = size.
Proof.
  intros HX Hruns.
  destruct (for_loop_acc_inv
    (λ k t h', 0 ≤ k ∧ t = foldl elapsed Rzero (seqZ 0 k) ∧
               ∃ X', h' = <[data C := X']> h ∧ length X' = size)
    fuel 0 test_runs
    (λ run total_time,
       zero_matrix Rzero C ;;
       matmul Radd Rmul func fuel C A B ;;
       ret (elapsed total_time run)) Rzero
    (<[data C := X]> h)) as (t & h' & Hrun & _ & -> & X' & -> & HX').
  - lia.
  - split; [done|]. split; [done|]. by exists X.
  - intros run t h1 Hk (_ & -> & X1 & -> & HX1).
    destruct (one_run X1 HX1) as (X2 & Hrun & HX2).
    unfold bind in *.
    destruct (zero_matrix Rzero C (<[data C := X1]> h)) as [[[] h2]| |];
      [|done..].
    rewrite Hrun. eexists _, _. split; [done|]. split; [lia|].
    split; [|by exists X2].
    rewrite seqZ_snoc by lia. by rewrite foldl_app.
  - exists X'. split; [|done]. rewrite Hrun. by rewrite seqZ_max.
Qed.

End Performance.

Lemma strcpy_algorithm_name_fits {R} (h : heap R) (name : string) :
  (String.length name < 50)%nat →
  strcpy_algorithm_name name h = Done (name, h).
Proof. intros Hname. unfold strcpy_algorithm_name. by rewrite decide_True. Qed.

Lemma strcpy_algorithm_name_overflow {R} (h : heap R) (name : string) :
  (50 ≤ String.length name)%nat →
  strcpy_algorithm_name name h = Fault.
Proof.
  intros Hname. unfold strcpy_algorithm_name. rewrite decide_False; [done|lia].
Qed.

(** X25.  [benchmark_algorithm] leaves no trace: for each of the six
    kernels and any numbers of warm-up and timed runs, zero or negative
    included, on matrices whose result has an [int] number m*n of
    elements, it returns with the store exactly as it was, its scratch
    matrix released and A and B untouched.  The result carries the
    name, 2·m·n·r as the operation count, and the sum of the clock
    differences of the timed runs divided by their number.  A name of
    50 characters or more does not fit the result. *)
Theorem benchmark_algorithm_leaves_no_trace {R} (Rzero : R)
    (Radd Rmul Rsub Rdiv : R → R → R) (of_int get_time : Z → R)
    (two million : R) (h : heap R) (A B : Matrix) (bufA bufB : list R)
    (func : MatMulFunc) (name : string) (warmup_runs test_runs : Z)
    (fuel : nat) :
  exact_arithmetic Rzero Radd →
  wf_matrix h A bufA → wf_matrix h B bufB → cols A = rows B →
  rows A * cols B ≤ INT_MAX →
  Z.max (dim_max A B) (Z.max warmup_runs test_runs) < Z.of_nat fuel →
  ((String.length name < 50)%nat →
   ∃ result,
     benchmark_algorithm Rzero Radd Rmul Rsub Rdiv of_int get_time two million
       fuel func name A B warmup_runs test_runs h = Done (result, h) ∧
     algorithm_name result = name ∧
     flops result
     = Rmul (Rmul (Rmul two (of_int (rows A))) (of_int (cols B)))
            (of_int (cols A)) ∧
     time_seconds result
     = Rdiv (foldl (λ t run, Radd t (Rsub (get_time (2 * run + 1))
                                          (get_time (2 * run))))
               Rzero (seqZ 0 test_runs))
            (of_int test_runs) ∧
     mflops result = Rdiv (flops result) (Rmul (time_seconds result) million)) ∧
  ((50 ≤ String.length name)%nat →
   benchmark_algorithm Rzero Radd Rmul Rsub Rdiv of_int get_time two million
     fuel func name A B warmup_runs test_runs h = Fault).
Proof.
  intros (Hcomm & Hassoc & H0) (HA & Hm & Hr & HlenA) (HB & HrB & Hn & HlenB)
    Hinner Hint Hfuel.
  destruct (alloc_zeroed_spec Rzero (rows A * cols B) h) as (l & Halloc & Hfresh);
    [nia|].
  set (C := {| rows := rows A; cols := cols B; data := l |}).
  assert (create_matrix Rzero (rows A) (cols B) h
          = Done (C, <[l := replicate (Z.to_nat (rows A * cols B)) Rzero]> h))
    as Hcreate.
  { unfold create_matrix, bind. rewrite int_mul_fits by (unfold INT_MIN; nia).
    by rewrite Halloc. }
  unfold benchmark_algorithm. rewrite (bind_run _ _ _ _ _ Hcreate).
  split; intros Hname.
  - rewrite (bind_run _ _ _ name _
               (strcpy_algorithm_name_fits _ name Hname)).
    assert (data A ≠ l) as HneA by (intros <-; congruence).
    assert (data B ≠ l) as HneB by (intros <-; congruence).
    assert (Z.max 0 (dim_max A B) < Z.of_nat fuel) as Hfuel'.
    { unfold dim_max in *. lia. }
    destruct (warmup_run Rzero Radd Rmul Hcomm Hassoc H0 A B C bufA bufB h
                HA HB HneA HneB HlenA HlenB (conj Hinner (conj eq_refl eq_refl))
                Hm Hr Hn func fuel Hfuel' warmup_runs
                (replicate (Z.to_nat (rows A * cols B)) Rzero))
      as (X1 & Hwarm & HX1); [apply length_replicate|lia|].
    rewrite (bind_run _ _ _ _ _ Hwarm).
    destruct (timed_run Rzero Radd Rmul Rsub get_time Hcomm Hassoc H0
                A B C bufA bufB h
                HA HB HneA HneB HlenA HlenB (conj Hinner (conj eq_refl eq_refl))
                Hm Hr Hn func fuel Hfuel' test_runs X1)
      as (X2 & Htimed & HX2); [done|lia|].
    rewrite (bind_run _ _ _ _ _ Htimed).
    unfold bind, free_matrix. simpl. rewrite lookup_insert_eq.
    rewrite delete_insert_eq, delete_id by done.
    eexists. split; [done|]. done.
  - unfold bind at 1.
    by rewrite (strcpy_algorithm_name_overflow _ name Hname).
Qed.

Lemma benchmark_algorithm_leaves_no_trace_witness :
  ∃ result,
    benchmark_algorithm 0 Z.add Z.mul Z.sub Z.div id (λ k, 10 * k) 2 1000000
      4 f_matmul_ikj "ikj" ex_A ex_B 1 3 ex_h = Done (result, ex_h) ∧
    flops result = 24 ∧ time_seconds result = 10.
Proof.
  destruct (benchmark_algorithm_leaves_no_trace 0 Z.add Z.mul Z.sub Z.div id
              (λ k, 10 * k) 2 1000000 ex_h ex_A ex_B ex_bufA ex_bufB
              f_matmul_ikj "ikj" 1 3 4) as [Hfits _].
  - repeat split; intros; lia.
  - repeat split; (reflexivity || (simpl; lia)).
  - repeat split; (reflexivity || (simpl; lia)).
  - reflexivity.
  - unfold INT_MAX. simpl. lia.
  - unfold dim_max. simpl. lia.
  - destruct Hfits as (result & Hrun & _ & Hflops & Htime & _).
    + simpl. lia.
    + exists result. split; [exact Hrun|]. split; [exact Hflops|exact Htime].
Defined.
